(** * NbodyIMRI: the leapfrog integrator of [simulator.py] over [particles.py]

    A shallow embedding of the two source files:

    - [particles.py]: the [particles] object (masses, the position and
      velocity arrays of the two black holes and of the dark-matter tracers,
      the accelerations) with its drift [xstep] and kick [vstep];
    - [simulator.py]: the [simulator] object with the softened force laws
      [calc_acc], the force evaluation [update_acceleration], the leapfrog
      schemes of [full_step], the sub-stepping of [adaptive_step], the
      constructor and the loop of [run_simulation].

    Python objects and numpy arrays live in a store and are reached through
    references, so that the in-place updates ([+=] on an array) and the
    copy made by the constructor are those of the source.

    Numbers.  A Python or numpy float is modelled by a real number:
    rounding and overflow are not modelled.  In [R] a quotient by zero is
    zero, while numpy produces [inf] or [nan] and Python raises
    [ZeroDivisionError]: a division between Python scalars raises in the
    model as well, the two places where the source branches on a possibly
    infinite numpy value (the mask [x <= 1] of a kernel, the test
    [dt_opt >= dt]) are modelled with extended reals, and elsewhere a
    statement that depends on the value of a quotient assumes that the
    divisor is not zero.  For the force evaluation this assumption is
    [regular]: the bodies are apart and the softening lengths squared are
    not negative.  A statement about the values that one force evaluation
    stores has it as a hypothesis, and a statement about a step or a run
    that depends on these values is about the step or the run in which
    every force evaluation is made in a regular world
    ([update_acceleration_regular] in [full_step_with] and the like). *)

From Stdlib Require Import Reals Lra Lia ZArith List String.
From stdpp Require Import gmap strings.

Local Open Scope R_scope.

(** ** Constants *)

(** The module [NbodyIMRI.units] is not among the sources.  The only
    constant of it that the integrator uses is the gravitational constant
    [u.G_N], taken here as a parameter, a positive real. *)
Class Units := { G_N : R; G_N_pos : 0 < G_N }.

(** [simulator.py], lines 29-33: the leapfrog step-size parameters. *)
Definition theta : R := 1 / (2 - Rpower 2 (1 / 3)).
Definition xi : R := 0.1786178958448091e+00.
Definition lam : R := -0.2123418310626054e+00.
Definition chi : R := -0.6626458266981849e-01.

(** ** Vectors and arrays *)

(** A numpy array of shape (3,). *)
Definition vec : Type := (R * R * R)%type.

Definition vzero : vec := (0, 0, 0).

Definition vadd (a b : vec) : vec :=
  let '(a1, a2, a3) := a in
  let '(b1, b2, b3) := b in (a1 + b1, a2 + b2, a3 + b3).

Definition vsub (a b : vec) : vec :=
  let '(a1, a2, a3) := a in
  let '(b1, b2, b3) := b in (a1 - b1, a2 - b2, a3 - b3).

Definition vscale (c : R) (a : vec) : vec :=
  let '(a1, a2, a3) := a in (c * a1, c * a2, c * a3).

(** [np.sum(dx**2, axis=-1)] of one row. *)
Definition norm_sq (a : vec) : R :=
  let '(a1, a2, a3) := a in a1 * a1 + a2 * a2 + a3 * a3.

(** A scalar broadcast to shape (3,). *)
Definition vconst (c : R) : vec := (c, c, c).

(** [np.sum(rows, axis=0)] of an array of shape (N,3); the sum of no row
    is the zero vector. *)
Definition vsum (rows : list vec) : vec := foldr vadd vzero rows.

(** The values the store holds: the arrays that [particles.__init__]
    allocates have shape (3,) (a black hole's position or velocity),
    (N,3) (the tracers' positions or velocities) or (N,) (their masses). *)
Inductive ndarray : Type :=
  | V3 (v : vec)
  | M3 (rows : list vec)
  | A1 (xs : list R).

(** An attribute of a Python object: not yet assigned (reading it raises
    [AttributeError]), assigned [None], or assigned a value. *)
Inductive attr (A : Type) : Type :=
  | Missing
  | IsNone
  | Val (a : A).
Arguments Missing {A}.
Arguments IsNone {A}.
Arguments Val {A} a.

(** An acceleration of a black hole: the source assigns either the float
    [0.0] or an array of shape (3,). *)
Inductive acc3 : Type :=
  | Scalar (c : R)
  | Vector (v : vec).

(** Broadcasting a scalar against shape (3,). *)
Definition acc3_vec (a : acc3) : vec :=
  match a with Scalar c => vconst c | Vector v => v end.

(** [a*h] for a black hole's acceleration. *)
Definition acc3_scale (a : acc3) (h : R) : acc3 :=
  match a with Scalar c => Scalar (c * h) | Vector v => Vector (vscale h v) end.

(** Extended reals, for the numpy values that the source compares. *)
Inductive xreal : Type :=
  | Finite (r : R)
  | PInf
  | NInf
  | NaN.

(** numpy's [a/b] on floats (signed zeros apart). *)
Definition np_divide (a b : R) : xreal :=
  if Req_dec_T b 0 then
    if Req_dec_T a 0 then NaN else if Rlt_dec 0 a then PInf else NInf
  else Finite (a / b).

(** [np.sqrt]. *)
Definition np_sqrt (x : xreal) : xreal :=
  match x with
  | Finite r => if Rlt_dec r 0 then NaN else Finite (sqrt r)
  | PInf => PInf
  | NInf => NaN
  | NaN => NaN
  end.

(** [c*x] for a finite [c]. *)
Definition x_scale (c : R) (x : xreal) : xreal :=
  match x with
  | Finite r => Finite (c * r)
  | PInf => if Req_dec_T c 0 then NaN else if Rlt_dec 0 c then PInf else NInf
  | NInf => if Req_dec_T c 0 then NaN else if Rlt_dec 0 c then NInf else PInf
  | NaN => NaN
  end.

(** [np.clip(a, lo, hi)], that is [minimum(hi, maximum(a, lo))]. *)
Definition np_clip (a lo hi : R) : R := Rmin hi (Rmax a lo).

(** ** Exceptions and results *)

(** The exceptions of the source.  [Unmodelled] stands for what cannot
    happen in a store built by [particles.__init__]: a reference with no
    object behind it, or an array whose shape is not the one the
    constructor gave it (numpy would then broadcast or raise). *)
Inductive exn : Type :=
  | TypeError
  | ValueError
  | AttributeError
  | ZeroDivisionError
  | OverflowError
  | IndexError
  | Unmodelled.

(** The result of a pure computation that may raise. *)
Inductive res (A : Type) : Type :=
  | Done (a : A)
  | Fail (e : exn).
Arguments Done {A} a.
Arguments Fail {A} e.

(** numpy's broadcasting of two arrays along their first axis: equal
    lengths combine row by row, a single row is repeated, anything else
    raises [ValueError]. *)
Definition bcast2 {A B C : Type} (f : A -> B -> C) (a : list A) (b : list B)
  : res (list C) :=
  if (length a =? length b)%nat then Done (zip_with f a b)
  else match a, b with
       | [x], _ => Done (map (f x) b)
       | _, [y] => Done (map (fun x => f x y) a)
       | _, _ => Fail ValueError
       end.

(** [np.min] of an array: an empty one raises [ValueError]. *)
Definition np_min (xs : list R) : res R :=
  match xs with
  | [] => Fail ValueError
  | x :: rest => Done (foldr Rmin x rest)
  end.

(** Python's [a/b] on scalars. *)
Definition py_div (a b : R) : res R :=
  if Req_dec_T b 0 then Fail ZeroDivisionError else Done (a / b).

(** [np.ceil] read as an integer. *)
Definition Zceil (x : R) : Z := (- Int_part (- x))%Z.

(** ** Objects and the store *)

(** A reference to an object or an array. *)
Definition loc : Type := positive.

(** A [particles] object ([particles.__init__]).  The masses of the black
    holes, the tracer count and the flag are plain values; the seven
    arrays are references into the store; the accelerations are rebound
    to freshly computed arrays by each force evaluation and are kept by
    value.  [dvdtDM] is not assigned by the constructor.  The inner and
    outer tracer split ([xDM_in], [mask], ...) and the spike parameters,
    which the simulator never reads, are left out. *)
Record particles : Type := mk_particles {
  M_1 : R;
  M_2 : R;
  M_DM : loc;
  N_DM : Z;
  xBH1 : loc;
  vBH1 : loc;
  xBH2 : loc;
  vBH2 : loc;
  xDM : loc;
  vDM : loc;
  dvdtBH1 : attr acc3;
  dvdtBH2 : attr acc3;
  dvdtDM : attr (list vec);
  dynamic_BH : bool
}.

(** The store: numpy arrays and [particles] objects by reference. *)
Record store : Type := mk_store {
  arrays : gmap loc ndarray;
  objects : gmap loc particles
}.

(** What [self.acc_DM1] and [self.acc_DM2] hold: the float [0.0], an
    array of shape (N,3), or the [np.zeros(N_DM)] of [run_simulation]. *)
Inductive accDM : Type :=
  | DScalar (c : R)
  | DRows (rows : list vec)
  | DFlat (xs : list R).

(** The trajectories that [run_simulation] records. *)
Record recording : Type := mk_recording {
  M1_list : list R;
  M2_list : list R;
  xBH1_list : list vec;
  vBH1_list : list vec;
  xBH2_list : list vec;
  vBH2_list : list vec
}.

(** A [simulator] object.  [r1_min], [r2_min], [acc_DM1] and [acc_DM2]
    are not assigned by the constructor.  The hook [check_state] is a
    parameter of [run_simulation] below; the values kept only for the
    output file, the metadata list and the plots ([t_end], [dt], [ts],
    [IDhash], [a_i], [e_i], ...) are left out. *)
Record simulator : Type := mk_simulator {
  p : loc;
  r_soft_sq2 : R;
  r_soft_sq1 : R;
  soft_method : string;
  soft_method1 : string;
  background_field : option (vec -> vec);
  r1_min : attr R;
  r2_min : attr R;
  acc_DM1 : attr accDM;
  acc_DM2 : attr accDM;
  current_step : attr Z;
  record : attr recording;
  finished : attr bool
}.

(** The state a method of the simulator runs in. *)
Record world : Type := mk_world {
  mem : store;
  self : simulator
}.

(** ** The monad of the methods: state and exceptions *)

(** A method returns a value or raises; either way it leaves a world
    behind, since what it wrote before raising stays written. *)
Inductive outcome (A : Type) : Type :=
  | Ok (a : A) (w : world)
  | Raise (e : exn) (w : world).
Arguments Ok {A} a w.
Arguments Raise {A} e w.

Definition M (A : Type) : Type := world -> outcome A.

#[global] Instance M_ret : MRet M := fun A a w => Ok a w.

#[global] Instance M_bind : MBind M := fun A B f m w =>
  match m w with
  | Ok a w' => f a w'
  | Raise e w' => Raise e w'
  end.

Definition raise {A : Type} (e : exn) : M A := fun w => Raise e w.

(** A pure computation inside a method. *)
Definition lift {A : Type} (r : res A) : M A :=
  match r with Done a => mret a | Fail e => raise e end.

(** The world an outcome leaves. *)
Definition final {A : Type} (o : outcome A) : world :=
  match o with Ok _ w => w | Raise _ w => w end.

(** [for i in range(n): body(i)]; nothing runs when [n <= 0]. *)
Fixpoint for_loop (k : nat) (i : Z) (body : Z -> M unit) : M unit :=
  match k with
  | O => mret tt
  | S k' => body i ;; for_loop k' (i + 1)%Z body
  end.

Definition for_range (n : Z) (body : Z -> M unit) : M unit :=
  for_loop (Z.to_nat n) 0%Z body.

(** *** Reading and writing *)

Definition get_self : M simulator := fun w => Ok (self w) w.

Definition set_self (f : simulator -> simulator) : M unit := fun w =>
  Ok tt (mk_world (mem w) (f (self w))).

(** [self.p]: the simulator's particles object. *)
Definition get_p : M particles := fun w =>
  match objects (mem w) !! p (self w) with
  | Some o => Ok o w
  | None => Raise Unmodelled w
  end.

(** Rebinding attributes of [self.p]. *)
Definition set_p (f : particles -> particles) : M unit := fun w =>
  match objects (mem w) !! p (self w) with
  | Some o =>
      Ok tt (mk_world
               (mk_store (arrays (mem w)) (<[p (self w) := f o]> (objects (mem w))))
               (self w))
  | None => Raise Unmodelled w
  end.

Definition read_vec (l : loc) : M vec := fun w =>
  match arrays (mem w) !! l with
  | Some (V3 v) => Ok v w
  | _ => Raise Unmodelled w
  end.

Definition read_mat (l : loc) : M (list vec) := fun w =>
  match arrays (mem w) !! l with
  | Some (M3 rows) => Ok rows w
  | _ => Raise Unmodelled w
  end.

Definition read_arr (l : loc) : M (list R) := fun w =>
  match arrays (mem w) !! l with
  | Some (A1 xs) => Ok xs w
  | _ => Raise Unmodelled w
  end.

(** Overwriting the contents of the array at [l], in place. *)
Definition write (l : loc) (a : ndarray) : M unit := fun w =>
  Ok tt (mk_world (mk_store (<[l := a]> (arrays (mem w))) (objects (mem w))) (self w)).

(** Reading an attribute that holds a number or an array: a missing one
    raises [AttributeError], and arithmetic on [None] raises [TypeError]. *)
Definition operand {A : Type} (a : attr A) : M A :=
  match a with
  | Missing => raise AttributeError
  | IsNone => raise TypeError
  | Val x => mret x
  end.

(** [x += d] on the array of shape (3,) at [l]. *)
Definition iadd_vec (l : loc) (d : vec) : M unit :=
  x ← read_vec l; write l (V3 (vadd x d)).

(** [x += d] on the array of shape (N,3) at [l]: the result keeps the
    shape of [x], so [d] has as many rows or a single one. *)
Definition iadd_mat (l : loc) (d : list vec) : M unit :=
  x ← read_mat l;
  if (length x =? length d)%nat then write l (M3 (zip_with vadd x d))
  else match d with
       | [y] => write l (M3 (map (fun r => vadd r y) x))
       | _ => raise ValueError
       end.

(** *** Rebinding an attribute *)

Definition with_dvdtBH1 (a : attr acc3) (o : particles) : particles :=
  mk_particles (M_1 o) (M_2 o) (M_DM o) (N_DM o) (xBH1 o) (vBH1 o) (xBH2 o)
    (vBH2 o) (xDM o) (vDM o) a (dvdtBH2 o) (dvdtDM o) (dynamic_BH o).

Definition with_dvdtBH2 (a : attr acc3) (o : particles) : particles :=
  mk_particles (M_1 o) (M_2 o) (M_DM o) (N_DM o) (xBH1 o) (vBH1 o) (xBH2 o)
    (vBH2 o) (xDM o) (vDM o) (dvdtBH1 o) a (dvdtDM o) (dynamic_BH o).

Definition with_dvdtDM (a : attr (list vec)) (o : particles) : particles :=
  mk_particles (M_1 o) (M_2 o) (M_DM o) (N_DM o) (xBH1 o) (vBH1 o) (xBH2 o)
    (vBH2 o) (xDM o) (vDM o) (dvdtBH1 o) (dvdtBH2 o) a (dynamic_BH o).

Definition with_r1_min (a : attr R) (s : simulator) : simulator :=
  mk_simulator (p s) (r_soft_sq2 s) (r_soft_sq1 s) (soft_method s)
    (soft_method1 s) (background_field s) a (r2_min s) (acc_DM1 s)
    (acc_DM2 s) (current_step s) (record s) (finished s).

Definition with_r2_min (a : attr R) (s : simulator) : simulator :=
  mk_simulator (p s) (r_soft_sq2 s) (r_soft_sq1 s) (soft_method s)
    (soft_method1 s) (background_field s) (r1_min s) a (acc_DM1 s)
    (acc_DM2 s) (current_step s) (record s) (finished s).

Definition with_acc_DM1 (a : attr accDM) (s : simulator) : simulator :=
  mk_simulator (p s) (r_soft_sq2 s) (r_soft_sq1 s) (soft_method s)
    (soft_method1 s) (background_field s) (r1_min s) (r2_min s) a
    (acc_DM2 s) (current_step s) (record s) (finished s).

Definition with_acc_DM2 (a : attr accDM) (s : simulator) : simulator :=
  mk_simulator (p s) (r_soft_sq2 s) (r_soft_sq1 s) (soft_method s)
    (soft_method1 s) (background_field s) (r1_min s) (r2_min s) (acc_DM1 s)
    a (current_step s) (record s) (finished s).

Definition with_current_step (a : attr Z) (s : simulator) : simulator :=
  mk_simulator (p s) (r_soft_sq2 s) (r_soft_sq1 s) (soft_method s)
    (soft_method1 s) (background_field s) (r1_min s) (r2_min s) (acc_DM1 s)
    (acc_DM2 s) a (record s) (finished s).

Definition with_record (a : attr recording) (s : simulator) : simulator :=
  mk_simulator (p s) (r_soft_sq2 s) (r_soft_sq1 s) (soft_method s)
    (soft_method1 s) (background_field s) (r1_min s) (r2_min s) (acc_DM1 s)
    (acc_DM2 s) (current_step s) a (finished s).

Definition with_finished (a : attr bool) (s : simulator) : simulator :=
  mk_simulator (p s) (r_soft_sq2 s) (r_soft_sq1 s) (soft_method s)
    (soft_method1 s) (background_field s) (r1_min s) (r2_min s) (acc_DM1 s)
    (acc_DM2 s) (current_step s) (record s) a.

Definition with_background_field (bg : option (vec -> vec)) (s : simulator)
  : simulator :=
  mk_simulator (p s) (r_soft_sq2 s) (r_soft_sq1 s) (soft_method s)
    (soft_method1 s) bg (r1_min s) (r2_min s) (acc_DM1 s)
    (acc_DM2 s) (current_step s) (record s) (finished s).

(** ** [particles.py]: drift and kick *)

(** [particles.xstep], lines 74-78, the body:
<<
    if (self.dynamic_BH):
        self.xBH1 += self.vBH1*h
    self.xBH2 += self.vBH2*h
    self.xDM += self.vDM*h
>> *)
Definition xstep_body (h : R) : M unit :=
  o ← get_p;
  (if dynamic_BH o
   then v ← read_vec (vBH1 o); iadd_vec (xBH1 o) (vscale h v)
   else mret tt);;
  v ← read_vec (vBH2 o);
  iadd_vec (xBH2 o) (vscale h v);;
  vs ← read_mat (vDM o);
  iadd_mat (xDM o) (map (vscale h) vs).

(** [particles.vstep], lines 80-84, the body:
<<
    if (self.dynamic_BH):
        self.vBH1 += self.dvdtBH1*h
    self.vBH2 += self.dvdtBH2*h
    self.vDM += self.dvdtDM*h
>> *)
Definition vstep_body (h : R) : M unit :=
  o ← get_p;
  (if dynamic_BH o
   then a ← operand (dvdtBH1 o); iadd_vec (vBH1 o) (acc3_vec (acc3_scale a h))
   else mret tt);;
  a ← operand (dvdtBH2 o);
  iadd_vec (vBH2 o) (acc3_vec (acc3_scale a h));;
  rows ← operand (dvdtDM o);
  iadd_mat (vDM o) (map (vscale h) rows).

(** A call [self.p.xstep(h, ...)].  The method is declared
    [def xstep(self, h)]: Python binds the arguments before it runs the
    body, and a call with any further positional argument raises
    [TypeError].  [extra] lists the positional arguments after [h]; each
    is [None] or an index array. *)
Definition xstep (h : R) (extra : list (option (list nat))) : M unit :=
  match extra with
  | [] => xstep_body h
  | _ :: _ => raise TypeError
  end.

(** A call [self.p.vstep(h, ...)], declared [def vstep(self, h)]. *)
Definition vstep (h : R) (extra : list (option (list nat))) : M unit :=
  match extra with
  | [] => vstep_body h
  | _ :: _ => raise TypeError
  end.

(** ** [simulator.py]: the force model *)

Section ForceModel.

Context {U : Units}.

(** The unsoftened law [-u.G_N*M_eff*dx*(r_sq)**-1] for one tracer: [dx]
    is the unit vector from the body to the tracer. *)
Definition acc_newton (M_eff : R) (dx : vec) (r_sq : R) : vec :=
  vscale (- G_N * M_eff * / r_sq) dx.

(** [-u.G_N*M_eff*dx*(r_sq + r_soft_sq)**-1]. *)
Definition acc_plummer (M_eff r_soft_sq : R) (dx : vec) (r_sq : R) : vec :=
  vscale (- G_N * M_eff * / (r_sq + r_soft_sq)) dx.

(** [-u.G_N*M_eff*np.sqrt(r_sq)*(dx/2)*(2*r_sq + 5*r_soft_sq)*(r_sq + r_soft_sq)**(-5/2)]. *)
Definition acc_plummer2 (M_eff r_soft_sq : R) (dx : vec) (r_sq : R) : vec :=
  vscale (- G_N * M_eff * sqrt r_sq * / 2 * (2 * r_sq + 5 * r_soft_sq)
          * Rpower (r_sq + r_soft_sq) (- 5 / 2)) dx.

(** The kernel "uniform_old": with [x = np.sqrt(r_sq/r_soft_sq)], the
    rows where [x < 1] get
    [-u.G_N*M_eff*dx*x*(8 - 9*x + 2*x**3)/r_soft_sq], the others the
    unsoftened law.  [x] is infinite or [nan] when [r_soft_sq] is zero,
    and the comparison is then false. *)
Definition acc_uniform_old (M_eff r_soft_sq : R) (dx : vec) (r_sq : R) : vec :=
  match np_sqrt (np_divide r_sq r_soft_sq) with
  | Finite x =>
      if Rlt_dec x 1
      then vscale (- G_N * M_eff * x * (8 - 9 * x + 2 * x ^ 3) / r_soft_sq) dx
      else acc_newton M_eff dx r_sq
  | _ => acc_newton M_eff dx r_sq
  end.

(** The kernel "uniform", lines 177-183: the rows where [x <= 1] get
    [-u.G_N*M_eff*dx*x/r_soft_sq], the others the unsoftened law. *)
Definition acc_uniform (M_eff r_soft_sq : R) (dx : vec) (r_sq : R) : vec :=
  match np_sqrt (np_divide r_sq r_soft_sq) with
  | Finite x =>
      if Rle_dec x 1
      then vscale (- G_N * M_eff * x / r_soft_sq) dx
      else acc_newton M_eff dx r_sq
  | _ => acc_newton M_eff dx r_sq
  end.

(** The kernel "truncate", lines 185-187:
<<
    r_sq = np.clip(r_sq, r_soft_sq, 1e50)
    acc_DM = -u.G_N*M_eff*dx/r_sq
>> *)
Definition acc_truncate (M_eff r_soft_sq : R) (dx : vec) (r_sq : R) : vec :=
  vscale (- G_N * M_eff / np_clip r_sq r_soft_sq 1e50) dx.

(** The kernel "empty_shell", lines 189-195: the unsoftened law, and the
    rows where [x < 1] are multiplied by [0.0]. *)
Definition acc_empty_shell (M_eff r_soft_sq : R) (dx : vec) (r_sq : R) : vec :=
  match np_sqrt (np_divide r_sq r_soft_sq) with
  | Finite x =>
      if Rlt_dec x 1
      then vscale 0.0 (acc_newton M_eff dx r_sq)
      else acc_newton M_eff dx r_sq
  | _ => acc_newton M_eff dx r_sq
  end.

(** A kernel applied to the rows of [dx], of shape (N,3), and [r_sq], of
    shape (N,1); both come from the same array of positions. *)
Definition per_row (f : vec -> R -> vec) (dx : list vec) (r_sq : list R)
  : res (list vec) :=
  if (length dx =? length r_sq)%nat then Done (zip_with f dx r_sq)
  else Fail Unmodelled.

(** [simulator.calc_acc], lines 160-200. *)
Definition calc_acc (M_eff : R) (dx : list vec) (r_sq : list R)
    (r_soft_sq : R) (method : string) : res (list vec) :=
  if String.eqb method "plummer" then
    per_row (acc_plummer M_eff r_soft_sq) dx r_sq
  else if String.eqb method "plummer2" then
    per_row (acc_plummer2 M_eff r_soft_sq) dx r_sq
  else if String.eqb method "uniform_old" then
    per_row (acc_uniform_old M_eff r_soft_sq) dx r_sq
  else if String.eqb method "uniform" then
    per_row (acc_uniform M_eff r_soft_sq) dx r_sq
  else if String.eqb method "truncate" then
    per_row (acc_truncate M_eff r_soft_sq) dx r_sq
  else if String.eqb method "empty_shell" then
    per_row (acc_empty_shell M_eff r_soft_sq) dx r_sq
  else Fail ValueError.

(** [dx /= r] on one row. *)
Definition vdiv (a : vec) (r : R) : vec :=
  let '(a1, a2, a3) := a in (a1 / r, a2 / r, a3 / r).

(** [np.sum(np.atleast_2d(self.p.M_DM).T*acc, axis=0)]: the masses, as a
    column, times the rows of [acc], summed over the tracers. *)
Definition weighted_sum (ms : list R) (acc : list vec) : res vec :=
  match bcast2 vscale ms acc with
  | Done rows => Done (vsum rows)
  | Fail e => Fail e
  end.

(** An attribute that must hold an array of shape (N,3). *)
Definition rows_of (a : accDM) : res (list vec) :=
  match a with DRows rows => Done rows | _ => Fail Unmodelled end.

(** [self.acc_DM1 + self.acc_DM2]: two arrays of shape (N,3), or an array
    and the float [0.0] that stands for an absent secondary. *)
Definition accDM_add (a b : accDM) : res (list vec) :=
  match a, b with
  | DRows x, DRows y => bcast2 vadd x y
  | DRows x, DScalar c => Done (map (fun r => vadd r (vconst c)) x)
  | _, _ => Fail Unmodelled
  end.

(** [simulator.update_acceleration], lines 203-272.  Where a tracer sits
    on a black hole, or the two black holes on each other, numpy computes
    [dx /= r] and [r12_sq**-1.5] as [nan] or [inf] and stores them without
    raising; here the method returns there as well, and what it stores is
    what [R] gives for a quotient by zero.  The values are those of the
    code in the worlds that are [regular], defined with the vocabulary of
    the statements. *)
Definition update_acceleration : M unit :=
  o ← get_p;
  xDM_ ← read_mat (xDM o);
  M_eff ← (if dynamic_BH o then mret (M_1 o, M_2 o)
           else q ← lift (py_div (M_1 o * M_2 o) (M_1 o + M_2 o));
                mret (M_1 o + M_2 o, q));
  let M1_eff := fst M_eff in
  let M2_eff := snd M_eff in
  (* separations between the tracers and the central black hole *)
  xBH1_ ← read_vec (xBH1 o);
  let dx1 := map (fun x => vsub x xBH1_) xDM_ in
  let r1_sq := map norm_sq dx1 in
  let r1 := map sqrt r1_sq in
  let dx1 := zip_with vdiv dx1 r1 in
  (if (0 <? N_DM o)%Z
   then m ← lift (np_min r1); set_self (with_r1_min (Val m))
   else mret tt);;
  s ← get_self;
  acc_DM1_ ← lift (calc_acc M1_eff dx1 r1_sq (r_soft_sq1 s) (soft_method1 s));
  set_self (with_acc_DM1 (Val (DRows acc_DM1_)));;
  (* forces of the second black hole, if it exists *)
  acc_BH ← (if Rlt_dec 0 (M_2 o) then
              xBH2_ ← read_vec (xBH2 o);
              let dx2 := map (fun x => vsub x xBH2_) xDM_ in
              let r2_sq := map norm_sq dx2 in
              let r2 := map sqrt r2_sq in
              let dx2 := zip_with vdiv dx2 r2 in
              (if (0 <? N_DM o)%Z
               then m ← lift (np_min r2); set_self (with_r2_min (Val m))
               else mret tt);;
              acc_DM2_ ← lift (calc_acc M2_eff dx2 r2_sq (r_soft_sq2 s) (soft_method s));
              set_self (with_acc_DM2 (Val (DRows acc_DM2_)));;
              let dx12 := vsub xBH1_ xBH2_ in
              let r12_sq := norm_sq dx12 in
              mret (Vector (vscale (- G_N * M2_eff * Rpower r12_sq (- 1.5)) dx12))
            else
              set_self (with_acc_DM2 (Val (DScalar 0.0)));;
              mret (Scalar 0.0));
  (* the accelerations of the two black holes *)
  (if dynamic_BH o then
     inv ← lift (py_div 1 M1_eff);
     ms ← read_arr (M_DM o);
     sum ← lift (weighted_sum ms acc_DM1_);
     set_p (with_dvdtBH1 (Val (Vector (vsub (acc3_vec acc_BH) (vscale inv sum)))))
   else set_p (with_dvdtBH1 (Val (Scalar 0.0))));;
  (if Rlt_dec 0 (M_2 o) then
     q ← lift (py_div M1_eff M2_eff);
     inv ← lift (py_div 1 M2_eff);
     ms ← read_arr (M_DM o);
     s ← get_self;
     a2 ← operand (acc_DM2 s);
     rows ← lift (rows_of a2);
     sum ← lift (weighted_sum ms rows);
     set_p (with_dvdtBH2
              (Val (Vector (vsub (vscale (- q) (acc3_vec acc_BH)) (vscale inv sum)))))
   else set_p (with_dvdtBH2 (Val (Scalar 0.0))));;
  s ← get_self;
  a1 ← operand (acc_DM1 s);
  a2 ← operand (acc_DM2 s);
  sum ← lift (accDM_add a1 a2);
  set_p (with_dvdtDM (Val sum));;
  (* the background force field, if one has been set *)
  match background_field s with
  | None => mret tt
  | Some bg =>
      o ← get_p;
      a ← operand (dvdtBH1 o);
      x1 ← read_vec (xBH1 o);
      set_p (with_dvdtBH1 (Val (Vector (vadd (acc3_vec a) (bg x1)))));;
      a ← operand (dvdtBH2 o);
      x2 ← read_vec (xBH2 o);
      set_p (with_dvdtBH2 (Val (Vector (vadd (acc3_vec a) (bg x2)))));;
      rows ← operand (dvdtDM o);
      sum ← lift (bcast2 vadd rows (map bg xDM_));
      set_p (with_dvdtDM (Val sum))
  end.

(** ** [simulator.py]: the integrator *)

(** [simulator.full_step], lines 102-157.  [inds] is the optional index
    array, [None] by default.  The chain of [if]/[elif] has no [else]: a
    method name that is none of the four runs no branch. *)
Definition full_step (dt : R) (method : string) (inds : option (list nat))
  : M unit :=
  if String.eqb method "DKD" then
    xstep (0.5 * dt) [inds];;
    update_acceleration;;
    vstep (1.0 * dt) [inds];;
    xstep (0.5 * dt) [inds]
  else if String.eqb method "KDK" then
    update_acceleration;;
    vstep (0.5 * dt) [inds];;
    xstep (1.0 * dt) [inds];;
    update_acceleration;;
    vstep (0.5 * dt) [inds]
  else if String.eqb method "FR" then
    xstep (theta * dt / 2) [];;
    update_acceleration;;
    vstep (theta * dt) [];;
    xstep ((1 - theta) * dt / 2) [];;
    update_acceleration;;
    vstep ((1 - 2 * theta) * dt) [];;
    xstep ((1 - theta) * dt / 2) [];;
    update_acceleration;;
    vstep (theta * dt) [];;
    xstep (theta * dt / 2) []
  else if String.eqb method "PEFRL" then
    xstep (xi * dt) [];;
    update_acceleration;;
    vstep ((1 - 2 * lam) * dt / 2) [];;
    xstep (chi * dt) [];;
    update_acceleration;;
    vstep (lam * dt) [];;
    xstep ((1 - 2 * (chi + xi)) * dt) [];;
    update_acceleration;;
    vstep (lam * dt) [];;
    xstep (chi * dt) [];;
    update_acceleration;;
    vstep ((1 - 2 * lam) * dt / 2) [];;
    xstep (xi * dt) []
  else mret tt.

(** [simulator.calc_dt_opt], lines 72-73:
    [eta*(2*np.pi*np.sqrt(r**3/(u.G_N*M)))], with [r] a numpy float. *)
Definition calc_dt_opt (r M_ eta : R) : xreal :=
  x_scale eta (x_scale (2 * PI) (np_sqrt (np_divide (r ^ 3) (G_N * M_)))).

(** [dt_opt >= dt]. *)
Definition x_ge (x : xreal) (c : R) : bool :=
  match x with
  | Finite r => if Rle_dec c r then true else false
  | PInf => true
  | NInf => false
  | NaN => false
  end.

(** [dt/dt_opt], with [dt_opt] a numpy float. *)
Definition x_quot (a : R) (x : xreal) : xreal :=
  match x with
  | Finite r => np_divide a r
  | PInf => Finite 0
  | NInf => Finite 0
  | NaN => NaN
  end.

(** [int(np.ceil(x))]: an infinite value raises [OverflowError], [nan]
    raises [ValueError]. *)
Definition int_ceil (x : xreal) : res Z :=
  match x with
  | Finite r => Done (Zceil r)
  | PInf => Fail OverflowError
  | NInf => Fail OverflowError
  | NaN => Fail ValueError
  end.

(** [simulator.adaptive_step], lines 75-99; [dt] is a Python float. *)
Definition adaptive_step (dt : R) (method : string) (eta : R) (N_sub_max : Z)
  : M unit :=
  o ← get_p;
  if (N_DM o =? 0)%Z then full_step dt method None
  else
    s ← get_self;
    match r2_min s with
    | Missing => raise AttributeError
    | IsNone => update_acceleration
    | Val _ => mret tt
    end;;
    s ← get_self;
    o ← get_p;
    r ← operand (r2_min s);
    let dt_opt := calc_dt_opt r (M_2 o) eta in
    if x_ge dt_opt dt then full_step dt method None
    else
      N_sub ← lift (int_ceil (x_quot dt dt_opt));
      let N_sub := if (N_sub >? N_sub_max)%Z then N_sub_max else N_sub in
      dt_sub ← lift (py_div dt (IZR N_sub));
      for_range N_sub (fun _ => full_step dt_sub method None).

End ForceModel.

(** ** Constructors *)

(** [particles.__init__], lines 23-68: the arrays are allocated afresh,
    filled with [M_DM] (the masses) or with zeros; [np.ones(N_DM)] raises
    [ValueError] for a negative count. *)
Definition alloc (a : ndarray) (h : gmap loc ndarray) : loc * gmap loc ndarray :=
  let l := fresh (dom h) in (l, <[l := a]> h).

Definition particles_init (M_1_ M_2_ : R) (N_DM_ : Z) (M_DM_ : R)
    (dynamic_BH_ : bool) (σ : store) : res (loc * store) :=
  if (N_DM_ <? 0)%Z then Fail ValueError
  else
    let n := Z.to_nat N_DM_ in
    let '(lm, h) := alloc (A1 (map (fun one => M_DM_ * one) (replicate n 1))) (arrays σ) in
    let '(lx1, h) := alloc (V3 vzero) h in
    let '(lv1, h) := alloc (V3 vzero) h in
    let '(lx2, h) := alloc (V3 vzero) h in
    let '(lv2, h) := alloc (V3 vzero) h in
    let '(lx, h) := alloc (M3 (replicate n vzero)) h in
    let '(lv, h) := alloc (M3 (replicate n vzero)) h in
    let o := mk_particles M_1_ M_2_ lm N_DM_ lx1 lv1 lx2 lv2 lx lv
               IsNone IsNone Missing dynamic_BH_ in
    let l := fresh (dom (objects σ)) in
    Done (l, mk_store h (<[l := o]> (objects σ))).

(** [copy.deepcopy] of one array of an object: an array already copied
    (the memo) is shared by the copies as it is by the originals. *)
Definition copy_array (l : loc) (st : gmap loc ndarray * gmap loc loc)
  : res (loc * (gmap loc ndarray * gmap loc loc)) :=
  match snd st !! l with
  | Some l' => Done (l', st)
  | None =>
      match fst st !! l with
      | Some a =>
          let l' := fresh (dom (fst st)) in
          Done (l', (<[l' := a]> (fst st), <[l := l']> (snd st)))
      | None => Fail Unmodelled
      end
  end.

Definition res_bind {A B : Type} (r : res A) (f : A -> res B) : res B :=
  match r with Done a => f a | Fail e => Fail e end.

(** [copy.deepcopy(particle_set)]: a new object whose arrays are copies,
    taken in the order in which the attributes were assigned. *)
Definition deepcopy (particle_set : loc) (σ : store) : res (loc * store) :=
  match objects σ !! particle_set with
  | None => Fail Unmodelled
  | Some o =>
      res_bind (copy_array (M_DM o) (arrays σ, ∅)) (fun '(lm, st) =>
      res_bind (copy_array (xBH1 o) st) (fun '(lx1, st) =>
      res_bind (copy_array (vBH1 o) st) (fun '(lv1, st) =>
      res_bind (copy_array (xBH2 o) st) (fun '(lx2, st) =>
      res_bind (copy_array (vBH2 o) st) (fun '(lv2, st) =>
      res_bind (copy_array (xDM o) st) (fun '(lx, st) =>
      res_bind (copy_array (vDM o) st) (fun '(lv, st) =>
        let o' := mk_particles (M_1 o) (M_2 o) lm (N_DM o) lx1 lv1 lx2 lv2
                    lx lv (dvdtBH1 o) (dvdtBH2 o) (dvdtDM o) (dynamic_BH o) in
        let l := fresh (dom (objects σ)) in
        Done (l, mk_store (fst st) (<[l := o']> (objects σ))))))))))
  end.

(** [simulator.__init__], lines 56-68:
<<
    self.p = copy.deepcopy(particle_set)
    self.r_soft_sq2 = r_soft_sq2
    self.r_soft_sq1 = r_soft_sq1
    if (self.r_soft_sq1 < 0):
        self.r_soft_sq1 = 1.0*r_soft_sq2
    self.soft_method = soft_method
    self.soft_method1 = "uniform"
    self.check_state = check_state
    self.background_field = None
>> *)
Definition simulator_init (particle_set : loc) (r_soft_sq2_ r_soft_sq1_ : R)
    (soft_method_ : string) (σ : store) : res world :=
  res_bind (deepcopy particle_set σ) (fun '(l, σ') =>
    Done (mk_world σ'
            (mk_simulator l r_soft_sq2_
               (if Rlt_dec r_soft_sq1_ 0 then 1.0 * r_soft_sq2_ else r_soft_sq1_)
               soft_method_ "uniform" None
               Missing Missing Missing Missing Missing Missing Missing))).

(** ** [particles.py]: the binary *)

Section Binary.

Context {U : Units}.

(** [tools.calc_risco], of a module that is not among the sources. *)
Variable calc_risco : R -> res R.

(** [particles_in_binary], lines 396-458, called with [N_DM = 0] and
    [include_DM_mass = False], their defaults: the branches that draw
    the tracers from the absent module [distributionfunctions] are not
    taken.  When the argument of [np.sqrt] is negative the speed is
    [nan], which the arrays of the model do not hold: [Unmodelled].
<<
    if (r_max < 0):
        if (r_t < 0): r_max = 1e5*tools.calc_risco(M_1)
        else:         r_max = 1e3*r_t
    M_DM = 0.0
    p = particles(M_1, M_2, N_DM=N_DM, M_DM=M_DM, dynamic_BH=dynamic_BH)
    r_i = a_i * ( 1 + e_i)
    M_tot = p.M_tot()
    mu = u.G_N*M_tot
    v_i = np.sqrt( mu * (2.0/r_i - 1.0/a_i) )
    if (dynamic_BH): factor = M_2/M_tot
    else:            factor = 0
    p.xBH1[:] = np.atleast_2d([-r_i*factor,   0, 0])
    p.xBH2[:] = np.atleast_2d([r_i*(1-factor),   0, 0])
    p.vBH1[:] = np.atleast_2d([0.0, v_i*factor, 0])
    p.vBH2[:] = np.atleast_2d([0.0, -v_i*(1-factor), 0])
    return p
>> *)
Definition particles_in_binary (M_1_ M_2_ a_i e_i : R) (dynamic_BH_ : bool)
    (r_max r_t : R) (σ : store) : res (loc * store) :=
  res_bind (if Rlt_dec r_max 0 then
              if Rlt_dec r_t 0
              then res_bind (calc_risco M_1_) (fun r => Done (1e5 * r))
              else Done (1e3 * r_t)
            else Done r_max) (fun _ =>
  let M_DM_ := 0.0 in
  res_bind (particles_init M_1_ M_2_ 0 M_DM_ dynamic_BH_ σ) (fun '(l, σ1) =>
  match objects σ1 !! l with
  | None => Fail Unmodelled
  | Some o =>
      let r_i := a_i * (1 + e_i) in
      let M_tot := M_1 o + M_2 o in
      let mu := G_N * M_tot in
      res_bind (py_div 2.0 r_i) (fun q1 =>
      res_bind (py_div 1.0 a_i) (fun q2 =>
      match np_sqrt (Finite (mu * (q1 - q2))) with
      | Finite v_i =>
          res_bind (if dynamic_BH_ then py_div M_2_ M_tot else Done 0) (fun factor =>
          let h := <[xBH1 o := V3 (- r_i * factor, 0, 0)]> (arrays σ1) in
          let h := <[xBH2 o := V3 (r_i * (1 - factor), 0, 0)]> h in
          let h := <[vBH1 o := V3 (0.0, v_i * factor, 0)]> h in
          let h := <[vBH2 o := V3 (0.0, - v_i * (1 - factor), 0)]> h in
          Done (l, mk_store h (objects σ1)))
      | _ => Fail Unmodelled
      end))
  end)).

End Binary.

(** ** [simulator.py]: the driver *)

Section Driver.

Context {U : Units}.

(** Python's indexing of a sequence of length [n]: a negative index
    counts from the end, and an index out of range raises [IndexError]. *)
Definition py_index (n : nat) (i : Z) : res nat :=
  let j := if (i <? 0)%Z then (Z.of_nat n + i)%Z else i in
  if ((0 <=? j) && (j <? Z.of_nat n))%Z then Done (Z.to_nat j)
  else Fail IndexError.

(** Lines 406-416: the current masses, positions and velocities of the
    two black holes are written into row [i_out] of the recorded lists. *)
Definition record_state (i_out : Z) : M unit :=
  s ← get_self;
  rec ← operand (record s);
  o ← get_p;
  i ← lift (py_index (length (M1_list rec)) i_out);
  x1 ← read_vec (xBH1 o);
  v1 ← read_vec (vBH1 o);
  x2 ← read_vec (xBH2 o);
  v2 ← read_vec (vBH2 o);
  set_self (with_record (Val (mk_recording
    (<[i := M_1 o]> (M1_list rec)) (<[i := M_2 o]> (M2_list rec))
    (<[i := x1]> (xBH1_list rec)) (<[i := v1]> (vBH1_list rec))
    (<[i := x2]> (xBH2_list rec)) (<[i := v2]> (vBH2_list rec))))).

(** [len(np.linspace(0, 1, N_step)[::N_save])]. *)
Definition n_out (N_step N_save : Z) : nat :=
  Z.to_nat ((N_step + Z.abs N_save - 1) / Z.abs N_save).

(** [simulator.run_simulation], lines 276-475, with [save_to_file] and
    [add_to_list] false: no file is written.  [check_state] is the hook
    given to the constructor, or [None].  The orbital elements and the
    period, computed by the absent module [tools] from the positions and
    kept for the output, are not modelled. *)
Definition run_simulation (check_state : option (M unit)) (dt t_end : R)
    (method : string) (N_save : Z) (inds : option (list nat)) (eta : R)
    (N_sub_max : Z) : M unit :=
  set_self (with_current_step (Val 0%Z));;
  q ← lift (py_div t_end dt);
  let N_step := Zceil q in
  (if (N_step <? 0)%Z then raise ValueError else mret tt);;
  (if (N_save =? 0)%Z then raise ValueError else mret tt);;
  let N_out := n_out N_step N_save in
  set_self (with_record (Val (mk_recording
    (replicate N_out 0) (replicate N_out 0) (replicate N_out vzero)
    (replicate N_out vzero) (replicate N_out vzero) (replicate N_out vzero))));;
  o ← get_p;
  (if (N_DM o <? 0)%Z then raise ValueError else mret tt);;
  set_self (with_acc_DM1 (Val (DFlat (replicate (Z.to_nat (N_DM o)) 0))));;
  set_self (with_acc_DM2 (Val (DFlat (replicate (Z.to_nat (N_DM o)) 0))));;
  set_self (with_r1_min IsNone);;
  set_self (with_r2_min IsNone);;
  set_self (with_finished (Val false));;
  for_range N_step (fun it =>
    match check_state with Some hook => hook | None => mret tt end;;
    (if (it mod N_save =? 0)%Z then record_state (it / N_save)%Z else mret tt);;
    (if Rlt_dec eta 0 then full_step dt method inds
     else adaptive_step dt method eta N_sub_max);;
    s ← get_self;
    c ← operand (current_step s);
    set_self (with_current_step (Val (c + 1)%Z)));;
  set_self (with_finished (Val true)).

End Driver.

(** ** The vocabulary of the statements *)

(** [wp m w Q E]: run from the world [w], the method [m] returns a value
    [a] in a world that satisfies [Q a], or raises an exception [e] in a
    world that satisfies [E e]. *)
Definition wp {A : Type} (m : M A) (w : world)
    (Q : A -> world -> Prop) (E : exn -> world -> Prop) : Prop :=
  match m w with
  | Ok a w' => Q a w'
  | Raise e w' => E e w'
  end.

(** [m] preserves [P]: from a world in [P] it ends, whether it returns or
    raises, in a world in [P]. *)
Definition preserved (P : world -> Prop) {A : Type} (m : M A) : Prop :=
  forall w, P w -> wp m w (fun _ => P) (fun _ => P).

(** The object [o] is the simulator's particle set [self.p]. *)
Definition holds (o : particles) (w : world) : Prop :=
  objects (mem w) !! p (self w) = Some o.

(** What the constructor fixes in a simulator. *)
Definition static (s : simulator) : loc * R * R * string * string :=
  (p s, r_soft_sq2 s, r_soft_sq1 s, soft_method s, soft_method1 s).

(** What the methods of the simulator never rebind in a particle set:
    the masses, the count, the flag and the references to the arrays. *)
Definition fixed (o : particles)
  : R * R * loc * Z * (loc * loc) * (loc * loc) * (loc * loc) * bool :=
  (M_1 o, M_2 o, M_DM o, N_DM o, (xBH1 o, vBH1 o), (xBH2 o, vBH2 o),
   (xDM o, vDM o), dynamic_BH o).

(** The arrays that a drift or a kick updates in place. *)
Definition written (o : particles) : list loc :=
  (if dynamic_BH o then [xBH1 o; vBH1 o] else []) ++
  [xBH2 o; vBH2 o; xDM o; vDM o].

(** The seven arrays of a particle set. *)
Definition arrays_of (o : particles) : list loc :=
  [M_DM o; xBH1 o; vBH1 o; xBH2 o; vBH2 o; xDM o; vDM o].

(** The effective masses of lines 213-218, as real numbers. *)
Definition M1_eff (o : particles) : R :=
  if dynamic_BH o then M_1 o else M_1 o + M_2 o.

Definition M2_eff (o : particles) : R :=
  if dynamic_BH o then M_2 o else M_1 o * M_2 o / (M_1 o + M_2 o).

(** The separations of lines 221-224: [dx = xDM - xBH], the squared
    distances, and the unit vectors [dx / r]. *)
Definition offsets (xs : list vec) (x : vec) : list vec :=
  map (fun y => vsub y x) xs.

Definition dist_sq (xs : list vec) (x : vec) : list R :=
  map norm_sq (offsets xs x).

Definition unit_dx (xs : list vec) (x : vec) : list vec :=
  zip_with vdiv (offsets xs x) (map sqrt (dist_sq xs x)).

(** The names that [calc_acc] accepts. *)
Definition known_kernel (method : string) : Prop :=
  method ∈ ["plummer"; "plummer2"; "uniform_old"; "uniform"; "truncate";
            "empty_shell"].

(** The rate of change of the total momentum that the stored
    accelerations give: [M_1*dvdtBH1 + M_2*dvdtBH2] plus the sum over the
    tracers of [M_DM[i]*dvdtDM[i]]. *)
Definition momentum_flux (w : world) : option vec :=
  match objects (mem w) !! p (self w) with
  | Some o =>
      match arrays (mem w) !! M_DM o, dvdtBH1 o, dvdtBH2 o, dvdtDM o with
      | Some (A1 ms), Val a1, Val a2, Val rows =>
          match weighted_sum ms rows with
          | Done s =>
              Some (vadd (vadd (vscale (M_1 o) (acc3_vec a1))
                               (vscale (M_2 o) (acc3_vec a2))) s)
          | Fail _ => None
          end
      | _, _, _, _ => None
      end
  | None => None
  end.

(** A force evaluation in [w] on the particle set [o] divides by no zero
    and raises no non-positive number to a fractional power: the
    softening lengths squared are not negative, the two black holes are
    apart, and every tracer is apart from both.  Otherwise numpy stores
    [nan] or [inf] in the accelerations (lines 224, 237 and 247, and the
    kernels of [calc_acc]), where the quotients of the model are real
    numbers. *)
Definition regular (w : world) (o : particles) : Prop :=
  0 <= r_soft_sq1 (self w) /\ 0 <= r_soft_sq2 (self w) /\
  exists x1 x2 xs,
    arrays (mem w) !! xBH1 o = Some (V3 x1) /\
    arrays (mem w) !! xBH2 o = Some (V3 x2) /\
    arrays (mem w) !! xDM o = Some (M3 xs) /\
    norm_sq (vsub x1 x2) <> 0 /\
    Forall (fun x => norm_sq (vsub x x1) <> 0 /\ norm_sq (vsub x x2) <> 0) xs.

(** What a caller does with a simulator: it calls a method of the
    simulator or a stage, [p.xstep(h)] or [p.vstep(h)], of its particle
    set, or assigns the attribute [background_field]. *)
Inductive call : Type :=
  | Drift (h : R)
  | Kick (h : R)
  | UpdateAcceleration
  | FullStep (dt : R) (method : string) (inds : option (list nat))
  | AdaptiveStep (dt : R) (method : string) (eta : R) (N_sub_max : Z)
  | RunSimulation (dt t_end : R) (method : string) (N_save : Z)
      (inds : option (list nat)) (eta : R) (N_sub_max : Z)
  | SetBackgroundField (bg : option (vec -> vec)).

Definition do_call {U : Units} (check_state : option (M unit)) (c : call)
  : M unit :=
  match c with
  | Drift h => xstep h []
  | Kick h => vstep h []
  | UpdateAcceleration => update_acceleration
  | FullStep dt method inds => full_step dt method inds
  | AdaptiveStep dt method eta N_sub_max =>
      adaptive_step dt method eta N_sub_max
  | RunSimulation dt t_end method N_save inds eta N_sub_max =>
      run_simulation check_state dt t_end method N_save inds eta N_sub_max
  | SetBackgroundField bg => set_self (with_background_field bg)
  end.

(** A sequence of calls; a caller that catches an exception goes on from
    the world in which it was raised. *)
Fixpoint run_calls {U : Units} (check_state : option (M unit))
    (cs : list call) (w : world) : world :=
  match cs with
  | [] => w
  | c :: cs' => run_calls check_state cs' (final (do_call check_state c w))
  end.

(** The store [σ] of the caller is untouched in [w]: every array and
    every object of [σ] is in [w] as it was, and the simulator's own
    particle set and its arrays are none of them. *)
Definition untouched (σ : store) (w : world) : Prop :=
  arrays σ ⊆ arrays (mem w) /\
  objects σ ⊆ objects (mem w) /\
  objects σ !! p (self w) = None /\
  forall o, holds o w -> forall l, l ∈ arrays_of o -> arrays σ !! l = None.

(** The arrays of the particle set [o] have, in [w], the shapes that
    [particles.__init__] gives them: one mass, one position and one
    velocity for each of the [N_DM] tracers. *)
Record well_formed (w : world) (o : particles) : Prop := {
  wf_holds : holds o w;
  wf_count : (0 <= N_DM o)%Z;
  wf_M_DM : exists ms, arrays (mem w) !! M_DM o = Some (A1 ms) /\
                       length ms = Z.to_nat (N_DM o);
  wf_xBH1 : exists v, arrays (mem w) !! xBH1 o = Some (V3 v);
  wf_vBH1 : exists v, arrays (mem w) !! vBH1 o = Some (V3 v);
  wf_xBH2 : exists v, arrays (mem w) !! xBH2 o = Some (V3 v);
  wf_vBH2 : exists v, arrays (mem w) !! vBH2 o = Some (V3 v);
  wf_xDM : exists xs, arrays (mem w) !! xDM o = Some (M3 xs) /\
                      length xs = Z.to_nat (N_DM o);
  wf_vDM : exists vs, arrays (mem w) !! vDM o = Some (M3 vs) /\
                      length vs = Z.to_nat (N_DM o)
}.

(** [I] is closed under what the methods do to a world: they rebind
    attributes of the simulator other than those the constructor fixes,
    rebind accelerations of the particle set, and write the arrays that
    drift and kick update. *)
Definition closed (I : world -> Prop) : Prop :=
  (forall w f, (forall s, static (f s) = static s) -> I w ->
     I (mk_world (mem w) (f (self w)))) /\
  (forall w o f, (forall o', fixed (f o') = fixed o') -> I w -> holds o w ->
     I (mk_world (mk_store (arrays (mem w))
                    (<[p (self w) := f o]> (objects (mem w)))) (self w))) /\
  (forall w o l a, I w -> holds o w -> l ∈ written o ->
     I (mk_world (mk_store (<[l := a]> (arrays (mem w))) (objects (mem w)))
          (self w))).

(** The primary is, in [w'], where it was in [w], with the velocity it
    had. *)
Definition primary_at_rest (o : particles) (w w' : world) : Prop :=
  arrays (mem w') !! xBH1 o = arrays (mem w) !! xBH1 o /\
  arrays (mem w') !! vBH1 o = arrays (mem w) !! vBH1 o.

(** The particle set of the simulator stays the same object, with the
    same fixed part. *)
Definition same_particles (o : particles) (w : world) : Prop :=
  exists o', holds o' w /\ fixed o' = fixed o.

(** Units in which [G_N = 1], for the examples. *)
Definition unit_G : Units := {| G_N := 1; G_N_pos := Rlt_0_1 |}.

(** An example: a primary of mass 1000 at the origin, a secondary of
    mass 1 at distance 1, and one tracer of mass 0.001 at distance 1 from
    the secondary.  The particle set is the object 1 and its arrays are
    the arrays 1 to 7. *)
Definition ex_particles (dynamic : bool) : particles :=
  mk_particles 1000 1 1%positive 1 2%positive 3%positive 4%positive
    5%positive 6%positive 7%positive IsNone IsNone Missing dynamic.

Definition ex_store (dynamic : bool) : store :=
  mk_store
    (list_to_map
       [(1%positive, A1 [0.001]); (2%positive, V3 (0, 0, 0));
        (3%positive, V3 (0, 0, 0)); (4%positive, V3 (1, 0, 0));
        (5%positive, V3 (0, 1, 0)); (6%positive, M3 [(2, 0, 0)]);
        (7%positive, M3 [(0, 0, 0)])])
    {[1%positive := ex_particles dynamic]}.

(** A simulator over the example, as [run_simulation] leaves it after a
    force evaluation: [r2_min] is the distance of the tracer. *)
Definition ex_simulator (method : string) : simulator :=
  mk_simulator 1%positive 0 0 method "uniform" None IsNone (Val 1)
    Missing Missing Missing Missing Missing.

Definition ex_world (dynamic : bool) (method : string) : world :=
  mk_world (ex_store dynamic) (ex_simulator method).

(** ** The vocabulary of the further properties *)

(** [acc] pulls along [-d] with a factor of at most [bound]. *)
Definition pulls_at_most (bound : R) (d acc : vec) : Prop :=
  exists c, - bound <= c <= 0 /\ acc = vscale c d.

(** The invariant of a deep copy in progress: the heap [h] extends that
    of [σ], and the memo [m] sends arrays of [σ] to new arrays that hold
    what they hold, no two to the same one. *)
Definition copying (σ : store) (st : gmap loc ndarray * gmap loc loc) : Prop :=
  arrays σ ⊆ fst st /\
  (forall k v, snd st !! k = Some v ->
     arrays σ !! v = None /\ is_Some (arrays σ !! k) /\
     fst st !! v = arrays σ !! k) /\
  (forall k k' v, snd st !! k = Some v -> snd st !! k' = Some v -> k = k').

(** The positions and velocities that the arrays of a particle set hold. *)
Record phase : Type := mk_phase {
  ph_xBH1 : vec;
  ph_vBH1 : vec;
  ph_xBH2 : vec;
  ph_vBH2 : vec;
  ph_xDM : list vec;
  ph_vDM : list vec
}.

Definition phase_of (o : particles) (w : world) : option phase :=
  match arrays (mem w) !! xBH1 o, arrays (mem w) !! vBH1 o,
        arrays (mem w) !! xBH2 o, arrays (mem w) !! vBH2 o,
        arrays (mem w) !! xDM o, arrays (mem w) !! vDM o with
  | Some (V3 x1), Some (V3 v1), Some (V3 x2), Some (V3 v2),
    Some (M3 xs), Some (M3 vs) => Some (mk_phase x1 v1 x2 v2 xs vs)
  | _, _, _, _, _, _ => None
  end.

(** The arrays after [x += v*h] on the black holes that move and on the
    tracers. *)
Definition drifted (o : particles) (h : R) (q : phase)
    (m : gmap loc ndarray) : gmap loc ndarray :=
  <[xDM o := M3 (zip_with vadd (ph_xDM q) (map (vscale h) (ph_vDM q)))]>
    (<[xBH2 o := V3 (vadd (ph_xBH2 q) (vscale h (ph_vBH2 q)))]>
       (if dynamic_BH o
        then <[xBH1 o := V3 (vadd (ph_xBH1 q) (vscale h (ph_vBH1 q)))]> m
        else m)).

(** The arrays after [v += a*h], with the accelerations [a1], [a2] of the
    black holes and [rows] of the tracers. *)
Definition kicked (o : particles) (h : R) (q : phase) (a1 a2 : acc3)
    (rows : list vec) (m : gmap loc ndarray) : gmap loc ndarray :=
  <[vDM o := M3 (zip_with vadd (ph_vDM q) (map (vscale h) rows))]>
    (<[vBH2 o := V3 (vadd (ph_vBH2 q) (acc3_vec (acc3_scale a2 h)))]>
       (if dynamic_BH o
        then <[vBH1 o := V3 (vadd (ph_vBH1 q) (acc3_vec (acc3_scale a1 h)))]> m
        else m)).

(** The positions after a drift, the velocities after a kick. *)
Definition drift (dyn : bool) (h : R) (q : phase) : phase :=
  mk_phase
    (if dyn then vadd (ph_xBH1 q) (vscale h (ph_vBH1 q)) else ph_xBH1 q)
    (ph_vBH1 q)
    (vadd (ph_xBH2 q) (vscale h (ph_vBH2 q)))
    (ph_vBH2 q)
    (zip_with vadd (ph_xDM q) (map (vscale h) (ph_vDM q)))
    (ph_vDM q).

Definition kick (dyn : bool) (h : R) (a1 a2 : acc3) (rows : list vec)
    (q : phase) : phase :=
  mk_phase
    (ph_xBH1 q)
    (if dyn then vadd (ph_vBH1 q) (acc3_vec (acc3_scale a1 h)) else ph_vBH1 q)
    (ph_xBH2 q)
    (vadd (ph_vBH2 q) (acc3_vec (acc3_scale a2 h)))
    (ph_xDM q)
    (zip_with vadd (ph_vDM q) (map (vscale h) rows)).

(** The total momentum of the arrays of [o] in [w]:
    [M_1*vBH1 + M_2*vBH2] plus the sum over the tracers of
    [M_DM[i]*vDM[i]]. *)
Definition momentum (o : particles) (w : world) : option vec :=
  match phase_of o w, arrays (mem w) !! M_DM o with
  | Some q, Some (A1 ms) =>
      match weighted_sum ms (ph_vDM q) with
      | Done s =>
          Some (vadd (vadd (vscale (M_1 o) (ph_vBH1 q))
                           (vscale (M_2 o) (ph_vBH2 q))) s)
      | Fail _ => None
      end
  | _, _ => None
  end.

(** A method that, from a world in [P], returns in a world in [Q]; it
    may raise. *)
Definition returns_in (P : world -> Prop) {A : Type} (m : M A)
    (Q : world -> Prop) : Prop :=
  forall w, P w -> wp m w (fun _ => Q) (fun _ _ => True).

(** The simulator runs an isolated system, laid out as the constructor
    lays it out, with total momentum [P0]. *)
Definition isolated (o0 : particles) (P0 : vec) (w : world) : Prop :=
  background_field (self w) = None /\
  exists o, well_formed w o /\ fixed o = fixed o0 /\ momentum o w = Some P0.

(** The same, with accelerations stored whose total force is zero. *)
Definition balanced (o0 : particles) (P0 : vec) (w : world) : Prop :=
  isolated o0 P0 w /\
  momentum_flux w = Some vzero /\
  exists o rows, holds o w /\ dvdtDM o = Val rows /\
                 length rows = Z.to_nat (N_DM o0).

(** What a force evaluation leaves alone in the simulator: everything
    but the closest distances and the accelerations of the tracers. *)
Definition settings (s : simulator)
  : loc * R * R * string * string * option (vec -> vec) * attr Z *
    attr recording * attr bool :=
  (p s, r_soft_sq2 s, r_soft_sq1 s, soft_method s, soft_method1 s,
   background_field s, current_step s, record s, finished s).

(** [wa] and [wb] hold the same arrays and run the same simulator on
    particle sets with the same masses, count, flag and arrays. *)
Definition agree (wa wb : world) : Prop :=
  arrays (mem wa) = arrays (mem wb) /\
  settings (self wa) = settings (self wb) /\
  exists oa ob, holds oa wa /\ holds ob wb /\ fixed oa = fixed ob.

(** The world is laid out as the constructor lays it out, for a particle
    set with the masses, count, flag and arrays of [o0]. *)
Definition ready (o0 : particles) (w : world) : Prop :=
  exists o, well_formed w o /\ fixed o = fixed o0.

(** A method that, from a world in [P], returns, in a world in [Q]. *)
Definition runs_to (P : world -> Prop) {A : Type} (m : M A)
    (Q : world -> Prop) : Prop :=
  forall w, P w -> exists a w', m w = Ok a w' /\ Q w'.

(** The world is ready for a step: it is laid out for [o0], whose
    primary has a mass, and its kernels are kernels that [calc_acc]
    knows. *)
Definition steppable (o0 : particles) (w : world) : Prop :=
  ready o0 w /\ 0 < M_1 o0 /\ 0 <= M_2 o0 /\
  known_kernel (soft_method1 (self w)) /\
  (0 < M_2 o0 -> known_kernel (soft_method (self w))).

(** The mass-weighted position of the arrays of [o] in [w], the centre
    of mass times the total mass: [M_1*xBH1 + M_2*xBH2] plus the sum over
    the tracers of [M_DM[i]*xDM[i]]. *)
Definition moment (o : particles) (w : world) : option vec :=
  match phase_of o w, arrays (mem w) !! M_DM o with
  | Some q, Some (A1 ms) =>
      match weighted_sum ms (ph_xDM q) with
      | Done s =>
          Some (vadd (vadd (vscale (M_1 o) (ph_xBH1 q))
                           (vscale (M_2 o) (ph_xBH2 q))) s)
      | Fail _ => None
      end
  | _, _ => None
  end.

(** The mass-weighted position is [X0 + t*P0]. *)
Definition drifting (o0 : particles) (P0 X0 : vec) (t : R) (w : world) : Prop :=
  exists o, holds o w /\ fixed o = fixed o0 /\
            moment o w = Some (vadd X0 (vscale t P0)).

(** Isolated, with the mass-weighted position at [X0 + t*P0]. *)
Definition moving (o0 : particles) (P0 X0 : vec) (t : R) (w : world) : Prop :=
  isolated o0 P0 w /\ drifting o0 P0 X0 t w.

(** The same, with accelerations stored whose total force is zero. *)
Definition moving_balanced (o0 : particles) (P0 X0 : vec) (t : R) (w : world)
  : Prop :=
  balanced o0 P0 w /\ drifting o0 P0 X0 t w.

(** The calls that evaluate the forces themselves before they kick. *)
Definition self_contained (c : call) : bool :=
  match c with
  | Kick _ | SetBackgroundField _ => false
  | _ => true
  end.

(** The six recorded lists have [n] rows each. *)
Definition sized (n : nat) (rec : recording) : Prop :=
  length (M1_list rec) = n /\ length (M2_list rec) = n /\
  length (xBH1_list rec) = n /\ length (vBH1_list rec) = n /\
  length (xBH2_list rec) = n /\ length (vBH2_list rec) = n.

(** The first row of the record is the state of the two black holes of
    [o0] in the arrays [A0]. *)
Definition first_row (A0 : gmap loc ndarray) (o0 : particles) (rec : recording)
  : Prop :=
  exists x1 v1 x2 v2,
    A0 !! xBH1 o0 = Some (V3 x1) /\ A0 !! vBH1 o0 = Some (V3 v1) /\
    A0 !! xBH2 o0 = Some (V3 x2) /\ A0 !! vBH2 o0 = Some (V3 v2) /\
    M1_list rec !! 0%nat = Some (M_1 o0) /\ M2_list rec !! 0%nat = Some (M_2 o0) /\
    xBH1_list rec !! 0%nat = Some x1 /\ vBH1_list rec !! 0%nat = Some v1 /\
    xBH2_list rec !! 0%nat = Some x2 /\ vBH2_list rec !! 0%nat = Some v2.

(** The simulator still runs the particle set [o0], and its step
    counter, record and flag are [c], [r] and [f]. *)
Definition logged (o0 : particles) (c : attr Z) (r : attr recording)
    (f : attr bool) (w : world) : Prop :=
  (exists o, holds o w /\ fixed o = fixed o0) /\
  current_step (self w) = c /\ record (self w) = r /\ finished (self w) = f.

(** The state of [run_simulation] before the iteration [i] of its loop. *)
Definition running (A0 : gmap loc ndarray) (o0 : particles) (n : nat) (i : Z)
    (w : world) : Prop :=
  exists rec,
    logged o0 (Val i) (Val rec) (Val false) w /\ sized n rec /\
    (i = 0%Z -> arrays (mem w) = A0) /\
    ((0 < i)%Z -> first_row A0 o0 rec).

(** The same after the state has been recorded. *)
Definition recorded (A0 : gmap loc ndarray) (o0 : particles) (n : nat) (i : Z)
    (w : world) : Prop :=
  exists rec,
    logged o0 (Val i) (Val rec) (Val false) w /\ sized n rec /\
    first_row A0 o0 rec.

(** The vector product. *)
Definition cross (a b : vec) : vec :=
  let '(a1, a2, a3) := a in
  let '(b1, b2, b3) := b in
  (a2 * b3 - a3 * b2, a3 * b1 - a1 * b3, a1 * b2 - a2 * b1).

(** The total angular momentum about the origin of the arrays of [o] in
    [w]: [M_1*xBH1 x vBH1 + M_2*xBH2 x vBH2] plus the sum over the
    tracers of [M_DM[i]*xDM[i] x vDM[i]]. *)
Definition angular_momentum (o : particles) (w : world) : option vec :=
  match phase_of o w, arrays (mem w) !! M_DM o with
  | Some q, Some (A1 ms) =>
      match weighted_sum ms (zip_with cross (ph_xDM q) (ph_vDM q)) with
      | Done s =>
          Some (vadd (vadd (vscale (M_1 o) (cross (ph_xBH1 q) (ph_vBH1 q)))
                           (vscale (M_2 o) (cross (ph_xBH2 q) (ph_vBH2 q)))) s)
      | Fail _ => None
      end
  | _, _ => None
  end.

(** The total torque about the origin that the stored accelerations
    give at the positions of [w]. *)
Definition torque (w : world) : option vec :=
  match objects (mem w) !! p (self w) with
  | Some o =>
      match phase_of o w, arrays (mem w) !! M_DM o,
            dvdtBH1 o, dvdtBH2 o, dvdtDM o with
      | Some q, Some (A1 ms), Val a1, Val a2, Val rows =>
          match weighted_sum ms (zip_with cross (ph_xDM q) rows) with
          | Done s =>
              Some (vadd (vadd (vscale (M_1 o) (cross (ph_xBH1 q) (acc3_vec a1)))
                               (vscale (M_2 o) (cross (ph_xBH2 q) (acc3_vec a2)))) s)
          | Fail _ => None
          end
      | _, _, _, _, _ => None
      end
  | None => None
  end.

(** The total angular momentum of the particle set is [L0]. *)
Definition turning (o0 : particles) (L0 : vec) (w : world) : Prop :=
  exists o, holds o w /\ fixed o = fixed o0 /\ angular_momentum o w = Some L0.

(** Isolated, with the angular momentum [L0]. *)
Definition spinning (o0 : particles) (P0 L0 : vec) (w : world) : Prop :=
  isolated o0 P0 w /\ turning o0 L0 w.

(** The same, with accelerations stored that give no total force and no
    total torque at the positions of [w]. *)
Definition spinning_balanced (o0 : particles) (P0 L0 : vec) (w : world) : Prop :=
  balanced o0 P0 w /\ turning o0 L0 w /\ torque w = Some vzero.

(** Whether a number is not negative, and whether it is not zero. *)
Definition nonneg (r : R) : bool := if Rle_dec 0 r then true else false.

Definition nonzero (r : R) : bool := if Req_dec_T r 0 then false else true.

(** [regular], decided. *)
Definition regularb (w : world) : bool :=
  match objects (mem w) !! p (self w) with
  | Some o =>
      match arrays (mem w) !! xBH1 o, arrays (mem w) !! xBH2 o,
            arrays (mem w) !! xDM o with
      | Some (V3 x1), Some (V3 x2), Some (M3 xs) =>
          nonneg (r_soft_sq1 (self w)) && nonneg (r_soft_sq2 (self w)) &&
          nonzero (norm_sq (vsub x1 x2)) &&
          forallb (fun x => nonzero (norm_sq (vsub x x1)) &&
                            nonzero (norm_sq (vsub x x2))) xs
      | _, _, _ => false
      end
  | None => false
  end.

(** [m1] returns only as [m2] returns. *)
Definition refines {A : Type} (m1 m2 : M A) : Prop :=
  forall w a w', m1 w = Ok a w' -> m2 w = Ok a w'.

(** From a world in [P], [m1] does what [m2] does, and [m2], when it
    returns, returns in a world in [Q]. *)
Definition same_on (P : world -> Prop) {A : Type} (m1 m2 : M A)
    (Q : world -> Prop) : Prop :=
  forall w, P w -> m1 w = m2 w /\ wp m2 w (fun _ => Q) (fun _ _ => True).

(** Two black holes without tracers that turn about each other: the
    total momentum is zero, the angular momentum is [L0], and the
    settings of the simulator are those of [s0]. *)
Definition orbiting (o0 : particles) (L0 : vec) (s0 : simulator) (w : world)
  : Prop :=
  spinning o0 vzero L0 w /\ static (self w) = static s0.

(** The same, with accelerations stored that give no total force and no
    total torque. *)
Definition orbiting_balanced (o0 : particles) (L0 : vec) (s0 : simulator)
    (w : world) : Prop :=
  spinning_balanced o0 vzero L0 w /\ static (self w) = static s0.

(** ** The integrator over a regular force evaluation *)

Section Guarded.

Context {U : Units}.

(** The force evaluation where its floats are finite: in a world that is
    not regular the accelerations that numpy stores are [nan] or [inf],
    which the model does not hold. *)
Definition update_acceleration_regular : M unit := fun w =>
  if regularb w then update_acceleration w else Raise Unmodelled w.

(** The integrator and the driver over a force evaluation [force] in
    the place of [self.update_acceleration()]. *)
Variable force : M unit.

(** [simulator.full_step], lines 102-157. *)
Definition full_step_with (dt : R) (method : string) (inds : option (list nat))
  : M unit :=
  if String.eqb method "DKD" then
    xstep (0.5 * dt) [inds];;
    force;;
    vstep (1.0 * dt) [inds];;
    xstep (0.5 * dt) [inds]
  else if String.eqb method "KDK" then
    force;;
    vstep (0.5 * dt) [inds];;
    xstep (1.0 * dt) [inds];;
    force;;
    vstep (0.5 * dt) [inds]
  else if String.eqb method "FR" then
    xstep (theta * dt / 2) [];;
    force;;
    vstep (theta * dt) [];;
    xstep ((1 - theta) * dt / 2) [];;
    force;;
    vstep ((1 - 2 * theta) * dt) [];;
    xstep ((1 - theta) * dt / 2) [];;
    force;;
    vstep (theta * dt) [];;
    xstep (theta * dt / 2) []
  else if String.eqb method "PEFRL" then
    xstep (xi * dt) [];;
    force;;
    vstep ((1 - 2 * lam) * dt / 2) [];;
    xstep (chi * dt) [];;
    force;;
    vstep (lam * dt) [];;
    xstep ((1 - 2 * (chi + xi)) * dt) [];;
    force;;
    vstep (lam * dt) [];;
    xstep (chi * dt) [];;
    force;;
    vstep ((1 - 2 * lam) * dt / 2) [];;
    xstep (xi * dt) []
  else mret tt.

(** [simulator.adaptive_step], lines 75-99. *)
Definition adaptive_step_with (dt : R) (method : string) (eta : R) (N_sub_max : Z)
  : M unit :=
  o ← get_p;
  if (N_DM o =? 0)%Z then full_step_with dt method None
  else
    s ← get_self;
    match r2_min s with
    | Missing => raise AttributeError
    | IsNone => force
    | Val _ => mret tt
    end;;
    s ← get_self;
    o ← get_p;
    r ← operand (r2_min s);
    let dt_opt := calc_dt_opt r (M_2 o) eta in
    if x_ge dt_opt dt then full_step_with dt method None
    else
      N_sub ← lift (int_ceil (x_quot dt dt_opt));
      let N_sub := if (N_sub >? N_sub_max)%Z then N_sub_max else N_sub in
      dt_sub ← lift (py_div dt (IZR N_sub));
      for_range N_sub (fun _ => full_step_with dt_sub method None).

(** [simulator.run_simulation], lines 276-475. *)
Definition run_simulation_with (check_state : option (M unit)) (dt t_end : R)
    (method : string) (N_save : Z) (inds : option (list nat)) (eta : R)
    (N_sub_max : Z) : M unit :=
  set_self (with_current_step (Val 0%Z));;
  q ← lift (py_div t_end dt);
  let N_step := Zceil q in
  (if (N_step <? 0)%Z then raise ValueError else mret tt);;
  (if (N_save =? 0)%Z then raise ValueError else mret tt);;
  let N_out := n_out N_step N_save in
  set_self (with_record (Val (mk_recording
    (replicate N_out 0) (replicate N_out 0) (replicate N_out vzero)
    (replicate N_out vzero) (replicate N_out vzero) (replicate N_out vzero))));;
  o ← get_p;
  (if (N_DM o <? 0)%Z then raise ValueError else mret tt);;
  set_self (with_acc_DM1 (Val (DFlat (replicate (Z.to_nat (N_DM o)) 0))));;
  set_self (with_acc_DM2 (Val (DFlat (replicate (Z.to_nat (N_DM o)) 0))));;
  set_self (with_r1_min IsNone);;
  set_self (with_r2_min IsNone);;
  set_self (with_finished (Val false));;
  for_range N_step (fun it =>
    match check_state with Some hook => hook | None => mret tt end;;
    (if (it mod N_save =? 0)%Z then record_state (it / N_save)%Z else mret tt);;
    (if Rlt_dec eta 0 then full_step_with dt method inds
     else adaptive_step_with dt method eta N_sub_max);;
    s ← get_self;
    c ← operand (current_step s);
    set_self (with_current_step (Val (c + 1)%Z)));;
  set_self (with_finished (Val true)).

(** A call of the caller, over [force]. *)
Definition do_call_with (check_state : option (M unit)) (c : call) : M unit :=
  match c with
  | Drift h => xstep h []
  | Kick h => vstep h []
  | UpdateAcceleration => force
  | FullStep dt method inds => full_step_with dt method inds
  | AdaptiveStep dt method eta N_sub_max =>
      adaptive_step_with dt method eta N_sub_max
  | RunSimulation dt t_end method N_save inds eta N_sub_max =>
      run_simulation_with check_state dt t_end method N_save inds eta N_sub_max
  | SetBackgroundField bg => set_self (with_background_field bg)
  end.

End Guarded.

(** ** Further examples *)

(** The example with a background field that pushes along the third
    axis. *)
Definition ex_world_bg : world :=
  mk_world (ex_store true)
    (with_background_field (Some (fun _ => (0, 0, 1))) (ex_simulator "empty_shell")).

(** The example before any force evaluation: [r2_min] is not assigned. *)
Definition ex_world_fresh : world :=
  mk_world (ex_store true) (with_r2_min Missing (ex_simulator "empty_shell")).

(** The example with other velocities. *)
Definition ex_world_fast : world :=
  mk_world
    (mk_store
       (list_to_map
          [(1%positive, A1 [0.001]); (2%positive, V3 (0, 0, 0));
           (3%positive, V3 (0, 0, 3)); (4%positive, V3 (1, 0, 0));
           (5%positive, V3 (0, 7, 0)); (6%positive, M3 [(2, 0, 0)]);
           (7%positive, M3 [(5, 0, 0)])])
       {[1%positive := ex_particles true]})
    (ex_simulator "empty_shell").

(** A single black hole of mass 1000 with one tracer. *)
Definition ex_single : particles :=
  mk_particles 1000 0 1%positive 1 2%positive 3%positive 4%positive
    5%positive 6%positive 7%positive IsNone IsNone Missing false.

Definition ex_world_single : world :=
  mk_world (mk_store (arrays (ex_store false)) {[1%positive := ex_single]})
    (ex_simulator "empty_shell").

(** The example displaced by [(1, 1, 1)]. *)
Definition ex_world_shifted : world :=
  mk_world
    (mk_store
       (list_to_map
          [(1%positive, A1 [0.001]); (2%positive, V3 (vadd (0, 0, 0) (1, 1, 1)));
           (3%positive, V3 (0, 0, 0)); (4%positive, V3 (vadd (1, 0, 0) (1, 1, 1)));
           (5%positive, V3 (0, 1, 0));
           (6%positive, M3 (map (fun x => vadd x (1, 1, 1)) [(2, 0, 0)]));
           (7%positive, M3 [(0, 0, 0)])])
       {[1%positive := ex_particles true]})
    (ex_simulator "empty_shell").

(** Two black holes of mass 1 at distance 1 that turn about their centre
    of mass, with no tracer. *)
Definition ex_pair : particles :=
  mk_particles 1 1 1%positive 0 2%positive 3%positive 4%positive
    5%positive 6%positive 7%positive IsNone IsNone Missing true.

Definition ex_world_pair : world :=
  mk_world
    (mk_store
       (list_to_map
          [(1%positive, A1 []); (2%positive, V3 (0, 0, 0));
           (3%positive, V3 (0, -1, 0)); (4%positive, V3 (1, 0, 0));
           (5%positive, V3 (0, 1, 0)); (6%positive, M3 []);
           (7%positive, M3 [])])
       {[1%positive := ex_pair]})
    (ex_simulator "empty_shell").

(** * Properties *)

(** ** The rules of the calculus *)

Lemma wp_bind {A B} (m : M A) (f : A -> M B) w Q E :
  wp m w (fun a w' => wp (f a) w' Q E) E -> wp (m ≫= f) w Q E.
Proof. unfold wp, mbind, M_bind. destruct (m w); auto. Qed.

Lemma wp_ret {A} (a : A) w (Q : A -> world -> Prop) E : Q a w -> wp (mret a) w Q E.
Proof. auto. Qed.

Lemma wp_raise {A} e w (Q : A -> world -> Prop) (E : exn -> world -> Prop) :
  E e w -> wp (raise e) w Q E.
Proof. auto. Qed.

Lemma wp_lift {A} (r : res A) w (Q : A -> world -> Prop) (E : exn -> world -> Prop) :
  (forall a, r = Done a -> Q a w) -> (forall e, r = Fail e -> E e w) ->
  wp (lift r) w Q E.
Proof. destruct r; unfold wp; simpl; auto. Qed.

Lemma wp_operand {A} (x : attr A) w (Q : A -> world -> Prop) (E : exn -> world -> Prop) :
  (forall a, x = Val a -> Q a w) -> (x = Missing -> E AttributeError w) ->
  (x = IsNone -> E TypeError w) -> wp (operand x) w Q E.
Proof. destruct x; unfold wp; simpl; auto. Qed.

Lemma wp_get_self w (Q : simulator -> world -> Prop) E :
  Q (self w) w -> wp get_self w Q E.
Proof. auto. Qed.

Lemma wp_set_self f w (Q : unit -> world -> Prop) E :
  Q tt (mk_world (mem w) (f (self w))) -> wp (set_self f) w Q E.
Proof. auto. Qed.

Lemma wp_get_p w (Q : particles -> world -> Prop) (E : exn -> world -> Prop) :
  (forall o, objects (mem w) !! p (self w) = Some o -> Q o w) ->
  (objects (mem w) !! p (self w) = None -> E Unmodelled w) ->
  wp get_p w Q E.
Proof. unfold wp, get_p. destruct (objects (mem w) !! p (self w)); auto. Qed.

Lemma wp_set_p f w (Q : unit -> world -> Prop) (E : exn -> world -> Prop) :
  (forall o, objects (mem w) !! p (self w) = Some o ->
     Q tt (mk_world (mk_store (arrays (mem w))
                       (<[p (self w) := f o]> (objects (mem w)))) (self w))) ->
  (objects (mem w) !! p (self w) = None -> E Unmodelled w) ->
  wp (set_p f) w Q E.
Proof. unfold wp, set_p. destruct (objects (mem w) !! p (self w)); auto. Qed.

Lemma wp_read_vec l w (Q : vec -> world -> Prop) (E : exn -> world -> Prop) :
  (forall v, arrays (mem w) !! l = Some (V3 v) -> Q v w) ->
  E Unmodelled w -> wp (read_vec l) w Q E.
Proof. unfold wp, read_vec. destruct (arrays (mem w) !! l) as [[]|]; auto. Qed.

Lemma wp_read_mat l w (Q : list vec -> world -> Prop) (E : exn -> world -> Prop) :
  (forall v, arrays (mem w) !! l = Some (M3 v) -> Q v w) ->
  E Unmodelled w -> wp (read_mat l) w Q E.
Proof. unfold wp, read_mat. destruct (arrays (mem w) !! l) as [[]|]; auto. Qed.

Lemma wp_read_arr l w (Q : list R -> world -> Prop) (E : exn -> world -> Prop) :
  (forall v, arrays (mem w) !! l = Some (A1 v) -> Q v w) ->
  E Unmodelled w -> wp (read_arr l) w Q E.
Proof. unfold wp, read_arr. destruct (arrays (mem w) !! l) as [[]|]; auto. Qed.

Lemma wp_write l a w (Q : unit -> world -> Prop) E :
  Q tt (mk_world (mk_store (<[l := a]> (arrays (mem w))) (objects (mem w))) (self w)) ->
  wp (write l a) w Q E.
Proof. auto. Qed.

Lemma wp_mono {A} (m : M A) w (Q Q' : A -> world -> Prop) (E E' : exn -> world -> Prop) :
  wp m w Q E -> (forall a w', Q a w' -> Q' a w') -> (forall e w', E e w' -> E' e w') ->
  wp m w Q' E'.
Proof. unfold wp. destruct (m w); auto. Qed.

Lemma wp_for_loop (I : world -> Prop) (E : exn -> world -> Prop) body k :
  forall i w, I w ->
  (forall j w', I w' -> wp (body j) w' (fun _ => I) E) ->
  wp (for_loop k i body) w (fun _ => I) E.
Proof.
  induction k as [|k IH]; intros i w Hw Hb; simpl.
  - apply wp_ret. exact Hw.
  - apply wp_bind. eapply wp_mono; [apply Hb, Hw| |auto].
    intros [] w' Hw'. simpl in *. apply IH; auto.
Qed.

(** ** Invariants of the methods *)

Section Preserved.

Variable P : world -> Prop.

Lemma preserved_bind {A B} (m : M A) (f : A -> M B) :
  preserved P m -> (forall a, preserved P (f a)) -> preserved P (m ≫= f).
Proof.
  intros Hm Hf w Hw. apply wp_bind.
  eapply wp_mono; [apply Hm, Hw | | auto].
  intros a w' Hw'. apply Hf, Hw'.
Qed.

Lemma preserved_ret {A} (a : A) : preserved P (mret a).
Proof. intros w Hw. exact Hw. Qed.

Lemma preserved_raise {A} e : preserved P (raise e : M A).
Proof. intros w Hw. exact Hw. Qed.

Lemma preserved_lift {A} (r : res A) : preserved P (lift r).
Proof. intros w Hw. apply wp_lift; auto. Qed.

Lemma preserved_operand {A} (x : attr A) : preserved P (operand x).
Proof. intros w Hw. apply wp_operand; auto. Qed.

Lemma preserved_get_self : preserved P get_self.
Proof. intros w Hw. exact Hw. Qed.

Lemma preserved_get_p : preserved P get_p.
Proof. intros w Hw. apply wp_get_p; auto. Qed.

Lemma preserved_read_vec l : preserved P (read_vec l).
Proof. intros w Hw. apply wp_read_vec; auto. Qed.

Lemma preserved_read_mat l : preserved P (read_mat l).
Proof. intros w Hw. apply wp_read_mat; auto. Qed.

Lemma preserved_read_arr l : preserved P (read_arr l).
Proof. intros w Hw. apply wp_read_arr; auto. Qed.

Lemma preserved_for_loop body k i :
  (forall j, preserved P (body j)) -> preserved P (for_loop k i body).
Proof.
  intros Hb w Hw. apply wp_for_loop; auto.
Qed.

Lemma preserved_for_range body n :
  (forall j, preserved P (body j)) -> preserved P (for_range n body).
Proof. apply preserved_for_loop. Qed.

End Preserved.

Lemma preserved_get_p_bind (P : world -> Prop) {B} (f : particles -> M B) :
  (forall o, preserved (fun w => P w /\ holds o w) (f o)) ->
  preserved P (get_p ≫= f).
Proof.
  intros Hf w Hw. apply wp_bind, wp_get_p; [|auto].
  intros o Ho. eapply wp_mono; [apply (Hf o); split; [exact Hw | exact Ho] | |];
    cbv beta; intros; tauto.
Qed.

Lemma preserved_weaken (P P' : world -> Prop) {A} (m : M A) :
  (forall w, P' w -> P w) -> (forall w, P w -> P' w) -> preserved P m -> preserved P' m.
Proof.
  intros H1 H2 Hm w Hw. eapply wp_mono; [apply Hm, H1, Hw | |]; cbv beta; auto.
Qed.

Create HintDb preserved.

#[global] Hint Resolve preserved_ret preserved_raise preserved_lift preserved_operand
  preserved_get_self preserved_get_p preserved_read_vec preserved_read_mat
  preserved_read_arr : preserved.

Section Frame.

Context {U : Units}.

Variable I : world -> Prop.

Hypothesis I_self : forall w f,
  (forall s, static (f s) = static s) -> I w -> I (mk_world (mem w) (f (self w))).

Hypothesis I_obj : forall w o f,
  (forall o', fixed (f o') = fixed o') -> I w -> holds o w ->
  I (mk_world (mk_store (arrays (mem w)) (<[p (self w) := f o]> (objects (mem w))))
       (self w)).

Lemma preserved_set_self f :
  (forall s, static (f s) = static s) -> preserved I (set_self f).
Proof. intros Hf w Hw. apply wp_set_self. apply I_self; auto. Qed.

Lemma preserved_set_p f :
  (forall o, fixed (f o) = fixed o) -> preserved I (set_p f).
Proof.
  intros Hf w Hw. apply wp_set_p; [|auto].
  intros o Ho. apply I_obj; auto.
Qed.

Ltac pres :=
  repeat first
    [ progress auto with preserved
    | apply preserved_bind; [| intros]
    | apply preserved_set_self; intros []; reflexivity
    | apply preserved_set_p; intros []; reflexivity
    | match goal with
      | |- preserved _ (if ?b then _ else _) => destruct b
      | |- preserved _ (match ?x with _ => _ end) => destruct x
      | |- preserved _ (let _ := _ in _) => cbv zeta
      end ].

Lemma preserved_update_acceleration : preserved I update_acceleration.
Proof. unfold update_acceleration. pres. Qed.

Hypothesis I_write : forall w o l a,
  I w -> holds o w -> l ∈ written o ->
  I (mk_world (mk_store (<[l := a]> (arrays (mem w))) (objects (mem w))) (self w)).

Lemma preserved_write o l a :
  l ∈ written o -> preserved (fun w => I w /\ holds o w) (write l a).
Proof.
  intros Hl w [Hw Ho]. apply wp_write. split; [eapply I_write; eauto | exact Ho].
Qed.

Lemma preserved_iadd_vec o l d :
  l ∈ written o -> preserved (fun w => I w /\ holds o w) (iadd_vec l d).
Proof.
  intros Hl. unfold iadd_vec. apply preserved_bind; [auto with preserved|].
  intros x. now apply preserved_write.
Qed.

Lemma preserved_iadd_mat o l d :
  l ∈ written o -> preserved (fun w => I w /\ holds o w) (iadd_mat l d).
Proof.
  intros Hl. unfold iadd_mat. apply preserved_bind; [auto with preserved|].
  intros x. destruct (length x =? length d)%nat; [now apply preserved_write|].
  destruct d as [|y [|z d]]; auto using preserved_write with preserved.
Qed.

Lemma written_BH1 o : dynamic_BH o = true -> xBH1 o ∈ written o /\ vBH1 o ∈ written o.
Proof. intros H. unfold written. rewrite H. set_solver. Qed.

Lemma written_rest o :
  xBH2 o ∈ written o /\ vBH2 o ∈ written o /\ xDM o ∈ written o /\ vDM o ∈ written o.
Proof. unfold written. set_solver. Qed.

Local Opaque iadd_vec iadd_mat.

Lemma preserved_xstep_body h : preserved I (xstep_body h).
Proof.
  unfold xstep_body. apply preserved_get_p_bind. intros o.
  destruct (written_rest o) as (H1 & H2 & H3 & H4).
  repeat (apply preserved_bind; [| intros]);
    auto using preserved_iadd_vec, preserved_iadd_mat with preserved.
  destruct (dynamic_BH o) eqn:Hd; [|auto with preserved].
  destruct (written_BH1 o Hd).
  apply preserved_bind; [|intros]; auto using preserved_iadd_vec with preserved.
Qed.

Lemma preserved_vstep_body h : preserved I (vstep_body h).
Proof.
  unfold vstep_body. apply preserved_get_p_bind. intros o.
  destruct (written_rest o) as (H1 & H2 & H3 & H4).
  repeat (apply preserved_bind; [| intros]);
    auto using preserved_iadd_vec, preserved_iadd_mat with preserved.
  destruct (dynamic_BH o) eqn:Hd; [|auto with preserved].
  destruct (written_BH1 o Hd).
  apply preserved_bind; [|intros]; auto using preserved_iadd_vec with preserved.
Qed.

Local Transparent iadd_vec iadd_mat.

Lemma preserved_xstep h extra : preserved I (xstep h extra).
Proof. destruct extra; [apply preserved_xstep_body | apply preserved_raise]. Qed.

Lemma preserved_vstep h extra : preserved I (vstep h extra).
Proof. destruct extra; [apply preserved_vstep_body | apply preserved_raise]. Qed.

Local Opaque xstep vstep update_acceleration.

Lemma preserved_full_step dt method inds : preserved I (full_step dt method inds).
Proof.
  unfold full_step.
  repeat match goal with
         | |- preserved _ (if ?b then _ else _) => destruct b
         end;
    repeat (apply preserved_bind; [| intros]);
    auto using preserved_xstep, preserved_vstep, preserved_update_acceleration
      with preserved.
Qed.

Local Opaque full_step.

Lemma preserved_adaptive_step dt method eta N_sub_max :
  preserved I (adaptive_step dt method eta N_sub_max).
Proof.
  unfold adaptive_step.
  apply preserved_bind; [auto with preserved | intros o].
  destruct (N_DM o =? 0)%Z; [apply preserved_full_step|].
  apply preserved_bind; [auto with preserved | intros s].
  apply preserved_bind.
  { destruct (r2_min s); auto using preserved_update_acceleration with preserved. }
  intros _.
  repeat (apply preserved_bind; [auto with preserved | intros]).
  cbv zeta. destruct (x_ge _ _); [apply preserved_full_step|].
  repeat (apply preserved_bind; [auto with preserved | intros]).
  apply preserved_for_range. intros j. apply preserved_full_step.
Qed.

Lemma preserved_record_state i : preserved I (record_state i).
Proof. unfold record_state. pres. Qed.

Local Opaque adaptive_step record_state.

Lemma preserved_run_simulation check_state dt t_end method N_save inds eta N_sub_max :
  (forall hook, check_state = Some hook -> preserved I hook) ->
  preserved I (run_simulation check_state dt t_end method N_save inds eta N_sub_max).
Proof.
  intros Hhook. unfold run_simulation.
  repeat first
    [ apply preserved_for_range; intros
    | apply preserved_bind; [| intros]
    | apply preserved_set_self; intros []; reflexivity
    | apply preserved_full_step
    | apply preserved_adaptive_step
    | apply preserved_record_state
    | progress auto with preserved
    | match goal with
      | |- preserved _ (match check_state with _ => _ end) =>
          destruct check_state; [apply Hhook; reflexivity|]
      | |- preserved _ (if ?b then _ else _) => destruct b
      | |- preserved _ (let _ := _ in _) => cbv zeta
      end ].
Qed.

Local Transparent xstep vstep update_acceleration full_step adaptive_step record_state.

End Frame.

(** ** Running a method forwards and backwards *)

Lemma bind_ok {A B} (m : M A) (f : A -> M B) w a w' :
  m w = Ok a w' -> (m ≫= f) w = f a w'.
Proof. intros H. unfold mbind, M_bind. now rewrite H. Qed.

Lemma bind_raise {A B} (m : M A) (f : A -> M B) w e w' :
  m w = Raise e w' -> (m ≫= f) w = Raise e w'.
Proof. intros H. unfold mbind, M_bind. now rewrite H. Qed.

Lemma wp_final {A} (m : M A) w (P : world -> Prop) :
  wp m w (fun _ => P) (fun _ => P) -> P (final (m w)).
Proof. unfold wp, final. destruct (m w); auto. Qed.

Lemma get_p_holds o w : holds o w -> get_p w = Ok o w.
Proof. unfold holds, get_p. now intros ->. Qed.

(** One step of a method under [wp]: the rule of the statement at its
    head, with what the step read or computed named in the context. *)
Ltac wp_step :=
  lazymatch goal with
  | |- wp (mbind _ _) _ _ _ => apply wp_bind
  | |- wp (mret _) _ _ _ => apply wp_ret
  | |- wp (raise _) _ _ _ => apply wp_raise
  | |- wp (lift _) _ _ _ => apply wp_lift; [intros ? ? | intros ? ?]
  | |- wp (operand _) _ _ _ => apply wp_operand; [intros ? ? | intros ? | intros ?]
  | |- wp get_self _ _ _ => apply wp_get_self
  | |- wp get_p _ _ _ => apply wp_get_p; [intros ? ? | intros ?]
  | |- wp (set_self _) _ _ _ => apply wp_set_self
  | |- wp (set_p _) _ _ _ => apply wp_set_p; [intros ? ? | intros ?]
  | |- wp (read_vec _) _ _ _ => apply wp_read_vec; [intros ? ? | ]
  | |- wp (read_mat _) _ _ _ => apply wp_read_mat; [intros ? ? | ]
  | |- wp (read_arr _) _ _ _ => apply wp_read_arr; [intros ? ? | ]
  | |- wp (write _ _) _ _ _ => apply wp_write
  end; cbv beta zeta; try exact Logic.I.

(** The attributes of an updated record. *)
Ltac proj_simpl :=
  cbn [mem self objects arrays p r_soft_sq1 r_soft_sq2 soft_method soft_method1
       background_field r1_min r2_min acc_DM1 acc_DM2 current_step record
       finished with_r1_min with_r2_min with_acc_DM1 with_acc_DM2
       with_current_step with_record with_finished with_background_field
       M_1 M_2 M_DM N_DM xBH1 vBH1 xBH2 vBH2 xDM vDM dvdtBH1 dvdtBH2 dvdtDM
       dynamic_BH with_dvdtBH1 with_dvdtBH2 with_dvdtDM fst snd] in *.

(** What the steps so far have read is read again as the same value. *)
Ltac wp_clean :=
  unfold holds in *;
  proj_simpl;
  repeat match goal with
         | H : Val _ = Val _ |- _ => injection H as <-
         | H : <[?k := _]> _ !! ?k = Some _ |- _ =>
             rewrite lookup_insert_eq in H; injection H as <-
         | H1 : ?m !! ?k = Some _, H2 : ?m !! ?k = Some _ |- _ =>
             rewrite H1 in H2; injection H2 as <-
         | H : rows_of (DRows _) = Done _ |- _ => injection H as <-
         end.

(** The rules for a step that is known to succeed, or to fail. *)
Lemma wp_get_p_ok o w (Q : particles -> world -> Prop) E :
  holds o w -> Q o w -> wp get_p w Q E.
Proof. intros H HQ. unfold wp. now rewrite (get_p_holds _ _ H). Qed.

Lemma wp_set_p_ok o f w (Q : unit -> world -> Prop) E :
  holds o w ->
  Q tt (mk_world (mk_store (arrays (mem w)) (<[p (self w) := f o]> (objects (mem w))))
          (self w)) ->
  wp (set_p f) w Q E.
Proof. intros H HQ. unfold wp, set_p. unfold holds in H. now rewrite H. Qed.

Lemma wp_read_vec_ok l v w (Q : vec -> world -> Prop) E :
  arrays (mem w) !! l = Some (V3 v) -> Q v w -> wp (read_vec l) w Q E.
Proof. intros H HQ. unfold wp, read_vec. now rewrite H. Qed.

Lemma wp_read_mat_ok l v w (Q : list vec -> world -> Prop) E :
  arrays (mem w) !! l = Some (M3 v) -> Q v w -> wp (read_mat l) w Q E.
Proof. intros H HQ. unfold wp, read_mat. now rewrite H. Qed.

Lemma wp_read_arr_ok l v w (Q : list R -> world -> Prop) E :
  arrays (mem w) !! l = Some (A1 v) -> Q v w -> wp (read_arr l) w Q E.
Proof. intros H HQ. unfold wp, read_arr. now rewrite H. Qed.

Lemma wp_lift_ok {A} (r : res A) a w (Q : A -> world -> Prop) E :
  r = Done a -> Q a w -> wp (lift r) w Q E.
Proof. intros -> HQ. exact HQ. Qed.

Lemma wp_lift_fail {A} (r : res A) e w (Q : A -> world -> Prop) (E : exn -> world -> Prop) :
  r = Fail e -> E e w -> wp (lift r) w Q E.
Proof. intros -> HE. exact HE. Qed.

Lemma wp_returns {A} (m : M A) w :
  wp m w (fun _ _ => True) (fun _ _ => False) -> exists a w', m w = Ok a w'.
Proof. unfold wp. destruct (m w); [eauto | contradiction]. Qed.

Lemma wp_raises {A} (m : M A) w e :
  wp m w (fun _ _ => False) (fun e' _ => e' = e) -> exists w', m w = Raise e w'.
Proof. unfold wp. destruct (m w); [contradiction | intros ->; eauto]. Qed.

Ltac lookup_solve :=
  unfold holds; proj_simpl;
  first [ eassumption | apply lookup_insert_eq ].

Ltac wp_fwd :=
  lazymatch goal with
  | |- wp (mbind _ _) _ _ _ => apply wp_bind
  | |- wp (mret _) _ _ _ => apply wp_ret
  | |- wp get_self _ _ _ => apply wp_get_self
  | |- wp (set_self _) _ _ _ => apply wp_set_self
  | |- wp get_p _ _ _ => eapply wp_get_p_ok; [lookup_solve|]
  | |- wp (set_p _) _ _ _ => eapply wp_set_p_ok; [lookup_solve|]
  | |- wp (read_vec _) _ _ _ => eapply wp_read_vec_ok; [lookup_solve|]
  | |- wp (read_mat _) _ _ _ => eapply wp_read_mat_ok; [lookup_solve|]
  | |- wp (read_arr _) _ _ _ => eapply wp_read_arr_ok; [lookup_solve|]
  | |- wp (operand (Val _)) _ _ _ => apply wp_ret
  | |- wp (write _ _) _ _ _ => apply wp_write
  end; cbv beta zeta; proj_simpl.

Lemma np_min_Done xs : xs <> [] -> exists m, np_min xs = Done m.
Proof. destruct xs; [congruence|]. simpl. eauto. Qed.

Lemma per_row_Done f dx r_sq :
  length dx = length r_sq -> per_row f dx r_sq = Done (zip_with f dx r_sq).
Proof. intros H. unfold per_row. now rewrite H, Nat.eqb_refl. Qed.

Lemma weighted_sum_Done ms acc :
  length ms = length acc -> exists s, weighted_sum ms acc = Done s.
Proof. intros H. unfold weighted_sum, bcast2. rewrite H, Nat.eqb_refl. eauto. Qed.

Lemma bcast2_Done {A B C} (f : A -> B -> C) a b :
  length a = length b -> bcast2 f a b = Done (zip_with f a b).
Proof. intros H. unfold bcast2. now rewrite H, Nat.eqb_refl. Qed.

Lemma py_div_ok a b : b <> 0 -> py_div a b = Done (a / b).
Proof. intros H. unfold py_div. now destruct (Req_dec_T b 0). Qed.

(** ** Numbers and vectors *)

Lemma py_div_Done a b q : py_div a b = Done q -> b <> 0 /\ q = a / b.
Proof.
  unfold py_div. destruct (Req_dec_T b 0); [discriminate|].
  intros [= <-]. auto.
Qed.

Lemma Zceil_spec x : IZR (Zceil x) - 1 < x <= IZR (Zceil x).
Proof.
  unfold Zceil, Int_part. destruct (archimed (- x)) as [H1 H2].
  rewrite opp_IZR, minus_IZR. lra.
Qed.

Lemma Zceil_gt_1 x : 1 < x -> (2 <= Zceil x)%Z.
Proof.
  intros H. destruct (Zceil_spec x) as [_ H2].
  assert (1 < Zceil x)%Z; [|lia].
  apply lt_IZR. lra.
Qed.

Lemma clamp_min (a b : Z) : (if (a >? b)%Z then b else a) = Z.min a b.
Proof. destruct (Z.gtb_spec a b); lia. Qed.

Ltac vec_destruct :=
  repeat match goal with
         | v : vec |- _ => destruct v as [[? ?] ?]
         end.

(** Equations between vectors, component by component. *)
Ltac vec_solve :=
  intros; vec_destruct;
  cbv beta iota zeta delta
    [vadd vsub vscale vconst vzero vdiv vsum foldr map zip_with acc3_vec];
  repeat match goal with |- (_, _) = (_, _) => f_equal end;
  try lra; try (field; repeat split; assumption).

Lemma vadd_zero_l a : vadd vzero a = a.
Proof. vec_solve. Qed.

Lemma vscale_vadd c a b : vscale c (vadd a b) = vadd (vscale c a) (vscale c b).
Proof. vec_solve. Qed.

Lemma vsum_zip_vadd (a b : list vec) :
  length a = length b ->
  vsum (zip_with vadd a b) = vadd (vsum a) (vsum b).
Proof.
  revert b. induction a as [|x a IH]; intros [|y b] Hlen; try discriminate.
  - vec_solve.
  - cbn [zip_with vsum foldr]. fold (vsum (zip_with vadd a b)) (vsum a) (vsum b).
    rewrite IH by (simpl in Hlen; lia). clear. generalize (vsum a) (vsum b). vec_solve.
Qed.

Lemma vsum_map_vscale_r (ms : list R) (x y : vec) :
  vsum (map (fun m => vscale m (vadd x y)) ms) =
  vadd (vsum (map (fun m => vscale m x) ms)) (vsum (map (fun m => vscale m y) ms)).
Proof.
  induction ms as [|m ms IH].
  - vec_solve.
  - cbn [map vsum foldr].
    fold (vsum (map (fun m => vscale m (vadd x y)) ms))
         (vsum (map (fun m => vscale m x) ms)) (vsum (map (fun m => vscale m y) ms)).
    rewrite IH. clear.
    generalize (vsum (map (fun m => vscale m x) ms))
               (vsum (map (fun m => vscale m y) ms)). vec_solve.
Qed.

Lemma zip_with_zip_vadd (ms : list R) (a b : list vec) :
  zip_with vscale ms (zip_with vadd a b) =
  zip_with vadd (zip_with vscale ms a) (zip_with vscale ms b).
Proof.
  revert a b. induction ms as [|m ms IH]; intros [|x a] [|y b]; simpl; try reflexivity.
  now rewrite IH, vscale_vadd.
Qed.

(** The mass-weighted sum is additive in the accelerations, whichever
    way numpy broadcasts the masses against them. *)
Lemma weighted_sum_add (ms : list R) (a b : list vec) (Sa Sb : vec) :
  length a = length b ->
  weighted_sum ms a = Done Sa -> weighted_sum ms b = Done Sb ->
  weighted_sum ms (zip_with vadd a b) = Done (vadd Sa Sb).
Proof.
  intros Hlen Ha Hb. unfold weighted_sum, bcast2 in *.
  rewrite length_zip_with, <- Hlen, Nat.min_id.
  rewrite <- Hlen in Hb.
  destruct (length ms =? length a)%nat eqn:E.
  - injection Ha as <-. injection Hb as <-. f_equal.
    rewrite zip_with_zip_vadd. apply vsum_zip_vadd.
    rewrite !length_zip_with. lia.
  - destruct ms as [|m [|m' ms]].
    + destruct a as [|x [|x' a]]; [discriminate| |discriminate].
      destruct b as [|y [|y' b]]; try discriminate. simpl in *.
      injection Ha as <-. injection Hb as <-. f_equal. vec_solve.
    + injection Ha as <-. injection Hb as <-. f_equal.
      rewrite <- vsum_zip_vadd by (rewrite !length_map; exact Hlen).
      f_equal. clear. revert b.
      induction a as [|x a IH]; intros [|y b]; simpl; try reflexivity.
      now rewrite IH, vscale_vadd.
    + destruct a as [|x [|x' a]]; [discriminate| |discriminate].
      destruct b as [|y [|y' b]]; try discriminate. simpl in *.
      injection Ha as <-. injection Hb as <-. f_equal.
      exact (vsum_map_vscale_r (m :: m' :: ms) x y).
Qed.

Lemma per_row_length f dx r_sq a :
  per_row f dx r_sq = Done a -> length a = length dx.
Proof.
  unfold per_row. destruct (length dx =? length r_sq)%nat eqn:E; [|discriminate].
  intros [= <-]. apply Nat.eqb_eq in E. rewrite length_zip_with. lia.
Qed.

(** ** The force evaluation *)

Section Forces.

Context {U : Units}.

Lemma calc_acc_length M_eff dx r_sq s method a :
  calc_acc M_eff dx r_sq s method = Done a -> length a = length dx.
Proof.
  unfold calc_acc.
  repeat match goal with
         | |- (if ?b then _ else _) = _ -> _ => destruct b
         end; try discriminate; apply per_row_length.
Qed.

(** A force evaluation writes no array. *)
Lemma update_acceleration_arrays w :
  arrays (mem (final (update_acceleration w))) = arrays (mem w).
Proof.
  apply (wp_final update_acceleration w (fun w' => arrays (mem w') = arrays (mem w))).
  apply preserved_update_acceleration; auto.
Qed.

(** After a force evaluation the particle set is the same object, with
    the same masses, count, flag and arrays. *)
Lemma update_acceleration_fixed w w' o :
  holds o w -> update_acceleration w = Ok tt w' ->
  exists o', holds o' w' /\ fixed o' = fixed o.
Proof.
  intros Ho E.
  assert (wp update_acceleration w
            (fun _ w' => exists o', holds o' w' /\ fixed o' = fixed o)
            (fun _ w' => exists o', holds o' w' /\ fixed o' = fixed o)) as H.
  { apply (preserved_update_acceleration
             (fun w' => exists o', holds o' w' /\ fixed o' = fixed o)).
    - intros w0 f Hf (o' & Ho' & Hfix). exists o'. split; [|exact Hfix].
      unfold holds in *. simpl. specialize (Hf (self w0)).
      unfold static in Hf. injection Hf as -> _ _ _ _. exact Ho'.
    - intros w0 o0 f Hf (o' & Ho' & Hfix) Ho0. exists (f o0). split.
      + unfold holds. simpl. apply lookup_insert_eq.
      + unfold holds in *. rewrite Ho0 in Ho'. injection Ho' as ->.
        now rewrite Hf.
    - exists o. split; [exact Ho | reflexivity]. }
  unfold wp in H. now rewrite E in H.
Qed.

(** The kernels of a force evaluation that returns: the tracers are
    accelerated towards the primary by [soft_method1] with the effective
    mass [M1_eff] and the softening [r_soft_sq1], and towards a secondary
    of positive mass by [soft_method] with [M2_eff] and [r_soft_sq2]. *)
Lemma update_acceleration_kernels (w w' : world) (o : particles) :
  holds o w -> update_acceleration w = Ok tt w' ->
  exists xs x1 a1,
    arrays (mem w) !! xDM o = Some (M3 xs) /\
    arrays (mem w) !! xBH1 o = Some (V3 x1) /\
    calc_acc (M1_eff o) (unit_dx xs x1) (dist_sq xs x1)
      (r_soft_sq1 (self w)) (soft_method1 (self w)) = Done a1 /\
    acc_DM1 (self w') = Val (DRows a1) /\
    (0 < M_2 o ->
     exists x2 a2,
       arrays (mem w) !! xBH2 o = Some (V3 x2) /\
       calc_acc (M2_eff o) (unit_dx xs x2) (dist_sq xs x2)
         (r_soft_sq2 (self w)) (soft_method (self w)) = Done a2 /\
       acc_DM2 (self w') = Val (DRows a2)) /\
    (~ 0 < M_2 o -> acc_DM2 (self w') = Val (DScalar 0.0)).
Proof.
  intros Ho E. pattern w'.
  match goal with
  | |- ?Q w' => enough (wp update_acceleration w (fun _ => Q) (fun _ _ => True)) as H
  end.
  { unfold wp in H. now rewrite E in H. }
  clear E w'. unfold update_acceleration.
  wp_step. wp_step. wp_clean.
  unfold M1_eff, M2_eff.
  destruct (dynamic_BH o); destruct (Rlt_dec 0 (M_2 o)); destruct (0 <? N_DM o)%Z;
    destruct (background_field (self w)) eqn:Hbg;
    repeat (wp_step; wp_clean; try rewrite Hbg).
  all: repeat match goal with
              | H : py_div _ _ = Done _ |- _ =>
                  apply py_div_Done in H as [? ->]
              end.
  all: eexists _, _, _; repeat match goal with |- _ /\ _ => split end;
       try eassumption; try reflexivity; try (intros; contradiction).
  all: intros _; eexists _, _; repeat match goal with |- _ /\ _ => split end;
       try eassumption; try reflexivity.
Qed.

Lemma calc_dt_opt_finite r M_ eta :
  0 < M_ -> 0 <= r ->
  calc_dt_opt r M_ eta = Finite (eta * (2 * PI * sqrt (r ^ 3 / (G_N * M_)))).
Proof.
  intros HM Hr. unfold calc_dt_opt, np_divide.
  pose proof G_N_pos as HG.
  assert (0 < G_N * M_) as HGM by (apply Rmult_lt_0_compat; assumption).
  destruct (Req_dec_T (G_N * M_) 0) as [E|_]; [lra|].
  unfold np_sqrt.
  assert (0 <= r ^ 3 / (G_N * M_)) as Hq.
  { apply Rmult_le_pos; [apply pow_le, Hr | left; apply Rinv_0_lt_compat, HGM]. }
  destruct (Rlt_dec (r ^ 3 / (G_N * M_)) 0) as [E|_]; [lra|].
  reflexivity.
Qed.

Lemma calc_acc_known M_eff dx r_sq s method :
  known_kernel method -> length dx = length r_sq ->
  exists a, calc_acc M_eff dx r_sq s method = Done a /\ length a = length dx.
Proof.
  intros Hk Hlen. unfold known_kernel in Hk. unfold calc_acc.
  assert (forall f, exists a, per_row f dx r_sq = Done a /\ length a = length dx) as Hp.
  { intros f. eexists. split; [apply per_row_Done, Hlen|].
    rewrite length_zip_with. lia. }
  repeat (apply elem_of_cons in Hk as [-> | Hk]; [simpl; apply Hp|]).
  now apply elem_of_nil in Hk.
Qed.

Lemma calc_acc_unknown M_eff dx r_sq s method :
  ~ known_kernel method -> calc_acc M_eff dx r_sq s method = Fail ValueError.
Proof.
  intros Hk. unfold calc_acc.
  repeat match goal with
         | |- (if String.eqb ?m ?k then _ else _) = _ =>
             destruct (String.eqb_spec m k) as [->|_];
             [exfalso; apply Hk; unfold known_kernel; set_solver|]
         end.
  reflexivity.
Qed.


(** A lifted computation whose success follows from the shapes. *)
Ltac wp_lift_fwd :=
  lazymatch goal with
  | |- wp (lift (py_div ?a ?b)) _ _ _ => eapply wp_lift_ok; [apply py_div_ok | ]
  | |- wp (lift (np_min ?xs)) _ _ _ =>
      let m := fresh "m" in let H := fresh "Hmin" in
      destruct (np_min_Done xs) as [m H]; [ | eapply wp_lift_ok; [exact H|]]
  | |- wp (lift (calc_acc ?M ?dx ?r ?s ?k)) _ _ _ =>
      let a := fresh "a" in let Ha := fresh "Ha" in let Hl := fresh "Hl" in
      destruct (calc_acc_known M dx r s k) as (a & Ha & Hl);
      [ | | eapply wp_lift_ok; [exact Ha|]]
  | |- wp (lift (weighted_sum ?ms ?acc)) _ _ _ =>
      let s := fresh "s" in let Hs := fresh "Hs" in
      destruct (weighted_sum_Done ms acc) as [s Hs]; [ | eapply wp_lift_ok; [exact Hs|]]
  | |- wp (lift (rows_of (DRows _))) _ _ _ => eapply wp_lift_ok; [reflexivity|]
  | |- wp (lift (accDM_add _ _)) _ _ _ =>
      eapply wp_lift_ok; [cbn [accDM_add]; first [apply bcast2_Done | reflexivity] |]
  | |- wp (lift (bcast2 _ _ _)) _ _ _ => eapply wp_lift_ok; [apply bcast2_Done|]
  end; cbv beta zeta; proj_simpl.


(** On a well-formed particle set with a positive primary mass and known
    kernels, a force evaluation returns. *)
Lemma update_acceleration_returns (w : world) (o : particles) :
  well_formed w o ->
  0 < M_1 o -> 0 <= M_2 o ->
  known_kernel (soft_method1 (self w)) ->
  (0 < M_2 o -> known_kernel (soft_method (self w))) ->
  exists w', update_acceleration w = Ok tt w'.
Proof.
  intros [Ho HN (ms & Hms & Lms) (x1 & Hx1) _ (x2 & Hx2) _ (xs & Hxs & Lxs) _]
    HM1 HM2 Hk1 Hk2.
  destruct (wp_returns update_acceleration w) as ([] & w' & E); [|eauto].
  unfold update_acceleration.
  wp_fwd. wp_fwd. wp_fwd. wp_fwd.
  assert (forall x, (0 <? N_DM o)%Z = true ->
            map sqrt (map norm_sq (map (fun y => vsub y x) xs)) <> []) as Hne.
  { intros x HN' Hnil. apply Z.ltb_lt in HN'.
    apply (f_equal length) in Hnil. rewrite !length_map in Hnil. simpl in Hnil. lia. }
  destruct (dynamic_BH o); destruct (Rlt_dec 0 (M_2 o)) as [HM2'|HM2'];
    destruct (0 <? N_DM o)%Z eqn:HN';
    destruct (background_field (self w)) eqn:Hbg;
    repeat first [ wp_fwd | wp_lift_fwd | rewrite Hbg ].
  all: try exact Logic.I; try assumption; try (apply Hne; reflexivity);
       try (apply Hk2; assumption); try lra.
  all: try (rewrite ?length_zip_with, ?length_map in *; lia).
  all: apply Rgt_not_eq, Rdiv_lt_0_compat; [apply Rmult_lt_0_compat|]; lra.
Qed.

Lemma update_acceleration_unknown_kernel (w : world) (o : particles) :
  well_formed w o ->
  0 < M_1 o -> 0 < M_2 o ->
  known_kernel (soft_method1 (self w)) ->
  ~ known_kernel (soft_method (self w)) ->
  exists w', update_acceleration w = Raise ValueError w'.
Proof.
  intros [Ho HN (ms & Hms & Lms) (x1 & Hx1) _ (x2 & Hx2) _ (xs & Hxs & Lxs) _]
    HM1 HM2 Hk1 Hk2.
  apply wp_raises.
  unfold update_acceleration.
  wp_fwd. wp_fwd. wp_fwd. wp_fwd.
  assert (forall x, (0 <? N_DM o)%Z = true ->
            map sqrt (map norm_sq (map (fun y => vsub y x) xs)) <> []) as Hne.
  { intros x HN' Hnil. apply Z.ltb_lt in HN'.
    apply (f_equal length) in Hnil. rewrite !length_map in Hnil. simpl in Hnil. lia. }
  destruct (Rlt_dec 0 (M_2 o)) as [_|]; [|contradiction].
  destruct (dynamic_BH o); destruct (0 <? N_DM o)%Z eqn:HN';
    repeat first
      [ wp_fwd
      | lazymatch goal with
        | |- wp (lift (calc_acc _ _ _ (r_soft_sq2 _) _)) _ _ _ =>
            eapply wp_lift_fail; [apply calc_acc_unknown, Hk2 | reflexivity]
        end
      | wp_lift_fwd ].
  all: try exact Logic.I; try assumption; try (apply Hne; reflexivity); try lra.
  all: try (rewrite ?length_zip_with, ?length_map in *; lia).
Qed.

End Forces.

(** ** Sequences of calls *)

Section Calls.
Context {U : Units}.

Lemma preserved_do_call (I : world -> Prop) check_state c :
  closed I ->
  (forall hook, check_state = Some hook -> preserved I hook) ->
  preserved I (do_call check_state c).
Proof.
  intros (Hs & Ho & Hw) Hhook. destruct c; cbn [do_call].
  - now apply preserved_xstep.
  - now apply preserved_vstep.
  - now apply preserved_update_acceleration.
  - now apply preserved_full_step.
  - now apply preserved_adaptive_step.
  - now apply preserved_run_simulation.
  - apply preserved_set_self; [exact Hs|]. now intros [].
Qed.

Lemma run_calls_closed (I : world -> Prop) check_state cs w :
  closed I ->
  (forall hook, check_state = Some hook -> preserved I hook) ->
  I w -> I (run_calls check_state cs w).
Proof.
  intros Hc Hhook. revert w. induction cs as [|c cs IH]; intros w Hw; simpl.
  - exact Hw.
  - apply IH. apply wp_final. now apply preserved_do_call.
Qed.

End Calls.

(** *** Invariants *)

Lemma closed_static (s0 : simulator) :
  closed (fun w => static (self w) = static s0).
Proof.
  repeat split.
  - intros w f Hf Hw. simpl. now rewrite Hf.
  - intros w o f _ Hw _. exact Hw.
  - intros w o l a Hw _ _. exact Hw.
Qed.

Lemma fixed_written o o' : fixed o' = fixed o -> written o' = written o.
Proof.
  unfold fixed, written. intros H.
  injection H as _ _ _ _ H1 H1' H2 H2' H3 H3' H4.
  now rewrite H1, H1', H2, H2', H3, H3', H4.
Qed.

Lemma fixed_arrays_of o o' : fixed o' = fixed o -> arrays_of o' = arrays_of o.
Proof.
  unfold fixed, arrays_of. intros H.
  injection H as _ _ H0 _ H1 H1' H2 H2' H3 H3' _.
  now rewrite H0, H1, H1', H2, H2', H3, H3'.
Qed.

Lemma written_arrays_of o l : l ∈ written o -> l ∈ arrays_of o.
Proof.
  unfold written, arrays_of. intros H.
  destruct (dynamic_BH o); simpl in H;
    repeat (apply elem_of_cons in H as [-> | H]);
    try (now apply elem_of_nil in H);
    repeat (apply elem_of_cons; first [left; reflexivity | right]).
Qed.

Lemma static_p (f : simulator -> simulator) s :
  static (f s) = static s -> p (f s) = p s.
Proof. unfold static. now intros [= -> _ _ _ _]. Qed.

Lemma closed_same_particles (o : particles) : closed (same_particles o).
Proof.
  split; [|split].
  - intros w f Hf (o' & Ho' & Hfix). exists o'. split; [|exact Hfix].
    unfold holds in *. simpl. now rewrite static_p.
  - intros w o0 f Hf (o' & Ho' & Hfix) Ho0. exists (f o0). split.
    + unfold holds. simpl. apply lookup_insert_eq.
    + unfold holds in *. rewrite Ho0 in Ho'. injection Ho' as ->. now rewrite Hf.
  - intros w o0 l a (o' & Ho' & Hfix) _ _. exists o'. split; [exact Ho' | exact Hfix].
Qed.

Lemma closed_and (I J : world -> Prop) :
  closed I -> closed J -> closed (fun w => I w /\ J w).
Proof.
  intros (I1 & I2 & I3) (J1 & J2 & J3). split; [|split].
  - intros w f Hf [HI HJ]. split; [now apply I1 | now apply J1].
  - intros w o f Hf [HI HJ] Ho. split; [now apply (I2 w o f) | now apply (J2 w o f)].
  - intros w o l a [HI HJ] Ho Hl.
    split; [now apply (I3 w o l a) | now apply (J3 w o l a)].
Qed.

Lemma closed_primary_at_rest (w : world) (o : particles) :
  xBH1 o ∉ written o -> vBH1 o ∉ written o ->
  closed (fun w' => same_particles o w' /\ primary_at_rest o w w').
Proof.
  intros Hx Hv. destruct (closed_same_particles o) as (S1 & S2 & S3).
  split; [|split].
  - intros w0 f Hf [Hs Hr]. split; [|exact Hr]. now apply S1.
  - intros w0 o0 f Hf [Hs Hr] Ho0. split; [|exact Hr]. now apply (S2 w0 o0 f).
  - intros w0 o0 l a [Hs [Hr1 Hr2]] Ho0 Hl. split.
    { now apply (S3 w0 o0 l a). }
    destruct Hs as (o' & Ho' & Hfix).
    unfold holds in *. rewrite Ho0 in Ho'. injection Ho' as ->.
    rewrite (fixed_written _ _ Hfix) in Hl.
    split; simpl; (rewrite lookup_insert_ne; [assumption|]); intros ->; contradiction.
Qed.

Lemma closed_untouched (σ : store) : closed (untouched σ).
Proof.
  split; [|split].
  - intros w f Hf (Ha & Ho & Hp & Hl). repeat split; try assumption.
    + simpl. now rewrite static_p.
    + intros o Hh. apply Hl. unfold holds in *. simpl in Hh.
      now rewrite static_p in Hh.
  - intros w o f Hf (Ha & Ho & Hp & Hl) Hh. repeat split; try assumption.
    + simpl. now apply insert_subseteq_r.
    + intros o' Ho' l Hin. unfold holds in Ho'. simpl in Ho'.
      rewrite lookup_insert_eq in Ho'. injection Ho' as <-.
      rewrite (fixed_arrays_of o (f o) (Hf o)) in Hin. now apply (Hl o).
  - intros w o l a (Ha & Ho & Hp & Hl) Hh Hin. repeat split; try assumption.
    simpl. apply insert_subseteq_r; [|exact Ha].
    apply (Hl o Hh). now apply written_arrays_of.
Qed.

(** ** The constructor *)

Lemma copy_array_fresh (h0 : gmap loc ndarray) l st l' st' :
  h0 ⊆ fst st ->
  (forall k v, snd st !! k = Some v -> h0 !! v = None) ->
  copy_array l st = Done (l', st') ->
  h0 ⊆ fst st' /\
  (forall k v, snd st' !! k = Some v -> h0 !! v = None) /\
  h0 !! l' = None.
Proof.
  intros Hsub Hmemo. unfold copy_array.
  destruct (snd st !! l) as [k|] eqn:Em.
  - intros [= <- <-]. eauto.
  - destruct (fst st !! l) as [a|] eqn:Eh; [|discriminate].
    intros [= <- <-]. simpl.
    assert (h0 !! fresh (dom (fst st)) = None) as Hnew.
    { apply (lookup_weaken_None _ (fst st)); [|exact Hsub].
      apply not_elem_of_dom, is_fresh. }
    split; [now apply insert_subseteq_r|]. split; [|exact Hnew].
    intros k v. rewrite lookup_insert. destruct (decide (l = k)).
    + now intros [= <-].
    + apply Hmemo.
Qed.

Lemma deepcopy_fresh (σ : store) ps l σ' :
  deepcopy ps σ = Done (l, σ') ->
  arrays σ ⊆ arrays σ' /\
  objects σ !! l = None /\
  exists o o', objects σ !! ps = Some o /\
    objects σ' = <[l := o']> (objects σ) /\
    fixed o' = (M_1 o, M_2 o, M_DM o', N_DM o, (xBH1 o', vBH1 o'),
                (xBH2 o', vBH2 o'), (xDM o', vDM o'), dynamic_BH o) /\
    forall k, k ∈ arrays_of o' -> arrays σ !! k = None.
Proof.
  unfold deepcopy. destruct (objects σ !! ps) as [o|] eqn:Eo; [|discriminate].
  assert (arrays σ ⊆ fst (arrays σ, (∅ : gmap loc loc))) as H0 by reflexivity.
  assert (forall k v, snd (arrays σ, (∅ : gmap loc loc)) !! k = Some v ->
                      arrays σ !! v = None) as M0.
  { intros k v. simpl. now rewrite lookup_empty. }
  revert H0 M0. generalize (arrays σ, (∅ : gmap loc loc)). intros st0 H0 M0.
  destruct (copy_array (M_DM o) st0) as [[l1 st1]|] eqn:E1; [|discriminate].
  destruct (copy_array_fresh _ _ _ _ _ H0 M0 E1) as (H1 & M1 & F1).
  cbn [res_bind].
  destruct (copy_array (xBH1 o) st1) as [[l2 st2]|] eqn:E2; [|discriminate].
  destruct (copy_array_fresh _ _ _ _ _ H1 M1 E2) as (H2 & M2 & F2).
  cbn [res_bind].
  destruct (copy_array (vBH1 o) st2) as [[l3 st3]|] eqn:E3; [|discriminate].
  destruct (copy_array_fresh _ _ _ _ _ H2 M2 E3) as (H3 & M3' & F3).
  cbn [res_bind].
  destruct (copy_array (xBH2 o) st3) as [[l4 st4]|] eqn:E4; [|discriminate].
  destruct (copy_array_fresh _ _ _ _ _ H3 M3' E4) as (H4 & M4 & F4).
  cbn [res_bind].
  destruct (copy_array (vBH2 o) st4) as [[l5 st5]|] eqn:E5; [|discriminate].
  destruct (copy_array_fresh _ _ _ _ _ H4 M4 E5) as (H5 & M5 & F5).
  cbn [res_bind].
  destruct (copy_array (xDM o) st5) as [[l6 st6]|] eqn:E6; [|discriminate].
  destruct (copy_array_fresh _ _ _ _ _ H5 M5 E6) as (H6 & M6 & F6).
  cbn [res_bind].
  destruct (copy_array (vDM o) st6) as [[l7 st7]|] eqn:E7; [|discriminate].
  destruct (copy_array_fresh _ _ _ _ _ H6 M6 E7) as (H7 & M7 & F7).
  cbn [res_bind].
  intros [= <- <-]. cbn [arrays objects].
  split; [exact H7|]. split; [apply not_elem_of_dom, is_fresh|].
  eexists o, _. split; [reflexivity|]. split; [reflexivity|]. split; [reflexivity|].
  intros k Hk. unfold arrays_of in Hk. cbn in Hk.
  repeat (apply elem_of_cons in Hk as [-> | Hk]; [assumption|]).
  now apply elem_of_nil in Hk.
Qed.

Lemma simulator_init_untouched (σ : store) ps r2 r1 sm w0 :
  simulator_init ps r2 r1 sm σ = Done w0 ->
  untouched σ w0 /\
  soft_method (self w0) = sm /\ soft_method1 (self w0) = "uniform" /\
  background_field (self w0) = None.
Proof.
  unfold simulator_init.
  destruct (deepcopy ps σ) as [[l σ']|] eqn:E; [|discriminate].
  cbn [res_bind]. intros [= <-]. cbn.
  destruct (deepcopy_fresh _ _ _ _ E) as (Ha & Hl & o & o' & Ho & Hobj & _ & Hfresh).
  split; [|auto]. unfold untouched, holds. cbn.
  split; [exact Ha|]. split.
  { rewrite Hobj. now apply insert_subseteq. }
  split; [exact Hl|].
  intros o'' Ho''. rewrite Hobj, lookup_insert_eq in Ho''. injection Ho'' as <-.
  exact Hfresh.
Qed.

(** ** The kernel "uniform" near [r_soft_sq] *)

Lemma sqrt_near_1 a : 0 <= a -> Rabs (sqrt a - 1) <= Rabs (a - 1).
Proof.
  intros Ha. pose proof (sqrt_pos a) as Hs. pose proof (sqrt_sqrt a Ha) as Hq.
  assert (a - 1 = (sqrt a - 1) * (sqrt a + 1)) as -> by (rewrite <- Hq at 1; ring).
  rewrite Rabs_mult, (Rabs_pos_eq (sqrt a + 1)) by lra.
  pose proof (Rabs_pos (sqrt a - 1)). nra.
Qed.

Lemma norm_sq_vscale c d : norm_sq (vscale c d) = c ^ 2 * norm_sq d.
Proof. destruct d as [[d1 d2] d3]. unfold norm_sq, vscale. ring. Qed.

Lemma norm_sq_nonneg d : 0 <= norm_sq d.
Proof. destruct d as [[d1 d2] d3]. unfold norm_sq. nra. Qed.

Lemma vsub_vscale c c' d : vsub (vscale c d) (vscale c' d) = vscale (c - c') d.
Proof. destruct d as [[d1 d2] d3]. unfold vsub, vscale. f_equal; [f_equal|]; ring. Qed.

Section Kernels.

Context {U : Units}.

(** Within [r_soft_sq/2] of [r_soft_sq] the kernel "uniform" is a multiple
    of [dx] whose factor is, in [r_sq], Lipschitz at [r_soft_sq]. *)
Lemma acc_uniform_near M_eff r_soft_sq dx r_sq :
  0 < r_soft_sq -> Rabs (r_sq - r_soft_sq) < r_soft_sq / 2 ->
  exists c,
    acc_uniform M_eff r_soft_sq dx r_sq = vscale c dx /\
    Rabs (c - (- G_N * M_eff * 1 / r_soft_sq)) <=
      2 * G_N * Rabs M_eff / r_soft_sq ^ 2 * Rabs (r_sq - r_soft_sq).
Proof.
  intros Hs Hr. pose proof G_N_pos as HG.
  assert (r_soft_sq / 2 < r_sq) as Hlo.
  { apply Rabs_def2 in Hr. lra. }
  assert (0 <= r_sq / r_soft_sq) as Hq.
  { apply Rlt_le, Rdiv_lt_0_compat; lra. }
  pose proof (Rabs_pos M_eff) as HM. pose proof (Rabs_pos (r_sq - r_soft_sq)) as Hd.
  unfold acc_uniform, np_divide, np_sqrt.
  destruct (Req_dec_T r_soft_sq 0) as [|_]; [lra|].
  destruct (Rlt_dec (r_sq / r_soft_sq) 0) as [|_]; [lra|].
  destruct (Rle_dec (sqrt (r_sq / r_soft_sq)) 1) as [Hin|Hout].
  - eexists. split; [reflexivity|].
    replace (- G_N * M_eff * sqrt (r_sq / r_soft_sq) / r_soft_sq -
             - G_N * M_eff * 1 / r_soft_sq)
      with (- G_N * M_eff / r_soft_sq * (sqrt (r_sq / r_soft_sq) - 1))
      by (field; lra).
    rewrite Rabs_mult.
    pose proof (sqrt_near_1 _ Hq) as Hn.
    replace (r_sq / r_soft_sq - 1) with ((r_sq - r_soft_sq) * / r_soft_sq) in Hn
      by (field; lra).
    rewrite Rabs_mult, (Rabs_pos_eq (/ r_soft_sq)) in Hn
      by (apply Rlt_le, Rinv_0_lt_compat; lra).
    replace (- G_N * M_eff / r_soft_sq) with (- (G_N / r_soft_sq) * M_eff)
      by (field; lra).
    rewrite Rabs_mult, Rabs_Ropp, (Rabs_pos_eq (G_N / r_soft_sq))
      by (apply Rlt_le, Rdiv_lt_0_compat; lra).
    apply Rle_trans with
      (G_N / r_soft_sq * Rabs M_eff * (Rabs (r_sq - r_soft_sq) * / r_soft_sq)).
    + apply Rmult_le_compat_l; [|exact Hn].
      apply Rmult_le_pos; [apply Rlt_le, Rdiv_lt_0_compat; lra | exact HM].
    + replace (G_N / r_soft_sq * Rabs M_eff * (Rabs (r_sq - r_soft_sq) * / r_soft_sq))
        with (G_N * Rabs M_eff / r_soft_sq ^ 2 * Rabs (r_sq - r_soft_sq))
        by (field; lra).
      apply Rmult_le_compat_r; [exact Hd|].
      assert (0 <= G_N * Rabs M_eff / r_soft_sq ^ 2).
      { apply Rmult_le_pos; [nra|]. apply Rlt_le, Rinv_0_lt_compat. nra. }
      lra.
  - eexists. split; [reflexivity|].
    replace (- G_N * M_eff * / r_sq - - G_N * M_eff * 1 / r_soft_sq)
      with (G_N / (r_sq * r_soft_sq) * M_eff * (r_sq - r_soft_sq))
      by (field; lra).
    assert (0 < G_N / (r_sq * r_soft_sq)) as Hpos.
    { apply Rdiv_lt_0_compat; [lra | nra]. }
    rewrite !Rabs_mult, (Rabs_pos_eq (G_N / (r_sq * r_soft_sq))) by lra.
    apply Rmult_le_compat_r; [exact Hd|].
    replace (2 * G_N * Rabs M_eff / r_soft_sq ^ 2)
      with (2 * G_N / r_soft_sq ^ 2 * Rabs M_eff) by (field; lra).
    apply Rmult_le_compat_r; [exact HM|].
    apply (Rmult_le_reg_r (r_sq * r_soft_sq ^ 2)).
    { apply Rmult_lt_0_compat; [lra | apply pow_lt; lra]. }
    replace (G_N / (r_sq * r_soft_sq) * (r_sq * r_soft_sq ^ 2))
      with (G_N * r_soft_sq) by (field; lra).
    replace (2 * G_N / r_soft_sq ^ 2 * (r_sq * r_soft_sq ^ 2))
      with (2 * G_N * r_sq) by (field; lra).
    nra.
Qed.

(** The acceleration of the kernel "uniform" is, as a function of [r_sq],
    continuous at [r_soft_sq]. *)
Lemma acc_uniform_continuous M_eff r_soft_sq dx :
  0 < r_soft_sq ->
  forall eps, 0 < eps ->
  exists delta, 0 < delta /\
    forall r_sq, Rabs (r_sq - r_soft_sq) < delta ->
      norm_sq (vsub (acc_uniform M_eff r_soft_sq dx r_sq)
                    (vscale (- G_N * M_eff * 1 / r_soft_sq) dx)) < eps.
Proof.
  intros Hs eps Heps. pose proof G_N_pos as HG.
  set (K := 2 * G_N * Rabs M_eff / r_soft_sq ^ 2).
  assert (0 <= K) as HK.
  { unfold K. pose proof (Rabs_pos M_eff).
    apply Rmult_le_pos; [nra|]. apply Rlt_le, Rinv_0_lt_compat. nra. }
  pose proof (norm_sq_nonneg dx) as HN.
  set (B := K ^ 2 * norm_sq dx + 1).
  assert (1 <= B) as HB by (unfold B; nra).
  exists (Rmin (r_soft_sq / 2) (Rmin 1 (eps / B))).
  assert (0 < eps / B) as HeB by (apply Rdiv_lt_0_compat; lra).
  split.
  { repeat apply Rmin_glb_lt; lra. }
  intros r_sq Hr.
  assert (Rabs (r_sq - r_soft_sq) < r_soft_sq / 2) as H1
    by (eapply Rlt_le_trans; [exact Hr | apply Rmin_l]).
  assert (Rabs (r_sq - r_soft_sq) < 1) as H2.
  { eapply Rlt_le_trans; [exact Hr|].
    eapply Rle_trans; [apply Rmin_r | apply Rmin_l]. }
  assert (Rabs (r_sq - r_soft_sq) < eps / B) as H3.
  { eapply Rlt_le_trans; [exact Hr|].
    eapply Rle_trans; [apply Rmin_r | apply Rmin_r]. }
  destruct (acc_uniform_near M_eff r_soft_sq dx r_sq Hs H1) as (c & -> & Hc).
  fold K in Hc.
  rewrite vsub_vscale, norm_sq_vscale.
  set (e := c - - G_N * M_eff * 1 / r_soft_sq) in *.
  set (d := Rabs (r_sq - r_soft_sq)) in *.
  assert (0 <= d) as Hd by apply Rabs_pos.
  assert (e ^ 2 <= (K * d) ^ 2) as He.
  { rewrite <- (pow2_abs e). apply pow_incr. split; [apply Rabs_pos | exact Hc]. }
  assert (d * B < eps) as HdB.
  { apply (Rmult_lt_reg_r (/ B)); [apply Rinv_0_lt_compat; lra|].
    replace (d * B * / B) with d by (field; lra). exact H3. }
  assert (d ^ 2 <= d) as Hdd by nra.
  apply Rle_lt_trans with (d * B); [|exact HdB].
  unfold B.
  apply Rle_trans with ((K * d) ^ 2 * norm_sq dx); [nra|].
  replace ((K * d) ^ 2 * norm_sq dx) with (d ^ 2 * (K ^ 2 * norm_sq dx)) by ring.
  assert (0 <= K ^ 2 * norm_sq dx) by nra.
  nra.
Qed.

End Kernels.

(** ** The force evaluation with a fixed primary *)

Section FixedPrimary.

Context {U : Units}.

(** The accelerations of the black holes with a fixed primary, a
    secondary and no background field. *)
Lemma update_acceleration_fixed_primary (w w' : world) (o : particles) :
  holds o w -> dynamic_BH o = false -> 0 < M_2 o ->
  background_field (self w) = None ->
  update_acceleration w = Ok tt w' ->
  exists o' x1 x2 ms a2 S2,
    holds o' w' /\
    arrays (mem w) !! xBH1 o = Some (V3 x1) /\
    arrays (mem w) !! xBH2 o = Some (V3 x2) /\
    arrays (mem w) !! M_DM o = Some (A1 ms) /\
    acc_DM2 (self w') = Val (DRows a2) /\
    weighted_sum ms a2 = Done S2 /\
    dvdtBH1 o' = Val (Scalar 0.0) /\
    dvdtBH2 o' =
      Val (Vector
             (vsub (vscale (- (M1_eff o / M2_eff o))
                      (vscale (- G_N * M2_eff o *
                               Rpower (norm_sq (vsub x1 x2)) (- 1.5))
                         (vsub x1 x2)))
                   (vscale (1 / M2_eff o) S2))).
Proof.
  intros Ho Hdyn HM2 Hbg E. pattern w'.
  match goal with
  | |- ?Q w' => enough (wp update_acceleration w (fun _ => Q) (fun _ _ => True)) as H
  end.
  { unfold wp in H. now rewrite E in H. }
  clear E w'. unfold update_acceleration.
  wp_step. wp_step. wp_clean.
  unfold M1_eff, M2_eff.
  destruct (Rlt_dec 0 (M_2 o)) as [_|]; [|contradiction].
  rewrite Hdyn.
  destruct (0 <? N_DM o)%Z; repeat (wp_step; wp_clean).
  all: rewrite Hbg; wp_step.
  all: repeat match goal with
              | H : py_div _ _ = Done _ |- _ =>
                  apply py_div_Done in H as [? ->]
              end.
  all: eexists _, _, _, _, _, _.
  all: repeat match goal with |- _ /\ _ => split end.
  all: unfold holds; proj_simpl; rewrite ?lookup_insert_eq; proj_simpl;
       try reflexivity; try eassumption.
Qed.

End FixedPrimary.

(** ** The example *)

(** The example is well formed. *)
Lemma ex_well_formed dynamic method :
  well_formed (ex_world dynamic method) (ex_particles dynamic).
Proof.
  split; try reflexivity; try (simpl; lia);
    try (eexists; reflexivity); try (eexists; split; reflexivity).
Qed.

(** In the example the three bodies are apart. *)
Lemma ex_regular dynamic method :
  regular (ex_world dynamic method) (ex_particles dynamic).
Proof.
  split; [cbn; lra|]. split; [cbn; lra|].
  exists (0, 0, 0), (1, 0, 0), [(2, 0, 0)].
  split; [reflexivity|]. split; [reflexivity|]. split; [reflexivity|].
  split; [cbn; lra|].
  repeat constructor; cbn; lra.
Qed.

Lemma known_uniform : known_kernel "uniform".
Proof. unfold known_kernel. set_solver. Qed.

Lemma known_empty_shell : known_kernel "empty_shell".
Proof. unfold known_kernel. set_solver. Qed.

(** A name is none of the names of a list of literals. *)
Ltac not_listed :=
  let H := fresh in
  intros H;
  repeat (apply elem_of_cons in H as [H | H]; [discriminate H|]);
  now apply elem_of_nil in H.

Lemma unknown_gaussian : ~ known_kernel "gaussian".
Proof. unfold known_kernel. not_listed. Qed.

(** The constructor returns on the example, whatever the kernel name. *)
Lemma ex_init (method : string) :
  exists w0 o,
    simulator_init 1%positive 0 0 method (ex_store true) = Done w0 /\
    well_formed w0 o /\ M_1 o = 1000 /\ M_2 o = 1.
Proof.
  eexists. eexists. split; [vm_compute; reflexivity|]. split.
  - split;
      [ reflexivity | simpl; lia | eexists; split; reflexivity
      | eexists; reflexivity | eexists; reflexivity | eexists; reflexivity
      | eexists; reflexivity | eexists; split; reflexivity
      | eexists; split; reflexivity ].
  - split; reflexivity.
Qed.

Lemma Zceil_unique x (n : Z) : IZR n - 1 < x <= IZR n -> Zceil x = n.
Proof.
  intros [H1 H2]. destruct (Zceil_spec x) as [H3 H4].
  assert (n - 1 < Zceil x)%Z by (apply lt_IZR; rewrite minus_IZR; lra).
  assert (Zceil x - 1 < n)%Z by (apply lt_IZR; rewrite minus_IZR; lra).
  lia.
Qed.

(** * The statements of the specification *)

Section Claims.

Context {U : Units}.

(** C1.  The claim is that [full_step] with the scheme "DKD" runs drift,
    force, kick, drift, and with "KDK" force, kick, drift, force, kick.
    The code does not: both branches pass [inds] to [xstep] and [vstep],
    which take the step only, so the call raises [TypeError].  With "DKD"
    the exception is raised by the first drift, in a world left as it was;
    with "KDK" it is raised by the first kick at the latest, no array
    having been written. *)
Theorem full_step_DKD_KDK_raise (dt : R) (inds : option (list nat)) (w : world) :
  full_step dt "DKD" inds w = Raise TypeError w /\
  exists e w', full_step dt "KDK" inds w = Raise e w' /\
               arrays (mem w') = arrays (mem w).
Proof.
  split; [reflexivity|].
  pose proof (update_acceleration_arrays w) as Harr.
  change (full_step dt "KDK" inds w)
    with ((update_acceleration ≫= fun _ => vstep (0.5 * dt) [inds] ;;
            xstep (1.0 * dt) [inds];; update_acceleration;;
            vstep (0.5 * dt) [inds]) w).
  destruct (update_acceleration w) as [[] w1|e w1] eqn:E; simpl in Harr.
  - exists TypeError, w1. split; [|exact Harr].
    now rewrite (bind_ok _ _ _ _ _ E).
  - exists e, w1. split; [|exact Harr].
    now rewrite (bind_raise _ _ _ _ _ E).
Qed.

(** C2.  The claim is that a scheme name other than "DKD", "KDK", "FR"
    and "PEFRL" is reported as an error.  The code does not report it:
    [full_step] with such a name returns normally and leaves the world
    as it was. *)
Theorem full_step_unknown_scheme_silent (dt : R) (method : string)
    (inds : option (list nat)) (w : world) :
  method <> "DKD" -> method <> "KDK" -> method <> "FR" -> method <> "PEFRL" ->
  full_step dt method inds w = Ok tt w.
Proof.
  intros H1 H2 H3 H4. unfold full_step.
  apply String.eqb_neq in H1, H2, H3, H4.
  now rewrite H1, H2, H3, H4.
Qed.

(** C3.  With tracers present ([N_DM] is not zero) and [r2_min] known
    (it is set, or it is [None] and the force evaluation that
    [adaptive_step] then runs sets it), let [dt_opt] be
    [eta*2*pi*sqrt(r2_min**3/(G_N*M_2))].  For a positive [dt_opt] and
    [N_sub_max >= 1]: if [dt_opt < dt], the macro step is the loop of
    [N_sub = min(ceil(dt/dt_opt), N_sub_max)] calls of [full_step], each
    of size [dt/N_sub], and [1 <= N_sub <= N_sub_max]; if [dt_opt >= dt]
    it is one call of [full_step] of size [dt]. *)
Theorem adaptive_step_substeps (w w1 : world) (o : particles)
    (r dt eta : R) (method : string) (N_sub_max : Z) :
  holds o w1 ->
  N_DM o <> 0%Z ->
  (r2_min (self w) = Val r /\ w1 = w) \/
  (r2_min (self w) = IsNone /\ update_acceleration w = Ok tt w1 /\
   r2_min (self w1) = Val r) ->
  0 < M_2 o -> 0 <= r ->
  let dt_opt := eta * (2 * PI * sqrt (r ^ 3 / (G_N * M_2 o))) in
  0 < dt_opt ->
  (1 <= N_sub_max)%Z ->
  (dt_opt < dt ->
     let N_sub := Z.min (Zceil (dt / dt_opt)) N_sub_max in
     (1 <= N_sub <= N_sub_max)%Z /\
     adaptive_step dt method eta N_sub_max w =
       for_range N_sub (fun _ => full_step (dt / IZR N_sub) method None) w1) /\
  (dt_opt >= dt ->
     adaptive_step dt method eta N_sub_max w = full_step dt method None w1).
Proof.
  intros Ho HN Hr2 HM Hr dt_opt Hpos Hmax.
  (* up to the comparison of [dt_opt] with [dt] *)
  assert (adaptive_step dt method eta N_sub_max w =
          (if x_ge (calc_dt_opt r (M_2 o) eta) dt then full_step dt method None
           else
             N_sub ← lift (int_ceil (x_quot dt (calc_dt_opt r (M_2 o) eta)));
             let N_sub := if (N_sub >? N_sub_max)%Z then N_sub_max else N_sub in
             dt_sub ← lift (py_div dt (IZR N_sub));
             for_range N_sub (fun _ => full_step dt_sub method None)) w1) as Hhead.
  { unfold adaptive_step.
    destruct Hr2 as [[Hr2 Heq] | (Hr2 & Hupd & Hr2')]; [subst w1|].
    - rewrite (bind_ok _ _ _ _ _ (get_p_holds _ _ Ho)).
      apply Z.eqb_neq in HN. rewrite HN.
      rewrite (bind_ok get_self _ w (self w) w eq_refl).
      rewrite Hr2.
      rewrite (bind_ok (mret tt) _ w tt w eq_refl).
      rewrite (bind_ok get_self _ w (self w) w eq_refl).
      rewrite (bind_ok _ _ _ _ _ (get_p_holds _ _ Ho)).
      rewrite Hr2.
      now rewrite (bind_ok (operand (Val r)) _ w r w eq_refl).
    - assert (exists o0, holds o0 w /\ fixed o0 = fixed o) as (o0 & Ho0 & Hfix).
      { pose proof Hupd as Hupd'. unfold update_acceleration in Hupd'.
        unfold mbind at 1, M_bind at 1 in Hupd'.
        destruct (get_p w) as [o0 w0|] eqn:Eo; [|discriminate].
        unfold get_p in Eo.
        destruct (objects (mem w) !! p (self w)) as [o0'|] eqn:Eo'; [|discriminate].
        injection Eo as <- <-.
        destruct (update_acceleration_fixed w w1 o0' Eo' Hupd) as (o' & Ho' & Hfix).
        exists o0'. split; [exact Eo'|].
        unfold holds in *. rewrite Ho in Ho'. now injection Ho' as <-. }
      rewrite (bind_ok _ _ _ _ _ (get_p_holds _ _ Ho0)).
      assert (N_DM o0 = N_DM o) as -> by (unfold fixed in Hfix; congruence).
      apply Z.eqb_neq in HN. rewrite HN.
      rewrite (bind_ok get_self _ w (self w) w eq_refl).
      rewrite Hr2.
      rewrite (bind_ok _ _ _ _ _ Hupd).
      rewrite (bind_ok get_self _ w1 (self w1) w1 eq_refl).
      rewrite (bind_ok _ _ _ _ _ (get_p_holds _ _ Ho)).
      rewrite Hr2'.
      now rewrite (bind_ok (operand (Val r)) _ w1 r w1 eq_refl). }
  rewrite Hhead. clear Hhead.
  rewrite calc_dt_opt_finite by assumption. fold dt_opt. cbn [x_ge x_quot].
  split.
  - intros Hlt. set (N_sub := Z.min (Zceil (dt / dt_opt)) N_sub_max).
    destruct (Rle_dec dt dt_opt) as [Hle|_]; [lra|].
    assert (1 < dt / dt_opt) as Hq.
    { apply (Rmult_lt_reg_r dt_opt); [exact Hpos|]. field_simplify; lra. }
    pose proof (Zceil_gt_1 _ Hq) as Hc.
    assert (1 <= N_sub <= N_sub_max)%Z as HNs by (unfold N_sub; lia).
    split; [exact HNs|].
    unfold np_divide. destruct (Req_dec_T dt_opt 0) as [E|_]; [lra|].
    cbn [int_ceil lift].
    rewrite (bind_ok (mret (Zceil (dt / dt_opt))) _ w1 _ w1 eq_refl).
    cbv zeta. rewrite clamp_min. fold N_sub.
    unfold py_div. destruct (Req_dec_T (IZR N_sub) 0) as [E|_].
    { apply eq_IZR in E. lia. }
    cbn [lift]. now rewrite (bind_ok (mret (dt / IZR N_sub)) _ w1 _ w1 eq_refl).
  - intros Hge. destruct (Rle_dec dt dt_opt) as [_|Hn]; [reflexivity|lra].
Qed.

(** C4.  After a force evaluation with no background field, both black
    holes dynamic and [M_2 > 0], in a regular world (the bodies apart,
    the softening lengths squared not negative).  Let [acc_BH] be the
    two-body term [-G_N*M_2*(xBH1 - xBH2)*r12_sq**-1.5] of line 247, and
    [acc_DM1] and [acc_DM2] the accelerations that [calc_acc] gives the
    tracers for the primary and for the secondary, which the simulator
    keeps.  Then the acceleration of the primary is [acc_BH] minus the
    sum of [M_DM[i]*acc_DM1[i]] divided by [M_1], that of the secondary
    is [-(M_1/M_2)*acc_BH] minus the sum of [M_DM[i]*acc_DM2[i]] divided
    by [M_2], that of the tracers is [acc_DM1 + acc_DM2]; and
    [M_1*dvdtBH1 + M_2*dvdtBH2] plus the sum of [M_DM[i]*dvdtDM[i]] is
    zero. *)
Theorem reaction_and_momentum (w w' : world) (o : particles) :
  holds o w -> dynamic_BH o = true -> 0 < M_2 o ->
  background_field (self w) = None ->
  regular w o ->
  update_acceleration w = Ok tt w' ->
  exists o' ms xs x1 x2 a1 a2 S1 S2,
    let acc_BH :=
      vscale (- G_N * M_2 o * Rpower (norm_sq (vsub x1 x2)) (- 1.5)) (vsub x1 x2) in
    holds o' w' /\ fixed o' = fixed o /\
    arrays (mem w) !! M_DM o = Some (A1 ms) /\
    arrays (mem w) !! xDM o = Some (M3 xs) /\
    arrays (mem w) !! xBH1 o = Some (V3 x1) /\
    arrays (mem w) !! xBH2 o = Some (V3 x2) /\
    calc_acc (M_1 o) (unit_dx xs x1) (dist_sq xs x1)
      (r_soft_sq1 (self w)) (soft_method1 (self w)) = Done a1 /\
    calc_acc (M_2 o) (unit_dx xs x2) (dist_sq xs x2)
      (r_soft_sq2 (self w)) (soft_method (self w)) = Done a2 /\
    acc_DM1 (self w') = Val (DRows a1) /\
    acc_DM2 (self w') = Val (DRows a2) /\
    weighted_sum ms a1 = Done S1 /\
    weighted_sum ms a2 = Done S2 /\
    dvdtBH1 o' = Val (Vector (vsub acc_BH (vscale (1 / M_1 o) S1))) /\
    dvdtBH2 o' =
      Val (Vector (vsub (vscale (- (M_1 o / M_2 o)) acc_BH)
                        (vscale (1 / M_2 o) S2))) /\
    dvdtDM o' = Val (zip_with vadd a1 a2) /\
    momentum_flux w' = Some vzero.
Proof.
  intros Ho Hdyn HM2 Hbg _ E. pattern w'.
  match goal with
  | |- ?Q w' => enough (wp update_acceleration w (fun _ => Q) (fun _ _ => True)) as H
  end.
  { unfold wp in H. now rewrite E in H. }
  clear E w'. unfold update_acceleration.
  wp_step. wp_step. wp_clean.
  destruct (Rlt_dec 0 (M_2 o)) as [_|]; [|contradiction].
  rewrite Hdyn.
  destruct (0 <? N_DM o)%Z; repeat (wp_step; wp_clean).
  all: rewrite Hbg; wp_step.
  all: repeat match goal with
              | H : py_div _ _ = Done _ |- _ =>
                  apply py_div_Done in H as [? ->]
              end.
  all: match goal with
       | H1 : calc_acc _ _ _ (r_soft_sq1 _) _ = Done ?a1,
         H2 : calc_acc _ _ _ (r_soft_sq2 _) _ = Done ?a2,
         H3 : accDM_add _ _ = Done ?rows,
         Hs1 : weighted_sum ?ms ?a1 = Done ?S1,
         Hs2 : weighted_sum ?ms ?a2 = Done ?S2,
         Hx : arrays _ !! xDM _ = Some (M3 ?xs),
         Hx1 : arrays _ !! xBH1 _ = Some (V3 ?x1),
         Hx2 : arrays _ !! xBH2 _ = Some (V3 ?x2) |- _ =>
           assert (length a1 = length a2) as Hlen
             by (rewrite (calc_acc_length _ _ _ _ _ _ H1),
                   (calc_acc_length _ _ _ _ _ _ H2), !length_zip_with, !length_map;
                 reflexivity);
           cbn [accDM_add] in H3; unfold bcast2 in H3; rewrite Hlen, Nat.eqb_refl in H3;
           injection H3 as <-;
           eexists _, ms, xs, x1, x2, a1, a2, S1, S2; cbv zeta
       end.
  all: repeat match goal with |- _ /\ _ => split end.
  all: unfold fixed, momentum_flux; proj_simpl;
       rewrite ?lookup_insert_eq; proj_simpl;
       try reflexivity; try eassumption.
  all: match goal with H : arrays _ !! M_DM _ = Some _ |- _ => rewrite H end.
  all: erewrite weighted_sum_add by eassumption.
  all: f_equal.
  all: match goal with
       | |- context [vscale (- G_N * ?m * ?q) ?d] =>
           generalize (vscale (- G_N * m * q) d)
       end.
  all: vec_solve.
Qed.

(** C5.  Let the primary be fixed ([dynamic_BH] false) and let the arrays
    of its position and velocity be none of the arrays that drift and
    kick update.  Then after any sequence of drifts, kicks, force
    evaluations, steps and runs the position and the velocity of the
    primary are what they were; and a force evaluation made then computes
    the accelerations of the tracers with the mass [M_1 + M_2] for the
    primary and the mass [M_1*M_2/(M_1 + M_2)] for the secondary, gives
    the primary the acceleration [0.0] and, with no background field,
    computes the acceleration of the secondary with the same two
    masses. *)
Theorem fixed_primary (w : world) (o : particles)
    (check_state : option (M unit)) (cs : list call) :
  holds o w -> dynamic_BH o = false ->
  xBH1 o ∉ written o -> vBH1 o ∉ written o ->
  (forall hook, check_state = Some hook ->
     preserved (fun w' => same_particles o w' /\ primary_at_rest o w w') hook) ->
  let w1 := run_calls check_state cs w in
  let M1_eff_ := M_1 o + M_2 o in
  let M2_eff_ := M_1 o * M_2 o / (M_1 o + M_2 o) in
  primary_at_rest o w w1 /\
  (forall w', update_acceleration w1 = Ok tt w' ->
     exists xs x1 a1,
       arrays (mem w1) !! xDM o = Some (M3 xs) /\
       arrays (mem w1) !! xBH1 o = Some (V3 x1) /\
       calc_acc M1_eff_ (unit_dx xs x1) (dist_sq xs x1)
         (r_soft_sq1 (self w1)) (soft_method1 (self w1)) = Done a1 /\
       acc_DM1 (self w') = Val (DRows a1) /\
       (0 < M_2 o ->
        exists x2 a2,
          arrays (mem w1) !! xBH2 o = Some (V3 x2) /\
          calc_acc M2_eff_ (unit_dx xs x2) (dist_sq xs x2)
            (r_soft_sq2 (self w1)) (soft_method (self w1)) = Done a2 /\
          acc_DM2 (self w') = Val (DRows a2))) /\
  (forall w', update_acceleration w1 = Ok tt w' ->
     0 < M_2 o -> background_field (self w1) = None ->
     exists o' x1 x2 ms a2 S2,
       holds o' w' /\
       arrays (mem w1) !! xBH1 o = Some (V3 x1) /\
       arrays (mem w1) !! xBH2 o = Some (V3 x2) /\
       arrays (mem w1) !! M_DM o = Some (A1 ms) /\
       acc_DM2 (self w') = Val (DRows a2) /\
       weighted_sum ms a2 = Done S2 /\
       dvdtBH1 o' = Val (Scalar 0.0) /\
       dvdtBH2 o' =
         Val (Vector
                (vsub (vscale (- (M1_eff_ / M2_eff_))
                         (vscale (- G_N * M2_eff_ *
                                  Rpower (norm_sq (vsub x1 x2)) (- 1.5))
                            (vsub x1 x2)))
                      (vscale (1 / M2_eff_) S2)))).
Proof.
  intros Ho Hdyn Hx Hv Hhook w1 M1_eff_ M2_eff_.
  assert (same_particles o w1 /\ primary_at_rest o w w1) as [(o1 & Ho1 & Hfix) Hrest].
  { apply (run_calls_closed _ check_state cs w
             (closed_primary_at_rest w o Hx Hv) Hhook).
    split; [exists o; auto | split; reflexivity]. }
  unfold fixed in Hfix.
  injection Hfix as HM1 HM2 HMDM _ Hx1' _ Hx2' _ HxDM _ Hd.
  rewrite Hdyn in Hd.
  assert (M1_eff o1 = M1_eff_) as HM1e
    by (unfold M1_eff, M1_eff_; now rewrite Hd, HM1, HM2).
  assert (M2_eff o1 = M2_eff_) as HM2e
    by (unfold M2_eff, M2_eff_; now rewrite Hd, HM1, HM2).
  split; [exact Hrest|]. split.
  - intros w' E.
    destruct (update_acceleration_kernels w1 w' o1 Ho1 E)
      as (xs & x1 & a1 & Hxs & Hx1 & Hc1 & Ha1 & H2 & _).
    rewrite HM1e, HM2e, HM2, Hx1', Hx2', HxDM in *.
    exists xs, x1, a1. repeat split; try assumption.
  - intros w' E HM Hbg. rewrite <- HM2 in HM.
    destruct (update_acceleration_fixed_primary w1 w' o1 Ho1 Hd HM Hbg E)
      as (o' & x1 & x2 & ms & a2 & S2 & H).
    rewrite HM1e, HM2e, HMDM, Hx1', Hx2' in H.
    now exists o', x1, x2, ms, a2, S2.
Qed.

(** C6, as amended.  The kernel "truncate" clamps [r_sq] on both sides,
    to [r_soft_sq] from below and to [1e50] from above: each row of the
    result is [-G_N*M_eff*dx/min(1e50, max(r_sq, r_soft_sq))], which is
    [-G_N*M_eff*dx/r_sq] for [r_soft_sq <= r_sq <= 1e50],
    [-G_N*M_eff*dx/r_soft_sq] for [r_sq <= r_soft_sq <= 1e50], and
    [-G_N*M_eff*dx/1e50] for [r_sq >= 1e50]. *)
Theorem truncate_clamps_both_sides (M_eff r_soft_sq : R)
    (dx : list vec) (r_sq : list R) :
  length dx = length r_sq ->
  calc_acc M_eff dx r_sq r_soft_sq "truncate" =
    Done (zip_with (fun d r =>
            vscale (- G_N * M_eff / Rmin 1e50 (Rmax r r_soft_sq)) d) dx r_sq) /\
  forall d r,
    (r_soft_sq <= r <= 1e50 ->
     acc_truncate M_eff r_soft_sq d r = vscale (- G_N * M_eff / r) d) /\
    (r <= r_soft_sq <= 1e50 ->
     acc_truncate M_eff r_soft_sq d r = vscale (- G_N * M_eff / r_soft_sq) d) /\
    (1e50 <= r ->
     acc_truncate M_eff r_soft_sq d r = vscale (- G_N * M_eff / 1e50) d).
Proof.
  intros Hlen. split.
  - unfold calc_acc. simpl. now apply per_row_Done.
  - intros d r. unfold acc_truncate, np_clip. repeat split; intros H.
    + rewrite Rmax_left, Rmin_right by lra. reflexivity.
    + rewrite Rmax_right, Rmin_right by lra. reflexivity.
    + rewrite Rmin_left; [reflexivity|].
      apply Rle_trans with r; [exact H | apply Rmax_l].
Qed.

(** C7, as amended.  The constructor accepts every kernel name: whether
    it returns does not depend on the name, which it stores as it is.  A
    name that [calc_acc] does not know ("plummer", "plummer2",
    "uniform_old", "uniform", "truncate" and "empty_shell" are known) is
    reported by the force evaluation, as a [ValueError], when there is a
    secondary ([M_2 > 0]); with no secondary the force evaluation
    returns. *)
Theorem unknown_kernel_reported_by_force_evaluation (σ : store)
    (particle_set : loc) (r_soft_sq2_ r_soft_sq1_ : R) (soft_method_ : string)
    (w0 : world) (o : particles) :
  ~ known_kernel soft_method_ ->
  simulator_init particle_set r_soft_sq2_ r_soft_sq1_ soft_method_ σ = Done w0 ->
  well_formed w0 o -> 0 < M_1 o -> 0 <= M_2 o ->
  soft_method (self w0) = soft_method_ /\
  (forall name, exists w0',
     simulator_init particle_set r_soft_sq2_ r_soft_sq1_ name σ = Done w0') /\
  (0 < M_2 o -> exists w', update_acceleration w0 = Raise ValueError w') /\
  (M_2 o = 0 -> exists w', update_acceleration w0 = Ok tt w').
Proof.
  intros Hk Hinit Hwf HM1 HM2.
  destruct (simulator_init_untouched _ _ _ _ _ _ Hinit) as (_ & Hsm & Hsm1 & _).
  split; [exact Hsm|]. split; [|split].
  - intros name. unfold simulator_init in *.
    destruct (deepcopy particle_set σ) as [[l σ']|]; [|discriminate].
    cbn [res_bind]. eauto.
  - intros HM. apply (update_acceleration_unknown_kernel w0 o); auto.
    + rewrite Hsm1. apply known_uniform.
    + now rewrite Hsm.
  - intros HM. apply (update_acceleration_returns w0 o); auto.
    + rewrite Hsm1. apply known_uniform.
    + intros HM'. lra.
Qed.

(** C8.  At [r_sq = r_soft_sq], for [r_soft_sq] not zero, the kernel
    "uniform" takes its inner branch, with [x = 1], and gives
    [-G_N*M_eff*dx*1/r_soft_sq]; the unsoftened law of its outer branch
    gives, at the same [r_sq], the same acceleration,
    [-G_N*M_eff*dx/r_soft_sq]; for a unit vector [dx] its magnitude,
    squared, is the square of [G_N*M_eff/r_soft_sq].  And for a positive
    [r_soft_sq] the acceleration is continuous there: it is as close to
    its value at [r_soft_sq] as one wants for [r_sq] close enough to
    [r_soft_sq], on either side. *)
Theorem uniform_continuous_at_r_soft (M_eff r_soft_sq : R) (dx : vec) :
  r_soft_sq <> 0 ->
  acc_uniform M_eff r_soft_sq dx r_soft_sq =
    vscale (- G_N * M_eff * 1 / r_soft_sq) dx /\
  acc_newton M_eff dx r_soft_sq = vscale (- G_N * M_eff / r_soft_sq) dx /\
  acc_uniform M_eff r_soft_sq dx r_soft_sq = acc_newton M_eff dx r_soft_sq /\
  (norm_sq dx = 1 ->
   norm_sq (acc_uniform M_eff r_soft_sq dx r_soft_sq) =
     (G_N * M_eff / r_soft_sq) ^ 2) /\
  (0 < r_soft_sq ->
   forall eps, 0 < eps ->
   exists delta, 0 < delta /\
     forall r_sq, Rabs (r_sq - r_soft_sq) < delta ->
       norm_sq (vsub (acc_uniform M_eff r_soft_sq dx r_sq)
                     (acc_uniform M_eff r_soft_sq dx r_soft_sq)) < eps).
Proof.
  intros Hs.
  assert (acc_uniform M_eff r_soft_sq dx r_soft_sq =
          vscale (- G_N * M_eff * 1 / r_soft_sq) dx) as Hin.
  { unfold acc_uniform, np_divide.
    destruct (Req_dec_T r_soft_sq 0) as [|_]; [contradiction|].
    replace (r_soft_sq / r_soft_sq) with 1 by (field; exact Hs).
    unfold np_sqrt. destruct (Rlt_dec 1 0) as [|_]; [lra|].
    rewrite sqrt_1. destruct (Rle_dec 1 1) as [_|]; [reflexivity|lra]. }
  assert (acc_newton M_eff dx r_soft_sq = vscale (- G_N * M_eff / r_soft_sq) dx)
    as Hout by reflexivity.
  split; [exact Hin|]. split; [exact Hout|]. split; [|split].
  - rewrite Hin, Hout. f_equal. field. exact Hs.
  - intros Hdx. rewrite Hin, norm_sq_vscale, Hdx. field. exact Hs.
  - intros Hpos. rewrite Hin. now apply acc_uniform_continuous.
Qed.

(** C9.  The constructor works on a deep copy: its particle set is a new
    object and the arrays of that object are new arrays.  So after the
    construction and any sequence of drifts and kicks of the simulator's
    particle set, force evaluations, steps and runs (with a hook
    [check_state], if any, that leaves the caller's store as it is) the
    caller's particle set is not the simulator's, and holds what it held,
    as does every array and every object of the caller's store. *)
Theorem caller_particles_untouched (σ : store) (particle_set : loc)
    (r_soft_sq2_ r_soft_sq1_ : R) (soft_method_ : string)
    (check_state : option (M unit)) (w0 : world) (cs : list call) :
  simulator_init particle_set r_soft_sq2_ r_soft_sq1_ soft_method_ σ = Done w0 ->
  (forall hook, check_state = Some hook -> preserved (untouched σ) hook) ->
  let w := run_calls check_state cs w0 in
  p (self w) <> particle_set /\
  (exists o, objects σ !! particle_set = Some o /\
             objects (mem w) !! particle_set = Some o /\
             forall l a, l ∈ arrays_of o -> arrays σ !! l = Some a ->
               arrays (mem w) !! l = Some a) /\
  (forall l a, arrays σ !! l = Some a -> arrays (mem w) !! l = Some a) /\
  (forall l o, objects σ !! l = Some o -> objects (mem w) !! l = Some o).
Proof.
  intros Hinit Hhook w.
  assert (exists o, objects σ !! particle_set = Some o) as [o Ho].
  { unfold simulator_init in Hinit.
    destruct (deepcopy particle_set σ) as [[l σ']|] eqn:E; [|discriminate].
    destruct (deepcopy_fresh _ _ _ _ E) as (_ & _ & o & _ & Ho & _). eauto. }
  destruct (simulator_init_untouched _ _ _ _ _ _ Hinit) as (H0 & _).
  assert (untouched σ w) as (Ha & Hobj & Hp & _).
  { apply run_calls_closed; auto using closed_untouched. }
  split; [|split; [|split]].
  - intros Heq. rewrite Heq, Ho in Hp. discriminate.
  - exists o. split; [exact Ho|]. split.
    + now apply (lookup_weaken _ _ _ _ Ho).
    + intros l a _ El. now apply (lookup_weaken _ _ _ _ El).
  - intros l a El. now apply (lookup_weaken _ _ _ _ El).
  - intros l o' El. now apply (lookup_weaken _ _ _ _ El).
Qed.

(** C10.  The constructor sets the kernel of the primary to "uniform"
    whatever [soft_method] it is given, and no method rebinds it or
    [soft_method]: after the construction and any sequence of calls, a
    force evaluation computes the accelerations that the primary gives
    the tracers with "uniform", and those that the secondary gives them
    (when [M_2 > 0]) with the [soft_method] of the construction. *)
Theorem primary_kernel_always_uniform (σ : store) (particle_set : loc)
    (r_soft_sq2_ r_soft_sq1_ : R) (soft_method_ : string)
    (check_state : option (M unit)) (w0 : world) (cs : list call) :
  simulator_init particle_set r_soft_sq2_ r_soft_sq1_ soft_method_ σ = Done w0 ->
  (forall hook, check_state = Some hook ->
     preserved (fun w => static (self w) = static (self w0)) hook) ->
  let w := run_calls check_state cs w0 in
  soft_method1 (self w) = "uniform" /\
  soft_method (self w) = soft_method_ /\
  forall o w', holds o w -> update_acceleration w = Ok tt w' ->
    exists xs x1 a1,
      arrays (mem w) !! xDM o = Some (M3 xs) /\
      arrays (mem w) !! xBH1 o = Some (V3 x1) /\
      calc_acc (M1_eff o) (unit_dx xs x1) (dist_sq xs x1)
        (r_soft_sq1 (self w)) "uniform" = Done a1 /\
      acc_DM1 (self w') = Val (DRows a1) /\
      (0 < M_2 o ->
       exists x2 a2,
         arrays (mem w) !! xBH2 o = Some (V3 x2) /\
         calc_acc (M2_eff o) (unit_dx xs x2) (dist_sq xs x2)
           (r_soft_sq2 (self w)) soft_method_ = Done a2 /\
         acc_DM2 (self w') = Val (DRows a2)).
Proof.
  intros Hinit Hhook w.
  destruct (simulator_init_untouched _ _ _ _ _ _ Hinit) as (_ & Hsm & Hsm1 & _).
  assert (static (self w) = static (self w0)) as Hst.
  { apply (run_calls_closed (fun w => static (self w) = static (self w0)));
      auto using closed_static. }
  unfold static in Hst. injection Hst as _ _ _ Hs Hs1.
  rewrite Hsm in Hs. rewrite Hsm1 in Hs1.
  split; [exact Hs1|]. split; [exact Hs|].
  intros o w' Ho E.
  destruct (update_acceleration_kernels w w' o Ho E)
    as (xs & x1 & a1 & Hxs & Hx1 & Hc1 & Ha1 & H2 & _).
  rewrite Hs1 in Hc1. rewrite Hs in H2.
  exists xs, x1, a1. repeat split; assumption.
Qed.

End Claims.

(** * The statements on the example *)

(** On the example, a step with the scheme name "RK4" returns and changes
    nothing. *)
Lemma full_step_unknown_scheme_silent_witness :
  full_step (U := unit_G) 1 "RK4" None (ex_world true "empty_shell") =
  Ok tt (ex_world true "empty_shell").
Proof.
  apply (full_step_unknown_scheme_silent (U := unit_G)); discriminate.
Defined.

(** In the example, with [eta = 1] and [dt = 10]: [dt_opt] is [2*pi], and
    the macro step is two steps of size 5. *)
Lemma adaptive_step_substeps_witness :
  adaptive_step (U := unit_G) 10 "PEFRL" 1 100 (ex_world true "empty_shell") =
  for_range 2 (fun _ => full_step (U := unit_G) (10 / 2) "PEFRL" None)
    (ex_world true "empty_shell").
Proof.
  pose proof PI2_3_2 as Hlo. pose proof PI_4 as Hhi.
  assert (sqrt (1 ^ 3 / (@G_N unit_G * 1)) = 1) as Hs.
  { cbn [G_N unit_G]. replace (1 ^ 3 / (1 * 1)) with 1 by field. apply sqrt_1. }
  destruct (adaptive_step_substeps (U := unit_G)
              (ex_world true "empty_shell") (ex_world true "empty_shell")
              (ex_particles true) 1 10 1 "PEFRL" 100) as [Hsub _].
  - reflexivity.
  - discriminate.
  - left. split; reflexivity.
  - cbn [M_2 ex_particles]. lra.
  - lra.
  - cbn [M_2 ex_particles]. rewrite Hs. lra.
  - lia.
  - cbn [M_2 ex_particles] in Hsub. rewrite Hs in Hsub.
    destruct Hsub as [_ Heq]; [lra|].
    assert (Zceil (10 / (1 * (2 * PI * 1))) = 2%Z) as Hc.
    { apply Zceil_unique. simpl.
      assert (0 < 2 * PI) by lra.
      split.
      - apply (Rmult_lt_reg_r (1 * (2 * PI * 1))); [lra|]. field_simplify; lra.
      - apply (Rmult_le_reg_r (1 * (2 * PI * 1))); [lra|]. field_simplify; lra. }
    rewrite Hc in Heq. exact Heq.
Defined.

(** On the example the force evaluation returns, and the momentum flux
    of the accelerations it stores is zero. *)
Lemma reaction_and_momentum_witness :
  exists w', update_acceleration (U := unit_G) (ex_world true "empty_shell") = Ok tt w' /\
             momentum_flux w' = Some vzero.
Proof.
  destruct (update_acceleration_returns (U := unit_G)
              (ex_world true "empty_shell") (ex_particles true))
    as [w' Hw'].
  - apply ex_well_formed.
  - cbn. lra.
  - cbn. lra.
  - apply known_uniform.
  - intros _. apply known_empty_shell.
  - exists w'. split; [exact Hw'|].
    destruct (reaction_and_momentum (U := unit_G)
                (ex_world true "empty_shell") w' (ex_particles true))
      as (o' & ms & xs & x1 & x2 & a1 & a2 & S1 & S2 & H); try reflexivity.
    + cbn. lra.
    + apply ex_regular.
    + exact Hw'.
    + apply H.
Defined.

(** With a fixed primary, the primary of the example is, after a drift, a
    force evaluation, a kick and a step, where it was. *)
Lemma fixed_primary_witness :
  primary_at_rest (ex_particles false) (ex_world false "empty_shell")
    (run_calls (U := unit_G) None
       [Drift 1; UpdateAcceleration; Kick 1; FullStep 1 "PEFRL" None]
       (ex_world false "empty_shell")).
Proof.
  apply (fixed_primary (U := unit_G) (ex_world false "empty_shell")
           (ex_particles false) None
           [Drift 1; UpdateAcceleration; Kick 1; FullStep 1 "PEFRL" None]).
  - reflexivity.
  - reflexivity.
  - cbn. not_listed.
  - cbn. not_listed.
  - intros hook [=].
Defined.

(** C6, the claim as written fails: for [r_sq = 2e50], above
    [r_soft_sq = 1], the kernel "truncate" divides by [1e50], not by
    [max(r_sq, r_soft_sq) = r_sq]. *)
Lemma truncate_not_max_counterexample :
  exists a,
    calc_acc (U := unit_G) 1 [(1, 0, 0)] [2e50] 1 "truncate" = Done [a] /\
    a <> vscale (- @G_N unit_G * 1 / Rmax 2e50 1) (1, 0, 0).
Proof.
  exists (acc_truncate (U := unit_G) 1 1 (1, 0, 0) 2e50).
  split; [reflexivity|].
  unfold acc_truncate, np_clip, vscale. cbn [G_N unit_G].
  assert (1 <= 2e50) as H1 by lra.
  assert (1e50 <= 2e50) as H2 by lra.
  rewrite (Rmax_left 2e50 1) by exact H1. rewrite (Rmin_left 1e50 2e50) by exact H2.
  intros [= H]. lra.
Qed.

(** For [r_sq = 2e50] and [r_soft_sq = 1] the divisor is
    [min(1e50, max(2e50, 1))]. *)
Lemma truncate_clamps_both_sides_witness :
  calc_acc (U := unit_G) 1 [(1, 0, 0)] [2e50] 1 "truncate" =
  Done [vscale (- @G_N unit_G * 1 / Rmin 1e50 (Rmax 2e50 1)) (1, 0, 0)].
Proof.
  apply (truncate_clamps_both_sides (U := unit_G) 1 1 [(1, 0, 0)] [2e50]).
  reflexivity.
Defined.

(** C7, the claim as written fails: the constructor returns when it is
    given the name "gaussian", which [calc_acc] does not know, and stores
    the name. *)
Lemma unknown_kernel_accepted_counterexample :
  exists w0,
    simulator_init 1%positive 0 (-1) "gaussian" (ex_store true) = Done w0 /\
    soft_method (self w0) = "gaussian".
Proof. eexists. split; reflexivity. Qed.

(** A simulator built on the example with the name "gaussian": the
    construction returns, and the force evaluation raises [ValueError]. *)
Lemma unknown_kernel_reported_by_force_evaluation_witness :
  exists w0 w',
    simulator_init 1%positive 0 0 "gaussian" (ex_store true) = Done w0 /\
    update_acceleration (U := unit_G) w0 = Raise ValueError w'.
Proof.
  destruct (ex_init "gaussian") as (w0 & o & Hinit & Hwf & HM1 & HM2).
  destruct (unknown_kernel_reported_by_force_evaluation (U := unit_G)
              (ex_store true) 1%positive 0 0 "gaussian" w0 o)
    as (_ & _ & Hraise & _).
  - exact unknown_gaussian.
  - exact Hinit.
  - exact Hwf.
  - rewrite HM1. lra.
  - rewrite HM2. lra.
  - destruct Hraise as [w' Hw']; [rewrite HM2; lra|].
    exists w0, w'. split; [exact Hinit | exact Hw'].
Defined.

(** For [r_soft_sq = 4], at [r_sq = 4], the kernel "uniform" agrees with
    the unsoftened law. *)
Lemma uniform_continuous_at_r_soft_witness :
  acc_uniform (U := unit_G) 1 4 (1, 0, 0) 4 =
  acc_newton (U := unit_G) 1 (1, 0, 0) 4.
Proof.
  apply (uniform_continuous_at_r_soft (U := unit_G) 1 4 (1, 0, 0)). lra.
Defined.

(** After the construction, a step and a run of the simulator, the
    caller's particle set and the position of its secondary are what they
    were. *)
Lemma caller_particles_untouched_witness :
  exists w0,
    simulator_init 1%positive 0 0 "empty_shell" (ex_store true) = Done w0 /\
    let w := run_calls (U := unit_G) None
               [FullStep 1 "PEFRL" None;
                RunSimulation 1 10 "PEFRL" 1 None (-1) 100] w0 in
    objects (mem w) !! 1%positive = Some (ex_particles true) /\
    arrays (mem w) !! 4%positive = Some (V3 (1, 0, 0)).
Proof.
  destruct (ex_init "empty_shell") as (w0 & o & Hinit & _).
  exists w0. split; [exact Hinit|].
  destruct (caller_particles_untouched (U := unit_G) (ex_store true) 1%positive
              0 0 "empty_shell" None w0
              [FullStep 1 "PEFRL" None;
               RunSimulation 1 10 "PEFRL" 1 None (-1) 100])
    as (_ & _ & Harr & Hobj).
  - exact Hinit.
  - intros hook [=].
  - split; [apply Hobj | apply Harr]; reflexivity.
Defined.

(** A simulator built on the example with "plummer": after a force
    evaluation and a step the kernel of the primary is "uniform" and that
    of the secondary is "plummer". *)
Lemma primary_kernel_always_uniform_witness :
  exists w0,
    simulator_init 1%positive 0 0 "plummer" (ex_store true) = Done w0 /\
    let w := run_calls (U := unit_G) None
               [UpdateAcceleration; FullStep 1 "FR" None] w0 in
    soft_method1 (self w) = "uniform" /\ soft_method (self w) = "plummer".
Proof.
  destruct (ex_init "plummer") as (w0 & o & Hinit & _).
  exists w0. split; [exact Hinit|].
  destruct (primary_kernel_always_uniform (U := unit_G) (ex_store true)
              1%positive 0 0 "plummer" None w0
              [UpdateAcceleration; FullStep 1 "FR" None])
    as (H1 & H2 & _).
  - exact Hinit.
  - intros hook [=].
  - split; [exact H1 | exact H2].
Defined.

(** * Further properties of the code *)

(** ** The kernels inside and outside the softening radius *)

Section KernelFacts.
Context {U : Units}.

(** The ratio [x = sqrt(r_sq/r_soft_sq)] of the kernels with a mask. *)
Lemma mask_ratio_outside r_soft_sq r_sq :
  0 <= r_soft_sq < r_sq ->
  match np_sqrt (np_divide r_sq r_soft_sq) with
  | Finite x => 1 < x
  | _ => True
  end.
Proof.
  intros [H0 H1]. unfold np_divide, np_sqrt.
  destruct (Req_dec_T r_soft_sq 0) as [->|Hs].
  - destruct (Req_dec_T r_sq 0); [lra|]. destruct (Rlt_dec 0 r_sq); [exact I|lra].
  - assert (1 < r_sq / r_soft_sq) as Hq.
    { apply (Rmult_lt_reg_r r_soft_sq); [lra|]. field_simplify; lra. }
    destruct (Rlt_dec (r_sq / r_soft_sq) 0); [lra|].
    rewrite <- sqrt_1. apply sqrt_lt_1; lra.
Qed.

Lemma mask_ratio_inside r_soft_sq r_sq :
  0 <= r_sq < r_soft_sq ->
  exists x, np_sqrt (np_divide r_sq r_soft_sq) = Finite x /\ 0 <= x < 1 /\
            x = sqrt (r_sq / r_soft_sq).
Proof.
  intros [H0 H1]. unfold np_divide, np_sqrt.
  destruct (Req_dec_T r_soft_sq 0) as [|Hs]; [lra|].
  assert (0 <= r_sq / r_soft_sq < 1) as [Hq0 Hq1].
  { split.
    - apply Rmult_le_pos; [lra|]. apply Rlt_le, Rinv_0_lt_compat. lra.
    - apply (Rmult_lt_reg_r r_soft_sq); [lra|]. field_simplify; lra. }
  destruct (Rlt_dec (r_sq / r_soft_sq) 0); [lra|].
  eexists. split; [reflexivity|]. split; [|reflexivity]. split.
  - apply sqrt_pos.
  - rewrite <- sqrt_1. apply sqrt_lt_1; lra.
Qed.

(** X1.  Outside the softening radius, [r_sq > r_soft_sq >= 0], the
    kernels "uniform", "uniform_old" and "empty_shell" are the unsoftened
    law [-G_N*M_eff*dx/r_sq], and so is "truncate" up to [r_sq = 1e50]. *)
Theorem kernels_unsoftened_outside (M_eff r_soft_sq : R) (dx : vec) (r_sq : R) :
  0 <= r_soft_sq < r_sq ->
  acc_uniform M_eff r_soft_sq dx r_sq = acc_newton M_eff dx r_sq /\
  acc_uniform_old M_eff r_soft_sq dx r_sq = acc_newton M_eff dx r_sq /\
  acc_empty_shell M_eff r_soft_sq dx r_sq = acc_newton M_eff dx r_sq /\
  (r_sq <= 1e50 ->
   acc_truncate M_eff r_soft_sq dx r_sq = acc_newton M_eff dx r_sq).
Proof.
  intros H. pose proof (mask_ratio_outside _ _ H) as Hx.
  unfold acc_uniform, acc_uniform_old, acc_empty_shell.
  destruct (np_sqrt (np_divide r_sq r_soft_sq)) as [x| | |].
  2-4: repeat split; try reflexivity.
  - destruct (Rle_dec x 1); [lra|]. destruct (Rlt_dec x 1); [lra|].
    repeat split.
    intros Hhi. unfold acc_truncate, acc_newton, np_clip.
    rewrite Rmax_left, Rmin_right by lra. reflexivity.
  - intros Hhi. unfold acc_truncate, acc_newton, np_clip.
    rewrite Rmax_left, Rmin_right by lra. reflexivity.
  - intros Hhi. unfold acc_truncate, acc_newton, np_clip.
    rewrite Rmax_left, Rmin_right by lra. reflexivity.
  - intros Hhi. unfold acc_truncate, acc_newton, np_clip.
    rewrite Rmax_left, Rmin_right by lra. reflexivity.
Qed.

(** X2.  Inside the softening radius, [0 <= r_sq < r_soft_sq], the kernel
    "uniform" gives [-G_N*M_eff*dx*x/r_soft_sq] with
    [x = sqrt(r_sq/r_soft_sq)], linear in the distance, "truncate" gives
    [-G_N*M_eff*dx/r_soft_sq] (for [r_soft_sq <= 1e50]), and, away from
    [r_sq = 0], "empty_shell" gives no acceleration. *)
Theorem kernels_inside (M_eff r_soft_sq : R) (dx : vec) (r_sq : R) :
  0 <= r_sq < r_soft_sq ->
  acc_uniform M_eff r_soft_sq dx r_sq =
    vscale (- G_N * M_eff * sqrt (r_sq / r_soft_sq) / r_soft_sq) dx /\
  (r_soft_sq <= 1e50 ->
   acc_truncate M_eff r_soft_sq dx r_sq = vscale (- G_N * M_eff / r_soft_sq) dx) /\
  (0 < r_sq -> acc_empty_shell M_eff r_soft_sq dx r_sq = vzero).
Proof.
  intros H. destruct (mask_ratio_inside _ _ H) as (x & Hx & [Hx0 Hx1] & Hxe).
  unfold acc_empty_shell, acc_uniform. rewrite Hx.
  destruct (Rlt_dec x 1); [|lra]. destruct (Rle_dec x 1); [|lra].
  split; [|split].
  - now rewrite Hxe.
  - intros Hhi. unfold acc_truncate, np_clip.
    rewrite Rmax_right, Rmin_right by lra. reflexivity.
  - intros _. replace 0.0 with 0 by lra.
    destruct dx as [[d1 d2] d3]. unfold acc_newton, vscale, vzero.
    f_equal; [f_equal|]; ring.
Qed.

End KernelFacts.

(** ** The kernels pull *)

Lemma vscale_vscale a b d : vscale a (vscale b d) = vscale (a * b) d.
Proof. destruct d as [[d1 d2] d3]. unfold vscale. f_equal; [f_equal|]; ring. Qed.

Lemma Forall2_zip_with_l {A B C : Type} (P : A -> C -> Prop) (Q : B -> Prop)
    (f : A -> B -> C) (xs : list A) (ys : list B) :
  length xs = length ys -> Forall Q ys ->
  (forall x y, Q y -> P x (f x y)) ->
  Forall2 P xs (zip_with f xs ys).
Proof.
  intros Hlen HQ Hf. revert ys Hlen HQ.
  induction xs as [|x xs IH]; intros [|y ys] Hlen HQ; simpl in *;
    try discriminate; constructor.
  - apply Hf. now inversion HQ.
  - apply IH; [lia | now inversion HQ].
Qed.

Lemma per_row_Forall2 (P : vec -> vec -> Prop) (Q : R -> Prop) f dx r_sq a :
  Forall Q r_sq -> (forall d r, Q r -> P d (f d r)) ->
  per_row f dx r_sq = Done a -> Forall2 P dx a.
Proof.
  intros HQ Hf. unfold per_row.
  destruct (length dx =? length r_sq)%nat eqn:E; [|discriminate].
  intros [= <-]. apply Nat.eqb_eq in E. now apply (Forall2_zip_with_l P Q).
Qed.

Section KernelBounds.
Context {U : Units}.

Lemma mask_ratio_finite r_soft_sq r_sq :
  0 < r_soft_sq -> 0 <= r_sq ->
  np_sqrt (np_divide r_sq r_soft_sq) = Finite (sqrt (r_sq / r_soft_sq)) /\
  0 <= sqrt (r_sq / r_soft_sq) /\
  (1 <= sqrt (r_sq / r_soft_sq) -> r_soft_sq <= r_sq).
Proof.
  intros Hs Hr. unfold np_divide, np_sqrt.
  destruct (Req_dec_T r_soft_sq 0); [lra|].
  assert (0 <= r_sq / r_soft_sq) as Hq.
  { apply Rmult_le_pos; [lra|]. apply Rlt_le, Rinv_0_lt_compat. lra. }
  destruct (Rlt_dec (r_sq / r_soft_sq) 0); [lra|].
  split; [reflexivity|]. split; [apply sqrt_pos|].
  intros H1. destruct (Rle_dec r_soft_sq r_sq) as [|Hn]; [assumption|].
  exfalso. assert (r_sq / r_soft_sq < 1) as Hlt.
  { apply (Rmult_lt_reg_r r_soft_sq); [lra|]. field_simplify; lra. }
  apply (sqrt_lt_1 _ _ Hq) in Hlt; [|lra]. rewrite sqrt_1 in Hlt. lra.
Qed.

(** The factor of "uniform_old" inside the radius. *)
Lemma uniform_old_poly x : 0 <= x < 1 -> 0 <= x * (8 - 9 * x + 2 * x ^ 3).
Proof.
  intros [H0 H1]. apply Rmult_le_pos; [exact H0|].
  replace (8 - 9 * x + 2 * x ^ 3) with (1 + (1 - x) * (7 - 2 * x - 2 * x * x))
    by ring.
  assert (0 <= (1 - x) * (7 - 2 * x - 2 * x * x)) by (apply Rmult_le_pos; nra).
  lra.
Qed.

Lemma attractive_newton M_eff d r :
  0 <= M_eff -> 0 < r -> exists c, c <= 0 /\ acc_newton M_eff d r = vscale c d.
Proof.
  intros HM Hr. pose proof G_N_pos. eexists. split; [|reflexivity].
  assert (0 < / r) by now apply Rinv_0_lt_compat.
  assert (0 <= G_N * M_eff) by nra. nra.
Qed.

Lemma attractive_kernel M_eff r_soft_sq d r :
  0 <= M_eff -> 0 <= r_soft_sq -> 0 < r ->
  (exists c, c <= 0 /\ acc_plummer M_eff r_soft_sq d r = vscale c d) /\
  (exists c, c <= 0 /\ acc_plummer2 M_eff r_soft_sq d r = vscale c d) /\
  (exists c, c <= 0 /\ acc_uniform_old M_eff r_soft_sq d r = vscale c d) /\
  (exists c, c <= 0 /\ acc_uniform M_eff r_soft_sq d r = vscale c d) /\
  (exists c, c <= 0 /\ acc_truncate M_eff r_soft_sq d r = vscale c d) /\
  (exists c, c <= 0 /\ acc_empty_shell M_eff r_soft_sq d r = vscale c d).
Proof.
  intros HM Hs Hr. pose proof G_N_pos as HG.
  assert (0 <= G_N * M_eff) as HGM by nra.
  pose proof (attractive_newton M_eff d r HM Hr) as HN.
  repeat split.
  - eexists. split; [|reflexivity].
    assert (0 < / (r + r_soft_sq)) by (apply Rinv_0_lt_compat; lra). nra.
  - eexists. split; [|reflexivity].
    assert (0 < Rpower (r + r_soft_sq) (-5 / 2)) as HP
      by (unfold Rpower; apply exp_pos).
    pose proof (sqrt_pos r) as Hq.
    assert (0 <= G_N * M_eff * sqrt r) as H1 by (apply Rmult_le_pos; assumption).
    assert (0 <= G_N * M_eff * sqrt r * / 2 * (2 * r + 5 * r_soft_sq)) as H2.
    { apply Rmult_le_pos; [lra|lra]. }
    assert (0 <= G_N * M_eff * sqrt r * / 2 * (2 * r + 5 * r_soft_sq) *
                 Rpower (r + r_soft_sq) (-5 / 2)) as H3.
    { apply Rmult_le_pos; [exact H2 | lra]. }
    lra.
  - unfold acc_uniform_old.
    destruct (Req_dec_T r_soft_sq 0) as [->|Hne].
    + unfold np_divide. destruct (Req_dec_T 0 0); [|lra].
      destruct (Req_dec_T r 0); [lra|]. destruct (Rlt_dec 0 r); [|lra].
      exact HN.
    + destruct (mask_ratio_finite r_soft_sq r) as (-> & Hx0 & _); [lra|lra|].
      destruct (Rlt_dec _ 1) as [Hx1|]; [|exact HN].
      eexists. split; [|reflexivity].
      pose proof (uniform_old_poly _ (conj Hx0 Hx1)) as Hp.
      assert (0 < / r_soft_sq) by (apply Rinv_0_lt_compat; lra).
      set (x := sqrt (r / r_soft_sq)) in *.
      replace (- G_N * M_eff * x * (8 - 9 * x + 2 * x ^ 3) / r_soft_sq)
        with (- (G_N * M_eff * (x * (8 - 9 * x + 2 * x ^ 3)) * / r_soft_sq))
        by (field; lra).
      assert (0 <= G_N * M_eff * (x * (8 - 9 * x + 2 * x ^ 3))) by
        (apply Rmult_le_pos; assumption).
      nra.
  - unfold acc_uniform.
    destruct (Req_dec_T r_soft_sq 0) as [->|Hne].
    + unfold np_divide. destruct (Req_dec_T 0 0); [|lra].
      destruct (Req_dec_T r 0); [lra|]. destruct (Rlt_dec 0 r); [|lra].
      exact HN.
    + destruct (mask_ratio_finite r_soft_sq r) as (-> & Hx0 & _); [lra|lra|].
      destruct (Rle_dec _ 1) as [Hx1|]; [|exact HN].
      eexists. split; [|reflexivity].
      assert (0 < / r_soft_sq) by (apply Rinv_0_lt_compat; lra).
      set (x := sqrt (r / r_soft_sq)) in *.
      replace (- G_N * M_eff * x / r_soft_sq)
        with (- (G_N * M_eff * x * / r_soft_sq)) by (field; lra).
      assert (0 <= G_N * M_eff * x) by (apply Rmult_le_pos; assumption).
      nra.
  - eexists. split; [|reflexivity]. unfold np_clip.
    assert (0 < Rmin 1e50 (Rmax r r_soft_sq)) as Hc.
    { apply Rmin_glb_lt; [lra|]. apply Rlt_le_trans with r; [lra | apply Rmax_l]. }
    assert (0 < / Rmin 1e50 (Rmax r r_soft_sq)) by now apply Rinv_0_lt_compat.
    unfold Rdiv. nra.
  - unfold acc_empty_shell.
    destruct (np_sqrt (np_divide r r_soft_sq)) as [x| | |]; try exact HN.
    destruct (Rlt_dec x 1); [|exact HN].
    exists 0. split; [lra|]. unfold acc_newton. rewrite vscale_vscale.
    f_equal. lra.
Qed.

(** X3.  No kernel is repulsive: for a non-negative mass and softening and
    tracers off the body, every row of what [calc_acc] returns is the row
    of [dx] times a factor that is negative or zero. *)
Theorem calc_acc_attractive (M_eff r_soft_sq : R) (method : string)
    (dx : list vec) (r_sq : list R) (a : list vec) :
  0 <= M_eff -> 0 <= r_soft_sq -> Forall (fun r => 0 < r) r_sq ->
  calc_acc M_eff dx r_sq r_soft_sq method = Done a ->
  Forall2 (fun d acc => exists c, c <= 0 /\ acc = vscale c d) dx a.
Proof.
  intros HM Hs Hr. unfold calc_acc.
  repeat match goal with
         | |- (if String.eqb ?m ?k then _ else _) = _ -> _ =>
             destruct (String.eqb m k)
         end;
    try discriminate;
    apply (per_row_Forall2 _ (fun r => 0 < r)); try exact Hr;
    intros d r Hpos;
    apply (attractive_kernel M_eff r_soft_sq d r HM Hs Hpos).
Qed.

End KernelBounds.

(** ** The softened kernels are bounded *)

Section Caps.
Context {U : Units}.

(** X4.  Softening caps the pull: for a non-negative mass and a positive
    [r_soft_sq] the kernels "plummer" and "uniform", "truncate" for
    [r_soft_sq <= 1e50] and, away from [r_sq = 0], "empty_shell" give at
    every distance a factor between [-G_N*M_eff/r_soft_sq] and zero. *)
Theorem softening_caps_acceleration (M_eff r_soft_sq : R) (d : vec) (r : R) :
  0 <= M_eff -> 0 < r_soft_sq -> 0 <= r ->
  let bound := G_N * M_eff / r_soft_sq in
  pulls_at_most bound d (acc_plummer M_eff r_soft_sq d r) /\
  pulls_at_most bound d (acc_uniform M_eff r_soft_sq d r) /\
  (r_soft_sq <= 1e50 ->
   pulls_at_most bound d (acc_truncate M_eff r_soft_sq d r)) /\
  (0 < r -> pulls_at_most bound d (acc_empty_shell M_eff r_soft_sq d r)).
Proof.
  intros HM Hs Hr bound. pose proof G_N_pos as HG.
  assert (0 <= G_N * M_eff) as HGM by nra.
  assert (forall q, r_soft_sq <= q ->
            - bound <= - G_N * M_eff * / q <= 0) as Hinv.
  { intros q Hq. unfold bound.
    assert (0 < / q) by (apply Rinv_0_lt_compat; lra).
    assert (/ q <= / r_soft_sq) by (apply Rinv_le_contravar; lra).
    unfold Rdiv. split; nra. }
  destruct (mask_ratio_finite r_soft_sq r Hs Hr) as (Hx & Hx0 & Hx1).
  unfold pulls_at_most. repeat split.
  - eexists. split; [|reflexivity]. apply Hinv. lra.
  - unfold acc_uniform. rewrite Hx.
    destruct (Rle_dec _ 1) as [Hin|Hout].
    + eexists. split; [|reflexivity].
      set (x := sqrt (r / r_soft_sq)) in *. unfold bound.
      assert (0 < / r_soft_sq) by (apply Rinv_0_lt_compat; lra).
      replace (- G_N * M_eff * x / r_soft_sq)
        with (- (G_N * M_eff * / r_soft_sq * x)) by (field; lra).
      unfold Rdiv.
      assert (0 <= G_N * M_eff * / r_soft_sq) by nra.
      split; nra.
    + eexists. split; [|reflexivity]. apply Hinv. apply Hx1. lra.
  - intros Hhi. eexists. split; [|reflexivity]. unfold np_clip.
    replace (- G_N * M_eff / Rmin 1e50 (Rmax r r_soft_sq))
      with (- G_N * M_eff * / Rmin 1e50 (Rmax r r_soft_sq)) by reflexivity.
    apply Hinv. apply Rmin_glb; [exact Hhi | apply Rmax_r].
  - intros _. unfold acc_empty_shell. rewrite Hx.
    destruct (Rlt_dec _ 1) as [Hin|Hout].
    + exists 0. split.
      * unfold bound. assert (0 < / r_soft_sq) by (apply Rinv_0_lt_compat; lra).
        unfold Rdiv. split; nra.
      * unfold acc_newton. rewrite vscale_vscale. f_equal. lra.
    + eexists. split; [|reflexivity]. apply Hinv. apply Hx1. lra.
Qed.

(** X5.  [calc_acc] returns, one row for each row of [dx], for the six
    names "plummer", "plummer2", "uniform_old", "uniform", "truncate" and
    "empty_shell", and raises [ValueError] for every other name. *)
Theorem calc_acc_names (M_eff r_soft_sq : R) (method : string)
    (dx : list vec) (r_sq : list R) :
  length dx = length r_sq ->
  (known_kernel method <->
   exists a, calc_acc M_eff dx r_sq r_soft_sq method = Done a /\
             length a = length dx) /\
  (~ known_kernel method <->
   calc_acc M_eff dx r_sq r_soft_sq method = Fail ValueError).
Proof.
  intros Hlen.
  assert (known_kernel method \/ ~ known_kernel method) as Hdec.
  { unfold known_kernel. destruct (decide (method ∈
      ["plummer"; "plummer2"; "uniform_old"; "uniform"; "truncate"; "empty_shell"]));
      auto. }
  split; split.
  - intros Hk. now apply calc_acc_known.
  - intros (a & Ha & _). destruct Hdec as [Hk|Hk]; [exact Hk|].
    rewrite (calc_acc_unknown _ _ _ _ _ Hk) in Ha. discriminate.
  - apply calc_acc_unknown.
  - intros Hf Hk.
    destruct (calc_acc_known M_eff dx r_sq r_soft_sq method Hk Hlen) as (a & Ha & _).
    rewrite Hf in Ha. discriminate.
Qed.

End Caps.

(** ** The closest tracer *)

Lemma np_min_least xs m :
  np_min xs = Done m -> m ∈ xs /\ Forall (Rle m) xs.
Proof.
  destruct xs as [|x rest]; [discriminate|]. simpl. intros [= <-].
  induction rest as [|y rest [IH1 IH2]]; simpl.
  - split; [apply elem_of_cons; now left | constructor; [lra | constructor]].
  - unfold Rmin at 1 3. destruct (Rle_dec y (foldr Rmin x rest)) as [Hle|Hgt].
    + split; [apply elem_of_cons; right; apply elem_of_cons; now left|].
      inversion IH2 as [|? ? Hx Hrest]; subst.
      constructor; [lra|]. constructor; [lra|].
      eapply Forall_impl; [exact Hrest|]. simpl. intros z Hz. lra.
    + split.
      * apply elem_of_cons in IH1 as [->|IH1];
          [apply elem_of_cons; now left | apply elem_of_cons; right; apply elem_of_cons; now right].
      * inversion IH2 as [|? ? Hx Hrest]; subst.
        constructor; [exact Hx|]. constructor; [lra | exact Hrest].
Qed.

Section RMin.
Context {U : Units}.

(** What a force evaluation does to [r1_min] and [r2_min]. *)
Lemma update_acceleration_r_min (w w' : world) (o : particles) :
  holds o w -> update_acceleration w = Ok tt w' ->
  ((0 < N_DM o)%Z ->
   exists xs x1 m1,
     arrays (mem w) !! xDM o = Some (M3 xs) /\
     arrays (mem w) !! xBH1 o = Some (V3 x1) /\
     r1_min (self w') = Val m1 /\
     m1 ∈ map sqrt (dist_sq xs x1) /\
     Forall (Rle m1) (map sqrt (dist_sq xs x1)) /\
     (0 < M_2 o ->
      exists x2 m2,
        arrays (mem w) !! xBH2 o = Some (V3 x2) /\
        r2_min (self w') = Val m2 /\
        m2 ∈ map sqrt (dist_sq xs x2) /\
        Forall (Rle m2) (map sqrt (dist_sq xs x2)))) /\
  (~ 0 < M_2 o -> r2_min (self w') = r2_min (self w)) /\
  ((N_DM o <= 0)%Z ->
   r1_min (self w') = r1_min (self w) /\ r2_min (self w') = r2_min (self w)).
Proof.
  intros Ho E. pattern w'.
  match goal with
  | |- ?Q w' => enough (wp update_acceleration w (fun _ => Q) (fun _ _ => True)) as H
  end.
  { unfold wp in H. now rewrite E in H. }
  clear E w'. unfold update_acceleration.
  wp_step. wp_step. wp_clean.
  destruct (dynamic_BH o); destruct (Rlt_dec 0 (M_2 o));
    destruct (0 <? N_DM o)%Z eqn:EN;
    destruct (background_field (self w)) eqn:Hbg;
    repeat (wp_step; wp_clean; try rewrite Hbg).
  all: try apply Z.ltb_lt in EN; try apply Z.ltb_ge in EN.
  all: repeat match goal with
              | H : np_min _ = Done _ |- _ => apply np_min_least in H as [? ?]
              end.
  all: split; [intros HN; try lia | split; [intros HM; try contradiction | intros HN; try lia]].
  all: proj_simpl; try reflexivity; try (split; reflexivity).
  all: eexists _, _, _; repeat match goal with |- _ /\ _ => split end;
       try eassumption; try reflexivity; try (intros; contradiction).
  all: intros _; eexists _, _; repeat match goal with |- _ /\ _ => split end;
       try eassumption; try reflexivity.
Qed.

(** X6.  A force evaluation that returns with tracers present stores in
    [r1_min] the distance of the tracer closest to the primary and, when
    there is a secondary, in [r2_min] that of the tracer closest to the
    secondary; with no secondary [r2_min] keeps what it held, and with no
    tracer both do. *)
Theorem closest_tracer (w w' : world) (o : particles) :
  holds o w -> update_acceleration w = Ok tt w' ->
  ((0 < N_DM o)%Z ->
   exists xs x1 m1,
     arrays (mem w) !! xDM o = Some (M3 xs) /\
     arrays (mem w) !! xBH1 o = Some (V3 x1) /\
     r1_min (self w') = Val m1 /\
     m1 ∈ map sqrt (dist_sq xs x1) /\
     Forall (Rle m1) (map sqrt (dist_sq xs x1)) /\
     (0 < M_2 o ->
      exists x2 m2,
        arrays (mem w) !! xBH2 o = Some (V3 x2) /\
        r2_min (self w') = Val m2 /\
        m2 ∈ map sqrt (dist_sq xs x2) /\
        Forall (Rle m2) (map sqrt (dist_sq xs x2)))) /\
  (~ 0 < M_2 o -> r2_min (self w') = r2_min (self w)) /\
  ((N_DM o <= 0)%Z ->
   r1_min (self w') = r1_min (self w) /\ r2_min (self w') = r2_min (self w)).
Proof. apply update_acceleration_r_min. Qed.

End RMin.

(** ** The constructor of the particles *)

Lemma alloc_fresh a h l h' :
  alloc a h = (l, h') ->
  h !! l = None /\ h' !! l = Some a /\ h ⊆ h' /\
  forall k, k <> l -> h' !! k = h !! k.
Proof.
  unfold alloc. intros [= <- <-].
  assert (h !! fresh (dom h) = None) as Hn by apply not_elem_of_dom, is_fresh.
  split; [exact Hn|]. split; [apply lookup_insert_eq|].
  split; [now apply insert_subseteq|].
  intros k Hk. now apply lookup_insert_ne.
Qed.

Lemma ones_scaled (c : R) (n : nat) :
  Forall (eq c) (map (fun one => c * one) (replicate n 1)).
Proof. induction n as [|k IH]; simpl; constructor; [lra | exact IH]. Qed.

(** What [particles.__init__] returns. *)
Lemma particles_init_spec (M_1_ M_2_ : R) (N_DM_ : Z) (M_DM_ : R)
    (dynamic_BH_ : bool) (σ : store) :
  ((N_DM_ < 0)%Z ->
   particles_init M_1_ M_2_ N_DM_ M_DM_ dynamic_BH_ σ = Fail ValueError) /\
  ((0 <= N_DM_)%Z ->
   exists l σ' o,
     particles_init M_1_ M_2_ N_DM_ M_DM_ dynamic_BH_ σ = Done (l, σ') /\
     objects σ !! l = None /\
     objects σ' = <[l := o]> (objects σ) /\
     arrays σ ⊆ arrays σ' /\
     NoDup (arrays_of o) /\
     (forall k, k ∈ arrays_of o -> arrays σ !! k = None) /\
     (M_1 o, M_2 o, N_DM o, dynamic_BH o) = (M_1_, M_2_, N_DM_, dynamic_BH_) /\
     (dvdtBH1 o, dvdtBH2 o, dvdtDM o) = (IsNone, IsNone, Missing) /\
     (exists ms, arrays σ' !! M_DM o = Some (A1 ms) /\
                 length ms = Z.to_nat N_DM_ /\ Forall (eq M_DM_) ms) /\
     arrays σ' !! xBH1 o = Some (V3 vzero) /\
     arrays σ' !! vBH1 o = Some (V3 vzero) /\
     arrays σ' !! xBH2 o = Some (V3 vzero) /\
     arrays σ' !! vBH2 o = Some (V3 vzero) /\
     arrays σ' !! xDM o = Some (M3 (replicate (Z.to_nat N_DM_) vzero)) /\
     arrays σ' !! vDM o = Some (M3 (replicate (Z.to_nat N_DM_) vzero))).
Proof.
  unfold particles_init. split.
  - intros HN. apply Z.ltb_lt in HN. now rewrite HN.
  - intros HN. apply Z.ltb_ge in HN. rewrite HN.
    set (n := Z.to_nat N_DM_).
    destruct (alloc (A1 (map (fun one => M_DM_ * one) (replicate n 1))) (arrays σ))
      as [l1 h1] eqn:E1.
    destruct (alloc (V3 vzero) h1) as [l2 h2] eqn:E2.
    destruct (alloc (V3 vzero) h2) as [l3 h3] eqn:E3.
    destruct (alloc (V3 vzero) h3) as [l4 h4] eqn:E4.
    destruct (alloc (V3 vzero) h4) as [l5 h5] eqn:E5.
    destruct (alloc (M3 (replicate n vzero)) h5) as [l6 h6] eqn:E6.
    destruct (alloc (M3 (replicate n vzero)) h6) as [l7 h7] eqn:E7.
    apply alloc_fresh in E1 as (N1 & S1 & I1 & K1).
    apply alloc_fresh in E2 as (N2 & S2 & I2 & K2).
    apply alloc_fresh in E3 as (N3 & S3 & I3 & K3).
    apply alloc_fresh in E4 as (N4 & S4 & I4 & K4).
    apply alloc_fresh in E5 as (N5 & S5 & I5 & K5).
    apply alloc_fresh in E6 as (N6 & S6 & I6 & K6).
    apply alloc_fresh in E7 as (N7 & S7 & I7 & K7).
    (* a later array is none of the earlier ones *)
    assert (forall (h h' : gmap loc ndarray) k k' a,
              h !! k = Some a -> h ⊆ h' -> h' !! k' = None -> k <> k') as Hne.
    { intros h h' k k' a Hk Hsub Hk' ->.
      rewrite (lookup_weaken _ _ _ _ Hk Hsub) in Hk'. discriminate. }
    pose proof (transitivity I2 I3) as I13.
    pose proof (transitivity I13 I4) as I14.
    pose proof (transitivity I14 I5) as I15.
    pose proof (transitivity I15 I6) as I16.
    pose proof (transitivity I3 I4) as I24.
    pose proof (transitivity I24 I5) as I25.
    pose proof (transitivity I25 I6) as I26.
    pose proof (transitivity I4 I5) as I35.
    pose proof (transitivity I35 I6) as I36.
    pose proof (transitivity I5 I6) as I46.
    assert (l1 <> l2) as D12 by (eapply (Hne h1 h1); eauto).
    assert (l1 <> l3) as D13 by (eapply (Hne h1 h2); eauto).
    assert (l1 <> l4) as D14 by (eapply (Hne h1 h3); eauto).
    assert (l1 <> l5) as D15 by (eapply (Hne h1 h4); eauto).
    assert (l1 <> l6) as D16 by (eapply (Hne h1 h5); eauto).
    assert (l1 <> l7) as D17 by (eapply (Hne h1 h6); eauto).
    assert (l2 <> l3) as D23 by (eapply (Hne h2 h2); eauto).
    assert (l2 <> l4) as D24 by (eapply (Hne h2 h3); eauto).
    assert (l2 <> l5) as D25 by (eapply (Hne h2 h4); eauto).
    assert (l2 <> l6) as D26 by (eapply (Hne h2 h5); eauto).
    assert (l2 <> l7) as D27 by (eapply (Hne h2 h6); eauto).
    assert (l3 <> l4) as D34 by (eapply (Hne h3 h3); eauto).
    assert (l3 <> l5) as D35 by (eapply (Hne h3 h4); eauto).
    assert (l3 <> l6) as D36 by (eapply (Hne h3 h5); eauto).
    assert (l3 <> l7) as D37 by (eapply (Hne h3 h6); eauto).
    assert (l4 <> l5) as D45 by (eapply (Hne h4 h4); eauto).
    assert (l4 <> l6) as D46 by (eapply (Hne h4 h5); eauto).
    assert (l4 <> l7) as D47 by (eapply (Hne h4 h6); eauto).
    assert (l5 <> l6) as D56 by (eapply (Hne h5 h5); eauto).
    assert (l5 <> l7) as D57 by (eapply (Hne h5 h6); eauto).
    assert (l6 <> l7) as D67 by (eapply (Hne h6 h6); eauto).
    assert (forall h, h ⊆ h7 -> forall k a, h !! k = Some a -> h7 !! k = Some a)
      as Hup by (intros h Hh k a Hk; exact (lookup_weaken _ _ _ _ Hk Hh)).
    pose proof I7 as J6.
    pose proof (transitivity I6 J6) as J5.
    pose proof (transitivity I5 J5) as J4.
    pose proof (transitivity I4 J4) as J3.
    pose proof (transitivity I3 J3) as J2.
    pose proof (transitivity I2 J2) as J1.
    pose proof (transitivity I1 J1) as J0.
    assert (forall (h : gmap loc ndarray) k,
              arrays σ ⊆ h -> h !! k = None -> arrays σ !! k = None) as Hdown.
    { intros h k Hh Hk. exact (lookup_weaken_None _ _ _ Hk Hh). }
    eexists _, _, _. split; [reflexivity|]. cbn.
    split; [apply not_elem_of_dom, is_fresh|].
    split; [reflexivity|]. split; [exact J0|].
    split.
    { unfold arrays_of. cbn.
      repeat (apply NoDup_cons; split;
              [rewrite ?elem_of_cons, elem_of_nil; intuition congruence|]).
      apply NoDup_nil_2. }
    split.
    { intros k Hk. unfold arrays_of in Hk. cbn in Hk.
      rewrite !elem_of_cons, elem_of_nil in Hk.
      destruct Hk as [->|[->|[->|[->|[->|[->|[->|[]]]]]]]].
      - exact N1.
      - apply (Hdown h1); [exact I1 | exact N2].
      - apply (Hdown h2); [exact (transitivity I1 I2) | exact N3].
      - apply (Hdown h3); [exact (transitivity I1 I13) | exact N4].
      - apply (Hdown h4); [exact (transitivity I1 I14) | exact N5].
      - apply (Hdown h5); [exact (transitivity I1 I15) | exact N6].
      - apply (Hdown h6); [exact (transitivity I1 I16) | exact N7]. }
    split; [reflexivity|]. split; [reflexivity|].
    split.
    { eexists. split; [exact (Hup h1 J1 _ _ S1)|]. split.
      - now rewrite length_map, length_replicate.
      - apply ones_scaled. }
    repeat split.
    + exact (Hup h2 J2 _ _ S2).
    + exact (Hup h3 J3 _ _ S3).
    + exact (Hup h4 J4 _ _ S4).
    + exact (Hup h5 J5 _ _ S5).
    + exact (Hup h6 J6 _ _ S6).
    + exact S7.
Qed.

(** X7.  [particles(M_1, M_2, N_DM, M_DM, dynamic_BH)] raises
    [ValueError] for a negative [N_DM]; otherwise it returns a new
    object with seven new arrays, no two of them the same array: [N_DM]
    masses all equal to [M_DM], and positions and velocities all zero.
    The accelerations of the black holes are [None], that of the tracers
    is not assigned, and what the store held stays as it was. *)
Theorem particles_init_allocates (M_1_ M_2_ : R) (N_DM_ : Z) (M_DM_ : R)
    (dynamic_BH_ : bool) (σ : store) :
  ((N_DM_ < 0)%Z ->
   particles_init M_1_ M_2_ N_DM_ M_DM_ dynamic_BH_ σ = Fail ValueError) /\
  ((0 <= N_DM_)%Z ->
   exists l σ' o,
     particles_init M_1_ M_2_ N_DM_ M_DM_ dynamic_BH_ σ = Done (l, σ') /\
     objects σ !! l = None /\
     objects σ' = <[l := o]> (objects σ) /\
     arrays σ ⊆ arrays σ' /\
     NoDup (arrays_of o) /\
     (forall k, k ∈ arrays_of o -> arrays σ !! k = None) /\
     (M_1 o, M_2 o, N_DM o, dynamic_BH o) = (M_1_, M_2_, N_DM_, dynamic_BH_) /\
     (dvdtBH1 o, dvdtBH2 o, dvdtDM o) = (IsNone, IsNone, Missing) /\
     (exists ms, arrays σ' !! M_DM o = Some (A1 ms) /\
                 length ms = Z.to_nat N_DM_ /\ Forall (eq M_DM_) ms) /\
     arrays σ' !! xBH1 o = Some (V3 vzero) /\
     arrays σ' !! vBH1 o = Some (V3 vzero) /\
     arrays σ' !! xBH2 o = Some (V3 vzero) /\
     arrays σ' !! vBH2 o = Some (V3 vzero) /\
     arrays σ' !! xDM o = Some (M3 (replicate (Z.to_nat N_DM_) vzero)) /\
     arrays σ' !! vDM o = Some (M3 (replicate (Z.to_nat N_DM_) vzero))).
Proof. apply particles_init_spec. Qed.

(** ** The deep copy *)

Lemma copying_start σ : copying σ (arrays σ, ∅).
Proof.
  split; [reflexivity|]. split.
  - intros k v. simpl. now rewrite lookup_empty.
  - intros k k' v. simpl. now rewrite lookup_empty.
Qed.

Lemma copy_array_copies σ l st :
  copying σ st -> is_Some (arrays σ !! l) ->
  exists l' st',
    copy_array l st = Done (l', st') /\ copying σ st' /\
    snd st' !! l = Some l' /\ snd st ⊆ snd st'.
Proof.
  intros (Hsub & Hmemo & Hinj) [a Ha]. unfold copy_array.
  destruct (snd st !! l) as [l'|] eqn:Em.
  - exists l', st. split; [reflexivity|].
    split; [exact (conj Hsub (conj Hmemo Hinj))|]. split; [exact Em | reflexivity].
  - rewrite (lookup_weaken _ _ _ _ Ha Hsub).
    set (l' := fresh (dom (fst st))).
    assert (fst st !! l' = None) as Hnew by apply not_elem_of_dom, is_fresh.
    assert (forall k v, snd st !! k = Some v -> v <> l') as Hold.
    { intros k v Hk ->. destruct (Hmemo k _ Hk) as (_ & [b Hb] & Hv).
      rewrite Hnew, Hb in Hv. discriminate. }
    eexists _, _. split; [reflexivity|]. cbn [fst snd].
    split; [|split; [apply lookup_insert_eq | apply insert_subseteq; exact Em]].
    split; [|split]; cbn [fst snd].
    + apply insert_subseteq_r; [exact (lookup_weaken_None _ _ _ Hnew Hsub) | exact Hsub].
    + intros k v. rewrite lookup_insert. destruct (decide (l = k)) as [<-|Hne].
      * intros [= <-]. split; [|split].
        -- exact (lookup_weaken_None _ _ _ Hnew Hsub).
        -- now exists a.
        -- now rewrite lookup_insert_eq.
      * intros Hk. destruct (Hmemo k v Hk) as (H1 & H2 & H3).
        split; [exact H1|]. split; [exact H2|].
        rewrite lookup_insert_ne; [exact H3|]. intros Heq.
        now apply (Hold k v Hk).
    + intros k k' v. rewrite !lookup_insert.
      destruct (decide (l = k)) as [<-|Hk]; destruct (decide (l = k')) as [<-|Hk'];
        auto.
      * intros [= <-] H. now destruct (Hold _ _ H).
      * intros H [= <-]. now destruct (Hold _ _ H).
      * apply Hinj.
Qed.

(** [copy.deepcopy] of a particle set whose arrays are in the store
    returns a new object with the same masses, count, flag and
    accelerations.  Its arrays are the images of the original's under a
    renaming that sends no two arrays to the same one: each holds what
    the original holds, and two attributes share an array in the copy
    exactly when they do in the original. *)
Lemma deepcopy_copies (σ : store) (particle_set : loc) (o : particles) :
  objects σ !! particle_set = Some o ->
  (forall k, k ∈ arrays_of o -> is_Some (arrays σ !! k)) ->
  exists l σ' o' (m : gmap loc loc),
    deepcopy particle_set σ = Done (l, σ') /\
    objects σ' !! l = Some o' /\
    (M_1 o', M_2 o', N_DM o', dynamic_BH o') =
      (M_1 o, M_2 o, N_DM o, dynamic_BH o) /\
    (dvdtBH1 o', dvdtBH2 o', dvdtDM o') = (dvdtBH1 o, dvdtBH2 o, dvdtDM o) /\
    Forall2 (fun k k' => m !! k = Some k' /\ arrays σ' !! k' = arrays σ !! k)
      (arrays_of o) (arrays_of o') /\
    (forall k1 k2 v, m !! k1 = Some v -> m !! k2 = Some v -> k1 = k2).
Proof.
  intros Ho Harr. unfold deepcopy. rewrite Ho.
  assert (forall k, k ∈ arrays_of o -> is_Some (arrays σ !! k)) as Hin by exact Harr.
  unfold arrays_of in Hin.
  pose proof (copying_start σ) as C0.
  destruct (copy_array_copies σ (M_DM o) _ C0) as (l1 & st1 & -> & C1 & T1 & _).
  { apply Hin. set_solver. }
  cbn [res_bind].
  destruct (copy_array_copies σ (xBH1 o) _ C1) as (l2 & st2 & -> & C2 & T2 & G2).
  { apply Hin. set_solver. }
  cbn [res_bind].
  destruct (copy_array_copies σ (vBH1 o) _ C2) as (l3 & st3 & -> & C3 & T3 & G3).
  { apply Hin. set_solver. }
  cbn [res_bind].
  destruct (copy_array_copies σ (xBH2 o) _ C3) as (l4 & st4 & -> & C4 & T4 & G4).
  { apply Hin. set_solver. }
  cbn [res_bind].
  destruct (copy_array_copies σ (vBH2 o) _ C4) as (l5 & st5 & -> & C5 & T5 & G5).
  { apply Hin. set_solver. }
  cbn [res_bind].
  destruct (copy_array_copies σ (xDM o) _ C5) as (l6 & st6 & -> & C6 & T6 & G6).
  { apply Hin. set_solver. }
  cbn [res_bind].
  destruct (copy_array_copies σ (vDM o) _ C6) as (l7 & st7 & -> & C7 & T7 & G7).
  { apply Hin. set_solver. }
  cbn [res_bind].
  destruct C7 as (Hsub & Hmemo & Hinj).
  eexists _, _, _, (snd st7). split; [reflexivity|]. cbn [objects arrays].
  split; [apply lookup_insert_eq|]. split; [reflexivity|]. split; [reflexivity|].
  split; [|exact Hinj].
  assert (forall k v, snd st7 !! k = Some v ->
            snd st7 !! k = Some v /\ fst st7 !! v = arrays σ !! k) as Hfin.
  { intros k v Hk. split; [exact Hk|]. now destruct (Hmemo k v Hk) as (_ & _ & ?). }
  pose proof (lookup_weaken _ _ _ _ T6 G7) as U6.
  pose proof (lookup_weaken _ _ _ _ T5 (transitivity G6 G7)) as U5.
  pose proof (lookup_weaken _ _ _ _ T4 (transitivity G5 (transitivity G6 G7))) as U4.
  pose proof (lookup_weaken _ _ _ _ T3
                (transitivity G4 (transitivity G5 (transitivity G6 G7)))) as U3.
  pose proof (lookup_weaken _ _ _ _ T2
                (transitivity G3 (transitivity G4 (transitivity G5 (transitivity G6 G7)))))
    as U2.
  pose proof (lookup_weaken _ _ _ _ T1
                (transitivity G2 (transitivity G3 (transitivity G4
                   (transitivity G5 (transitivity G6 G7)))))) as U1.
  unfold arrays_of. cbn.
  repeat (constructor; [apply Hfin; assumption|]). constructor.
Qed.

(** ** Drift and kick on the phase *)

Lemma NoDup_arrays_of o :
  NoDup (arrays_of o) ->
  xBH1 o <> vBH1 o /\ xBH1 o <> xBH2 o /\ xBH1 o <> vBH2 o /\
  xBH1 o <> xDM o /\ xBH1 o <> vDM o /\
  vBH1 o <> xBH2 o /\ vBH1 o <> vBH2 o /\ vBH1 o <> xDM o /\ vBH1 o <> vDM o /\
  xBH2 o <> vBH2 o /\ xBH2 o <> xDM o /\ xBH2 o <> vDM o /\
  vBH2 o <> xDM o /\ vBH2 o <> vDM o /\ xDM o <> vDM o /\
  M_DM o <> xBH1 o /\ M_DM o <> vBH1 o /\ M_DM o <> xBH2 o /\
  M_DM o <> vBH2 o /\ M_DM o <> xDM o /\ M_DM o <> vDM o.
Proof.
  unfold arrays_of. intros H.
  repeat match goal with
         | H : NoDup (_ :: _) |- _ => apply NoDup_cons in H as [? H]
         end.
  repeat match goal with
         | H : _ ∉ _ :: _ |- _ => apply not_elem_of_cons in H as [? H]
         end.
  repeat split; congruence.
Qed.

Lemma phase_of_Some o w q :
  phase_of o w = Some q ->
  arrays (mem w) !! xBH1 o = Some (V3 (ph_xBH1 q)) /\
  arrays (mem w) !! vBH1 o = Some (V3 (ph_vBH1 q)) /\
  arrays (mem w) !! xBH2 o = Some (V3 (ph_xBH2 q)) /\
  arrays (mem w) !! vBH2 o = Some (V3 (ph_vBH2 q)) /\
  arrays (mem w) !! xDM o = Some (M3 (ph_xDM q)) /\
  arrays (mem w) !! vDM o = Some (M3 (ph_vDM q)).
Proof.
  unfold phase_of.
  repeat match goal with
         | |- context [match ?x with _ => _ end] => destruct x; try discriminate
         end.
  intros [= <-]. cbn. auto 10.
Qed.

Lemma wp_exact {A} (m : M A) w a W :
  wp m w (fun a' w' => a' = a /\ w' = W) (fun _ _ => False) -> m w = Ok a W.
Proof. unfold wp. destruct (m w); [intros [-> ->]; reflexivity | contradiction]. Qed.

(** A lookup below updates of other arrays. *)
Ltac lookup_below :=
  unfold holds; proj_simpl;
  rewrite ?lookup_insert_eq;
  repeat (rewrite lookup_insert_ne by congruence);
  rewrite ?lookup_insert_eq;
  first [ eassumption | reflexivity ].

Ltac wp_run :=
  lazymatch goal with
  | |- wp (mbind _ _) _ _ _ => apply wp_bind
  | |- wp (mret _) _ _ _ => apply wp_ret
  | |- wp get_self _ _ _ => apply wp_get_self
  | |- wp (set_self _) _ _ _ => apply wp_set_self
  | |- wp get_p _ _ _ => eapply wp_get_p_ok; [lookup_below|]
  | |- wp (set_p _) _ _ _ => eapply wp_set_p_ok; [lookup_below|]
  | |- wp (read_vec _) _ _ _ => eapply wp_read_vec_ok; [lookup_below|]
  | |- wp (read_mat _) _ _ _ => eapply wp_read_mat_ok; [lookup_below|]
  | |- wp (read_arr _) _ _ _ => eapply wp_read_arr_ok; [lookup_below|]
  | |- wp (operand (Val _)) _ _ _ => apply wp_ret
  | |- wp (write _ _) _ _ _ => apply wp_write
  | |- wp (iadd_vec _ _) _ _ _ => unfold iadd_vec
  | |- wp (iadd_mat _ _) _ _ _ => unfold iadd_mat
  end; cbv beta zeta; proj_simpl.

(** The drift, run: on distinct arrays it returns, with the positions
    advanced and nothing else changed. *)
Lemma xstep_body_run (h : R) (w : world) (o : particles) (q : phase) :
  holds o w -> NoDup (arrays_of o) -> phase_of o w = Some q ->
  length (ph_xDM q) = length (ph_vDM q) ->
  xstep_body h w =
    Ok tt (mk_world (mk_store (drifted o h q (arrays (mem w))) (objects (mem w)))
             (self w)).
Proof.
  intros Ho Hnd Hq Hlen. apply wp_exact.
  pose proof (NoDup_arrays_of o Hnd) as D. decompose [and] D. clear D.
  apply phase_of_Some in Hq. decompose [and] Hq. clear Hq.
  unfold xstep_body, drifted.
  wp_run. wp_run.
  destruct (dynamic_BH o).
  - repeat wp_run.
    rewrite length_map, Hlen, Nat.eqb_refl. wp_run. split; reflexivity.
  - repeat wp_run.
    rewrite length_map, Hlen, Nat.eqb_refl. wp_run. split; reflexivity.
Qed.

(** The kick, run, once the accelerations are set. *)
Lemma vstep_body_run (h : R) (w : world) (o : particles) (q : phase)
    (a1 a2 : acc3) (rows : list vec) :
  holds o w -> NoDup (arrays_of o) -> phase_of o w = Some q ->
  (dynamic_BH o = true -> dvdtBH1 o = Val a1) ->
  dvdtBH2 o = Val a2 -> dvdtDM o = Val rows ->
  length (ph_vDM q) = length rows ->
  vstep_body h w =
    Ok tt (mk_world
             (mk_store (kicked o h q a1 a2 rows (arrays (mem w))) (objects (mem w)))
             (self w)).
Proof.
  intros Ho Hnd Hq H1 H2 H3 Hlen. apply wp_exact.
  pose proof (NoDup_arrays_of o Hnd) as D. decompose [and] D. clear D.
  apply phase_of_Some in Hq. decompose [and] Hq. clear Hq.
  unfold vstep_body, kicked.
  wp_run. wp_run. rewrite H2, H3.
  destruct (dynamic_BH o).
  - rewrite (H1 eq_refl). repeat wp_run.
    rewrite length_map, Hlen, Nat.eqb_refl. wp_run. split; reflexivity.
  - repeat wp_run.
    rewrite length_map, Hlen, Nat.eqb_refl. wp_run. split; reflexivity.
Qed.

(** ** The algebra of drifts *)

Ltac phase_lookups :=
  unfold phase_of; proj_simpl;
  repeat (first [ rewrite lookup_insert_eq
                | rewrite lookup_insert_ne by congruence ]).

Lemma phase_of_drifted o h q w objs s :
  NoDup (arrays_of o) -> phase_of o w = Some q ->
  phase_of o (mk_world (mk_store (drifted o h q (arrays (mem w))) objs) s) =
    Some (drift (dynamic_BH o) h q).
Proof.
  intros Hnd Hq.
  pose proof (NoDup_arrays_of o Hnd) as D. decompose [and] D. clear D.
  apply phase_of_Some in Hq. decompose [and] Hq. clear Hq.
  unfold drifted, drift. destruct (dynamic_BH o); phase_lookups;
    repeat match goal with H : _ !! _ = Some _ |- _ => rewrite H end;
    reflexivity.
Qed.

Lemma phase_of_kicked o h q a1 a2 rows w objs s :
  NoDup (arrays_of o) -> phase_of o w = Some q ->
  phase_of o (mk_world (mk_store (kicked o h q a1 a2 rows (arrays (mem w))) objs) s) =
    Some (kick (dynamic_BH o) h a1 a2 rows q).
Proof.
  intros Hnd Hq.
  pose proof (NoDup_arrays_of o Hnd) as D. decompose [and] D. clear D.
  apply phase_of_Some in Hq. decompose [and] Hq. clear Hq.
  unfold kicked, kick. destruct (dynamic_BH o); phase_lookups;
    repeat match goal with H : _ !! _ = Some _ |- _ => rewrite H end;
    reflexivity.
Qed.

Lemma vadd_vscale_sum x v h1 h2 :
  vadd (vadd x (vscale h1 v)) (vscale h2 v) = vadd x (vscale (h1 + h2) v).
Proof. vec_solve. Qed.

Lemma zip_vadd_vscale_sum (xs vs : list vec) h1 h2 :
  zip_with vadd (zip_with vadd xs (map (vscale h1) vs)) (map (vscale h2) vs) =
  zip_with vadd xs (map (vscale (h1 + h2)) vs).
Proof.
  revert vs. induction xs as [|x xs IH]; intros [|v vs]; simpl; try reflexivity.
  now rewrite IH, vadd_vscale_sum.
Qed.

Lemma vadd_vscale_0 x v : vadd x (vscale 0 v) = x.
Proof. vec_solve. Qed.

Lemma zip_vadd_vscale_0 (xs vs : list vec) :
  length xs = length vs -> zip_with vadd xs (map (vscale 0) vs) = xs.
Proof.
  revert vs. induction xs as [|x xs IH]; intros [|v vs] Hlen; simpl in *;
    try discriminate; try reflexivity.
  rewrite IH by lia. now rewrite vadd_vscale_0.
Qed.

Lemma drifted_drifted o h1 h2 q m :
  NoDup (arrays_of o) ->
  drifted o h2 (drift (dynamic_BH o) h1 q) (drifted o h1 q m) =
  drifted o (h1 + h2) q m.
Proof.
  intros Hnd.
  pose proof (NoDup_arrays_of o Hnd) as D. decompose [and] D. clear D.
  unfold drifted, drift. apply map_eq. intros k.
  destruct (dynamic_BH o); cbn [ph_xBH1 ph_vBH1 ph_xBH2 ph_vBH2 ph_xDM ph_vDM];
    rewrite ?zip_vadd_vscale_sum, ?vadd_vscale_sum;
    destruct (decide (xDM o = k)) as [E1|?];
    destruct (decide (xBH2 o = k)) as [E2|?];
    destruct (decide (xBH1 o = k)) as [E3|?];
    try congruence; try rewrite <- E1; try rewrite <- E2; try rewrite <- E3;
    repeat (first [ rewrite lookup_insert_eq
                  | rewrite lookup_insert_ne by congruence ]);
    reflexivity.
Qed.

Lemma drifted_zero o q w :
  NoDup (arrays_of o) -> phase_of o w = Some q ->
  length (ph_xDM q) = length (ph_vDM q) ->
  drifted o 0 q (arrays (mem w)) = arrays (mem w).
Proof.
  intros Hnd Hq Hlen.
  apply phase_of_Some in Hq. decompose [and] Hq. clear Hq.
  unfold drifted. rewrite zip_vadd_vscale_0, !vadd_vscale_0 by exact Hlen.
  destruct (dynamic_BH o);
    rewrite ?(insert_id (arrays (mem w)) (xBH1 o)) by assumption;
    rewrite (insert_id (arrays (mem w)) (xBH2 o)) by assumption;
    rewrite (insert_id (arrays (mem w)) (xDM o)) by assumption;
    reflexivity.
Qed.

Section DriftAlgebra.

(** X8.  Drifts compose: on a particle set whose arrays are distinct, a
    drift by [h1] followed by a drift by [h2] is the drift by [h1 + h2],
    a drift by zero changes nothing, and so a drift by [-h] undoes a
    drift by [h]. *)
Theorem xstep_composes (w : world) (o : particles) (q : phase) (h1 h2 : R) :
  holds o w -> NoDup (arrays_of o) -> phase_of o w = Some q ->
  length (ph_xDM q) = length (ph_vDM q) ->
  (xstep h1 [] ;; xstep h2 []) w = xstep (h1 + h2) [] w /\
  xstep 0 [] w = Ok tt w /\
  (xstep h1 [] ;; xstep (- h1) []) w = Ok tt w.
Proof.
  intros Ho Hnd Hq Hlen.
  assert (forall a b, (xstep a [] ;; xstep b []) w = xstep (a + b) [] w) as Hcomp.
  { intros a b. cbn [xstep].
    rewrite (bind_ok _ _ _ _ _ (xstep_body_run a w o q Ho Hnd Hq Hlen)).
    rewrite (xstep_body_run (a + b) w o q Ho Hnd Hq Hlen).
    erewrite (xstep_body_run b _ o (drift (dynamic_BH o) a q)).
    - proj_simpl. now rewrite drifted_drifted.
    - exact Ho.
    - exact Hnd.
    - now apply phase_of_drifted.
    - cbn. rewrite length_zip_with, length_map. lia. }
  assert (xstep 0 [] w = Ok tt w) as Hzero.
  { cbn [xstep]. rewrite (xstep_body_run 0 w o q Ho Hnd Hq Hlen).
    rewrite (drifted_zero o q w Hnd Hq Hlen). now destruct w as [[? ?] ?]. }
  split; [apply Hcomp|]. split; [exact Hzero|].
  rewrite Hcomp. replace (h1 + - h1) with 0 by ring. exact Hzero.
Qed.

End DriftAlgebra.

(** ** The total force *)

Lemma weighted_sum_same_shape ms (a b : list vec) S :
  weighted_sum ms a = Done S -> length b = length a ->
  exists S', weighted_sum ms b = Done S'.
Proof.
  unfold weighted_sum, bcast2. intros H Hlen. rewrite Hlen.
  destruct (length ms =? length a)%nat; [eauto|].
  destruct ms as [|m [|m' ms]].
  - destruct a as [|x [|x' a]]; try discriminate.
    destruct b as [|y [|y' b]]; try discriminate. eauto.
  - eauto.
  - destruct a as [|x [|x' a]]; try discriminate.
    destruct b as [|y [|y' b]]; try discriminate. eauto.
Qed.

Section Flux.
Context {U : Units}.

(** The total force that a force evaluation leaves in the accelerations:
    the internal forces cancel, and what is left is the background
    field on the two black holes and on the tracers. *)
Lemma update_acceleration_flux (w w' : world) (o : particles) :
  holds o w -> dynamic_BH o = true -> 0 < M_2 o ->
  update_acceleration w = Ok tt w' ->
  exists o' ms xs x1 x2 rows,
    holds o' w' /\ fixed o' = fixed o /\
    arrays (mem w') = arrays (mem w) /\
    p (self w') = p (self w) /\
    background_field (self w') = background_field (self w) /\
    arrays (mem w) !! M_DM o = Some (A1 ms) /\
    arrays (mem w) !! xDM o = Some (M3 xs) /\
    arrays (mem w) !! xBH1 o = Some (V3 x1) /\
    arrays (mem w) !! xBH2 o = Some (V3 x2) /\
    dvdtDM o' = Val rows /\ length rows = length xs /\
    (exists a1 a2, dvdtBH1 o' = Val a1 /\ dvdtBH2 o' = Val a2) /\
    match background_field (self w) with
    | None => momentum_flux w' = Some vzero
    | Some bg =>
        exists F, weighted_sum ms (map bg xs) = Done F /\
          momentum_flux w' =
            Some (vadd (vadd (vscale (M_1 o) (bg x1)) (vscale (M_2 o) (bg x2))) F)
    end.
Proof.
  intros Ho Hdyn HM2 E. pattern w'.
  match goal with
  | |- ?Q w' => enough (wp update_acceleration w (fun _ => Q) (fun _ _ => True)) as H
  end.
  { unfold wp in H. now rewrite E in H. }
  clear E w'. unfold update_acceleration.
  wp_step. wp_step. wp_clean.
  destruct (Rlt_dec 0 (M_2 o)) as [_|]; [|contradiction].
  rewrite Hdyn.
  destruct (0 <? N_DM o)%Z; repeat (wp_step; wp_clean).
  all: destruct (background_field (self w)) as [bg|] eqn:Hbg;
       repeat (wp_step; wp_clean).
  all: repeat match goal with
              | H : py_div _ _ = Done _ |- _ =>
                  apply py_div_Done in H as [? ->]
              end.
  all: match goal with
       | H1 : calc_acc _ _ _ (r_soft_sq1 _) _ = Done ?a1,
         H2 : calc_acc _ _ _ (r_soft_sq2 _) _ = Done ?a2,
         H3 : accDM_add _ _ = Done ?rows |- _ =>
           assert (length a1 = length a2) as Hlen
             by (rewrite (calc_acc_length _ _ _ _ _ _ H1),
                   (calc_acc_length _ _ _ _ _ _ H2), !length_zip_with, !length_map;
                 reflexivity);
           pose proof (calc_acc_length _ _ _ _ _ _ H1) as Hlen1;
           rewrite length_zip_with, !length_map, Nat.min_id in Hlen1;
           cbn [accDM_add] in H3; unfold bcast2 in H3; rewrite Hlen, Nat.eqb_refl in H3;
           injection H3 as <-
       end.
  all: try match goal with
           | H : bcast2 vadd (zip_with vadd ?a1 ?a2) (map ?bg ?xs) = Done _ |- _ =>
               rewrite bcast2_Done in H
                 by (rewrite length_zip_with, length_map; lia);
               injection H as <-
           end.
  all: match goal with
       | H : arrays _ !! M_DM _ = Some (A1 ?ms),
         Hx : arrays _ !! xDM _ = Some (M3 ?xs),
         H1 : arrays _ !! xBH1 _ = Some (V3 ?x1),
         H2 : arrays _ !! xBH2 _ = Some (V3 ?x2) |- _ =>
           eexists _, ms, xs, x1, x2, _
       end.
  all: repeat match goal with |- _ /\ _ => split end.
  all: unfold fixed; proj_simpl; rewrite ?lookup_insert_eq; proj_simpl;
       try reflexivity; try eassumption.
  all: try (rewrite ?length_zip_with, ?length_map; lia).
  all: try (eexists _, _; split; reflexivity).
  - (* tracers, a background field *)
    match goal with
    | H : weighted_sum ?ms ?a1 = Done _ |- context [map ?bg ?xs] =>
        destruct (weighted_sum_same_shape ms a1 (map bg xs) _ H) as [F HF];
          [rewrite length_map; lia|]
    end.
    exists F. split; [exact HF|].
    unfold momentum_flux; proj_simpl; rewrite ?lookup_insert_eq; proj_simpl.
    match goal with H : arrays _ !! M_DM _ = Some _ |- _ => rewrite H end.
    erewrite weighted_sum_add;
      [| rewrite length_zip_with, length_map; lia
       | eapply weighted_sum_add; eassumption | exact HF].
    f_equal.
    match goal with
    | |- context [vscale (- G_N * ?m * ?q) ?d] =>
        generalize (vscale (- G_N * m * q) d)
    end.
    generalize (bg v0) (bg v1). vec_solve.
  - unfold momentum_flux; proj_simpl; rewrite ?lookup_insert_eq; proj_simpl.
    match goal with H : arrays _ !! M_DM _ = Some _ |- _ => rewrite H end.
    erewrite weighted_sum_add by eassumption.
    f_equal.
    match goal with
    | |- context [vscale (- G_N * ?m * ?q) ?d] =>
        generalize (vscale (- G_N * m * q) d)
    end.
    vec_solve.
  - match goal with
    | H : weighted_sum ?ms ?a1 = Done _ |- context [map ?bg ?xs] =>
        destruct (weighted_sum_same_shape ms a1 (map bg xs) _ H) as [F HF];
          [rewrite length_map; lia|]
    end.
    exists F. split; [exact HF|].
    unfold momentum_flux; proj_simpl; rewrite ?lookup_insert_eq; proj_simpl.
    match goal with H : arrays _ !! M_DM _ = Some _ |- _ => rewrite H end.
    erewrite weighted_sum_add;
      [| rewrite length_zip_with, length_map; lia
       | eapply weighted_sum_add; eassumption | exact HF].
    f_equal.
    match goal with
    | |- context [vscale (- G_N * ?m * ?q) ?d] =>
        generalize (vscale (- G_N * m * q) d)
    end.
    generalize (bg v0) (bg v1). vec_solve.
  - unfold momentum_flux; proj_simpl; rewrite ?lookup_insert_eq; proj_simpl.
    match goal with H : arrays _ !! M_DM _ = Some _ |- _ => rewrite H end.
    erewrite weighted_sum_add by eassumption.
    f_equal.
    match goal with
    | |- context [vscale (- G_N * ?m * ?q) ?d] =>
        generalize (vscale (- G_N * m * q) d)
    end.
    vec_solve.
Qed.
End Flux.

(** ** The total momentum *)

Lemma returns_in_bind {A B} (P Q R : world -> Prop) (m : M A) (f : A -> M B) :
  returns_in P m Q -> (forall a, returns_in Q (f a) R) -> returns_in P (m ≫= f) R.
Proof.
  intros Hm Hf w Hw. apply wp_bind.
  eapply wp_mono; [apply Hm, Hw | | auto].
  intros a w' Hw'. apply Hf, Hw'.
Qed.

Lemma returns_in_weaken {A} (P P' Q Q' : world -> Prop) (m : M A) :
  (forall w, P' w -> P w) -> (forall w, Q w -> Q' w) ->
  returns_in P m Q -> returns_in P' m Q'.
Proof.
  intros HP HQ Hm w Hw. eapply wp_mono; [apply Hm, HP, Hw | |]; cbv beta; auto.
Qed.

Lemma returns_in_raise {A} (P Q : world -> Prop) e : returns_in P (raise e : M A) Q.
Proof. intros w _. exact I. Qed.

Lemma returns_in_ret {A} (P : world -> Prop) (a : A) : returns_in P (mret a) P.
Proof. intros w Hw. exact Hw. Qed.

Lemma returns_in_for_loop (P : world -> Prop) body k i :
  (forall j, returns_in P (body j) P) -> returns_in P (for_loop k i body) P.
Proof.
  intros Hb. revert i. induction k as [|k IH]; intros i; simpl.
  - apply returns_in_ret.
  - eapply returns_in_bind; [apply Hb | intros _; apply IH].
Qed.

Lemma well_formed_phase w o :
  well_formed w o ->
  exists q ms, phase_of o w = Some q /\
    arrays (mem w) !! M_DM o = Some (A1 ms) /\
    length ms = Z.to_nat (N_DM o) /\
    length (ph_xDM q) = Z.to_nat (N_DM o) /\
    length (ph_vDM q) = Z.to_nat (N_DM o).
Proof.
  intros [Ho HN (ms & Hms & Lms) (x1 & Hx1) (v1 & Hv1) (x2 & Hx2) (v2 & Hv2)
            (xs & Hxs & Lxs) (vs & Hvs & Lvs)].
  exists (mk_phase x1 v1 x2 v2 xs vs), ms. unfold phase_of.
  rewrite Hx1, Hv1, Hx2, Hv2, Hxs, Hvs. auto.
Qed.

Lemma phase_well_formed w o q ms :
  holds o w -> (0 <= N_DM o)%Z -> phase_of o w = Some q ->
  arrays (mem w) !! M_DM o = Some (A1 ms) ->
  length ms = Z.to_nat (N_DM o) ->
  length (ph_xDM q) = Z.to_nat (N_DM o) ->
  length (ph_vDM q) = Z.to_nat (N_DM o) ->
  well_formed w o.
Proof.
  intros Ho HN Hq Hms L1 L2 L3. apply phase_of_Some in Hq.
  decompose [and] Hq. clear Hq.
  split; eauto.
Qed.

Lemma weighted_sum_scale ms rows S h :
  weighted_sum ms rows = Done S ->
  weighted_sum ms (map (vscale h) rows) = Done (vscale h S).
Proof.
  assert (forall (xs : list vec), vsum (map (vscale h) xs) = vscale h (vsum xs)) as Hsum.
  { induction xs as [|x xs IH]; [vec_solve|].
    cbn [map vsum foldr]. fold (vsum (map (vscale h) xs)) (vsum xs).
    rewrite IH. generalize (vsum xs). vec_solve. }
  assert (forall m x, vscale m (vscale h x) = vscale h (vscale m x)) as Hc
    by vec_solve.
  assert (forall ms' rows',
            zip_with vscale ms' (map (vscale h) rows') =
            map (vscale h) (zip_with vscale ms' rows')) as Hzip.
  { induction ms' as [|m ms' IH]; intros [|r rows']; simpl; try reflexivity.
    now rewrite IH, Hc. }
  unfold weighted_sum, bcast2. rewrite length_map.
  destruct (length ms =? length rows)%nat.
  - intros [= <-]. now rewrite Hzip, Hsum.
  - destruct ms as [|m [|m' ms]].
    + destruct rows as [|x [|x' rows]]; try discriminate.
      intros [= <-]. simpl. f_equal. vec_solve.
    + intros [= <-]. f_equal. rewrite <- Hsum, !map_map. f_equal.
      clear -Hc. induction rows as [|x rows IH]; simpl; [reflexivity|].
      now rewrite IH, Hc.
    + destruct rows as [|x [|x' rows]]; try discriminate.
      intros [= <-]. cbn [map]. f_equal.
      change (vadd (vscale m x)
                (vadd (vscale m' x) (vsum (map (fun x0 : R => vscale x0 x) ms))))
        with (vsum (map (fun x0 : R => vscale x0 x) (m :: m' :: ms))).
      rewrite <- Hsum, map_map. f_equal.
      change (vscale m (vscale h x) :: vscale m' (vscale h x)
                :: map (fun x0 : R => vscale x0 (vscale h x)) ms)
        with (map (fun x0 : R => vscale x0 (vscale h x)) (m :: m' :: ms)).
      apply map_ext. intros a. apply Hc.
Qed.

Lemma acc3_vec_scale a h : acc3_vec (acc3_scale a h) = vscale h (acc3_vec a).
Proof. destruct a as [c|v]; simpl; [vec_solve | reflexivity]. Qed.

Lemma drifted_M_DM o h q m :
  NoDup (arrays_of o) -> drifted o h q m !! M_DM o = m !! M_DM o.
Proof.
  intros Hnd. pose proof (NoDup_arrays_of o Hnd) as D. decompose [and] D. clear D.
  unfold drifted. destruct (dynamic_BH o);
    repeat (rewrite lookup_insert_ne by congruence); reflexivity.
Qed.

Lemma kicked_M_DM o h q a1 a2 rows m :
  NoDup (arrays_of o) -> kicked o h q a1 a2 rows m !! M_DM o = m !! M_DM o.
Proof.
  intros Hnd. pose proof (NoDup_arrays_of o Hnd) as D. decompose [and] D. clear D.
  unfold kicked. destruct (dynamic_BH o);
    repeat (rewrite lookup_insert_ne by congruence); reflexivity.
Qed.

Lemma momentum_fixed o o' w w' :
  fixed o' = fixed o -> arrays (mem w') = arrays (mem w) ->
  momentum o' w' = momentum o w.
Proof.
  unfold fixed, momentum, phase_of. intros Hfix ->.
  injection Hfix as -> -> -> _ -> -> -> -> -> -> _. reflexivity.
Qed.

Lemma well_formed_fixed o o' w w' :
  well_formed w o -> holds o' w' -> fixed o' = fixed o ->
  arrays (mem w') = arrays (mem w) -> well_formed w' o'.
Proof.
  intros [Ho HN H1 H2 H3 H4 H5 H6 H7] Ho' Hfix Harr. unfold fixed in Hfix.
  injection Hfix as E1 E2 E3 E4 E5 E6 E7 E8 E9 E10 E11.
  split; rewrite ?Harr, ?E3, ?E4, ?E5, ?E6, ?E7, ?E8, ?E9, ?E10; assumption.
Qed.

Lemma kick_momentum (m1 m2 h : R) (v1 v2 a1 a2 Sv S : vec) :
  vadd (vadd (vscale m1 a1) (vscale m2 a2)) S = vzero ->
  vadd (vadd (vscale m1 (vadd v1 (vscale h a1)))
             (vscale m2 (vadd v2 (vscale h a2))))
       (vadd Sv (vscale h S)) =
  vadd (vadd (vscale m1 v1) (vscale m2 v2)) Sv.
Proof.
  vec_destruct. unfold vadd, vscale, vzero. intros [= E1 E2 E3].
  f_equal; [f_equal|]; nra.
Qed.

Section Conservation.

Context {U : Units}.

Variable o0 : particles.
Variable P0 : vec.

Hypothesis o0_distinct : NoDup (arrays_of o0).
Hypothesis o0_dynamic : dynamic_BH o0 = true.
Hypothesis o0_secondary : 0 < M_2 o0.

Lemma isolated_set_self f :
  (forall s, p (f s) = p s /\ background_field (f s) = background_field s) ->
  returns_in (isolated o0 P0) (set_self f) (isolated o0 P0).
Proof.
  intros Hf w (Hbg & o & Hwf & Hfix & Hmom). apply wp_set_self.
  destruct (Hf (self w)) as [Hp Hb].
  split; [cbn; congruence|]. exists o. split; [|split; [exact Hfix|]].
  - apply (well_formed_fixed o o w); auto.
    destruct Hwf as [Ho _]. unfold holds in *. cbn. now rewrite Hp.
  - rewrite <- Hmom. now apply momentum_fixed.
Qed.

Lemma isolated_xstep h extra :
  returns_in (isolated o0 P0) (xstep h extra) (isolated o0 P0).
Proof.
  destruct extra; [|apply returns_in_raise].
  intros w (Hbg & o & Hwf & Hfix & Hmom).
  destruct (well_formed_phase w o Hwf) as (q & ms & Hq & Hms & L1 & L2 & L3).
  assert (NoDup (arrays_of o)) as Hnd
    by (rewrite (fixed_arrays_of _ _ Hfix); exact o0_distinct).
  destruct Hwf as [Ho HN _ _ _ _ _ _ _].
  unfold wp. cbn [xstep].
  rewrite (xstep_body_run h w o q Ho Hnd Hq) by congruence.
  split; [exact Hbg|]. exists o.
  assert (phase_of o
            (mk_world (mk_store (drifted o h q (arrays (mem w))) (objects (mem w)))
               (self w)) = Some (drift (dynamic_BH o) h q)) as Hq'
    by now apply phase_of_drifted.
  split; [|split; [exact Hfix|]].
  - apply (phase_well_formed _ o (drift (dynamic_BH o) h q) ms); auto.
    + cbn. now rewrite drifted_M_DM.
    + cbn. rewrite length_zip_with, length_map. lia.
  - unfold momentum in *. rewrite Hq'. rewrite Hq, Hms in Hmom.
    cbn [mem arrays]. rewrite drifted_M_DM, Hms by exact Hnd. exact Hmom.
Qed.

Lemma flux_frame w w' :
  objects (mem w') = objects (mem w) -> p (self w') = p (self w) ->
  (forall o, holds o w -> arrays (mem w') !! M_DM o = arrays (mem w) !! M_DM o) ->
  momentum_flux w' = momentum_flux w.
Proof.
  intros Hobj Hp Harr. unfold momentum_flux. rewrite Hobj, Hp.
  destruct (objects (mem w) !! p (self w)) as [o|] eqn:Ho; [|reflexivity].
  now rewrite (Harr o Ho).
Qed.

Lemma balanced_xstep h extra :
  returns_in (balanced o0 P0) (xstep h extra) (balanced o0 P0).
Proof.
  intros w (Hiso & Hflux & o & rows & Ho & Hrows & Lrows).
  pose proof (isolated_xstep h extra w Hiso) as Hstep.
  destruct extra; [|exact I].
  destruct Hiso as (Hbg & o' & Hwf & Hfix & Hmom).
  assert (o' = o) as -> by (destruct Hwf as [Ho' _]; unfold holds in *; congruence).
  destruct (well_formed_phase w o Hwf) as (q & ms & Hq & Hms & L1 & L2 & L3).
  assert (NoDup (arrays_of o)) as Hnd
    by (rewrite (fixed_arrays_of _ _ Hfix); exact o0_distinct).
  unfold wp in *. cbn [xstep] in *.
  rewrite (xstep_body_run h w o q Ho Hnd Hq) in * by congruence.
  split; [exact Hstep|]. split.
  - rewrite <- Hflux. apply flux_frame; try reflexivity.
    intros o1 Ho1. assert (o1 = o) as -> by (unfold holds in *; congruence).
    cbn. now apply drifted_M_DM.
  - exists o, rows. auto.
Qed.

Lemma isolated_update_acceleration :
  returns_in (isolated o0 P0) update_acceleration (balanced o0 P0).
Proof.
  intros w (Hbg & o & Hwf & Hfix & Hmom). unfold wp.
  destruct (update_acceleration w) as [[] w'|] eqn:E; [|exact I].
  pose proof Hfix as Hfix'. unfold fixed in Hfix'.
  injection Hfix' as _ EM2 _ EN _ _ _ _ _ _ Edyn.
  destruct (well_formed_phase w o Hwf) as (q & ms0 & Hq & Hms0 & L1 & L2 & L3).
  apply phase_of_Some in Hq. destruct Hq as (_ & _ & _ & _ & Hxs0 & _).
  destruct (update_acceleration_flux w w' o) as
    (o' & ms & xs & x1 & x2 & rows & Ho' & Hfix1 & Harr & Hp & Hbg' & Hms & Hxs &
     Hx1 & Hx2 & Hrows & Lrows & _ & Hflux); auto.
  { apply Hwf. }
  { congruence. }
  { congruence. }
  rewrite Hbg in Hflux.
  split; [|split; [exact Hflux|]].
  - split; [congruence|]. exists o'. split; [|split; [congruence|]].
    + now apply (well_formed_fixed o o' w w').
    + rewrite <- Hmom. now apply momentum_fixed.
  - exists o', rows. split; [exact Ho'|]. split; [exact Hrows|].
    rewrite Lrows. rewrite Hxs in Hxs0. injection Hxs0 as ->. congruence.
Qed.

Lemma balanced_vstep h extra :
  returns_in (balanced o0 P0) (vstep h extra) (balanced o0 P0).
Proof.
  destruct extra; [|apply returns_in_raise].
  intros w ((Hbg & o & Hwf & Hfix & Hmom) & Hflux & o' & rows & Ho' & Hrows & Lrows).
  assert (o' = o) as -> by (destruct Hwf as [Ho _]; unfold holds in *; congruence).
  destruct (well_formed_phase w o Hwf) as (q & ms & Hq & Hms & L1 & L2 & L3).
  assert (NoDup (arrays_of o)) as Hnd
    by (rewrite (fixed_arrays_of _ _ Hfix); exact o0_distinct).
  pose proof Hfix as Hfix'. unfold fixed in Hfix'.
  injection Hfix' as _ _ _ EN _ _ _ _ _ _ Edyn.
  pose proof Hflux as Hflux'. unfold momentum_flux in Hflux'.
  unfold holds in Ho'. rewrite Ho', Hms, Hrows in Hflux'.
  destruct (dvdtBH1 o) as [| |a1] eqn:Ha1; try discriminate.
  destruct (dvdtBH2 o) as [| |a2] eqn:Ha2; try discriminate.
  destruct (weighted_sum ms rows) as [S|] eqn:HS; [|discriminate].
  injection Hflux' as Hzero.
  unfold wp. cbn [vstep].
  rewrite (vstep_body_run h w o q a1 a2 rows Ho' Hnd Hq) by (auto; congruence).
  assert (phase_of o
            (mk_world
               (mk_store (kicked o h q a1 a2 rows (arrays (mem w))) (objects (mem w)))
               (self w)) = Some (kick (dynamic_BH o) h a1 a2 rows q)) as Hq'
    by now apply phase_of_kicked.
  split; [split; [exact Hbg|]|split].
  - exists o. split; [|split; [exact Hfix|]].
    + apply (phase_well_formed _ o (kick (dynamic_BH o) h a1 a2 rows q) ms); auto.
      * apply Hwf.
      * cbn. now rewrite kicked_M_DM.
      * cbn. rewrite length_zip_with, length_map. lia.
    + unfold momentum in *. rewrite Hq'. rewrite Hq, Hms in Hmom.
      cbn [mem arrays]. rewrite kicked_M_DM, Hms by exact Hnd.
      destruct (weighted_sum ms (ph_vDM q)) as [Sv|] eqn:HSv; [|discriminate].
      injection Hmom as <-.
      cbn [kick ph_vDM ph_vBH1 ph_vBH2]. rewrite Edyn, o0_dynamic.
      rewrite (weighted_sum_add ms (ph_vDM q) (map (vscale h) rows) Sv (vscale h S));
        [| rewrite length_map; lia | exact HSv | now apply weighted_sum_scale].
      rewrite !acc3_vec_scale. f_equal. now apply kick_momentum.
  - rewrite <- Hflux. apply flux_frame; try reflexivity.
    intros o1 Ho1. assert (o1 = o) as -> by (unfold holds in *; congruence).
    cbn. now apply kicked_M_DM.
  - exists o, rows. auto.
Qed.

Lemma balanced_isolated w : balanced o0 P0 w -> isolated o0 P0 w.
Proof. now intros [H _]. Qed.

Lemma balanced_update_acceleration :
  returns_in (balanced o0 P0) update_acceleration (balanced o0 P0).
Proof.
  eapply returns_in_weaken; [apply balanced_isolated | | apply isolated_update_acceleration].
  auto.
Qed.

Lemma returns_in_false {A} (m : M A) (Q : world -> Prop) :
  returns_in (fun _ => False) m Q.
Proof. intros w []. Qed.

Lemma returns_in_raises {A B} (P Q : world -> Prop) e (f : A -> M B) :
  returns_in P (raise e ≫= f) Q.
Proof. intros w _. exact I. Qed.

Lemma balanced_last_xstep h :
  returns_in (balanced o0 P0) (xstep h []) (isolated o0 P0).
Proof.
  eapply returns_in_weaken; [| apply balanced_isolated | apply balanced_xstep]. auto.
Qed.

Ltac stage :=
  first
    [ apply balanced_last_xstep
    | eapply returns_in_bind;
      [ first [ apply balanced_xstep | apply balanced_vstep
              | apply balanced_update_acceleration ]
      | intros _ ] ].

Lemma isolated_full_step dt method inds :
  returns_in (isolated o0 P0) (full_step dt method inds) (isolated o0 P0).
Proof.
  unfold full_step.
  destruct (String.eqb method "DKD"); [apply returns_in_raises|].
  destruct (String.eqb method "KDK").
  { eapply returns_in_bind; [apply isolated_update_acceleration | intros _].
    apply returns_in_raises. }
  destruct (String.eqb method "FR").
  { eapply returns_in_bind; [apply isolated_xstep | intros _].
    eapply returns_in_bind; [apply isolated_update_acceleration | intros _].
    repeat stage. }
  destruct (String.eqb method "PEFRL").
  { eapply returns_in_bind; [apply isolated_xstep | intros _].
    eapply returns_in_bind; [apply isolated_update_acceleration | intros _].
    repeat stage. }
  apply returns_in_ret.
Qed.

Lemma isolated_adaptive_step dt method eta N_sub_max :
  returns_in (isolated o0 P0) (adaptive_step dt method eta N_sub_max)
    (isolated o0 P0).
Proof.
  unfold adaptive_step.
  assert (forall {A} (m : M A), (forall w, final (m w) = w) ->
            returns_in (isolated o0 P0) m (isolated o0 P0)) as Hread.
  { intros A m Hm w Hw. unfold wp. specialize (Hm w). unfold final in Hm.
    destruct (m w); [now subst | exact I]. }
  assert (forall {A} (r : res A), returns_in (isolated o0 P0) (lift r) (isolated o0 P0))
    as Hlift.
  { intros A r. apply Hread. intros w. now destruct r. }
  eapply returns_in_bind.
  { apply Hread. intros w. unfold get_p. now destruct (_ !! _). }
  intros o. destruct (N_DM o =? 0)%Z; [apply isolated_full_step|].
  eapply returns_in_bind; [apply Hread; reflexivity | intros s].
  eapply returns_in_bind.
  { destruct (r2_min s).
    - apply returns_in_raise.
    - eapply returns_in_weaken;
        [| apply balanced_isolated | apply isolated_update_acceleration]. auto.
    - apply returns_in_ret. }
  intros _.
  eapply returns_in_bind; [apply Hread; reflexivity | intros s'].
  eapply returns_in_bind.
  { apply Hread. intros w. unfold get_p. now destruct (_ !! _). }
  intros o'.
  eapply returns_in_bind.
  { apply Hread. intros w. now destruct (r2_min s'). }
  intros r. cbv zeta.
  destruct (x_ge _ _); [apply isolated_full_step|].
  eapply returns_in_bind; [apply Hlift | intros N].
  eapply returns_in_bind; [apply Hlift | intros dt_sub].
  apply returns_in_for_loop. intros j. apply isolated_full_step.
Qed.

End Conservation.

Section Conservation2.

Context {U : Units}.

Variable o0 : particles.
Variable P0 : vec.

Hypothesis o0_distinct : NoDup (arrays_of o0).
Hypothesis o0_dynamic : dynamic_BH o0 = true.
Hypothesis o0_secondary : 0 < M_2 o0.

(** A statement that only reads. *)
Lemma isolated_read {A} (m : M A) :
  (forall w, final (m w) = w) ->
  returns_in (isolated o0 P0) m (isolated o0 P0).
Proof.
  intros Hm w Hw. unfold wp. specialize (Hm w). unfold final in Hm.
  destruct (m w); [now subst | exact I].
Qed.

Lemma final_get_p w : final (get_p w) = w.
Proof. unfold get_p. now destruct (_ !! _). Qed.

Lemma final_lift {A} (r : res A) w : final (lift r w) = w.
Proof. now destruct r. Qed.

Lemma final_operand {A} (a : attr A) w : final (operand a w) = w.
Proof. now destruct a. Qed.

Lemma final_read_vec l w : final (read_vec l w) = w.
Proof. unfold read_vec. now destruct (_ !! _) as [[]|]. Qed.

Lemma final_guard (b : bool) e w :
  final ((if b then raise e else mret tt : M unit) w) = w.
Proof. now destruct b. Qed.

Ltac iso :=
  repeat lazymatch goal with
    | |- returns_in _ (mbind _ _) _ => eapply returns_in_bind; [| intros ]
    | |- returns_in _ (mret _) _ => apply returns_in_ret
    | |- returns_in _ (set_self _) _ =>
        apply (isolated_set_self o0 P0); intros []; split; reflexivity
    | |- returns_in _ get_self _ => apply isolated_read; reflexivity
    | |- returns_in _ get_p _ => apply isolated_read, final_get_p
    | |- returns_in _ (lift _) _ => apply isolated_read, final_lift
    | |- returns_in _ (operand _) _ => apply isolated_read, final_operand
    | |- returns_in _ (read_vec _) _ => apply isolated_read, final_read_vec
    | |- returns_in _ (if _ then raise _ else mret tt) _ =>
        apply isolated_read, final_guard
    end.

Lemma isolated_record_state i_out :
  returns_in (isolated o0 P0) (record_state i_out) (isolated o0 P0).
Proof. unfold record_state. iso. Qed.

Lemma isolated_run_simulation check_state dt t_end method N_save inds eta N_sub_max :
  (forall hook, check_state = Some hook ->
     returns_in (isolated o0 P0) hook (isolated o0 P0)) ->
  returns_in (isolated o0 P0)
    (run_simulation check_state dt t_end method N_save inds eta N_sub_max)
    (isolated o0 P0).
Proof.
  intros Hhook. unfold run_simulation.
  eapply returns_in_bind; [iso | intros _].
  eapply returns_in_bind; [iso | intros q]. cbv zeta.
  do 10 (eapply returns_in_bind; [iso | intros ?]).
  eapply returns_in_bind; [| intros _; iso].
  apply returns_in_for_loop. intros it.
  eapply returns_in_bind.
  { destruct check_state as [hook|]; [now apply Hhook | apply returns_in_ret]. }
  intros _.
  eapply returns_in_bind.
  { destruct (_ =? _)%Z; [apply isolated_record_state | apply returns_in_ret]. }
  intros _.
  eapply returns_in_bind.
  { destruct (Rlt_dec eta 0);
      [now apply isolated_full_step | now apply isolated_adaptive_step]. }
  intros _. iso.
Qed.

End Conservation2.

(** ** What the forces depend on *)

(** What was computed once is computed again as the same value. *)
Ltac wp_same :=
  repeat match goal with
         | H1 : ?e = Done _, H2 : ?e = Done _ |- _ =>
             rewrite H1 in H2; injection H2 as <-
         | H1 : ?e = Some _, H2 : ?e = Some _ |- _ =>
             rewrite H1 in H2; injection H2 as <-
         end.

Section Depends.
Context {U : Units}.

(** The accelerations that a force evaluation stores depend on the
    world only through the masses, the positions, the constants of the
    simulator and the background field. *)
Lemma update_acceleration_depends (wa wb wa' wb' : world) (oa ob : particles) :
  holds oa wa -> holds ob wb -> fixed oa = fixed ob ->
  static (self wa) = static (self wb) ->
  background_field (self wa) = background_field (self wb) ->
  arrays (mem wb) !! M_DM oa = arrays (mem wa) !! M_DM oa ->
  arrays (mem wb) !! xDM oa = arrays (mem wa) !! xDM oa ->
  arrays (mem wb) !! xBH1 oa = arrays (mem wa) !! xBH1 oa ->
  arrays (mem wb) !! xBH2 oa = arrays (mem wa) !! xBH2 oa ->
  update_acceleration wa = Ok tt wa' ->
  update_acceleration wb = Ok tt wb' ->
  exists oa' ob' a1 a2 rows,
    holds oa' wa' /\ holds ob' wb' /\
    dvdtBH1 oa' = Val a1 /\ dvdtBH2 oa' = Val a2 /\ dvdtDM oa' = Val rows /\
    dvdtBH1 ob' = Val a1 /\ dvdtBH2 ob' = Val a2 /\ dvdtDM ob' = Val rows.
Proof.
  intros Ha Hb Hfix Hst Hbg PM PX P1 P2 Ea Eb.
  enough (wp update_acceleration wa
            (fun _ wa' => wp update_acceleration wb
               (fun _ wb' =>
                  exists oa' ob' a1 a2 rows,
                    holds oa' wa' /\ holds ob' wb' /\
                    dvdtBH1 oa' = Val a1 /\ dvdtBH2 oa' = Val a2 /\
                    dvdtDM oa' = Val rows /\
                    dvdtBH1 ob' = Val a1 /\ dvdtBH2 ob' = Val a2 /\
                    dvdtDM ob' = Val rows)
               (fun _ _ => True))
            (fun _ _ => True)) as H.
  { unfold wp in H. rewrite Ea in H. now rewrite Eb in H. }
  clear Ea Eb wa' wb'.
  destruct wa as [ma sa], wb as [mb sb]. unfold holds in *. cbn [mem self] in *.
  destruct oa as [M1a M2a lMa Na lx1a lv1a lx2a lv2a lxa lva d1a d2a dda dyna].
  destruct ob as [M1b M2b lMb Nb lx1b lv1b lx2b lv2b lxb lvb d1b d2b ddb dynb].
  unfold fixed in Hfix. cbn in Hfix.
  injection Hfix as <- <- <- <- <- <- <- <- <- <- <-.
  destruct sa as [pa r2a r1a sma sm1a bga ra1 ra2 aa1 aa2 ca reca fa].
  destruct sb as [pb r2b r1b smb sm1b bgb rb1 rb2 ab1 ab2 cb recb fb].
  unfold static in Hst. cbn in Hst, Hbg, PM, PX, P1, P2.
  injection Hst as _ <- <- <- <-. subst bgb.
  unfold update_acceleration.
  destruct dyna; destruct (Rlt_dec 0 M2a) eqn:EM; destruct (0 <? Na)%Z eqn:EN;
    destruct bga;
    repeat (wp_step; wp_clean; rewrite ?EN, ?EM).
  all: rewrite ?PM, ?PX, ?P1, ?P2 in *.
  all: wp_same.
  all: eexists _, _, _, _, _.
  all: repeat match goal with |- _ /\ _ => split end.
  all: proj_simpl; rewrite ?lookup_insert_eq; proj_simpl; reflexivity.
Qed.
End Depends.

(** ** What a force evaluation leaves *)

Section Shape.
Context {U : Units}.

(** A force evaluation that returns has changed no array and none of
    the settings, and has stored an acceleration for each black hole and
    one row for each tracer. *)
Lemma update_acceleration_shape (w w' : world) (o : particles) :
  holds o w -> update_acceleration w = Ok tt w' ->
  exists o' xs a1 a2 rows,
    holds o' w' /\ fixed o' = fixed o /\
    arrays (mem w') = arrays (mem w) /\
    settings (self w') = settings (self w) /\
    arrays (mem w) !! xDM o = Some (M3 xs) /\
    dvdtBH1 o' = Val a1 /\ dvdtBH2 o' = Val a2 /\
    dvdtDM o' = Val rows /\ length rows = length xs.
Proof.
  intros Ho E. pattern w'.
  match goal with
  | |- ?Q w' => enough (wp update_acceleration w (fun _ => Q) (fun _ _ => True)) as H
  end.
  { unfold wp in H. now rewrite E in H. }
  clear E w'. unfold update_acceleration.
  wp_step. wp_step. wp_clean.
  destruct (dynamic_BH o); destruct (Rlt_dec 0 (M_2 o));
    destruct (0 <? N_DM o)%Z;
    destruct (background_field (self w)) as [bg|] eqn:Hbg;
    repeat (wp_step; wp_clean; try rewrite Hbg).
  all: repeat match goal with
              | H : calc_acc _ _ _ _ _ = Done _ |- _ =>
                  apply calc_acc_length in H;
                  rewrite length_zip_with, !length_map, Nat.min_id in H
              end.
  all: repeat match goal with
              | H : accDM_add (DRows _) (DRows _) = Done _ |- _ =>
                  cbn [accDM_add] in H; rewrite bcast2_Done in H by congruence;
                  injection H as <-
              | H : accDM_add (DRows _) (DScalar _) = Done _ |- _ =>
                  cbn [accDM_add] in H; injection H as <-
              | H : bcast2 vadd _ (map _ _) = Done _ |- _ =>
                  rewrite bcast2_Done in H
                    by (rewrite ?length_zip_with, ?length_map; lia);
                  injection H as <-
              end.
  all: match goal with
       | H : arrays _ !! xDM _ = Some (M3 ?xs) |- _ => eexists _, xs, _, _, _
       end.
  all: repeat match goal with |- _ /\ _ => split end.
  all: unfold fixed, settings; proj_simpl; rewrite ?lookup_insert_eq; proj_simpl;
       try reflexivity; try eassumption.
  all: try (now rewrite Hbg).
  all: rewrite ?length_zip_with, ?length_map; lia.
Qed.

End Shape.

(** ** Undoing a drift and a kick *)

Lemma drifted_fixed o o' h q m :
  fixed o' = fixed o -> drifted o' h q m = drifted o h q m.
Proof.
  unfold fixed, drifted. intros H.
  injection H as _ _ _ _ -> _ -> _ -> _ ->. reflexivity.
Qed.

Lemma kicked_fixed o o' h q a1 a2 rows m :
  fixed o' = fixed o -> kicked o' h q a1 a2 rows m = kicked o h q a1 a2 rows m.
Proof.
  unfold fixed, kicked. intros H.
  injection H as _ _ _ _ _ -> _ -> _ -> ->. reflexivity.
Qed.

Lemma phase_of_fixed o o' w w' :
  fixed o' = fixed o -> arrays (mem w') = arrays (mem w) ->
  phase_of o' w' = phase_of o w.
Proof.
  unfold fixed, phase_of. intros H ->.
  injection H as _ _ _ _ -> -> -> -> -> -> _. reflexivity.
Qed.

Lemma settings_static s s' : settings s' = settings s -> static s' = static s.
Proof. unfold settings, static. now intros [= -> -> -> -> -> _ _ _ _]. Qed.

Lemma settings_background s s' :
  settings s' = settings s -> background_field s' = background_field s.
Proof. unfold settings. now intros [= _ _ _ _ _ -> _ _ _]. Qed.

Lemma settings_p s s' : settings s' = settings s -> p s' = p s.
Proof. unfold settings. now intros [= -> _ _ _ _ _ _ _ _]. Qed.

Lemma vadd_acc_sum v a h1 h2 :
  vadd (vadd v (acc3_vec (acc3_scale a h1))) (acc3_vec (acc3_scale a h2)) =
  vadd v (acc3_vec (acc3_scale a (h1 + h2))).
Proof. rewrite !acc3_vec_scale. apply vadd_vscale_sum. Qed.

Lemma vadd_acc_0 v a : vadd v (acc3_vec (acc3_scale a 0)) = v.
Proof. rewrite acc3_vec_scale. apply vadd_vscale_0. Qed.

Lemma kicked_kicked o h1 h2 q a1 a2 rows m :
  NoDup (arrays_of o) ->
  kicked o h2 (kick (dynamic_BH o) h1 a1 a2 rows q) a1 a2 rows
    (kicked o h1 q a1 a2 rows m) =
  kicked o (h1 + h2) q a1 a2 rows m.
Proof.
  intros Hnd.
  pose proof (NoDup_arrays_of o Hnd) as D. decompose [and] D. clear D.
  unfold kicked, kick. apply map_eq. intros k.
  destruct (dynamic_BH o); cbn [ph_xBH1 ph_vBH1 ph_xBH2 ph_vBH2 ph_xDM ph_vDM];
    rewrite ?zip_vadd_vscale_sum, ?vadd_acc_sum;
    destruct (decide (vDM o = k)) as [E1|?];
    destruct (decide (vBH2 o = k)) as [E2|?];
    destruct (decide (vBH1 o = k)) as [E3|?];
    try congruence; try rewrite <- E1; try rewrite <- E2; try rewrite <- E3;
    repeat (first [ rewrite lookup_insert_eq
                  | rewrite lookup_insert_ne by congruence ]);
    reflexivity.
Qed.

Lemma kicked_zero o q a1 a2 rows w :
  NoDup (arrays_of o) -> phase_of o w = Some q ->
  length (ph_vDM q) = length rows ->
  kicked o 0 q a1 a2 rows (arrays (mem w)) = arrays (mem w).
Proof.
  intros Hnd Hq Hlen.
  apply phase_of_Some in Hq. decompose [and] Hq. clear Hq.
  unfold kicked. rewrite zip_vadd_vscale_0, !vadd_acc_0 by exact Hlen.
  destruct (dynamic_BH o);
    rewrite ?(insert_id (arrays (mem w)) (vBH1 o)) by assumption;
    rewrite (insert_id (arrays (mem w)) (vBH2 o)) by assumption;
    rewrite (insert_id (arrays (mem w)) (vDM o)) by assumption;
    reflexivity.
Qed.

Lemma kicked_positions o h q a1 a2 rows m l :
  NoDup (arrays_of o) -> l ∈ [M_DM o; xDM o; xBH1 o; xBH2 o] ->
  kicked o h q a1 a2 rows m !! l = m !! l.
Proof.
  intros Hnd Hl.
  pose proof (NoDup_arrays_of o Hnd) as D. decompose [and] D. clear D.
  unfold kicked. rewrite !elem_of_cons, elem_of_nil in Hl.
  destruct Hl as [->|[->|[->|[->|[]]]]]; destruct (dynamic_BH o);
    repeat (rewrite lookup_insert_ne by congruence); reflexivity.
Qed.

Section Undo.

Context {U : Units}.

Variable o0 : particles.
Hypothesis o0_distinct : NoDup (arrays_of o0).

Lemma ready_agree wa wb : ready o0 wb -> agree wa wb -> ready o0 wa.
Proof.
  intros (o & Hwf & Hfix) (Harr & _ & oa & ob & Ha & Hb & Hab).
  assert (ob = o) as -> by (destruct Hwf as [Ho _]; unfold holds in *; congruence).
  exists oa. split; [|congruence].
  now apply (well_formed_fixed o oa wb wa).
Qed.

(** A drift, run from a world that is ready. *)
Lemma xstep_ready c w w1 :
  ready o0 w -> xstep c [] w = Ok tt w1 ->
  exists o q,
    holds o w /\ fixed o = fixed o0 /\ phase_of o w = Some q /\
    length (ph_xDM q) = length (ph_vDM q) /\
    w1 = mk_world (mk_store (drifted o c q (arrays (mem w))) (objects (mem w)))
           (self w) /\
    ready o0 w1.
Proof.
  intros (o & Hwf & Hfix) E.
  destruct (well_formed_phase w o Hwf) as (q & ms & Hq & Hms & L1 & L2 & L3).
  assert (NoDup (arrays_of o)) as Hnd
    by (rewrite (fixed_arrays_of _ _ Hfix); exact o0_distinct).
  pose proof Hwf as [Ho HN _ _ _ _ _ _ _].
  cbn [xstep] in E. rewrite (xstep_body_run c w o q Ho Hnd Hq) in E by congruence.
  injection E as <-.
  exists o, q. repeat split; try assumption; try congruence.
  exists o. split; [|exact Hfix].
  apply (phase_well_formed _ o (drift (dynamic_BH o) c q) ms); auto.
  - now apply phase_of_drifted.
  - cbn. now rewrite drifted_M_DM.
  - cbn. rewrite length_zip_with, length_map. lia.
Qed.

(** The drift by [-c] undoes the drift by [c]. *)
Lemma xstep_undo c c' w w1 wb wb' :
  ready o0 w -> xstep c [] w = Ok tt w1 ->
  agree wb w1 -> c' = - c -> xstep c' [] wb = Ok tt wb' ->
  agree wb' w.
Proof.
  intros Hr E Hag -> Eb.
  destruct (xstep_ready c w w1 Hr E) as (o & q & Ho & Hfix & Hq & Hlen & -> & Hr1).
  pose proof (ready_agree wb _ Hr1 Hag) as Hrb.
  destruct (xstep_ready (- c) wb wb' Hrb Eb)
    as (ob & qb & Hob & Hfixb & Hqb & Hlenb & -> & _).
  destruct Hag as (Harr & Hset & _). cbn [mem self arrays] in *.
  assert (NoDup (arrays_of o)) as Hnd
    by (rewrite (fixed_arrays_of _ _ Hfix); exact o0_distinct).
  assert (fixed ob = fixed o) as Hfob by congruence.
  assert (qb = drift (dynamic_BH o) c q) as ->.
  { assert (phase_of ob wb =
            phase_of o (mk_world (mk_store (drifted o c q (arrays (mem w)))
                                    (objects (mem w))) (self w))) as Hp
      by now apply phase_of_fixed.
    rewrite (phase_of_drifted o c q w _ _ Hnd Hq), Hqb in Hp. congruence. }
  split; [|split].
  - cbn. rewrite Harr, (drifted_fixed o ob) by exact Hfob.
    rewrite drifted_drifted by exact Hnd.
    replace (c + - c) with 0 by ring. now apply drifted_zero.
  - exact Hset.
  - exists ob, o. repeat split; assumption.
Qed.

End Undo.

Section Undo2.

Context {U : Units}.

Variable o0 : particles.
Hypothesis o0_distinct : NoDup (arrays_of o0).

(** A force evaluation and a kick, run from a world that is ready. *)
Lemma kick_ready k w wu w1 :
  ready o0 w -> update_acceleration w = Ok tt wu -> vstep k [] wu = Ok tt w1 ->
  exists o ou q a1 a2 rows,
    holds o w /\ fixed o = fixed o0 /\ holds ou wu /\ fixed ou = fixed o /\
    phase_of o w = Some q /\
    arrays (mem wu) = arrays (mem w) /\
    settings (self wu) = settings (self w) /\
    dvdtBH1 ou = Val a1 /\ dvdtBH2 ou = Val a2 /\ dvdtDM ou = Val rows /\
    length (ph_vDM q) = length rows /\
    w1 = mk_world
           (mk_store (kicked o k q a1 a2 rows (arrays (mem w))) (objects (mem wu)))
           (self wu) /\
    ready o0 w1.
Proof.
  intros (o & Hwf & Hfix) Eu Ek.
  destruct (well_formed_phase w o Hwf) as (q & ms & Hq & Hms & L1 & L2 & L3).
  pose proof Hwf as [Ho HN _ _ _ _ _ _ _].
  destruct (update_acceleration_shape w wu o Ho Eu)
    as (ou & xs & a1 & a2 & rows & Hou & Hfu & Harr & Hset & Hxs & H1 & H2 & H3 & Lr).
  assert (NoDup (arrays_of ou)) as Hnd
    by (rewrite (fixed_arrays_of _ _ Hfu), (fixed_arrays_of _ _ Hfix);
        exact o0_distinct).
  assert (phase_of ou wu = Some q) as Hqu
    by (rewrite <- Hq; now apply phase_of_fixed).
  assert (length (ph_vDM q) = length rows) as Hlen.
  { apply phase_of_Some in Hq. destruct Hq as (_ & _ & _ & _ & Hxs' & _).
    rewrite Hxs in Hxs'. injection Hxs' as ->. congruence. }
  cbn [vstep] in Ek.
  rewrite (vstep_body_run k wu ou q a1 a2 rows Hou Hnd Hqu) in Ek by auto.
  injection Ek as <-. rewrite Harr, (kicked_fixed o ou) by exact Hfu.
  exists o, ou, q, a1, a2, rows. repeat split; try assumption.
  exists ou. split; [|congruence].
  assert (NoDup (arrays_of o)) as Hnd'
    by (rewrite (fixed_arrays_of _ _ Hfix); exact o0_distinct).
  assert (N_DM ou = N_DM o) as EN by (unfold fixed in Hfu; congruence).
  assert (M_DM ou = M_DM o) as EM by (unfold fixed in Hfu; congruence).
  apply (phase_well_formed _ ou (kick (dynamic_BH o) k a1 a2 rows q) ms); auto.
  - congruence.
  - erewrite (phase_of_fixed o ou);
      [now apply (phase_of_kicked o k q a1 a2 rows w) | exact Hfu | reflexivity].
  - cbn. now rewrite EM, kicked_M_DM.
  - congruence.
  - cbn. congruence.
  - cbn. rewrite length_zip_with, length_map. lia.
Qed.

(** The kick by [-k] undoes the kick by [k]: the accelerations are
    those of the same positions. *)
Lemma kick_undo k k' w wu w1 wb wbu wb' :
  ready o0 w -> update_acceleration w = Ok tt wu -> vstep k [] wu = Ok tt w1 ->
  agree wb w1 -> k' = - k ->
  update_acceleration wb = Ok tt wbu -> vstep k' [] wbu = Ok tt wb' ->
  agree wb' w.
Proof.
  intros Hr Eu Ek Hag -> Ebu Ebk.
  destruct (kick_ready k w wu w1 Hr Eu Ek)
    as (o & ou & q & a1 & a2 & rows & Ho & Hfix & Hou & Hfu & Hq & Harr & Hset &
        H1 & H2 & H3 & Hlen & -> & Hr1).
  pose proof (ready_agree o0 wb _ Hr1 Hag) as Hrb.
  destruct (kick_ready (- k) wb wbu wb' Hrb Ebu Ebk)
    as (ob & obu & qb & b1 & b2 & rowsb & Hob & Hfixb & Hobu & Hfbu & Hqb & Harrb &
        Hsetb & B1 & B2 & B3 & Hlenb & -> & _).
  destruct Hag as (Hab & Hsab & _). cbn [mem self arrays] in *.
  assert (NoDup (arrays_of o)) as Hnd
    by (rewrite (fixed_arrays_of _ _ Hfix); exact o0_distinct).
  assert (fixed ob = fixed o) as Hfob by congruence.
  assert (forall l, l ∈ [M_DM o; xDM o; xBH1 o; xBH2 o] ->
            arrays (mem wb) !! l = arrays (mem w) !! l) as Hpos.
  { intros l Hl. rewrite Hab. now apply kicked_positions. }
  destruct (update_acceleration_depends w wb wu wbu o ob)
    as (ou' & obu' & c1 & c2 & crows & Hou' & Hobu' & C1 & C2 & C3 & D1 & D2 & D3);
    auto.
  { apply settings_static. congruence. }
  { symmetry. apply settings_background. congruence. }
  { apply Hpos. set_solver. }
  { apply Hpos. set_solver. }
  { apply Hpos. set_solver. }
  { apply Hpos. set_solver. }
  assert (ou' = ou) as -> by (unfold holds in *; congruence).
  assert (obu' = obu) as -> by (unfold holds in *; congruence).
  assert (b1 = a1) as -> by congruence.
  assert (b2 = a2) as -> by congruence.
  assert (rowsb = rows) as -> by congruence.
  assert (qb = kick (dynamic_BH o) k a1 a2 rows q) as ->.
  { assert (phase_of ob wb =
            phase_of o (mk_world
                          (mk_store (kicked o k q a1 a2 rows (arrays (mem w)))
                             (objects (mem wu))) (self wu))) as Hp
      by now apply phase_of_fixed.
    rewrite (phase_of_kicked o k q a1 a2 rows w _ _ Hnd Hq), Hqb in Hp. congruence. }
  split; [|split].
  - cbn. rewrite Hab, (kicked_fixed o ob) by exact Hfob.
    rewrite kicked_kicked by exact Hnd.
    replace (k + - k) with 0 by ring. now apply kicked_zero.
  - cbn. congruence.
  - exists obu, o. repeat split; try assumption. congruence.
Qed.

End Undo2.

(** ** The regular force evaluation *)

(** A sequence that returns: its first part returned. *)
Lemma bind_Ok_inv {A B} (m : M A) (f : A -> M B) w b w' :
  (m ≫= f) w = Ok b w' -> exists a w1, m w = Ok a w1 /\ f a w1 = Ok b w'.
Proof.
  unfold mbind, M_bind. destruct (m w) as [a w1|]; [eauto | discriminate].
Qed.

(** The copies over [update_acceleration] are the methods themselves. *)
Lemma full_step_with_force {U : Units} :
  full_step_with update_acceleration = full_step.
Proof. reflexivity. Qed.

Lemma adaptive_step_with_force {U : Units} :
  adaptive_step_with update_acceleration = adaptive_step.
Proof. reflexivity. Qed.

Lemma run_simulation_with_force {U : Units} :
  run_simulation_with update_acceleration = run_simulation.
Proof. reflexivity. Qed.

Lemma do_call_with_force {U : Units} :
  do_call_with update_acceleration = do_call.
Proof. reflexivity. Qed.

(** [regularb] decides [regular]. *)
Lemma nonneg_true r : nonneg r = true <-> 0 <= r.
Proof. unfold nonneg. destruct (Rle_dec 0 r); split; auto; discriminate. Qed.

Lemma nonzero_true r : nonzero r = true <-> r <> 0.
Proof.
  unfold nonzero. destruct (Req_dec_T r 0); split; auto; discriminate.
Qed.

Lemma regularb_spec w :
  regularb w = true <-> exists o, holds o w /\ regular w o.
Proof.
  unfold regularb, regular, holds. split.
  - destruct (objects (mem w) !! p (self w)) as [o|]; [|discriminate].
    destruct (arrays (mem w) !! xBH1 o) as [[x1| |]|] eqn:E1; try discriminate.
    destruct (arrays (mem w) !! xBH2 o) as [[x2| |]|] eqn:E2; try discriminate.
    destruct (arrays (mem w) !! xDM o) as [[|xs|]|] eqn:E3; try discriminate.
    rewrite !andb_true_iff, !nonneg_true, nonzero_true, forallb_forall.
    intros [[[H1 H2] H3] H4]. exists o. split; [reflexivity|].
    split; [exact H1|]. split; [exact H2|]. exists x1, x2, xs.
    split; [exact E1|]. split; [exact E2|]. split; [exact E3|].
    split; [exact H3|].
    apply List.Forall_forall. intros x Hx. specialize (H4 x Hx).
    now rewrite andb_true_iff, !nonzero_true in H4.
  - intros (o & -> & H1 & H2 & x1 & x2 & xs & -> & -> & -> & H3 & H4).
    rewrite !andb_true_iff, !nonneg_true, nonzero_true, forallb_forall.
    repeat split; try assumption.
    intros x Hx. rewrite List.Forall_forall in H4. specialize (H4 x Hx).
    now rewrite andb_true_iff, !nonzero_true.
Qed.

(** Returning only as another method returns goes through sequences and
    loops. *)
Lemma refines_refl {A} (m : M A) : refines m m.
Proof. intros w a w' H. exact H. Qed.

Lemma refines_bind {A B} (m1 m2 : M A) (f1 f2 : A -> M B) :
  refines m1 m2 -> (forall a, refines (f1 a) (f2 a)) ->
  refines (m1 ≫= f1) (m2 ≫= f2).
Proof.
  intros Hm Hf w b w' E.
  apply bind_Ok_inv in E as (a & w1 & E1 & E2).
  rewrite (bind_ok _ _ _ _ _ (Hm _ _ _ E1)). now apply Hf.
Qed.

Lemma refines_for_loop (body1 body2 : Z -> M unit) k i :
  (forall j, refines (body1 j) (body2 j)) ->
  refines (for_loop k i body1) (for_loop k i body2).
Proof.
  intros Hb. revert i. induction k as [|k IH]; intros i; simpl.
  - apply refines_refl.
  - apply refines_bind; [apply Hb | intros _; apply IH].
Qed.

Lemma refines_for_range (body1 body2 : Z -> M unit) n :
  (forall j, refines (body1 j) (body2 j)) ->
  refines (for_range n body1) (for_range n body2).
Proof. intros Hb. now apply refines_for_loop. Qed.

Section Refines.

Context {U : Units}.

(** The regular force evaluation returns only as the force evaluation
    returns. *)
Lemma update_acceleration_regular_refines :
  refines update_acceleration_regular update_acceleration.
Proof.
  intros w a w'. unfold update_acceleration_regular.
  destruct (regularb w); [auto | discriminate].
Qed.

(** The regular force evaluation returns in regular worlds only. *)
Lemma update_acceleration_regular_Ok w w' :
  update_acceleration_regular w = Ok tt w' ->
  (exists o, holds o w /\ regular w o) /\ update_acceleration w = Ok tt w'.
Proof.
  unfold update_acceleration_regular.
  destruct (regularb w) eqn:E; [|discriminate].
  intros H. split; [now apply regularb_spec | exact H].
Qed.

(** In a regular world it is the force evaluation. *)
Lemma update_acceleration_regular_eq w o :
  holds o w -> regular w o ->
  update_acceleration_regular w = update_acceleration w.
Proof.
  intros Ho Hr. unfold update_acceleration_regular.
  assert (regularb w = true) as -> by (apply regularb_spec; eauto). reflexivity.
Qed.

(** Over a force evaluation that returns only as [update_acceleration]
    returns, a step, an adaptive step, a run and a call return only as
    those of the simulator return. *)
Variable force : M unit.
Hypothesis force_refines : refines force update_acceleration.

Ltac refine_step :=
  lazymatch goal with
  | |- refines force update_acceleration => exact force_refines
  | |- refines ?a ?b =>
      first [ constr_eq a b; exact (refines_refl a)
            | lazymatch a with
              | mbind _ _ => apply refines_bind; [|intros ?]
              | for_range _ _ => apply refines_for_range; intros ?
              | if ?c then _ else _ => destruct c
              | match ?x with _ => _ end => destruct x
              end ]
  end.

Lemma full_step_with_refines dt method inds :
  refines (full_step_with force dt method inds) (full_step dt method inds).
Proof.
  unfold full_step_with, full_step. repeat refine_step.
Qed.

Lemma adaptive_step_with_refines dt method eta N_sub_max :
  refines (adaptive_step_with force dt method eta N_sub_max)
          (adaptive_step dt method eta N_sub_max).
Proof.
  unfold adaptive_step_with, adaptive_step.
  repeat first [ apply full_step_with_refines | refine_step ].
Qed.

Lemma run_simulation_with_refines check_state dt t_end method N_save inds eta N_sub_max :
  refines (run_simulation_with force check_state dt t_end method N_save inds eta N_sub_max)
          (run_simulation check_state dt t_end method N_save inds eta N_sub_max).
Proof.
  unfold run_simulation_with, run_simulation.
  repeat first [ apply full_step_with_refines | apply adaptive_step_with_refines
               | refine_step ].
Qed.

Lemma do_call_with_refines check_state c :
  refines (do_call_with force check_state c) (do_call check_state c).
Proof.
  destruct c; cbn [do_call_with do_call];
    first [ refine_step
          | apply full_step_with_refines | apply adaptive_step_with_refines
          | apply run_simulation_with_refines ].
Qed.

End Refines.

(** ** Time reversal *)

(** The steps of a scheme, one after the other. *)
Ltac unchain E :=
  repeat match type of E with
         | (_ ≫= _) _ = Ok _ _ =>
             let Ei := fresh "E" in
             apply bind_Ok_inv in E as ([] & ? & Ei & E)
         end.

Section Reversible.

Context {U : Units}.

Lemma agree_refl o w : holds o w -> agree w w.
Proof. intros Ho. split; [reflexivity|]. split; [reflexivity|]. now exists o, o. Qed.

Lemma ready_holds o0 w : ready o0 w -> exists o, holds o w.
Proof. intros (o & [Ho _ _ _ _ _ _ _ _] & _). now exists o. Qed.

(** A scheme run forwards and then backwards: the worlds between the
    steps of the first run are ready, and each step of the second, from
    the last of the first to its first, undoes one. *)
Ltac undo_steps o Hnd :=
  repeat match goal with
         | R : ready o ?a, E : xstep _ [] ?a = Ok tt ?b |- _ =>
             lazymatch goal with
             | _ : ready o b |- _ => fail
             | _ => destruct (xstep_ready o Hnd _ _ _ R E)
                      as (? & ? & _ & _ & _ & _ & _ & ?)
             end
         | R : ready o ?a, E : update_acceleration ?a = Ok tt ?b,
           E' : vstep _ [] ?b = Ok tt ?c |- _ =>
             lazymatch goal with
             | _ : ready o c |- _ => fail
             | _ => destruct (kick_ready o Hnd _ _ _ _ R E E')
                      as (? & ? & ? & ? & ? & ? & _ & _ & _ & _ & _ & _ & _ & _ &
                          _ & _ & _ & _ & ?)
             end
         end;
  repeat match goal with
         | A : agree ?b ?a', R : ready o ?a, E : xstep _ [] ?a = Ok tt ?a',
           E' : xstep _ [] ?b = Ok tt ?b' |- _ =>
             lazymatch goal with
             | _ : agree b' a |- _ => fail
             | _ => assert (agree b' a)
                      by (eapply (xstep_undo o Hnd _ _ _ _ _ _ R E A);
                          [|exact E']; unfold Rdiv; ring)
             end
         | A : agree ?b ?a', R : ready o ?a, E : update_acceleration ?a = Ok tt ?au,
           Ek : vstep _ [] ?au = Ok tt ?a',
           E' : update_acceleration ?b = Ok tt ?bu,
           Ek' : vstep _ [] ?bu = Ok tt ?b' |- _ =>
             lazymatch goal with
             | _ : agree b' a |- _ => fail
             | _ => assert (agree b' a)
                      by (eapply (kick_undo o Hnd _ _ _ _ _ _ _ _ R E Ek A);
                          [|exact E'|exact Ek']; unfold Rdiv; ring)
             end
         end.

(** X9.  Time reversal.  On a particle set laid out as the constructor
    lays it out, in distinct arrays, a [full_step] by [dt] followed by a
    [full_step] by [-dt] with the same scheme, both returning and both
    making every force evaluation in a regular world (no two bodies at
    the same place), leaves every array (the positions, the velocities
    and the masses) as it was before the first.  The schemes that return
    and move the particles are "FR" and "PEFRL". *)
Theorem full_step_reversible (dt : R) (method : string)
    (inds : option (list nat)) (w w1 w2 : world) (o : particles) :
  well_formed w o -> NoDup (arrays_of o) ->
  full_step_with update_acceleration_regular dt method inds w = Ok tt w1 ->
  full_step_with update_acceleration_regular (- dt) method inds w1 = Ok tt w2 ->
  full_step dt method inds w = Ok tt w1 /\
  full_step (- dt) method inds w1 = Ok tt w2 /\
  arrays (mem w2) = arrays (mem w).
Proof.
  intros Hwf Hnd Ef Eb.
  apply (full_step_with_refines _ update_acceleration_regular_refines) in Ef, Eb.
  split; [exact Ef|]. split; [exact Eb|].
  assert (ready o w) as R0 by (exists o; auto).
  unfold full_step in Ef, Eb.
  destruct (String.eqb method "DKD"); [discriminate|].
  destruct (String.eqb method "KDK").
  { apply bind_Ok_inv in Ef as ([] & ? & _ & Ef). discriminate. }
  assert (forall a, ready o a -> agree a a) as Hrefl.
  { intros a Ra. destruct (ready_holds o a Ra) as [oa Hoa]. now apply (agree_refl oa). }
  destruct (String.eqb method "FR").
  { unchain Ef. unchain Eb.
    assert (ready o w1) as R1.
    { undo_steps o Hnd. assumption. }
    pose proof (Hrefl w1 R1) as A0.
    undo_steps o Hnd.
    match goal with A : agree w2 w |- _ => apply A end. }
  destruct (String.eqb method "PEFRL").
  { unchain Ef. unchain Eb.
    assert (ready o w1) as R1.
    { undo_steps o Hnd. assumption. }
    pose proof (Hrefl w1 R1) as A0.
    undo_steps o Hnd.
    match goal with A : agree w2 w |- _ => apply A end. }
  injection Ef as <-. now injection Eb as <-.
Qed.

End Reversible.

(** ** Progress *)

Lemma runs_to_bind {A B} (P Q R : world -> Prop) (m : M A) (f : A -> M B) :
  runs_to P m Q -> (forall a, runs_to Q (f a) R) -> runs_to P (m ≫= f) R.
Proof.
  intros Hm Hf w Hw. destruct (Hm w Hw) as (a & w1 & E1 & H1).
  destruct (Hf a w1 H1) as (b & w2 & E2 & H2).
  exists b, w2. split; [|exact H2]. now rewrite (bind_ok _ _ _ _ _ E1).
Qed.

Section Progress.

Context {U : Units}.

Variable o0 : particles.
Hypothesis o0_distinct : NoDup (arrays_of o0).

Lemma steppable_settings w w' :
  steppable o0 w -> ready o0 w' -> settings (self w') = settings (self w) ->
  steppable o0 w'.
Proof.
  intros (_ & H1 & H2 & H3 & H4) Hr Hs. unfold settings in Hs.
  injection Hs as _ _ _ Esm Esm1 _ _ _ _.
  split; [exact Hr|]. rewrite Esm, Esm1. auto.
Qed.

Lemma xstep_runs c : runs_to (steppable o0) (xstep c []) (steppable o0).
Proof.
  intros w Hs. pose proof Hs as ((o & Hwf & Hfix) & _).
  destruct (well_formed_phase w o Hwf) as (q & ms & Hq & Hms & L1 & L2 & L3).
  assert (NoDup (arrays_of o)) as Hnd
    by (rewrite (fixed_arrays_of _ _ Hfix); exact o0_distinct).
  pose proof Hwf as [Ho _ _ _ _ _ _ _ _].
  assert (xstep c [] w =
          Ok tt (mk_world (mk_store (drifted o c q (arrays (mem w)))
                             (objects (mem w))) (self w))) as E
    by (cbn [xstep]; apply xstep_body_run; auto; congruence).
  eexists tt, _. split; [exact E|].
  destruct (xstep_ready o0 o0_distinct c w _ (proj1 Hs) E) as (_ & _ & _ & _ & _ & _ & _ & Hr).
  now apply (steppable_settings w).
Qed.

Lemma kick_runs k :
  runs_to (steppable o0) (update_acceleration ;; vstep k []) (steppable o0).
Proof.
  intros w Hs. pose proof Hs as ((o & Hwf & Hfix) & HM1 & HM2 & Hk1 & Hk2).
  pose proof Hfix as Hfix'. unfold fixed in Hfix'.
  injection Hfix' as EM1 EM2 _ _ _ _ _ _ _ _ _.
  destruct (update_acceleration_returns w o Hwf) as [wu Eu]; try congruence.
  { now rewrite EM2. }
  pose proof Hwf as [Ho _ _ _ _ _ _ _ _].
  destruct (well_formed_phase w o Hwf) as (q & ms & Hq & Hms & L1 & L2 & L3).
  destruct (update_acceleration_shape w wu o Ho Eu)
    as (ou & xs & a1 & a2 & rows & Hou & Hfu & Harr & Hset & Hxs & H1 & H2 & H3 & Lr).
  assert (NoDup (arrays_of ou)) as Hnd
    by (rewrite (fixed_arrays_of _ _ Hfu), (fixed_arrays_of _ _ Hfix);
        exact o0_distinct).
  assert (phase_of ou wu = Some q) as Hqu
    by (rewrite <- Hq; now apply phase_of_fixed).
  assert (length (ph_vDM q) = length rows) as Hlen.
  { apply phase_of_Some in Hq. destruct Hq as (_ & _ & _ & _ & Hxs' & _).
    rewrite Hxs in Hxs'. injection Hxs' as ->. congruence. }
  pose proof (vstep_body_run k wu ou q a1 a2 rows Hou Hnd Hqu (fun _ => H1) H2 H3 Hlen)
    as Ek.
  eexists tt, _. split.
  { rewrite (bind_ok _ _ _ _ _ Eu). cbn [vstep]. exact Ek. }
  destruct (kick_ready o0 o0_distinct k w wu _ (proj1 Hs) Eu Ek)
    as (_ & _ & _ & _ & _ & _ & _ & _ & _ & _ & _ & _ & _ & _ & _ & _ & _ & _ & Hr).
  apply (steppable_settings w); [exact Hs | exact Hr | exact Hset].
Qed.

Lemma bind_assoc_run {A B C} (m : M A) (f : A -> M B) (g : B -> M C) w :
  (m ≫= (fun a => f a ≫= g)) w = ((m ≫= f) ≫= g) w.
Proof. unfold mbind, M_bind. now destruct (m w). Qed.

Lemma runs_to_kick_then {B} k (f : unit -> M B) (R : world -> Prop) :
  runs_to (steppable o0) (f tt) R ->
  runs_to (steppable o0) (update_acceleration ;; vstep k [] ≫= f) R.
Proof.
  intros Hf w Hw. destruct (kick_runs k w Hw) as ([] & w1 & E1 & H1).
  destruct (Hf w1 H1) as (b & w2 & E2 & H2).
  exists b, w2. split; [|exact H2].
  apply bind_Ok_inv in E1 as ([] & wu & Eu & Ek).
  rewrite (bind_ok _ _ _ _ _ Eu). now rewrite (bind_ok _ _ _ _ _ Ek).
Qed.

(** The schemes "FR" and "PEFRL" run to their end on a world that is
    ready for a step, and leave it ready for the next. *)
Lemma full_step_runs dt method inds :
  method = "FR" \/ method = "PEFRL" ->
  runs_to (steppable o0) (full_step dt method inds) (steppable o0).
Proof.
  intros [-> | ->].
  - change (full_step dt "FR" inds) with
      (xstep (theta * dt / 2) [];; update_acceleration;; vstep (theta * dt) [];;
       xstep ((1 - theta) * dt / 2) [];; update_acceleration;;
       vstep ((1 - 2 * theta) * dt) [];; xstep ((1 - theta) * dt / 2) [];;
       update_acceleration;; vstep (theta * dt) [];; xstep (theta * dt / 2) []).
    repeat first [ apply xstep_runs
                 | apply runs_to_kick_then
                 | eapply runs_to_bind; [apply xstep_runs | intros []] ].
  - change (full_step dt "PEFRL" inds) with
      (xstep (xi * dt) [];; update_acceleration;; vstep ((1 - 2 * lam) * dt / 2) [];;
       xstep (chi * dt) [];; update_acceleration;; vstep (lam * dt) [];;
       xstep ((1 - 2 * (chi + xi)) * dt) [];; update_acceleration;;
       vstep (lam * dt) [];; xstep (chi * dt) [];; update_acceleration;;
       vstep ((1 - 2 * lam) * dt / 2) [];; xstep (xi * dt) []).
    repeat first [ apply xstep_runs
                 | apply runs_to_kick_then
                 | eapply runs_to_bind; [apply xstep_runs | intros []] ].
Qed.

End Progress.

(** ** The centre of mass *)

Lemma returns_in_and {A} (P P' Q Q' : world -> Prop) (m : M A) :
  returns_in P m Q -> returns_in P' m Q' ->
  returns_in (fun w => P w /\ P' w) m (fun w => Q w /\ Q' w).
Proof.
  intros H H' w [Hw Hw']. specialize (H w Hw). specialize (H' w Hw').
  unfold wp in *. destruct (m w); auto.
Qed.

Lemma moment_fixed o o' w w' :
  fixed o' = fixed o -> arrays (mem w') = arrays (mem w) ->
  moment o' w' = moment o w.
Proof.
  unfold fixed, moment, phase_of. intros Hfix ->.
  injection Hfix as -> -> -> _ -> -> -> -> -> -> _. reflexivity.
Qed.

Lemma drift_moment (m1 m2 c t : R) (x1 x2 v1 v2 Sx Sv X0 P0 : vec) :
  vadd (vadd (vscale m1 x1) (vscale m2 x2)) Sx = vadd X0 (vscale t P0) ->
  vadd (vadd (vscale m1 v1) (vscale m2 v2)) Sv = P0 ->
  vadd (vadd (vscale m1 (vadd x1 (vscale c v1)))
             (vscale m2 (vadd x2 (vscale c v2))))
       (vadd Sx (vscale c Sv)) =
  vadd X0 (vscale (t + c) P0).
Proof.
  vec_destruct. unfold vadd, vscale. intros [= E1 E2 E3] [= <- <- <-].
  f_equal; [f_equal|]; nra.
Qed.

Section CentreOfMass.

Context {U : Units}.

Variable o0 : particles.
Variables P0 X0 : vec.

Hypothesis o0_distinct : NoDup (arrays_of o0).
Hypothesis o0_dynamic : dynamic_BH o0 = true.
Hypothesis o0_secondary : 0 < M_2 o0.

Lemma drifting_xstep t c extra :
  returns_in (fun w => isolated o0 P0 w /\ drifting o0 P0 X0 t w)
    (xstep c extra) (drifting o0 P0 X0 (t + c)).
Proof.
  destruct extra; [|apply returns_in_raise].
  intros w ((Hbg & o & Hwf & Hfix & Hmom) & o' & Ho' & _ & Hmt).
  assert (o' = o) as -> by (destruct Hwf as [Ho _]; unfold holds in *; congruence).
  destruct (well_formed_phase w o Hwf) as (q & ms & Hq & Hms & L1 & L2 & L3).
  assert (NoDup (arrays_of o)) as Hnd
    by (rewrite (fixed_arrays_of _ _ Hfix); exact o0_distinct).
  pose proof Hfix as Hfix'. unfold fixed in Hfix'.
  injection Hfix' as _ _ _ _ _ _ _ _ _ _ Edyn.
  unfold wp. cbn [xstep].
  rewrite (xstep_body_run c w o q Ho' Hnd Hq) by congruence.
  exists o. split; [exact Ho'|]. split; [exact Hfix|].
  unfold moment, momentum in *.
  rewrite (phase_of_drifted o c q w _ _ Hnd Hq).
  cbn [mem arrays]. rewrite drifted_M_DM by exact Hnd.
  rewrite Hq, Hms in Hmom, Hmt. rewrite Hms.
  destruct (weighted_sum ms (ph_vDM q)) as [Sv|] eqn:HSv; [|discriminate].
  destruct (weighted_sum ms (ph_xDM q)) as [Sx|] eqn:HSx; [|discriminate].
  injection Hmom as Hmom. injection Hmt as Hmt.
  cbn [drift ph_xDM ph_xBH1 ph_xBH2]. rewrite Edyn, o0_dynamic.
  rewrite (weighted_sum_add ms (ph_xDM q) (map (vscale c) (ph_vDM q)) Sx (vscale c Sv));
    [| rewrite length_map; lia | exact HSx | now apply weighted_sum_scale].
  f_equal. now apply drift_moment.
Qed.

Lemma drifting_update_acceleration t :
  returns_in (fun w => isolated o0 P0 w /\ drifting o0 P0 X0 t w)
    update_acceleration (drifting o0 P0 X0 t).
Proof.
  intros w ((Hbg & o & Hwf & Hfix & Hmom) & o' & Ho' & _ & Hmt).
  assert (o' = o) as -> by (destruct Hwf as [Ho _]; unfold holds in *; congruence).
  unfold wp. destruct (update_acceleration w) as [[] w'|] eqn:E; [|exact I].
  destruct (update_acceleration_shape w w' o Ho' E)
    as (ou & _ & _ & _ & _ & Hou & Hfu & Harr & _).
  exists ou. split; [exact Hou|]. split; [congruence|].
  rewrite <- Hmt. now apply moment_fixed.
Qed.

Lemma drifting_vstep t k extra :
  returns_in (fun w => balanced o0 P0 w /\ drifting o0 P0 X0 t w)
    (vstep k extra) (drifting o0 P0 X0 t).
Proof.
  destruct extra; [|apply returns_in_raise].
  intros w (((Hbg & o & Hwf & Hfix & Hmom) & Hflux & o1 & rows & Ho1 & Hrows & Lrows)
            & o' & Ho' & _ & Hmt).
  assert (o' = o) as -> by (destruct Hwf as [Ho _]; unfold holds in *; congruence).
  assert (o1 = o) as -> by (unfold holds in *; congruence).
  destruct (well_formed_phase w o Hwf) as (q & ms & Hq & Hms & L1 & L2 & L3).
  assert (NoDup (arrays_of o)) as Hnd
    by (rewrite (fixed_arrays_of _ _ Hfix); exact o0_distinct).
  pose proof Hfix as Hfix'. unfold fixed in Hfix'.
  injection Hfix' as _ _ _ EN _ _ _ _ _ _ Edyn.
  pose proof Hflux as Hflux'. unfold momentum_flux in Hflux'.
  unfold holds in Ho'. rewrite Ho', Hms, Hrows in Hflux'.
  destruct (dvdtBH1 o) as [| |a1] eqn:Ha1; try discriminate.
  destruct (dvdtBH2 o) as [| |a2] eqn:Ha2; try discriminate.
  unfold wp. cbn [vstep].
  rewrite (vstep_body_run k w o q a1 a2 rows Ho' Hnd Hq) by (auto; congruence).
  exists o. split; [exact Ho'|]. split; [exact Hfix|].
  unfold moment in *.
  rewrite (phase_of_kicked o k q a1 a2 rows w _ _ Hnd Hq).
  cbn [mem arrays]. rewrite kicked_M_DM by exact Hnd.
  rewrite Hq in Hmt. exact Hmt.
Qed.

Lemma returns_in_both {A} (P Q Q' : world -> Prop) (m : M A) :
  returns_in P m Q -> returns_in P m Q' -> returns_in P m (fun w => Q w /\ Q' w).
Proof.
  intros H H' w Hw. specialize (H w Hw). specialize (H' w Hw).
  unfold wp in *. destruct (m w); auto.
Qed.

Lemma moving_xstep t c extra :
  returns_in (moving o0 P0 X0 t) (xstep c extra) (moving o0 P0 X0 (t + c)).
Proof.
  apply returns_in_both; [|apply drifting_xstep].
  eapply returns_in_weaken; [| | apply (isolated_xstep o0 P0 o0_distinct)];
    [now intros w [H _] | intros w Hw; exact Hw].
Qed.

Lemma moving_balanced_xstep t c extra :
  returns_in (moving_balanced o0 P0 X0 t) (xstep c extra) (moving_balanced o0 P0 X0 (t + c)).
Proof.
  apply returns_in_both.
  - eapply returns_in_weaken; [| | apply (balanced_xstep o0 P0 o0_distinct)];
      [now intros w [H _] | intros w Hw; exact Hw].
  - eapply returns_in_weaken; [| | apply drifting_xstep]; [|intros w Hw; exact Hw].
    intros w [[H _] H']. split; [exact H | exact H'].
Qed.

Lemma moving_update_acceleration t :
  returns_in (moving o0 P0 X0 t) update_acceleration (moving_balanced o0 P0 X0 t).
Proof.
  apply returns_in_both; [|apply drifting_update_acceleration].
  eapply returns_in_weaken; [| | apply (isolated_update_acceleration o0 P0 o0_dynamic o0_secondary)];
    [now intros w [H _] | intros w Hw; exact Hw].
Qed.

Lemma moving_balanced_update_acceleration t :
  returns_in (moving_balanced o0 P0 X0 t) update_acceleration (moving_balanced o0 P0 X0 t).
Proof.
  eapply returns_in_weaken; [| | apply moving_update_acceleration]; [|intros w Hw; exact Hw].
  intros w [[H _] H']. split; [exact H | exact H'].
Qed.

Lemma moving_balanced_vstep t k extra :
  returns_in (moving_balanced o0 P0 X0 t) (vstep k extra) (moving_balanced o0 P0 X0 t).
Proof.
  apply returns_in_both; [|apply drifting_vstep].
  eapply returns_in_weaken; [| | apply (balanced_vstep o0 P0 o0_distinct o0_dynamic)];
    [now intros w [H _] | intros w Hw; exact Hw].
Qed.

Lemma moving_balanced_last t c t' :
  t + c = t' -> returns_in (moving_balanced o0 P0 X0 t) (xstep c []) (moving o0 P0 X0 t').
Proof.
  intros <-.
  eapply returns_in_weaken; [| | apply moving_balanced_xstep]; [intros w Hw; exact Hw|].
  intros w [[H _] H']. split; [exact H | exact H'].
Qed.

Ltac moving_stage :=
  eapply returns_in_bind;
  [ first [ apply moving_balanced_xstep | apply moving_balanced_vstep
          | apply moving_balanced_update_acceleration ]
  | intros _ ].

Lemma moving_full_step dt method inds :
  method = "FR" \/ method = "PEFRL" ->
  returns_in (moving o0 P0 X0 0) (full_step dt method inds) (moving o0 P0 X0 dt).
Proof.
  intros [-> | ->].
  - change (full_step dt "FR" inds) with
      (xstep (theta * dt / 2) [];; update_acceleration;; vstep (theta * dt) [];;
       xstep ((1 - theta) * dt / 2) [];; update_acceleration;;
       vstep ((1 - 2 * theta) * dt) [];; xstep ((1 - theta) * dt / 2) [];;
       update_acceleration;; vstep (theta * dt) [];; xstep (theta * dt / 2) []).
    eapply returns_in_bind; [apply moving_xstep | intros _].
    eapply returns_in_bind; [apply moving_update_acceleration | intros _].
    do 7 moving_stage.
    apply moving_balanced_last. unfold Rdiv. field.
  - change (full_step dt "PEFRL" inds) with
      (xstep (xi * dt) [];; update_acceleration;; vstep ((1 - 2 * lam) * dt / 2) [];;
       xstep (chi * dt) [];; update_acceleration;; vstep (lam * dt) [];;
       xstep ((1 - 2 * (chi + xi)) * dt) [];; update_acceleration;;
       vstep (lam * dt) [];; xstep (chi * dt) [];; update_acceleration;;
       vstep ((1 - 2 * lam) * dt / 2) [];; xstep (xi * dt) []).
    eapply returns_in_bind; [apply moving_xstep | intros _].
    eapply returns_in_bind; [apply moving_update_acceleration | intros _].
    do 10 moving_stage.
    apply moving_balanced_last. ring.
Qed.

End CentreOfMass.

(** ** The edges of [adaptive_step] *)

Section AdaptiveEdges.
Context {U : Units}.

(** With tracers, no secondary and [r2_min] at [None], the force
    evaluation that [adaptive_step] runs leaves [r2_min] at [None], and
    [calc_dt_opt] then raises [TypeError]. *)
Lemma adaptive_step_none_raises (w w1 : world) (o : particles) (dt : R)
    (method : string) (eta : R) (N_sub_max : Z) :
  holds o w -> N_DM o <> 0%Z -> r2_min (self w) = IsNone -> ~ 0 < M_2 o ->
  update_acceleration w = Ok tt w1 ->
  adaptive_step dt method eta N_sub_max w = Raise TypeError w1.
Proof.
  intros Ho HN Hr HM E. unfold adaptive_step.
  rewrite (bind_ok _ _ _ _ _ (get_p_holds _ _ Ho)).
  apply Z.eqb_neq in HN. rewrite HN.
  rewrite (bind_ok get_self _ w (self w) w eq_refl). rewrite Hr.
  rewrite (bind_ok _ _ _ _ _ E).
  rewrite (bind_ok get_self _ w1 (self w1) w1 eq_refl).
  destruct (update_acceleration_fixed w w1 o Ho E) as (o1 & Ho1 & _).
  rewrite (bind_ok _ _ _ _ _ (get_p_holds _ _ Ho1)).
  destruct (update_acceleration_r_min w w1 o Ho E) as (_ & Hkeep & _).
  rewrite (Hkeep HM), Hr. reflexivity.
Qed.

(** X10.  [adaptive_step] and the attribute [r2_min].  With no tracer it is
    [full_step(dt, method)].  With tracers, on a simulator whose [r2_min]
    was never assigned (the constructor does not assign it) it raises
    [AttributeError] and changes nothing; and when [r2_min] is [None] and
    there is no secondary, the force evaluation that it runs leaves
    [r2_min] at [None] and the call then raises [TypeError]. *)
Theorem adaptive_step_r2_min (w : world) (o : particles) (dt : R)
    (method : string) (eta : R) (N_sub_max : Z) :
  holds o w ->
  (N_DM o = 0%Z ->
   adaptive_step dt method eta N_sub_max w = full_step dt method None w) /\
  (N_DM o <> 0%Z -> r2_min (self w) = Missing ->
   adaptive_step dt method eta N_sub_max w = Raise AttributeError w) /\
  (N_DM o <> 0%Z -> r2_min (self w) = IsNone -> ~ 0 < M_2 o ->
   forall w1, update_acceleration w = Ok tt w1 ->
     adaptive_step dt method eta N_sub_max w = Raise TypeError w1).
Proof.
  intros Ho. unfold adaptive_step.
  rewrite (bind_ok _ _ _ _ _ (get_p_holds _ _ Ho)).
  split; [|split].
  - intros ->. reflexivity.
  - intros HN Hr. apply Z.eqb_neq in HN. rewrite HN.
    rewrite (bind_ok get_self _ w (self w) w eq_refl). now rewrite Hr.
  - intros HN Hr HM w1 E.
    pose proof (adaptive_step_none_raises w w1 o dt method eta N_sub_max
                  Ho HN Hr HM E) as H.
    unfold adaptive_step in H.
    now rewrite (bind_ok _ _ _ _ _ (get_p_holds _ _ Ho)) in H.
Qed.

(** X11.  [adaptive_step] and degenerate numbers, with tracers, a secondary
    and [r2_min] set.  When [dt_opt] is zero ([eta] is zero, or a tracer
    sits on the secondary) and [dt] is positive, [int(np.ceil(dt/dt_opt))]
    raises [OverflowError].  When [0 < dt_opt < dt]: for [N_sub_max = 0]
    the quotient [dt/N_sub] raises [ZeroDivisionError], and for a
    negative [N_sub_max] the call returns without taking any step. *)
Theorem adaptive_step_degenerate (w : world) (o : particles) (r dt eta : R)
    (method : string) (N_sub_max : Z) :
  holds o w -> N_DM o <> 0%Z -> r2_min (self w) = Val r ->
  0 < M_2 o -> 0 <= r ->
  let dt_opt := eta * (2 * PI * sqrt (r ^ 3 / (G_N * M_2 o))) in
  (dt_opt = 0 -> 0 < dt ->
   adaptive_step dt method eta N_sub_max w = Raise OverflowError w) /\
  (0 < dt_opt < dt -> N_sub_max = 0%Z ->
   adaptive_step dt method eta N_sub_max w = Raise ZeroDivisionError w) /\
  (0 < dt_opt < dt -> (N_sub_max < 0)%Z ->
   adaptive_step dt method eta N_sub_max w = Ok tt w).
Proof.
  intros Ho HN Hr HM Hr0 dt_opt.
  assert (adaptive_step dt method eta N_sub_max w =
          (if x_ge (Finite dt_opt) dt then full_step dt method None
           else
             N_sub ← lift (int_ceil (x_quot dt (Finite dt_opt)));
             let N_sub := if (N_sub >? N_sub_max)%Z then N_sub_max else N_sub in
             dt_sub ← lift (py_div dt (IZR N_sub));
             for_range N_sub (fun _ => full_step dt_sub method None)) w) as Hhead.
  { unfold adaptive_step.
    rewrite (bind_ok _ _ _ _ _ (get_p_holds _ _ Ho)).
    apply Z.eqb_neq in HN. rewrite HN.
    rewrite (bind_ok get_self _ w (self w) w eq_refl). rewrite Hr.
    rewrite (bind_ok (mret tt) _ w tt w eq_refl).
    rewrite (bind_ok get_self _ w (self w) w eq_refl).
    rewrite (bind_ok _ _ _ _ _ (get_p_holds _ _ Ho)). rewrite Hr.
    rewrite (bind_ok (operand (Val r)) _ w r w eq_refl).
    cbv zeta. now rewrite calc_dt_opt_finite by assumption. }
  rewrite Hhead. clear Hhead. cbn [x_ge x_quot].
  split; [|split].
  - intros H0 Hdt. rewrite H0.
    destruct (Rle_dec dt 0); [lra|]. unfold np_divide.
    destruct (Req_dec_T 0 0); [|lra]. destruct (Req_dec_T dt 0); [lra|].
    destruct (Rlt_dec 0 dt); [reflexivity | lra].
  - intros [Hpos Hlt] ->.
    destruct (Rle_dec dt dt_opt); [lra|]. unfold np_divide.
    destruct (Req_dec_T dt_opt 0); [lra|]. cbn [int_ceil lift].
    rewrite (bind_ok (mret (Zceil (dt / dt_opt))) _ w _ w eq_refl). cbv zeta.
    assert (1 < dt / dt_opt) as Hq.
    { apply (Rmult_lt_reg_r dt_opt); [exact Hpos|]. field_simplify; lra. }
    pose proof (Zceil_gt_1 _ Hq) as Hc.
    assert ((Zceil (dt / dt_opt) >? 0)%Z = true) as -> by lia.
    unfold py_div. destruct (Req_dec_T (IZR 0) 0); [reflexivity | lra].
  - intros [Hpos Hlt] Hneg.
    destruct (Rle_dec dt dt_opt); [lra|]. unfold np_divide.
    destruct (Req_dec_T dt_opt 0); [lra|]. cbn [int_ceil lift].
    rewrite (bind_ok (mret (Zceil (dt / dt_opt))) _ w _ w eq_refl). cbv zeta.
    assert (1 < dt / dt_opt) as Hq.
    { apply (Rmult_lt_reg_r dt_opt); [exact Hpos|]. field_simplify; lra. }
    pose proof (Zceil_gt_1 _ Hq) as Hc.
    assert ((Zceil (dt / dt_opt) >? N_sub_max)%Z = true) as -> by lia.
    unfold py_div. destruct (Req_dec_T (IZR N_sub_max) 0) as [E|_].
    { apply eq_IZR in E. lia. }
    cbn [lift]. rewrite (bind_ok (mret (dt / IZR N_sub_max)) _ w _ w eq_refl).
    unfold for_range. destruct N_sub_max; try lia. reflexivity.
Qed.

End AdaptiveEdges.

(** ** Conservation *)

Lemma fixed_arrays_NoDup o o' :
  fixed o' = fixed o -> NoDup (arrays_of o) -> NoDup (arrays_of o').
Proof. intros H. now rewrite (fixed_arrays_of _ _ H). Qed.

Section Wrappers.
Context {U : Units}.

Lemma isolated_do_call o0 P0 c :
  NoDup (arrays_of o0) -> dynamic_BH o0 = true -> 0 < M_2 o0 ->
  self_contained c = true ->
  returns_in (isolated o0 P0) (do_call None c) (isolated o0 P0).
Proof.
  intros Hnd Hdyn HM Hc. destruct c; try discriminate; cbn [do_call].
  - now apply isolated_xstep.
  - eapply returns_in_weaken;
      [| | apply (isolated_update_acceleration o0 P0 Hdyn HM)].
    + intros w Hw; exact Hw.
    + intros w Hw. apply Hw.
  - now apply isolated_full_step.
  - now apply isolated_adaptive_step.
  - apply isolated_run_simulation; try assumption. intros hook [=].
Qed.

(** X12.  Conservation of momentum.  For a binary with both black holes
    dynamic, a secondary, no background field and a particle set laid
    out as the constructor lays it out in distinct arrays: a drift, a
    force evaluation, [full_step] with any scheme and any splitting
    indices, [adaptive_step] and a whole [run_simulation], when they
    return and make every force evaluation in a regular world (no two
    bodies at the same place), leave the total momentum
    [M_1*vBH1 + M_2*vBH2 + sum_i M_DM[i]*vDM[i]] as it was, and the
    particle set as well laid out as before. *)
Theorem momentum_conserved (w w' : world) (o : particles) (P0 : vec) (c : call) :
  well_formed w o -> NoDup (arrays_of o) ->
  dynamic_BH o = true -> 0 < M_2 o ->
  background_field (self w) = None ->
  momentum o w = Some P0 ->
  self_contained c = true ->
  do_call_with update_acceleration_regular None c w = Ok tt w' ->
  do_call None c w = Ok tt w' /\
  exists o', well_formed w' o' /\ fixed o' = fixed o /\
             background_field (self w') = None /\
             momentum o' w' = Some P0.
Proof.
  intros Hwf Hnd Hdyn HM Hbg Hmom Hc E.
  apply (do_call_with_refines _ update_acceleration_regular_refines) in E.
  split; [exact E|].
  pose proof (isolated_do_call o P0 c Hnd Hdyn HM Hc w) as H.
  unfold wp in H. rewrite E in H.
  destruct H as (Hbg' & o' & Hwf' & Hfix & Hmom').
  - split; [exact Hbg|]. now exists o.
  - now exists o'.
Qed.

(** X13.  The centre of mass.  Under the same conditions, a [full_step]
    of size [dt] with the scheme "FR" or "PEFRL", whatever the splitting
    indices, that returns and makes every force evaluation in a regular
    world, moves the mass-weighted sum of the positions
    [M_1*xBH1 + M_2*xBH2 + sum_i M_DM[i]*xDM[i]] by [dt] times the total
    momentum: the drift coefficients of each scheme add up to one. *)
Theorem centre_of_mass_moves (w w' : world) (o : particles) (P0 X0 : vec)
    (dt : R) (method : string) (inds : option (list nat)) :
  well_formed w o -> NoDup (arrays_of o) ->
  dynamic_BH o = true -> 0 < M_2 o ->
  background_field (self w) = None ->
  momentum o w = Some P0 -> moment o w = Some X0 ->
  method = "FR"%string \/ method = "PEFRL"%string ->
  full_step_with update_acceleration_regular dt method inds w = Ok tt w' ->
  full_step dt method inds w = Ok tt w' /\
  exists o', holds o' w' /\ fixed o' = fixed o /\
             momentum o' w' = Some P0 /\
             moment o' w' = Some (vadd X0 (vscale dt P0)).
Proof.
  intros Hwf Hnd Hdyn HM Hbg Hmom Hx Hm E.
  apply (full_step_with_refines _ update_acceleration_regular_refines) in E.
  split; [exact E|].
  pose proof (moving_full_step o P0 X0 Hnd Hdyn HM dt method inds Hm w) as H.
  unfold wp in H. rewrite E in H.
  destruct H as ((_ & o1 & Hwf1 & Hfix1 & Hmom1) & (o2 & Ho2 & Hfix2 & Hx2)).
  - split.
    + split; [exact Hbg|]. now exists o.
    + exists o. split; [apply Hwf|]. split; [reflexivity|].
      rewrite Hx. f_equal. destruct X0 as [[? ?] ?], P0 as [[? ?] ?].
      unfold vadd, vscale. simpl. f_equal; [f_equal|]; ring.
  - assert (o1 = o2) as ->.
    { pose proof (wf_holds _ _ Hwf1) as Ho1. unfold holds in Ho1, Ho2. congruence. }
    now exists o2.
Qed.

(** X14.  The total force with a background field.  For a binary with both
    black holes dynamic and a secondary, a force evaluation in a regular
    world (no two bodies at the same place) with the background field
    [bg] leaves accelerations whose mass-weighted sum
    [M_1*dvdtBH1 + M_2*dvdtBH2 + sum_i M_DM[i]*dvdtDM[i]] is the total
    force of the field alone,
    [M_1*bg(xBH1) + M_2*bg(xBH2) + sum_i M_DM[i]*bg(xDM[i])]: the
    internal forces cancel. *)
Theorem background_field_total_force (w w' : world) (o : particles)
    (bg : vec -> vec) :
  holds o w -> dynamic_BH o = true -> 0 < M_2 o ->
  background_field (self w) = Some bg ->
  regular w o ->
  update_acceleration w = Ok tt w' ->
  exists ms xs x1 x2 F,
    arrays (mem w) !! M_DM o = Some (A1 ms) /\
    arrays (mem w) !! xDM o = Some (M3 xs) /\
    arrays (mem w) !! xBH1 o = Some (V3 x1) /\
    arrays (mem w) !! xBH2 o = Some (V3 x2) /\
    weighted_sum ms (map bg xs) = Done F /\
    momentum_flux w' =
      Some (vadd (vadd (vscale (M_1 o) (bg x1)) (vscale (M_2 o) (bg x2))) F).
Proof.
  intros Ho Hdyn HM Hbg _ E.
  destruct (update_acceleration_flux w w' o Ho Hdyn HM E)
    as (o' & ms & xs & x1 & x2 & rows & _ & _ & _ & _ & _ & Hms & Hxs & Hx1 & Hx2
        & _ & _ & _ & Hflux).
  rewrite Hbg in Hflux. destruct Hflux as (F & HF & Hflux).
  now exists ms, xs, x1, x2, F.
Qed.

(** X15.  The forces depend on the positions only.  Two force evaluations
    that return, on simulators with the same softening and background
    field whose particle sets have the same masses and the same
    positions, store the same three accelerations, whatever the
    velocities, the accelerations stored before and the values of
    [r1_min], [r2_min], [acc_DM1] and [acc_DM2]. *)
Theorem forces_depend_on_positions (wa wb wa' wb' : world) (oa ob : particles) :
  holds oa wa -> holds ob wb -> fixed oa = fixed ob ->
  static (self wa) = static (self wb) ->
  background_field (self wa) = background_field (self wb) ->
  arrays (mem wb) !! M_DM oa = arrays (mem wa) !! M_DM oa ->
  arrays (mem wb) !! xDM oa = arrays (mem wa) !! xDM oa ->
  arrays (mem wb) !! xBH1 oa = arrays (mem wa) !! xBH1 oa ->
  arrays (mem wb) !! xBH2 oa = arrays (mem wa) !! xBH2 oa ->
  update_acceleration wa = Ok tt wa' ->
  update_acceleration wb = Ok tt wb' ->
  exists oa' ob' a1 a2 rows,
    holds oa' wa' /\ holds ob' wb' /\
    (dvdtBH1 oa', dvdtBH2 oa', dvdtDM oa') = (Val a1, Val a2, Val rows) /\
    (dvdtBH1 ob', dvdtBH2 ob', dvdtDM ob') = (Val a1, Val a2, Val rows).
Proof.
  intros Ha Hb Hf Hs Hbg H1 H2 H3 H4 Ea Eb.
  destruct (update_acceleration_depends wa wb wa' wb' oa ob
              Ha Hb Hf Hs Hbg H1 H2 H3 H4 Ea Eb)
    as (oa' & ob' & a1 & a2 & rows & ? & ? & Ea1 & Ea2 & Ea3 & Eb1 & Eb2 & Eb3).
  exists oa', ob', a1, a2, rows.
  rewrite Ea1, Ea2, Ea3, Eb1, Eb2, Eb3. auto.
Qed.

(** X16.  A step of the schemes "FR" and "PEFRL" raises nothing.  With a
    particle set laid out as the constructor lays it out in distinct
    arrays, a positive primary mass, a non-negative secondary mass and
    known kernel names (that of the secondary matters only when there is
    one), [full_step] returns for every step size and every splitting
    indices, and the particle set is laid out as before. *)
Theorem full_step_returns (w : world) (o : particles) (dt : R)
    (method : string) (inds : option (list nat)) :
  well_formed w o -> NoDup (arrays_of o) ->
  0 < M_1 o -> 0 <= M_2 o ->
  known_kernel (soft_method1 (self w)) ->
  (0 < M_2 o -> known_kernel (soft_method (self w))) ->
  method = "FR"%string \/ method = "PEFRL"%string ->
  exists w' o', full_step dt method inds w = Ok tt w' /\
                well_formed w' o' /\ fixed o' = fixed o /\
                static (self w') = static (self w).
Proof.
  intros Hwf Hnd H1 H2 Hk1 Hk2 Hm.
  assert (steppable o w) as Hw.
  { split; [now exists o|]. split; [exact H1|]. split; [exact H2|].
    split; [exact Hk1 | exact Hk2]. }
  assert (preserved (fun w0 => static (self w0) = static (self w))
                    (full_step dt method inds)) as Hst.
  { destruct (closed_static (self w)) as (Hs1 & Hs2 & Hs3).
    apply preserved_full_step; assumption. }
  destruct (full_step_runs o Hnd dt method inds Hm w Hw)
    as ([] & w' & E & (o' & Hwf' & Hfix) & _).
  exists w', o'. split; [exact E|]. split; [exact Hwf'|]. split; [exact Hfix|].
  specialize (Hst w eq_refl). unfold wp in Hst. rewrite E in Hst. exact Hst.
Qed.

End Wrappers.

(** ** The copy of the constructor, and a single black hole *)

Lemma renamed_NoDup (m : gmap loc loc) (Q : loc -> loc -> Prop) (l l' : list loc) :
  (forall k1 k2 v, m !! k1 = Some v -> m !! k2 = Some v -> k1 = k2) ->
  Forall2 (fun k k' => m !! k = Some k' /\ Q k k') l l' ->
  NoDup l -> NoDup l'.
Proof.
  intros Hinj H. induction H as [|k k' l l' [Hk _] Hrest IH]; intros Hnd.
  - constructor.
  - apply NoDup_cons in Hnd as [Hk_notin Hnd]. apply NoDup_cons. split; [|auto].
    intros Hin. apply Hk_notin. clear IH Hnd Hk_notin.
    induction Hrest as [|k2 k2' l l' [Hk2 _] Hrest IH].
    + now apply elem_of_nil in Hin.
    + apply elem_of_cons in Hin as [->|Hin].
      * apply elem_of_cons. left. exact (Hinj _ _ _ Hk Hk2).
      * apply elem_of_cons. right. auto.
Qed.

(** X17.  The simulator is built on a copy.  For a particle set of the
    store whose arrays are all there, the constructor returns; the
    simulator's particle set is a new object with the same masses,
    count, flag and accelerations, whose seven arrays hold what the
    arrays of the original hold, and are distinct when those of the
    original are.  [r_soft_sq2] is the argument, [r_soft_sq1] is the
    argument unless it is negative, and then it is [r_soft_sq2]; and
    [r1_min], [r2_min] and the step counter are not yet assigned. *)
Theorem simulator_init_copies (σ : store) (particle_set : loc) (o : particles)
    (r_soft_sq2_ r_soft_sq1_ : R) (soft_method_ : string) :
  objects σ !! particle_set = Some o ->
  (forall k, k ∈ arrays_of o -> is_Some (arrays σ !! k)) ->
  exists w0 o',
    simulator_init particle_set r_soft_sq2_ r_soft_sq1_ soft_method_ σ = Done w0 /\
    holds o' w0 /\ p (self w0) <> particle_set /\
    (M_1 o', M_2 o', N_DM o', dynamic_BH o') = (M_1 o, M_2 o, N_DM o, dynamic_BH o) /\
    (dvdtBH1 o', dvdtBH2 o', dvdtDM o') = (dvdtBH1 o, dvdtBH2 o, dvdtDM o) /\
    Forall2 (fun k k' => arrays (mem w0) !! k' = arrays σ !! k)
            (arrays_of o) (arrays_of o') /\
    (NoDup (arrays_of o) -> NoDup (arrays_of o')) /\
    r_soft_sq2 (self w0) = r_soft_sq2_ /\
    r_soft_sq1 (self w0) = (if Rlt_dec r_soft_sq1_ 0 then r_soft_sq2_ else r_soft_sq1_) /\
    (r1_min (self w0), r2_min (self w0), current_step (self w0)) =
      (Missing, Missing, Missing).
Proof.
  intros Ho Harr.
  destruct (deepcopy_copies σ particle_set o Ho Harr)
    as (l & σ' & o' & m & E & Ho' & Hsc & Hacc & Hall & Hinj).
  unfold simulator_init. rewrite E. cbn [res_bind].
  eexists _, o'. split; [reflexivity|]. cbn.
  split; [exact Ho'|].
  split.
  { destruct (deepcopy_fresh _ _ _ _ E) as (_ & Hl & _).
    intros ->. unfold holds in Hl. congruence. }
  split; [exact Hsc|]. split; [exact Hacc|].
  split.
  { eapply Forall2_impl; [exact Hall|]. cbv beta. intros k k' [_ H]. exact H. }
  split.
  { intros Hnd. eapply (renamed_NoDup m); [exact Hinj | exact Hall | exact Hnd]. }
  split; [reflexivity|]. split; [|reflexivity].
  destruct (Rlt_dec r_soft_sq1_ 0); [lra | reflexivity].
Qed.

Section SingleBlackHole.
Context {U : Units}.

Lemma vadd_vconst_0 r : vadd r (vconst 0.0) = r.
Proof.
  destruct r as [[a b] c]. unfold vadd, vconst. cbn.
  replace 0.0 with 0 by lra. f_equal; [f_equal|]; ring.
Qed.

Lemma map_vadd_vconst_0 rows : map (fun r => vadd r (vconst 0.0)) rows = rows.
Proof.
  induction rows as [|r rows IH]; simpl; [reflexivity|].
  now rewrite vadd_vconst_0, IH.
Qed.

(** X18.  With no secondary ([M_2 <= 0]) and no background field, a force
    evaluation that returns gives the tracers the acceleration of the
    primary alone, computed with the primary's kernel and softening, and
    gives the secondary the acceleration [0.0]; [acc_DM2] is [0.0]; a
    fixed primary gets [0.0], and a dynamic primary the reaction
    [-(1/M_1) * sum_i M_DM[i]*acc_DM1[i]] of the tracers alone. *)
Theorem single_black_hole_forces (w w' : world) (o : particles) :
  holds o w -> ~ 0 < M_2 o ->
  background_field (self w) = None ->
  update_acceleration w = Ok tt w' ->
  exists o' xs x1 a1,
    holds o' w' /\ fixed o' = fixed o /\
    arrays (mem w) !! xDM o = Some (M3 xs) /\
    arrays (mem w) !! xBH1 o = Some (V3 x1) /\
    calc_acc (M1_eff o) (unit_dx xs x1) (dist_sq xs x1)
      (r_soft_sq1 (self w)) (soft_method1 (self w)) = Done a1 /\
    acc_DM1 (self w') = Val (DRows a1) /\
    acc_DM2 (self w') = Val (DScalar 0) /\
    dvdtDM o' = Val a1 /\
    dvdtBH2 o' = Val (Scalar 0) /\
    (dynamic_BH o = false -> dvdtBH1 o' = Val (Scalar 0)) /\
    (dynamic_BH o = true ->
     exists ms S1,
       arrays (mem w) !! M_DM o = Some (A1 ms) /\
       weighted_sum ms a1 = Done S1 /\
       dvdtBH1 o' = Val (Vector (vscale (- (1 / M_1 o)) S1))).
Proof.
  intros Ho HM Hbg E. pattern w'.
  match goal with
  | |- ?Q w' => enough (wp update_acceleration w (fun _ => Q) (fun _ _ => True)) as H
  end.
  { unfold wp in H. now rewrite E in H. }
  clear E w'. unfold update_acceleration.
  wp_step. wp_step. wp_clean.
  destruct (Rlt_dec 0 (M_2 o)) as [|_]; [contradiction|].
  destruct (dynamic_BH o) eqn:Hdyn;
    destruct (0 <? N_DM o)%Z; repeat (wp_step; wp_clean).
  all: rewrite Hbg; wp_step.
  all: repeat match goal with
              | H : py_div _ _ = Done _ |- _ =>
                  apply py_div_Done in H as [? ->]
              end.
  all: match goal with
       | H : arrays _ !! xDM _ = Some (M3 ?xs),
         H1 : arrays _ !! xBH1 _ = Some (V3 ?x1),
         Hc : calc_acc _ _ _ _ _ = Done ?a1 |- _ =>
           eexists _, xs, x1, a1
       end.
  all: unfold M1_eff; rewrite Hdyn.
  all: replace 0.0 with 0 in * by lra.
  all: match goal with
       | H : accDM_add _ _ = Done _ |- _ =>
           cbn [accDM_add] in H; injection H as <-
       end.
  all: assert (forall rows, map (fun r => vadd r (vconst 0)) rows = rows) as Hz
         by (intros rows; rewrite <- (map_vadd_vconst_0 rows) at 2;
             replace 0.0 with 0 by lra; reflexivity).
  all: rewrite Hz.
  all: split; [unfold holds; proj_simpl; apply lookup_insert_eq|].
  all: unfold fixed; proj_simpl.
  all: repeat match goal with |- _ /\ _ => split end;
       try eassumption; try reflexivity; try discriminate.
  all: intros _; try reflexivity.
  all: eexists _, _; repeat match goal with |- _ /\ _ => split end;
       try eassumption.
  all: f_equal; f_equal.
  all: match goal with
       | |- _ = vscale _ ?s =>
           destruct s as [[? ?] ?]; unfold vscale; f_equal; [f_equal|]; ring
       end.
Qed.

End SingleBlackHole.

(** ** The record of a run *)

Lemma returns_in_for_loop_indexed (P : Z -> world -> Prop) body k i :
  (forall j, (i <= j < i + Z.of_nat k)%Z -> returns_in (P j) (body j) (P (j + 1)%Z)) ->
  returns_in (P i) (for_loop k i body) (P (i + Z.of_nat k)%Z).
Proof.
  revert i. induction k as [|k IH]; intros i Hb; simpl for_loop.
  - replace (i + Z.of_nat 0)%Z with i by lia. apply returns_in_ret.
  - eapply returns_in_bind; [apply Hb; lia | intros _].
    replace (i + Z.of_nat (S k))%Z with ((i + 1) + Z.of_nat k)%Z by lia.
    apply IH. intros j Hj. apply Hb. lia.
Qed.

Lemma py_index_first n idx : py_index n 0 = Done idx -> idx = 0%nat /\ (0 < n)%nat.
Proof.
  unfold py_index. cbn.
  destruct (0 <? Z.of_nat n)%Z eqn:E; [|discriminate].
  intros [= <-]. apply Z.ltb_lt in E. split; [reflexivity | lia].
Qed.

Lemma py_index_later N_step N_save i idx :
  N_save <> 0%Z -> (0 < i < N_step)%Z -> (i mod N_save = 0)%Z ->
  py_index (n_out N_step N_save) (i / N_save) = Done idx -> idx <> 0%nat.
Proof.
  intros Hs Hi Hmod. unfold py_index, n_out.
  pose proof (Z.div_mod i N_save Hs) as Hdm. rewrite Hmod, Z.add_0_r in Hdm.
  destruct (Z_lt_ge_dec 0 N_save) as [Hpos|Hneg].
  - assert (0 < i / N_save)%Z by nia.
    destruct (i / N_save <? 0)%Z eqn:E1; [apply Z.ltb_lt in E1; lia|].
    destruct (_ && _)%bool; [|discriminate]. intros [= <-]. lia.
  - assert (N_save < 0)%Z as Hn by lia.
    assert (i / N_save < 0)%Z as Hq by nia.
    destruct (i / N_save <? 0)%Z eqn:E1; [|apply Z.ltb_ge in E1; lia].
    rewrite (Z.abs_neq N_save) by lia.
    set (a := (- N_save)%Z). assert (0 < a)%Z as Ha by (unfold a; lia).
    assert (i = a * (- (i / N_save)))%Z as Hia by (unfold a; nia).
    set (q := (- (i / N_save))%Z) in *.
    assert (q + 1 <= (N_step + a - 1) / a)%Z as Hle.
    { apply Z.div_le_lower_bound; [exact Ha|]. nia. }
    rewrite Z2Nat.id by (apply Z.div_pos; lia).
    destruct (_ && _)%bool; [|discriminate]. intros [= <-].
    assert (0 < (N_step + a - 1) / a + i / N_save)%Z by (unfold q in Hle; lia).
    lia.
Qed.

Lemma in_written_BH1 o :
  dynamic_BH o = true -> xBH1 o ∈ written o /\ vBH1 o ∈ written o.
Proof. intros H. unfold written. rewrite H. set_solver. Qed.

Lemma in_written_rest o :
  xBH2 o ∈ written o /\ vBH2 o ∈ written o /\ xDM o ∈ written o /\ vDM o ∈ written o.
Proof. unfold written. set_solver. Qed.

Section Keeps.

Context {U : Units}.

Variable J : world -> Prop.

Hypothesis J_self : forall w f,
  (forall s, settings (f s) = settings s) -> J w -> J (mk_world (mem w) (f (self w))).

Hypothesis J_obj : forall w o f,
  (forall o', fixed (f o') = fixed o') -> J w -> holds o w ->
  J (mk_world (mk_store (arrays (mem w)) (<[p (self w) := f o]> (objects (mem w))))
       (self w)).

Hypothesis J_write : forall w o l a,
  J w -> holds o w -> l ∈ written o ->
  J (mk_world (mk_store (<[l := a]> (arrays (mem w))) (objects (mem w))) (self w)).

Lemma kept_set_self f :
  (forall s, settings (f s) = settings s) -> preserved J (set_self f).
Proof. intros Hf w Hw. apply wp_set_self. apply J_self; auto. Qed.

Lemma kept_set_p f :
  (forall o, fixed (f o) = fixed o) -> preserved J (set_p f).
Proof.
  intros Hf w Hw. apply wp_set_p; [|auto].
  intros o Ho. apply J_obj; auto.
Qed.

Lemma kept_update_acceleration : preserved J update_acceleration.
Proof.
  unfold update_acceleration.
  repeat first
    [ progress auto with preserved
    | apply preserved_bind; [| intros]
    | apply kept_set_self; intros []; reflexivity
    | apply kept_set_p; intros []; reflexivity
    | match goal with
      | |- preserved _ (if ?b then _ else _) => destruct b
      | |- preserved _ (match ?x with _ => _ end) => destruct x
      | |- preserved _ (let _ := _ in _) => cbv zeta
      end ].
Qed.

Lemma kept_write o l a :
  l ∈ written o -> preserved (fun w => J w /\ holds o w) (write l a).
Proof.
  intros Hl w [Hw Ho]. apply wp_write. split; [eapply J_write; eauto | exact Ho].
Qed.

Lemma kept_iadd_vec o l d :
  l ∈ written o -> preserved (fun w => J w /\ holds o w) (iadd_vec l d).
Proof.
  intros Hl. unfold iadd_vec. apply preserved_bind; [auto with preserved|].
  intros x. now apply kept_write.
Qed.

Lemma kept_iadd_mat o l d :
  l ∈ written o -> preserved (fun w => J w /\ holds o w) (iadd_mat l d).
Proof.
  intros Hl. unfold iadd_mat. apply preserved_bind; [auto with preserved|].
  intros x. destruct (length x =? length d)%nat; [now apply kept_write|].
  destruct d as [|y [|z d]]; auto using kept_write with preserved.
Qed.

Local Opaque iadd_vec iadd_mat.

Lemma kept_xstep h extra : preserved J (xstep h extra).
Proof.
  destruct extra; [|apply preserved_raise].
  unfold xstep, xstep_body. apply preserved_get_p_bind. intros o.
  destruct (in_written_rest o) as (H1 & H2 & H3 & H4).
  repeat (apply preserved_bind; [| intros]);
    auto using kept_iadd_vec, kept_iadd_mat with preserved.
  destruct (dynamic_BH o) eqn:Hd; [|auto with preserved].
  destruct (in_written_BH1 o Hd).
  apply preserved_bind; [|intros]; auto using kept_iadd_vec with preserved.
Qed.

Lemma kept_vstep h extra : preserved J (vstep h extra).
Proof.
  destruct extra; [|apply preserved_raise].
  unfold vstep, vstep_body. apply preserved_get_p_bind. intros o.
  destruct (in_written_rest o) as (H1 & H2 & H3 & H4).
  repeat (apply preserved_bind; [| intros]);
    auto using kept_iadd_vec, kept_iadd_mat with preserved.
  destruct (dynamic_BH o) eqn:Hd; [|auto with preserved].
  destruct (in_written_BH1 o Hd).
  apply preserved_bind; [|intros]; auto using kept_iadd_vec with preserved.
Qed.

Local Transparent iadd_vec iadd_mat.
Local Opaque xstep vstep update_acceleration.

Lemma kept_full_step dt method inds : preserved J (full_step dt method inds).
Proof.
  unfold full_step.
  repeat match goal with
         | |- preserved _ (if ?b then _ else _) => destruct b
         end;
    repeat (apply preserved_bind; [| intros]);
    auto using kept_xstep, kept_vstep, kept_update_acceleration with preserved.
Qed.

Local Opaque full_step.

Lemma kept_adaptive_step dt method eta N_sub_max :
  preserved J (adaptive_step dt method eta N_sub_max).
Proof.
  unfold adaptive_step.
  apply preserved_bind; [auto with preserved | intros o].
  destruct (N_DM o =? 0)%Z; [apply kept_full_step|].
  apply preserved_bind; [auto with preserved | intros s].
  apply preserved_bind.
  { destruct (r2_min s); auto using kept_update_acceleration with preserved. }
  intros _.
  repeat (apply preserved_bind; [auto with preserved | intros]).
  cbv zeta. destruct (x_ge _ _); [apply kept_full_step|].
  repeat (apply preserved_bind; [auto with preserved | intros]).
  apply preserved_for_range. intros j. apply kept_full_step.
Qed.

Local Transparent xstep vstep update_acceleration full_step.

End Keeps.

Section Run.

Context {U : Units}.

Lemma logged_step o0 c r f (m : M unit) :
  (forall J : world -> Prop,
     (forall w g, (forall s, settings (g s) = settings s) -> J w ->
        J (mk_world (mem w) (g (self w)))) ->
     (forall w o g, (forall o', fixed (g o') = fixed o') -> J w -> holds o w ->
        J (mk_world (mk_store (arrays (mem w))
                       (<[p (self w) := g o]> (objects (mem w)))) (self w))) ->
     (forall w o l a, J w -> holds o w -> l ∈ written o ->
        J (mk_world (mk_store (<[l := a]> (arrays (mem w))) (objects (mem w)))
             (self w))) ->
     preserved J m) ->
  preserved (logged o0 c r f) m.
Proof.
  intros Hm. apply Hm.
  - intros w g Hg ((o & Ho & Hfix) & Hc & Hr & Hf).
    specialize (Hg (self w)). unfold settings in Hg.
    injection Hg as Hp _ _ _ _ _ Hc' Hr' Hf'.
    unfold logged, holds. cbn. rewrite Hp, Hc', Hr', Hf'. split; [now exists o | auto].
  - intros w o g Hg ((o1 & Ho1 & Hfix) & Hc & Hr & Hf) Ho.
    unfold logged, holds in *. cbn. split; [|auto].
    exists (g o). rewrite lookup_insert_eq. split; [reflexivity|].
    rewrite Hg. congruence.
  - intros w o l a ((o1 & Ho1 & Hfix) & Hc & Hr & Hf) Ho Hl.
    unfold logged, holds in *. cbn. split; [now exists o1 | auto].
Qed.

Lemma recorded_step A0 o0 n i (m : M unit) :
  (forall rec, preserved (logged o0 (Val i) (Val rec) (Val false)) m) ->
  returns_in (recorded A0 o0 n i) m (recorded A0 o0 n i).
Proof.
  intros Hm w (rec & Hl & Hs & Hf). specialize (Hm rec w Hl).
  unfold wp in *. destruct (m w); [|exact I]. now exists rec.
Qed.

Lemma record_state_first A0 o0 N_step N_save i :
  N_save <> 0%Z -> (0 <= i < N_step)%Z -> (i mod N_save = 0)%Z ->
  returns_in (running A0 o0 (n_out N_step N_save) i)
    (record_state (i / N_save))
    (recorded A0 o0 (n_out N_step N_save) i).
Proof.
  intros Hs Hi Hmod w (rec & ((o & Ho & Hfix) & Hc & Hr & Hf) & Hsz & H0 & Hpos).
  unfold record_state.
  wp_step. wp_step. proj_simpl. rewrite Hr. wp_step. wp_step.
  match goal with H : Val _ = Val _ |- _ => injection H as <- end.
  repeat (wp_step; wp_clean).
  match goal with
  | H : py_index _ _ = Done _ |- _ => rename H into Hidx
  end.
  destruct Hsz as (L1 & L2 & L3 & L4 & L5 & L6). rewrite L1 in Hidx.
  pose proof Hfix as Hfix'. unfold fixed in Hfix'.
  injection Hfix' as HM1 HM2 _ _ Hx1 Hv1 Hx2 Hv2 _ _ _.
  eexists. split; [|split].
  - split; [exists o; split; [exact Ho | exact Hfix]|].
    proj_simpl. split; [exact Hc|]. split; [reflexivity | exact Hf].
  - unfold sized. cbn. now rewrite !length_insert.
  - destruct (Z.eq_dec i 0%Z) as [->|Hne].
    + rewrite Z.div_0_l in Hidx by exact Hs.
      apply py_index_first in Hidx as [-> Hn].
      exists v, v0, v1, v2. cbn.
      rewrite <- (H0 eq_refl), <- Hx1, <- Hv1, <- Hx2, <- Hv2, <- HM1, <- HM2.
      repeat match goal with |- _ /\ _ => split end; try assumption.
      all: rewrite list_lookup_insert_eq by lia; reflexivity.
    + apply py_index_later in Hidx; [|exact Hs|lia|exact Hmod].
      destruct (Hpos ltac:(lia)) as (x1 & v1' & x2 & v2' & ? & ? & ? & ? & ? & ? & ? & ? & ? & ?).
      exists x1, v1', x2, v2'. cbn.
      repeat match goal with |- _ /\ _ => split end; try assumption.
      all: rewrite list_lookup_insert_ne by exact Hidx; assumption.
Qed.

Lemma run_simulation_logs dt t_end method N_save inds eta N_sub_max w o :
  holds o w ->
  wp (run_simulation None dt t_end method N_save inds eta N_sub_max) w
    (fun _ w' =>
       let N_step := Zceil (t_end / dt) in
       dt <> 0 /\ (0 <= N_step)%Z /\ N_save <> 0%Z /\
       exists rec,
         logged o (Val N_step) (Val rec) (Val true) w' /\
         sized (n_out N_step N_save) rec /\
         ((0 < N_step)%Z -> first_row (arrays (mem w)) o rec))
    (fun _ _ => True).
Proof.
  intros Ho. unfold run_simulation.
  wp_step. wp_step. wp_step. wp_step.
  match goal with
  | H : py_div _ _ = Done _ |- _ => apply py_div_Done in H as [Hdt ->]
  end.
  destruct (Zceil (t_end / dt) <? 0)%Z eqn:EN; [wp_step; wp_step|].
  apply Z.ltb_ge in EN. wp_step. wp_step.
  destruct (N_save =? 0)%Z eqn:ES; [wp_step; wp_step|].
  apply Z.eqb_neq in ES. wp_step. wp_step.
  wp_step. wp_step. wp_step. wp_step; wp_clean.
  destruct (N_DM o <? 0)%Z; [wp_step; wp_step|].
  wp_step. wp_step.
  do 5 (wp_step; wp_step).
  set (N_step := Zceil (t_end / dt)) in *.
  set (n := n_out N_step N_save).
  wp_step.
  match goal with
  | |- wp _ ?w1 _ _ =>
      assert (running (arrays (mem w)) o n 0 w1) as Hstart
  end.
  { eexists. split; [|split; [|split]].
    - split; [exists o; split; [exact Ho | reflexivity]|]. proj_simpl. auto.
    - unfold sized. cbn. rewrite !length_replicate. auto 10.
    - reflexivity.
    - lia. }
  eapply wp_mono;
    [ apply (returns_in_for_loop_indexed (running (arrays (mem w)) o n) _
               (Z.to_nat N_step) 0%Z); [|exact Hstart]
    | | auto ].
  - intros j Hj.
    eapply returns_in_bind; [apply returns_in_ret | intros _].
    eapply returns_in_bind with (Q := recorded (arrays (mem w)) o n j).
    { destruct (j mod N_save =? 0)%Z eqn:Em.
      - apply Z.eqb_eq in Em. apply record_state_first; [exact ES | lia | exact Em].
      - apply Z.eqb_neq in Em. intros w1 (rec & Hl & Hsz & H0 & Hpos).
        exists rec. split; [exact Hl|]. split; [exact Hsz|].
        apply Hpos. destruct (Z.eq_dec j 0%Z) as [->|]; [|lia].
        now rewrite Z.mod_0_l in Em. }
    intros _.
    eapply returns_in_bind with (Q := recorded (arrays (mem w)) o n j).
    { apply recorded_step. intros rec. apply logged_step. intros J J1 J2 J3.
      destruct (Rlt_dec eta 0);
        [now apply kept_full_step | now apply kept_adaptive_step]. }
    intros _ w1 (rec & ((o1 & Ho1 & Hfix) & Hc & Hr & Hf) & Hsz & Hrow).
    wp_step. wp_step. proj_simpl. rewrite Hc. wp_step. wp_step.
    match goal with H : Val _ = Val _ |- _ => injection H as <- end.
    wp_step.
    exists rec. split; [|split; [exact Hsz|split; [lia | intros _; exact Hrow]]].
    split; [now exists o1|]. proj_simpl. auto.
  - cbv beta. intros _ w1 (rec & ((o1 & Ho1 & Hfix) & Hc & Hr & Hf) & Hsz & _ & Hrow).
    wp_step. rewrite Z.add_0_l, Z2Nat.id in * by exact EN.
    split; [exact Hdt|]. split; [exact EN|]. split; [exact ES|].
    exists rec. split; [|split; [exact Hsz | exact Hrow]].
    split; [now exists o1|]. proj_simpl. auto.
Qed.

(** X19.  A run that returns (with no [check_state] hook).  The step size
    is not zero, the number of steps [N_step = ceil(t_end/dt)] is not
    negative and [N_save] is not zero; the step counter ends at
    [N_step] and [finished] is [True]; the six recorded lists have
    [len(linspace(0, 1, N_step)[::N_save])] rows; and when there is at
    least one step their first row is the state of the two black holes
    before the run. *)
Theorem run_simulation_completes (w w' : world) (o : particles) (dt t_end : R)
    (method : string) (N_save : Z) (inds : option (list nat)) (eta : R)
    (N_sub_max : Z) :
  holds o w ->
  run_simulation None dt t_end method N_save inds eta N_sub_max w = Ok tt w' ->
  let N_step := Zceil (t_end / dt) in
  dt <> 0 /\ (0 <= N_step)%Z /\ N_save <> 0%Z /\
  current_step (self w') = Val N_step /\
  finished (self w') = Val true /\
  exists rec,
    record (self w') = Val rec /\
    sized (n_out N_step N_save) rec /\
    ((0 < N_step)%Z -> first_row (arrays (mem w)) o rec).
Proof.
  intros Ho E.
  pose proof (run_simulation_logs dt t_end method N_save inds eta N_sub_max w o Ho) as H.
  unfold wp in H. rewrite E in H. cbv zeta in *.
  destruct H as (Hdt & HN & HS & rec & (_ & Hc & Hr & Hf) & Hsz & Hrow).
  repeat (split; [assumption|]). now exists rec.
Qed.

End Run.

(** ** The binary of [particles_in_binary] *)

Section BinaryFrame.

Context {U : Units}.

Variable calc_risco : R -> res R.

(** X20.  [particles_in_binary] with no tracers.  For a positive
    semi-major axis, an eccentricity between 0 and 1 and a positive total
    mass it returns a binary at apoapsis: the secondary is at the
    distance [r_i = a_i*(1 + e_i)] from the primary along the first
    axis, and moves relative to it along the second axis with the speed
    [v_i = sqrt(G_N*(M_1 + M_2)*(2/r_i - 1/a_i))].  With dynamic black
    holes the centre of mass is at the origin and the total momentum is
    zero; with a fixed primary, the primary is at the origin, at rest. *)
Theorem particles_in_binary_frame (M_1_ M_2_ a_i e_i : R) (dynamic_BH_ : bool)
    (r_max r_t : R) (σ : store) :
  0 < a_i -> 0 <= e_i <= 1 -> 0 < M_1_ + M_2_ ->
  (r_max < 0 -> r_t < 0 -> exists r, calc_risco M_1_ = Done r) ->
  let r_i := a_i * (1 + e_i) in
  let v_i := sqrt (G_N * (M_1_ + M_2_) * (2 / r_i - 1 / a_i)) in
  exists l σ' o x1 v1 x2 v2,
    particles_in_binary calc_risco M_1_ M_2_ a_i e_i dynamic_BH_ r_max r_t σ = Done (l, σ') /\
    objects σ' !! l = Some o /\
    (M_1 o, M_2 o, N_DM o, dynamic_BH o) = (M_1_, M_2_, 0%Z, dynamic_BH_) /\
    arrays σ' !! xBH1 o = Some (V3 x1) /\ arrays σ' !! vBH1 o = Some (V3 v1) /\
    arrays σ' !! xBH2 o = Some (V3 x2) /\ arrays σ' !! vBH2 o = Some (V3 v2) /\
    vsub x2 x1 = (r_i, 0, 0) /\
    vsub v2 v1 = (0, - v_i, 0) /\
    (dynamic_BH_ = true ->
     vadd (vscale M_1_ x1) (vscale M_2_ x2) = vzero /\
     vadd (vscale M_1_ v1) (vscale M_2_ v2) = vzero) /\
    (dynamic_BH_ = false -> x1 = vzero /\ v1 = vzero).
Proof.
  intros Ha He HM Hr r_i v_i. unfold particles_in_binary.
  assert (exists r0,
            (if Rlt_dec r_max 0 then
               if Rlt_dec r_t 0
               then res_bind (calc_risco M_1_) (fun r => Done (1e5 * r))
               else Done (1e3 * r_t)
             else Done r_max) = Done r0) as [r0 ->].
  { destruct (Rlt_dec r_max 0) as [H1|]; [|eauto].
    destruct (Rlt_dec r_t 0) as [H2|]; [|eauto].
    destruct (Hr H1 H2) as [r ->]. cbn. eauto. }
  cbn [res_bind].
  destruct (particles_init_spec M_1_ M_2_ 0 0.0 dynamic_BH_ σ) as [_ Hinit].
  destruct (Hinit ltac:(lia))
    as (l & σ1 & o & -> & _ & Hobj & _ & Hnd & _ & Hsc & _ & _ & _).
  cbn [res_bind]. rewrite Hobj, lookup_insert_eq.
  injection Hsc as HM1 HM2 HN Hdyn. rewrite HM1, HM2.
  assert (0 < r_i) as Hri by (unfold r_i; nra).
  fold r_i. unfold py_div.
  replace 2.0 with 2 by lra. replace 1.0 with 1 by lra. replace 0.0 with 0 by lra.
  destruct (Req_dec_T r_i 0); [lra|]. destruct (Req_dec_T a_i 0); [lra|].
  cbn [res_bind].
  assert (0 <= 2 / r_i - 1 / a_i) as Hrad.
  { replace (2 / r_i - 1 / a_i) with ((1 - e_i) / r_i)
      by (unfold r_i; field; lra).
    apply Rmult_le_pos; [lra|]. left. now apply Rinv_0_lt_compat. }
  unfold np_sqrt.
  destruct (Rlt_dec (G_N * (M_1_ + M_2_) * (2 / r_i - 1 / a_i)) 0) as [Hneg|_].
  { pose proof G_N_pos. assert (0 <= G_N * (M_1_ + M_2_)) by nra. nra. }
  cbn [res_bind].
  fold v_i.
  pose proof (NoDup_arrays_of o Hnd) as D. decompose [and] D. clear D.
  destruct dynamic_BH_.
  - destruct (Req_dec_T (M_1_ + M_2_) 0); [lra|]. cbn [res_bind].
    eexists l, _, o, _, _, _, _. split; [reflexivity|]. cbn.
    split; [apply lookup_insert_eq|].
    split; [now rewrite HM1, HM2, HN, Hdyn|].
    split; [rewrite !lookup_insert_ne by congruence; apply lookup_insert_eq|].
    split; [rewrite !lookup_insert_ne by congruence; apply lookup_insert_eq|].
    split; [rewrite !lookup_insert_ne by congruence; apply lookup_insert_eq|].
    split; [apply lookup_insert_eq|].
    unfold vsub, vadd, vscale, vzero.
    repeat match goal with |- _ /\ _ => split end; try discriminate; try intros _.
    all: repeat match goal with |- _ /\ _ => split end.
    all: repeat match goal with |- (_, _) = (_, _) => apply pair_equal_spec; split end.
    all: try lra; field; lra.
  - cbn [res_bind].
    eexists l, _, o, _, _, _, _. split; [reflexivity|]. cbn.
    split; [apply lookup_insert_eq|].
    split; [now rewrite HM1, HM2, HN, Hdyn|].
    split; [rewrite !lookup_insert_ne by congruence; apply lookup_insert_eq|].
    split; [rewrite !lookup_insert_ne by congruence; apply lookup_insert_eq|].
    split; [rewrite !lookup_insert_ne by congruence; apply lookup_insert_eq|].
    split; [apply lookup_insert_eq|].
    unfold vsub, vadd, vscale, vzero.
    repeat match goal with |- _ /\ _ => split end; try discriminate; try intros _.
    all: repeat match goal with |- _ /\ _ => split end.
    all: repeat match goal with |- (_, _) = (_, _) => apply pair_equal_spec; split end.
    all: lra.
Qed.

End BinaryFrame.

(** ** The algebra of kicks *)

(** X21.  Kicks.  On a particle set as the constructor leaves it, with the
    accelerations of the black holes [None], a kick raises [TypeError]
    and writes nothing.  Once the three accelerations are stored, on
    distinct arrays, kicks with these accelerations compose: a kick by
    [h1] followed by a kick by [h2] is the kick by [h1 + h2], a kick by
    zero changes nothing, and a kick by [-h] undoes a kick by [h]. *)
Theorem vstep_composes (w : world) (o : particles) (q : phase) (h1 h2 : R) :
  holds o w -> NoDup (arrays_of o) -> phase_of o w = Some q ->
  (dvdtBH1 o = IsNone -> dvdtBH2 o = IsNone ->
   vstep h1 [] w = Raise TypeError w) /\
  (forall a1 a2 rows,
     dvdtBH1 o = Val a1 -> dvdtBH2 o = Val a2 -> dvdtDM o = Val rows ->
     length (ph_vDM q) = length rows ->
     (vstep h1 [] ;; vstep h2 []) w = vstep (h1 + h2) [] w /\
     vstep 0 [] w = Ok tt w /\
     (vstep h1 [] ;; vstep (- h1) []) w = Ok tt w).
Proof.
  intros Ho Hnd Hq. split.
  - intros H1 H2. cbn [vstep]. unfold vstep_body.
    rewrite (bind_ok _ _ _ _ _ (get_p_holds _ _ Ho)).
    destruct (dynamic_BH o).
    + rewrite H1. reflexivity.
    + rewrite (bind_ok (mret tt) _ w tt w eq_refl). rewrite H2. reflexivity.
  - intros a1 a2 rows H1 H2 H3 Hlen.
    assert (forall a b, (vstep a [] ;; vstep b []) w = vstep (a + b) [] w) as Hcomp.
    { intros a b. cbn [vstep].
      rewrite (bind_ok _ _ _ _ _
                 (vstep_body_run a w o q a1 a2 rows Ho Hnd Hq (fun _ => H1) H2 H3 Hlen)).
      rewrite (vstep_body_run (a + b) w o q a1 a2 rows Ho Hnd Hq (fun _ => H1) H2 H3 Hlen).
      erewrite (vstep_body_run b _ o (kick (dynamic_BH o) a a1 a2 rows q) a1 a2 rows).
      - proj_simpl. now rewrite kicked_kicked.
      - exact Ho.
      - exact Hnd.
      - now apply phase_of_kicked.
      - intros _. exact H1.
      - exact H2.
      - exact H3.
      - cbn. rewrite length_zip_with, length_map. lia. }
    assert (vstep 0 [] w = Ok tt w) as Hzero.
    { cbn [vstep].
      rewrite (vstep_body_run 0 w o q a1 a2 rows Ho Hnd Hq (fun _ => H1) H2 H3 Hlen).
      rewrite (kicked_zero o q a1 a2 rows w Hnd Hq Hlen). now destruct w as [[? ?] ?]. }
    split; [apply Hcomp|]. split; [exact Hzero|].
    rewrite Hcomp. replace (h1 + - h1) with 0 by ring. exact Hzero.
Qed.

(** ** Adaptive runs *)

Lemma n_out_pos N_step N_save :
  (0 < N_step)%Z -> N_save <> 0%Z -> (0 < n_out N_step N_save)%nat.
Proof.
  intros HN HS. unfold n_out.
  assert (0 < Z.abs N_save)%Z as Ha by lia.
  assert (1 <= (N_step + Z.abs N_save - 1) / Z.abs N_save)%Z.
  { apply Z.div_le_lower_bound; lia. }
  lia.
Qed.

Section AdaptiveRun.

Context {U : Units}.

(** X22.  Adaptive stepping needs a secondary.  On a single black hole
    ([M_2 = 0]) with tracers, a [run_simulation] with [eta >= 0] and at
    least one step raises [TypeError] in its first step, before any
    position or velocity has changed: the run resets [r2_min] to
    [None], the force evaluation of [adaptive_step] leaves it there,
    and [calc_dt_opt] is called with it. *)
Theorem run_simulation_adaptive_needs_secondary (w : world) (o : particles)
    (dt t_end : R) (method : string) (N_save : Z) (inds : option (list nat))
    (eta : R) (N_sub_max : Z) :
  well_formed w o -> 0 < M_1 o -> M_2 o = 0 -> (0 < N_DM o)%Z ->
  known_kernel (soft_method1 (self w)) ->
  dt <> 0 -> (0 < Zceil (t_end / dt))%Z -> N_save <> 0%Z -> 0 <= eta ->
  exists w',
    run_simulation None dt t_end method N_save inds eta N_sub_max w =
      Raise TypeError w' /\
    arrays (mem w') = arrays (mem w).
Proof.
  intros Hwf HM1 HM2 HN Hk Hdt Hstep Hsave Heta.
  enough (wp (run_simulation None dt t_end method N_save inds eta N_sub_max) w
            (fun _ _ => False)
            (fun e w' => e = TypeError /\ arrays (mem w') = arrays (mem w))) as H.
  { unfold wp in H.
    destruct (run_simulation None dt t_end method N_save inds eta N_sub_max w)
      as [a w'|e w']; [contradiction|].
    destruct H as [-> H]. now exists w'. }
  pose proof Hwf as [Ho _ _ (x1 & Hx1) (v1 & Hv1) (x2 & Hx2) (v2 & Hv2) _ _].
  unfold run_simulation.
  wp_fwd. wp_fwd. wp_fwd. eapply wp_lift_ok; [now apply py_div_ok|].
  cbv zeta.
  destruct (Zceil (t_end / dt) <? 0)%Z eqn:E1; [apply Z.ltb_lt in E1; lia|].
  destruct (N_save =? 0)%Z eqn:E2; [apply Z.eqb_eq in E2; contradiction|].
  repeat wp_fwd.
  destruct (N_DM o <? 0)%Z eqn:E3; [apply Z.ltb_lt in E3; lia|].
  repeat wp_fwd.
  unfold for_range.
  destruct (Z.to_nat (Zceil (t_end / dt))) as [|k] eqn:Ek; [lia|].
  cbn [for_loop]. repeat wp_fwd.
  rewrite Z.mod_0_l by exact Hsave. cbn [Z.eqb].
  rewrite Z.div_0_l by exact Hsave.
  unfold record_state. repeat wp_fwd.
  eapply wp_lift_ok.
  { unfold py_index. cbn [M1_list]. rewrite length_replicate.
    pose proof (n_out_pos _ _ Hstep Hsave) as Hn. cbn [Z.ltb Z.compare].
    destruct (_ && _)%bool eqn:Eb; [reflexivity|].
    apply andb_false_iff in Eb as [Eb|Eb];
      [apply Z.leb_gt in Eb | apply Z.ltb_ge in Eb]; lia. }
  repeat wp_fwd.
  destruct (Rlt_dec eta 0) as [|_]; [lra|].
  match goal with
  | |- wp (adaptive_step _ _ _ _) ?w3 _ _ =>
      assert (well_formed w3 o) as Hwf3
        by (destruct Hwf; split; assumption);
      destruct (update_acceleration_returns w3 o Hwf3) as [w4 E4];
        [ exact HM1 | rewrite HM2; lra | exact Hk | rewrite HM2; intros; lra |];
      pose proof (update_acceleration_arrays w3) as Harr;
      rewrite E4 in Harr; cbn [final] in Harr;
      pose proof (adaptive_step_none_raises w3 w4 o dt method eta N_sub_max)
        as Hraise
  end.
  unfold wp at 1. rewrite Hraise.
  - split; [reflexivity | exact Harr].
  - exact Ho.
  - lia.
  - reflexivity.
  - rewrite HM2. lra.
  - exact E4.
Qed.

End AdaptiveRun.

(** ** The angular momentum *)

Ltac cross_solve :=
  intros; vec_destruct; unfold cross, vadd, vsub, vscale, vzero, vdiv;
  repeat match goal with |- (_, _) = (_, _) => apply pair_equal_spec; split end;
  try ring.

Lemma cross_vadd_r a b c : cross a (vadd b c) = vadd (cross a b) (cross a c).
Proof. cross_solve. Qed.

Lemma cross_vadd_l a b c : cross (vadd a b) c = vadd (cross a c) (cross b c).
Proof. cross_solve. Qed.

Lemma cross_vscale_r h a b : cross a (vscale h b) = vscale h (cross a b).
Proof. cross_solve. Qed.

Lemma cross_vscale_l h a b : cross (vscale h a) b = vscale h (cross a b).
Proof. cross_solve. Qed.

Lemma cross_self a : cross a a = vzero.
Proof. cross_solve. Qed.

(** A drift leaves [x x v] as it is. *)
Lemma cross_drift h x v : cross (vadd x (vscale h v)) v = cross x v.
Proof. cross_solve. Qed.

(** A force along the separation gives no torque about the source. *)
Lemma cross_radial c x x0 : cross x (vscale c (vsub x x0)) = cross x0 (vscale c (vsub x x0)).
Proof. cross_solve. Qed.

Lemma zip_cross_drift h xs vs :
  zip_with cross (zip_with vadd xs (map (vscale h) vs)) vs = zip_with cross xs vs.
Proof.
  revert vs. induction xs as [|x xs IH]; intros [|v vs]; simpl; try reflexivity.
  now rewrite cross_drift, IH.
Qed.

Lemma zip_cross_vadd xs vs ws :
  length vs = length ws ->
  zip_with cross xs (zip_with vadd vs ws) =
  zip_with vadd (zip_with cross xs vs) (zip_with cross xs ws).
Proof.
  revert vs ws. induction xs as [|x xs IH]; intros [|v vs] [|u ws] Hlen;
    simpl in *; try reflexivity; try discriminate.
  rewrite cross_vadd_r, IH by lia. reflexivity.
Qed.

Lemma zip_cross_vscale h xs rows :
  zip_with cross xs (map (vscale h) rows) = map (vscale h) (zip_with cross xs rows).
Proof.
  revert rows. induction xs as [|x xs IH]; intros [|r rows]; simpl; try reflexivity.
  now rewrite cross_vscale_r, IH.
Qed.

(** The tracers' part of the angular momentum after a kick. *)
Lemma weighted_cross_kick ms xs vs rows h Sv St :
  length vs = length rows -> length xs = length vs ->
  weighted_sum ms (zip_with cross xs vs) = Done Sv ->
  weighted_sum ms (zip_with cross xs rows) = Done St ->
  weighted_sum ms (zip_with cross xs (zip_with vadd vs (map (vscale h) rows))) =
  Done (vadd Sv (vscale h St)).
Proof.
  intros L1 L2 HSv HSt.
  rewrite zip_cross_vadd by (rewrite length_map; exact L1).
  rewrite zip_cross_vscale.
  apply weighted_sum_add.
  - rewrite length_map, !length_zip_with. lia.
  - exact HSv.
  - now apply weighted_sum_scale.
Qed.

Lemma weighted_sum_eq ms acc :
  length ms = length acc ->
  weighted_sum ms acc = Done (vsum (zip_with vscale ms acc)).
Proof. intros H. unfold weighted_sum. now rewrite bcast2_Done. Qed.

(** Forces along the separations from [x0], summed with their torques
    about the origin, give the torque of their sum applied at [x0]. *)
Lemma weighted_cross_radial (x0 : vec) ms xs a S :
  length ms = length xs ->
  Forall2 (fun x acc => exists c, acc = vscale c (vsub x x0)) xs a ->
  weighted_sum ms a = Done S ->
  weighted_sum ms (zip_with cross xs a) = Done (cross x0 S).
Proof.
  intros Hlen Hrad HS.
  assert (length xs = length a) as Hla by (eapply Forall2_length; exact Hrad).
  rewrite (weighted_sum_eq ms a) in HS by congruence.
  rewrite weighted_sum_eq by (rewrite length_zip_with; lia).
  injection HS as <-. f_equal.
  clear Hla. revert ms Hlen.
  induction Hrad as [|x acc xs a (c & ->) Hrest IH]; intros [|m ms] Hlen;
    simpl in *; try discriminate.
  - cross_solve.
  - rewrite IH by lia. fold (vsum (zip_with vscale ms a)).
    generalize (vsum (zip_with vscale ms a)). intros T.
    rewrite cross_radial. cross_solve.
Qed.

Lemma Forall2_compose {A B C} (P : A -> B -> Prop) (Q : B -> C -> Prop)
    (R : A -> C -> Prop) xs ys zs :
  (forall x y z, P x y -> Q y z -> R x z) ->
  Forall2 P xs ys -> Forall2 Q ys zs -> Forall2 R xs zs.
Proof.
  intros H HP. revert zs. induction HP as [|x y xs ys Hxy _ IH]; intros zs HQ.
  - inversion HQ. constructor.
  - inversion HQ as [|? z ? zs' Hyz Hrest]; subst. constructor; eauto.
Qed.

(** The unit vectors of [update_acceleration] point along the
    separations. *)
Lemma unit_dx_radial xs x0 :
  Forall2 (fun x d => exists c, d = vscale c (vsub x x0)) xs (unit_dx xs x0).
Proof.
  unfold unit_dx, dist_sq, offsets.
  induction xs as [|x xs IH]; simpl; constructor; [|exact IH].
  exists (/ sqrt (norm_sq (vsub x x0))).
  destruct (vsub x x0) as [[d1 d2] d3]. unfold vdiv, vscale.
  repeat (apply pair_equal_spec; split); unfold Rdiv; ring.
Qed.

Section Torque.

Context {U : Units}.

(** Every kernel gives an acceleration along [dx]. *)
Lemma radial_kernel M_eff r_soft_sq d r :
  (exists c, acc_plummer M_eff r_soft_sq d r = vscale c d) /\
  (exists c, acc_plummer2 M_eff r_soft_sq d r = vscale c d) /\
  (exists c, acc_uniform_old M_eff r_soft_sq d r = vscale c d) /\
  (exists c, acc_uniform M_eff r_soft_sq d r = vscale c d) /\
  (exists c, acc_truncate M_eff r_soft_sq d r = vscale c d) /\
  (exists c, acc_empty_shell M_eff r_soft_sq d r = vscale c d).
Proof.
  unfold acc_uniform_old, acc_uniform, acc_empty_shell.
  destruct (np_sqrt (np_divide r r_soft_sq)) as [x| | |];
    repeat match goal with
           | |- context [if ?b then _ else _] => destruct b
           end;
    unfold acc_newton; rewrite ?vscale_vscale;
    repeat split; eexists; reflexivity.
Qed.

Lemma calc_acc_radial M_eff r_soft_sq method dx r_sq a :
  calc_acc M_eff dx r_sq r_soft_sq method = Done a ->
  Forall2 (fun d acc => exists c, acc = vscale c d) dx a.
Proof.
  unfold calc_acc.
  repeat match goal with
         | |- (if String.eqb ?m ?k then _ else _) = _ -> _ =>
             destruct (String.eqb m k)
         end;
    try discriminate;
    unfold per_row; destruct (length dx =? length r_sq)%nat eqn:E;
    try discriminate; intros [= <-]; apply Nat.eqb_eq in E;
    apply (Forall2_zip_with_l _ (fun _ => True)); auto;
    try (clear; induction r_sq; constructor; auto);
    intros d r _; apply (radial_kernel M_eff r_soft_sq d r).
Qed.

(** The accelerations that a force evaluation stores for a binary with
    both black holes dynamic and no background field. *)
Lemma update_acceleration_forces (w w' : world) (o : particles) :
  holds o w -> dynamic_BH o = true -> 0 < M_2 o ->
  background_field (self w) = None ->
  update_acceleration w = Ok tt w' ->
  exists o' ms xs x1 x2 a1 a2 S1 S2,
    let k := - G_N * M_2 o * Rpower (norm_sq (vsub x1 x2)) (- 1.5) in
    holds o' w' /\ fixed o' = fixed o /\
    arrays (mem w') = arrays (mem w) /\
    arrays (mem w) !! M_DM o = Some (A1 ms) /\
    arrays (mem w) !! xDM o = Some (M3 xs) /\
    arrays (mem w) !! xBH1 o = Some (V3 x1) /\
    arrays (mem w) !! xBH2 o = Some (V3 x2) /\
    M_1 o <> 0 /\
    calc_acc (M_1 o) (unit_dx xs x1) (dist_sq xs x1)
      (r_soft_sq1 (self w)) (soft_method1 (self w)) = Done a1 /\
    calc_acc (M_2 o) (unit_dx xs x2) (dist_sq xs x2)
      (r_soft_sq2 (self w)) (soft_method (self w)) = Done a2 /\
    weighted_sum ms a1 = Done S1 /\
    weighted_sum ms a2 = Done S2 /\
    dvdtBH1 o' =
      Val (Vector (vsub (vscale k (vsub x1 x2)) (vscale (1 / M_1 o) S1))) /\
    dvdtBH2 o' =
      Val (Vector (vsub (vscale (- (M_1 o / M_2 o)) (vscale k (vsub x1 x2)))
                        (vscale (1 / M_2 o) S2))) /\
    dvdtDM o' = Val (zip_with vadd a1 a2).
Proof.
  intros Ho Hdyn HM2 Hbg E. pattern w'.
  match goal with
  | |- ?Q w' => enough (wp update_acceleration w (fun _ => Q) (fun _ _ => True)) as H
  end.
  { unfold wp in H. now rewrite E in H. }
  clear E w'. unfold update_acceleration.
  wp_step. wp_step. wp_clean.
  destruct (Rlt_dec 0 (M_2 o)) as [_|]; [|contradiction].
  rewrite Hdyn.
  destruct (0 <? N_DM o)%Z; repeat (wp_step; wp_clean).
  all: rewrite Hbg; wp_step.
  all: repeat match goal with
              | H : py_div _ _ = Done _ |- _ =>
                  apply py_div_Done in H as [? ->]
              end.
  all: match goal with
       | H1 : calc_acc _ _ _ (r_soft_sq1 _) _ = Done ?a1,
         H2 : calc_acc _ _ _ (r_soft_sq2 _) _ = Done ?a2,
         H3 : accDM_add _ _ = Done ?rows,
         Hs1 : weighted_sum ?ms ?a1 = Done ?S1,
         Hs2 : weighted_sum ?ms ?a2 = Done ?S2,
         Hx : arrays _ !! xDM _ = Some (M3 ?xs),
         Hx1 : arrays _ !! xBH1 _ = Some (V3 ?x1),
         Hx2 : arrays _ !! xBH2 _ = Some (V3 ?x2) |- _ =>
           assert (length a1 = length a2) as Hlen
             by (rewrite (calc_acc_length _ _ _ _ _ _ H1),
                   (calc_acc_length _ _ _ _ _ _ H2), !length_zip_with, !length_map;
                 reflexivity);
           cbn [accDM_add] in H3; unfold bcast2 in H3; rewrite Hlen, Nat.eqb_refl in H3;
           injection H3 as <-;
           eexists _, ms, xs, x1, x2, a1, a2, S1, S2; cbv zeta
       end.
  all: repeat match goal with |- _ /\ _ => split end.
  all: unfold fixed; proj_simpl; rewrite ?lookup_insert_eq; proj_simpl;
       try reflexivity; try eassumption.
Qed.

End Torque.

(** The two-body forces and the reactions to the tracers give no torque. *)
Lemma torque_cancels (m1 m2 k : R) (x1 x2 S1 S2 : vec) :
  m1 <> 0 -> m2 <> 0 ->
  vadd (vadd (vscale m1 (cross x1 (vsub (vscale k (vsub x1 x2)) (vscale (1 / m1) S1))))
             (vscale m2 (cross x2 (vsub (vscale (- (m1 / m2)) (vscale k (vsub x1 x2)))
                                        (vscale (1 / m2) S2)))))
       (vadd (cross x1 S1) (cross x2 S2)) = vzero.
Proof.
  intros H1 H2. vec_destruct. unfold cross, vadd, vsub, vscale, vzero.
  repeat (apply pair_equal_spec; split); field; auto.
Qed.

Lemma radial_compose (x0 : vec) xs ds a :
  Forall2 (fun x d => exists c, d = vscale c (vsub x x0)) xs ds ->
  Forall2 (fun d acc : vec => exists c, acc = vscale c d) ds a ->
  Forall2 (fun x acc => exists c, acc = vscale c (vsub x x0)) xs a.
Proof.
  apply Forall2_compose.
  intros x y z (c1 & ->) (c2 & ->). exists (c2 * c1). now rewrite vscale_vscale.
Qed.

Section TorqueFree.

Context {U : Units}.

(** After a force evaluation with no background field the stored
    accelerations give no torque. *)
Lemma update_acceleration_torque (w w' : world) (o : particles) :
  well_formed w o -> dynamic_BH o = true -> 0 < M_2 o ->
  background_field (self w) = None ->
  update_acceleration w = Ok tt w' ->
  torque w' = Some vzero.
Proof.
  intros Hwf Hdyn HM2 Hbg E.
  destruct (update_acceleration_forces w w' o (wf_holds _ _ Hwf) Hdyn HM2 Hbg E)
    as (o' & ms & xs & x1 & x2 & a1 & a2 & S1 & S2 & Ho' & Hfix & Harr & Hms & Hxs
        & Hx1 & Hx2 & HM1 & Hc1 & Hc2 & HS1 & HS2 & Hd1 & Hd2 & Hd3).
  destruct (well_formed_phase w o Hwf) as (q & ms0 & Hq & Hms0 & L1 & L2 & L3).
  rewrite Hms in Hms0. injection Hms0 as <-.
  pose proof (phase_of_fixed o o' w w' Hfix Harr) as Hq'. rewrite Hq in Hq'.
  apply phase_of_Some in Hq. destruct Hq as (Ex1 & _ & Ex2 & _ & Exs & _).
  rewrite Hx1 in Ex1. injection Ex1 as Ex1.
  rewrite Hx2 in Ex2. injection Ex2 as Ex2.
  rewrite Hxs in Exs. injection Exs as Exs.
  assert (M_DM o' = M_DM o /\ M_1 o' = M_1 o /\ M_2 o' = M_2 o) as (EM & EM1 & EM2).
  { unfold fixed in Hfix. injection Hfix as ? ? ? _ _ _ _ _ _ _ _. auto. }
  assert (Forall2 (fun x acc => exists c, acc = vscale c (vsub x x1)) xs a1) as R1.
  { exact (radial_compose x1 _ _ _ (unit_dx_radial xs x1)
             (calc_acc_radial _ _ _ _ _ _ Hc1)). }
  assert (Forall2 (fun x acc => exists c, acc = vscale c (vsub x x2)) xs a2) as R2.
  { exact (radial_compose x2 _ _ _ (unit_dx_radial xs x2)
             (calc_acc_radial _ _ _ _ _ _ Hc2)). }
  assert (length ms = length xs) as Lms by (rewrite Exs; congruence).
  pose proof (weighted_cross_radial x1 ms xs a1 S1 Lms R1 HS1) as T1.
  pose proof (weighted_cross_radial x2 ms xs a2 S2 Lms R2 HS2) as T2.
  assert (length a1 = length a2) as La
    by (rewrite <- (Forall2_length _ _ _ R1), <- (Forall2_length _ _ _ R2); reflexivity).
  unfold torque. unfold holds in Ho'. rewrite Ho', Hq', EM, Harr, Hms, Hd1, Hd2, Hd3.
  rewrite <- Exs, zip_cross_vadd by exact La.
  assert (length (zip_with cross xs a1) = length (zip_with cross xs a2)) as Lz
    by (rewrite !length_zip_with; lia).
  rewrite (weighted_sum_add ms _ _ _ _ Lz T1 T2).
  rewrite <- Ex1, <- Ex2, EM1, EM2. cbn [acc3_vec]. f_equal.
  apply torque_cancels; [exact HM1 | lra].
Qed.

End TorqueFree.

Lemma angular_momentum_fixed o o' w w' :
  fixed o' = fixed o -> arrays (mem w') = arrays (mem w) ->
  angular_momentum o' w' = angular_momentum o w.
Proof.
  unfold fixed, angular_momentum, phase_of. intros Hfix ->.
  injection Hfix as -> -> -> _ -> -> -> -> -> -> _. reflexivity.
Qed.

Lemma kick_angular (m1 m2 h : R) (x1 x2 v1 v2 a1 a2 Sv St : vec) :
  vadd (vadd (vscale m1 (cross x1 a1)) (vscale m2 (cross x2 a2))) St = vzero ->
  vadd (vadd (vscale m1 (cross x1 (vadd v1 (vscale h a1))))
             (vscale m2 (cross x2 (vadd v2 (vscale h a2)))))
       (vadd Sv (vscale h St)) =
  vadd (vadd (vscale m1 (cross x1 v1)) (vscale m2 (cross x2 v2))) Sv.
Proof.
  intros H.
  transitivity
    (vadd (vadd (vadd (vscale m1 (cross x1 v1)) (vscale m2 (cross x2 v2))) Sv)
          (vscale h (vadd (vadd (vscale m1 (cross x1 a1)) (vscale m2 (cross x2 a2)))
                          St))).
  - cross_solve.
  - rewrite H. cross_solve.
Qed.

Section AngularMomentum.

Context {U : Units}.

Variable o0 : particles.
Variables P0 L0 : vec.

Hypothesis o0_distinct : NoDup (arrays_of o0).
Hypothesis o0_dynamic : dynamic_BH o0 = true.
Hypothesis o0_secondary : 0 < M_2 o0.

Lemma turning_xstep c extra :
  returns_in (spinning o0 P0 L0) (xstep c extra) (turning o0 L0).
Proof.
  destruct extra; [|apply returns_in_raise].
  intros w ((Hbg & o & Hwf & Hfix & Hmom) & o' & Ho' & _ & HL).
  assert (o' = o) as -> by (destruct Hwf as [Ho _]; unfold holds in *; congruence).
  destruct (well_formed_phase w o Hwf) as (q & ms & Hq & Hms & L1 & L2 & L3).
  assert (NoDup (arrays_of o)) as Hnd
    by (rewrite (fixed_arrays_of _ _ Hfix); exact o0_distinct).
  pose proof Hfix as Hfix'. unfold fixed in Hfix'.
  injection Hfix' as _ _ _ _ _ _ _ _ _ _ Edyn.
  unfold wp. cbn [xstep].
  rewrite (xstep_body_run c w o q Ho' Hnd Hq) by congruence.
  exists o. split; [exact Ho'|]. split; [exact Hfix|].
  unfold angular_momentum in *.
  rewrite (phase_of_drifted o c q w _ _ Hnd Hq).
  cbn [mem arrays]. rewrite drifted_M_DM by exact Hnd.
  rewrite Hq, Hms in HL. rewrite Hms.
  cbn [drift ph_xDM ph_vDM ph_xBH1 ph_xBH2 ph_vBH1 ph_vBH2].
  rewrite Edyn, o0_dynamic, zip_cross_drift, !cross_drift. exact HL.
Qed.

Lemma turning_update_acceleration :
  returns_in (spinning o0 P0 L0) update_acceleration
    (fun w => turning o0 L0 w /\ torque w = Some vzero).
Proof.
  intros w ((Hbg & o & Hwf & Hfix & Hmom) & o' & Ho' & _ & HL).
  assert (o' = o) as -> by (destruct Hwf as [Ho _]; unfold holds in *; congruence).
  unfold wp. destruct (update_acceleration w) as [[] w'|] eqn:E; [|exact I].
  pose proof Hfix as Hfix'. unfold fixed in Hfix'.
  injection Hfix' as _ EM2 _ _ _ _ _ _ _ _ Edyn.
  destruct (update_acceleration_shape w w' o Ho' E)
    as (ou & _ & _ & _ & _ & Hou & Hfu & Harr & _).
  split.
  - exists ou. split; [exact Hou|]. split; [congruence|].
    rewrite <- HL. now apply angular_momentum_fixed.
  - apply (update_acceleration_torque w w' o Hwf); try assumption; congruence.
Qed.

Lemma torque_kicked o h q a1 a2 rows w :
  holds o w -> NoDup (arrays_of o) -> phase_of o w = Some q ->
  torque (mk_world
            (mk_store (kicked o h q a1 a2 rows (arrays (mem w))) (objects (mem w)))
            (self w)) = torque w.
Proof.
  intros Ho Hnd Hq. unfold torque. cbn [mem self objects arrays].
  unfold holds in Ho. rewrite Ho.
  rewrite (phase_of_kicked o h q a1 a2 rows w _ _ Hnd Hq), Hq.
  rewrite kicked_M_DM by exact Hnd.
  cbn [kick ph_xDM ph_xBH1 ph_xBH2]. reflexivity.
Qed.

Lemma turning_vstep k extra :
  returns_in (spinning_balanced o0 P0 L0) (vstep k extra)
    (fun w => turning o0 L0 w /\ torque w = Some vzero).
Proof.
  destruct extra; [|apply returns_in_raise].
  intros w (((Hbg & o & Hwf & Hfix & Hmom) & Hflux & o1 & rows & Ho1 & Hrows & Lrows)
            & (o' & Ho' & _ & HL) & Htq).
  assert (o' = o) as -> by (destruct Hwf as [Ho _]; unfold holds in *; congruence).
  assert (o1 = o) as -> by (unfold holds in *; congruence).
  destruct (well_formed_phase w o Hwf) as (q & ms & Hq & Hms & L1 & L2 & L3).
  assert (NoDup (arrays_of o)) as Hnd
    by (rewrite (fixed_arrays_of _ _ Hfix); exact o0_distinct).
  pose proof Hfix as Hfix'. unfold fixed in Hfix'.
  injection Hfix' as _ _ _ EN _ _ _ _ _ _ Edyn.
  pose proof Htq as Htq'. unfold torque in Htq'.
  unfold holds in Ho'. rewrite Ho', Hq, Hms, Hrows in Htq'.
  destruct (dvdtBH1 o) as [| |a1] eqn:Ha1; try discriminate.
  destruct (dvdtBH2 o) as [| |a2] eqn:Ha2; try discriminate.
  destruct (weighted_sum ms (zip_with cross (ph_xDM q) rows)) as [St|] eqn:HSt;
    [|discriminate].
  injection Htq' as Hzero.
  unfold wp. cbn [vstep].
  rewrite (vstep_body_run k w o q a1 a2 rows Ho' Hnd Hq) by (auto; congruence).
  split.
  - exists o. split; [exact Ho'|]. split; [exact Hfix|].
    unfold angular_momentum in *.
    rewrite (phase_of_kicked o k q a1 a2 rows w _ _ Hnd Hq).
    cbn [mem arrays]. rewrite kicked_M_DM by exact Hnd.
    rewrite Hq, Hms in HL. rewrite Hms.
    destruct (weighted_sum ms (zip_with cross (ph_xDM q) (ph_vDM q))) as [Sv|] eqn:HSv;
      [|discriminate].
    injection HL as <-.
    cbn [kick ph_xDM ph_vDM ph_xBH1 ph_xBH2 ph_vBH1 ph_vBH2].
    rewrite Edyn, o0_dynamic.
    rewrite (weighted_cross_kick ms (ph_xDM q) (ph_vDM q) rows k Sv St)
      by (try assumption; lia).
    rewrite !acc3_vec_scale. f_equal. now apply kick_angular.
  - rewrite <- Htq. now apply torque_kicked.
Qed.

Lemma spinning_xstep c extra :
  returns_in (spinning o0 P0 L0) (xstep c extra) (spinning o0 P0 L0).
Proof.
  apply returns_in_both; [|apply turning_xstep].
  eapply returns_in_weaken; [| | apply (isolated_xstep o0 P0 o0_distinct)];
    [now intros w [H _] | intros w Hw; exact Hw].
Qed.

Lemma spinning_balanced_spinning w :
  spinning_balanced o0 P0 L0 w -> spinning o0 P0 L0 w.
Proof. intros ((H & _) & H' & _). now split. Qed.

Lemma spinning_last_xstep c :
  returns_in (spinning_balanced o0 P0 L0) (xstep c []) (spinning o0 P0 L0).
Proof.
  eapply returns_in_weaken; [apply spinning_balanced_spinning | | apply spinning_xstep].
  intros w Hw; exact Hw.
Qed.

Lemma spinning_update_acceleration :
  returns_in (spinning o0 P0 L0) update_acceleration (spinning_balanced o0 P0 L0).
Proof.
  eapply returns_in_weaken; [intros w Hw; exact Hw | |
    apply (returns_in_both _ _ _ _
             (returns_in_weaken _ _ _ _ _
                (fun w (H : spinning o0 P0 L0 w) => proj1 H) (fun w H => H)
                (isolated_update_acceleration o0 P0 o0_dynamic o0_secondary))
             turning_update_acceleration)].
  intros w (Hb & Ht & Hq). split; [exact Hb|]. now split.
Qed.

Lemma spinning_balanced_vstep k extra :
  returns_in (spinning_balanced o0 P0 L0) (vstep k extra)
    (spinning_balanced o0 P0 L0).
Proof.
  eapply returns_in_weaken; [intros w Hw; exact Hw | |
    apply (returns_in_both _ _ _ _
             (returns_in_weaken _ _ _ _ _
                (fun w (H : spinning_balanced o0 P0 L0 w) => proj1 H) (fun w H => H)
                (balanced_vstep o0 P0 o0_distinct o0_dynamic k extra))
             (turning_vstep k extra))].
  intros w (Hb & Ht & Hq). split; [exact Hb|]. now split.
Qed.

(** A drift, a force evaluation and a kick, from balanced to balanced. *)
Lemma spinning_stage {B} c k (rest : M B) (Q : world -> Prop) :
  returns_in (spinning_balanced o0 P0 L0) rest Q ->
  returns_in (spinning_balanced o0 P0 L0)
    (xstep c [] ;; update_acceleration ;; vstep k [] ;; rest) Q.
Proof.
  intros Hrest.
  eapply returns_in_bind; [apply spinning_last_xstep | intros _].
  eapply returns_in_bind; [apply spinning_update_acceleration | intros _].
  eapply returns_in_bind; [apply spinning_balanced_vstep | intros _].
  exact Hrest.
Qed.

Lemma spinning_full_step dt method inds :
  returns_in (spinning o0 P0 L0) (full_step dt method inds) (spinning o0 P0 L0).
Proof.
  unfold full_step.
  destruct (String.eqb method "DKD"); [apply returns_in_raises|].
  destruct (String.eqb method "KDK").
  { eapply returns_in_bind; [apply spinning_update_acceleration | intros _].
    apply returns_in_raises. }
  destruct (String.eqb method "FR").
  { eapply returns_in_bind; [apply spinning_xstep | intros _].
    eapply returns_in_bind; [apply spinning_update_acceleration | intros _].
    eapply returns_in_bind; [apply spinning_balanced_vstep | intros _].
    do 2 apply spinning_stage. apply spinning_last_xstep. }
  destruct (String.eqb method "PEFRL").
  { eapply returns_in_bind; [apply spinning_xstep | intros _].
    eapply returns_in_bind; [apply spinning_update_acceleration | intros _].
    eapply returns_in_bind; [apply spinning_balanced_vstep | intros _].
    do 3 apply spinning_stage. apply spinning_last_xstep. }
  apply returns_in_ret.
Qed.

End AngularMomentum.

Lemma momentum_defined w o : well_formed w o -> exists P0, momentum o w = Some P0.
Proof.
  intros Hwf.
  destruct (well_formed_phase w o Hwf) as (q & ms & Hq & Hms & L1 & L2 & L3).
  unfold momentum. rewrite Hq, Hms.
  destruct (weighted_sum_Done ms (ph_vDM q)) as [s ->]; [congruence|]. eauto.
Qed.

Section AngularMomentum2.

Context {U : Units}.

Variable o0 : particles.
Variables P0 L0 : vec.

Hypothesis o0_distinct : NoDup (arrays_of o0).
Hypothesis o0_dynamic : dynamic_BH o0 = true.
Hypothesis o0_secondary : 0 < M_2 o0.

(** A statement that only reads. *)
Lemma spinning_read {A} (m : M A) :
  (forall w, final (m w) = w) ->
  returns_in (spinning o0 P0 L0) m (spinning o0 P0 L0).
Proof.
  intros Hm w Hw. unfold wp. specialize (Hm w). unfold final in Hm.
  destruct (m w); [now subst | exact I].
Qed.

Lemma spinning_set_self f :
  (forall s, p (f s) = p s /\ background_field (f s) = background_field s) ->
  returns_in (spinning o0 P0 L0) (set_self f) (spinning o0 P0 L0).
Proof.
  intros Hf. apply returns_in_both.
  - eapply returns_in_weaken; [| | apply (isolated_set_self o0 P0 f Hf)];
      [now intros w [H _] | intros w Hw; exact Hw].
  - intros w (_ & o & Ho & Hfix & HL). apply wp_set_self.
    destruct (Hf (self w)) as [Hp _].
    exists o. split; [unfold holds in *; cbn; now rewrite Hp|].
    split; [exact Hfix|]. rewrite <- HL. now apply angular_momentum_fixed.
Qed.

Ltac spin :=
  repeat lazymatch goal with
    | |- returns_in _ (mbind _ _) _ => eapply returns_in_bind; [| intros ]
    | |- returns_in _ (mret _) _ => apply returns_in_ret
    | |- returns_in _ (set_self _) _ =>
        apply spinning_set_self; intros []; split; reflexivity
    | |- returns_in _ get_self _ => apply spinning_read; reflexivity
    | |- returns_in _ get_p _ => apply spinning_read, final_get_p
    | |- returns_in _ (lift _) _ => apply spinning_read, final_lift
    | |- returns_in _ (operand _) _ => apply spinning_read, final_operand
    | |- returns_in _ (read_vec _) _ => apply spinning_read, final_read_vec
    | |- returns_in _ (if _ then raise _ else mret tt) _ =>
        apply spinning_read, final_guard
    end.

Lemma spinning_record_state i_out :
  returns_in (spinning o0 P0 L0) (record_state i_out) (spinning o0 P0 L0).
Proof. unfold record_state. spin. Qed.

Lemma spinning_adaptive_step dt method eta N_sub_max :
  returns_in (spinning o0 P0 L0) (adaptive_step dt method eta N_sub_max)
    (spinning o0 P0 L0).
Proof.
  unfold adaptive_step.
  eapply returns_in_bind; [apply spinning_read, final_get_p | intros o].
  destruct (N_DM o =? 0)%Z; [now apply spinning_full_step|].
  eapply returns_in_bind; [apply spinning_read; reflexivity | intros s].
  eapply returns_in_bind.
  { destruct (r2_min s).
    - apply returns_in_raise.
    - eapply returns_in_weaken;
        [| apply (spinning_balanced_spinning o0 P0 L0)
         | now apply spinning_update_acceleration].
      intros w Hw; exact Hw.
    - apply returns_in_ret. }
  intros _.
  eapply returns_in_bind; [apply spinning_read; reflexivity | intros s'].
  eapply returns_in_bind; [apply spinning_read, final_get_p | intros o'].
  eapply returns_in_bind; [apply spinning_read, final_operand | intros r].
  cbv zeta.
  destruct (x_ge _ _); [now apply spinning_full_step|].
  eapply returns_in_bind; [apply spinning_read, final_lift | intros N].
  eapply returns_in_bind; [apply spinning_read, final_lift | intros dt_sub].
  apply returns_in_for_loop. intros j. now apply spinning_full_step.
Qed.

Lemma spinning_run_simulation dt t_end method N_save inds eta N_sub_max :
  returns_in (spinning o0 P0 L0)
    (run_simulation None dt t_end method N_save inds eta N_sub_max)
    (spinning o0 P0 L0).
Proof.
  unfold run_simulation.
  eapply returns_in_bind; [spin | intros _].
  eapply returns_in_bind; [spin | intros q]. cbv zeta.
  do 10 (eapply returns_in_bind; [spin | intros ?]).
  eapply returns_in_bind; [| intros _; spin].
  apply returns_in_for_loop. intros it.
  eapply returns_in_bind; [apply returns_in_ret | intros _].
  eapply returns_in_bind.
  { destruct (_ =? _)%Z; [apply spinning_record_state | apply returns_in_ret]. }
  intros _.
  eapply returns_in_bind.
  { destruct (Rlt_dec eta 0);
      [now apply spinning_full_step | now apply spinning_adaptive_step]. }
  intros _. spin.
Qed.

Lemma spinning_do_call c :
  self_contained c = true ->
  returns_in (spinning o0 P0 L0) (do_call None c) (spinning o0 P0 L0).
Proof.
  intros Hc. destruct c; try discriminate; cbn [do_call].
  - now apply spinning_xstep.
  - eapply returns_in_weaken;
      [| apply (spinning_balanced_spinning o0 P0 L0)
       | now apply spinning_update_acceleration].
    intros w Hw; exact Hw.
  - now apply spinning_full_step.
  - now apply spinning_adaptive_step.
  - now apply spinning_run_simulation.
Qed.

End AngularMomentum2.

Section AngularMomentum3.

Context {U : Units}.

(** X23.  Conservation of angular momentum.  Every kernel pulls along the
    separation, so that for a binary with both black holes dynamic, a
    secondary, no background field and a particle set laid out as the
    constructor lays it out in distinct arrays: a drift, a force
    evaluation, [full_step] with any scheme, [adaptive_step] and a whole
    [run_simulation], when they return and make every force evaluation
    in a regular world (no two bodies at the same place), leave the
    total angular momentum about the origin,
    [M_1*xBH1 x vBH1 + M_2*xBH2 x vBH2 + sum_i M_DM[i]*xDM[i] x vDM[i]],
    as it was. *)
Theorem angular_momentum_conserved (w w' : world) (o : particles) (L0 : vec)
    (c : call) :
  well_formed w o -> NoDup (arrays_of o) ->
  dynamic_BH o = true -> 0 < M_2 o ->
  background_field (self w) = None ->
  angular_momentum o w = Some L0 ->
  self_contained c = true ->
  do_call_with update_acceleration_regular None c w = Ok tt w' ->
  do_call None c w = Ok tt w' /\
  exists o', well_formed w' o' /\ fixed o' = fixed o /\
             background_field (self w') = None /\
             angular_momentum o' w' = Some L0.
Proof.
  intros Hwf Hnd Hdyn HM Hbg HL Hc E.
  apply (do_call_with_refines _ update_acceleration_regular_refines) in E.
  split; [exact E|].
  destruct (momentum_defined w o Hwf) as [P0 Hmom].
  pose proof (spinning_do_call o P0 L0 Hnd Hdyn HM c Hc w) as H.
  unfold wp in H. rewrite E in H.
  destruct H as ((Hbg' & o1 & Hwf1 & Hfix1 & _) & o2 & Ho2 & _ & HL').
  - split.
    + split; [exact Hbg|]. now exists o.
    + exists o. split; [apply Hwf|]. now split.
  - assert (o2 = o1) as ->.
    { pose proof (wf_holds _ _ Hwf1) as Ho1. unfold holds in *. congruence. }
    now exists o1.
Qed.

End AngularMomentum3.

(** ** Two black holes that turn about each other *)

Lemma same_on_bind {A B} (P Q R : world -> Prop) (m1 m2 : M A) (f1 f2 : A -> M B) :
  same_on P m1 m2 Q -> (forall a, same_on Q (f1 a) (f2 a) R) ->
  same_on P (m1 ≫= f1) (m2 ≫= f2) R.
Proof.
  intros Hm Hf w Hw. destruct (Hm w Hw) as [E H]. split.
  - unfold mbind, M_bind. rewrite E. unfold wp in H.
    destruct (m2 w) as [a w1|]; [|reflexivity]. apply (Hf a w1 H).
  - apply wp_bind. eapply wp_mono; [exact H | | auto].
    intros a w1 H1. apply (Hf a w1 H1).
Qed.

Lemma same_on_refl {A} (P Q : world -> Prop) (m : M A) :
  returns_in P m Q -> same_on P m m Q.
Proof. intros H w Hw. split; [reflexivity | now apply H]. Qed.

Lemma preserved_returns_in {A} (P : world -> Prop) (m : M A) :
  preserved P m -> returns_in P m P.
Proof. intros H w Hw. eapply wp_mono; [apply H, Hw | |]; cbv beta; auto. Qed.

Lemma norm_sq_zero a : norm_sq a = 0 -> a = vzero.
Proof.
  destruct a as [[a1 a2] a3]. unfold norm_sq, vzero. intros H.
  assert (a1 = 0) by nra. assert (a2 = 0) by nra. assert (a3 = 0) by nra.
  now subst.
Qed.

Lemma vsub_zero a b : vsub a b = vzero -> a = b.
Proof.
  destruct a as [[a1 a2] a3], b as [[b1 b2] b3]. unfold vsub, vzero.
  intros [= H1 H2 H3]. f_equal; [f_equal|]; lra.
Qed.

(** Two bodies at the same place turn about the origin as one body with
    their total momentum. *)
Lemma coincident_angular (m1 m2 : R) (x v1 v2 : vec) :
  vadd (vadd (vscale m1 v1) (vscale m2 v2)) vzero = vzero ->
  vadd (vadd (vscale m1 (cross x v1)) (vscale m2 (cross x v2))) vzero = vzero.
Proof.
  destruct x as [[x1 x2] x3], v1 as [[a1 a2] a3], v2 as [[b1 b2] b3].
  unfold cross, vadd, vscale, vzero. intros [= H1 H2 H3].
  assert (m1 * a1 + m2 * b1 = 0) as E1 by lra.
  assert (m1 * a2 + m2 * b2 = 0) as E2 by lra.
  assert (m1 * a3 + m2 * b3 = 0) as E3 by lra.
  f_equal; [f_equal|].
  - replace (m1 * (x2 * a3 - x3 * a2) + m2 * (x2 * b3 - x3 * b2) + 0)
      with (x2 * (m1 * a3 + m2 * b3) - x3 * (m1 * a2 + m2 * b2)) by ring.
    rewrite E2, E3. ring.
  - replace (m1 * (x3 * a1 - x1 * a3) + m2 * (x3 * b1 - x1 * b3) + 0)
      with (x3 * (m1 * a1 + m2 * b1) - x1 * (m1 * a3 + m2 * b3)) by ring.
    rewrite E1, E3. ring.
  - replace (m1 * (x1 * a2 - x2 * a1) + m2 * (x1 * b2 - x2 * b1) + 0)
      with (x1 * (m1 * a2 + m2 * b2) - x2 * (m1 * a1 + m2 * b1)) by ring.
    rewrite E1, E2. ring.
Qed.

Section Orbit.

Context {U : Units}.

Variable o0 : particles.
Variable L0 : vec.
Variable s0 : simulator.

Hypothesis o0_distinct : NoDup (arrays_of o0).
Hypothesis o0_dynamic : dynamic_BH o0 = true.
Hypothesis o0_secondary : 0 < M_2 o0.
Hypothesis o0_pair : N_DM o0 = 0%Z.
Hypothesis L0_turns : L0 <> vzero.
Hypothesis s0_soft1 : 0 <= r_soft_sq1 s0.
Hypothesis s0_soft2 : 0 <= r_soft_sq2 s0.

(** Two black holes that turn about each other never meet. *)
Lemma orbiting_regular w :
  orbiting o0 L0 s0 w -> exists o, holds o w /\ regular w o.
Proof.
  intros (((Hbg & o & Hwf & Hfix & Hmom) & o' & Ho' & _ & HL) & Hst).
  assert (o' = o) as -> by (destruct Hwf as [Ho _]; unfold holds in *; congruence).
  exists o. split; [exact Ho'|].
  unfold static in Hst. injection Hst as _ Er2 Er1 _ _.
  split; [now rewrite Er1|]. split; [now rewrite Er2|].
  destruct (well_formed_phase w o Hwf) as (q & ms & Hq & Hms & L1 & L2 & L3).
  assert (N_DM o = 0%Z) as EN.
  { unfold fixed in Hfix. injection Hfix as _ _ _ EN _ _ _ _ _ _ _. congruence. }
  rewrite EN in L1, L2, L3. cbn in L1, L2, L3.
  destruct ms; [|discriminate].
  unfold momentum in Hmom. unfold angular_momentum in HL.
  rewrite Hq, Hms in Hmom, HL.
  destruct q as [x1 v1 x2 v2 xs vs]. cbn in L2, L3, Hmom, HL.
  destruct xs; [|discriminate]. destruct vs; [|discriminate].
  cbn in Hmom, HL. injection Hmom as Hmom. injection HL as HL.
  apply phase_of_Some in Hq. cbn in Hq.
  destruct Hq as (Hx1 & _ & Hx2 & _ & Hxs & _).
  exists x1, x2, []. split; [exact Hx1|]. split; [exact Hx2|]. split; [exact Hxs|].
  split; [|constructor].
  intros Hz. apply norm_sq_zero, vsub_zero in Hz. subst x2.
  apply L0_turns. rewrite <- HL. now apply coincident_angular.
Qed.

Lemma orbiting_balanced_orbiting w :
  orbiting_balanced o0 L0 s0 w -> orbiting o0 L0 s0 w.
Proof.
  intros [H Hs]. split; [|exact Hs].
  now apply (spinning_balanced_spinning o0 vzero L0).
Qed.

Lemma static_kept {A} (m : M A) :
  preserved (fun w => static (self w) = static s0) m ->
  returns_in (fun w => static (self w) = static s0) m
    (fun w => static (self w) = static s0).
Proof. apply preserved_returns_in. Qed.

Lemma orbiting_xstep c extra :
  returns_in (orbiting o0 L0 s0) (xstep c extra) (orbiting o0 L0 s0).
Proof.
  destruct (closed_static s0) as (H1 & H2 & H3).
  apply returns_in_and.
  - now apply spinning_xstep.
  - apply static_kept. now apply preserved_xstep.
Qed.

Lemma orbiting_update_acceleration :
  returns_in (orbiting o0 L0 s0) update_acceleration (orbiting_balanced o0 L0 s0).
Proof.
  destruct (closed_static s0) as (H1 & H2 & H3).
  apply returns_in_and.
  - now apply spinning_update_acceleration.
  - apply static_kept. now apply preserved_update_acceleration.
Qed.

Lemma orbiting_balanced_vstep k extra :
  returns_in (orbiting_balanced o0 L0 s0) (vstep k extra) (orbiting_balanced o0 L0 s0).
Proof.
  destruct (closed_static s0) as (H1 & H2 & H3).
  apply returns_in_and.
  - now apply spinning_balanced_vstep.
  - apply static_kept. now apply preserved_vstep.
Qed.

Lemma orbiting_last_xstep c :
  returns_in (orbiting_balanced o0 L0 s0) (xstep c []) (orbiting o0 L0 s0).
Proof.
  eapply returns_in_weaken; [apply orbiting_balanced_orbiting | | apply orbiting_xstep].
  intros w Hw; exact Hw.
Qed.

(** Where the black holes turn about each other the regular force
    evaluation is the force evaluation. *)
Lemma orbiting_force :
  same_on (orbiting o0 L0 s0) update_acceleration_regular update_acceleration
    (orbiting_balanced o0 L0 s0).
Proof.
  intros w Hw. split; [|now apply orbiting_update_acceleration].
  destruct (orbiting_regular w Hw) as (o & Ho & Hr).
  now apply (update_acceleration_regular_eq w o).
Qed.

(** A drift, a force evaluation and a kick, from balanced to balanced. *)
Lemma orbiting_stage c k (rest1 rest2 : M unit) (Q : world -> Prop) :
  same_on (orbiting_balanced o0 L0 s0) rest1 rest2 Q ->
  same_on (orbiting_balanced o0 L0 s0)
    (xstep c [] ;; update_acceleration_regular ;; vstep k [] ;; rest1)
    (xstep c [] ;; update_acceleration ;; vstep k [] ;; rest2) Q.
Proof.
  intros Hrest.
  eapply same_on_bind; [apply same_on_refl, orbiting_last_xstep | intros _].
  eapply same_on_bind; [apply orbiting_force | intros _].
  eapply same_on_bind; [apply same_on_refl, orbiting_balanced_vstep | intros _].
  exact Hrest.
Qed.

(** A step of the schemes "FR" and "PEFRL" of two black holes that turn
    about each other meets no coincidence. *)
Lemma orbiting_full_step dt method inds :
  method = "FR"%string \/ method = "PEFRL"%string ->
  same_on (orbiting o0 L0 s0)
    (full_step_with update_acceleration_regular dt method inds)
    (full_step dt method inds) (orbiting o0 L0 s0).
Proof.
  intros [-> | ->].
  - change (same_on (orbiting o0 L0 s0)
      (xstep (theta * dt / 2) [];; update_acceleration_regular;;
       vstep (theta * dt) [];;
       xstep ((1 - theta) * dt / 2) [];; update_acceleration_regular;;
       vstep ((1 - 2 * theta) * dt) [];; xstep ((1 - theta) * dt / 2) [];;
       update_acceleration_regular;; vstep (theta * dt) [];;
       xstep (theta * dt / 2) [])
      (xstep (theta * dt / 2) [];; update_acceleration;; vstep (theta * dt) [];;
       xstep ((1 - theta) * dt / 2) [];; update_acceleration;;
       vstep ((1 - 2 * theta) * dt) [];; xstep ((1 - theta) * dt / 2) [];;
       update_acceleration;; vstep (theta * dt) [];; xstep (theta * dt / 2) [])
      (orbiting o0 L0 s0)).
    eapply same_on_bind; [apply same_on_refl, orbiting_xstep | intros _].
    eapply same_on_bind; [apply orbiting_force | intros _].
    eapply same_on_bind; [apply same_on_refl, orbiting_balanced_vstep | intros _].
    do 2 apply orbiting_stage. apply same_on_refl, orbiting_last_xstep.
  - change (same_on (orbiting o0 L0 s0)
      (xstep (xi * dt) [];; update_acceleration_regular;;
       vstep ((1 - 2 * lam) * dt / 2) [];;
       xstep (chi * dt) [];; update_acceleration_regular;; vstep (lam * dt) [];;
       xstep ((1 - 2 * (chi + xi)) * dt) [];; update_acceleration_regular;;
       vstep (lam * dt) [];; xstep (chi * dt) [];; update_acceleration_regular;;
       vstep ((1 - 2 * lam) * dt / 2) [];; xstep (xi * dt) [])
      (xstep (xi * dt) [];; update_acceleration;; vstep ((1 - 2 * lam) * dt / 2) [];;
       xstep (chi * dt) [];; update_acceleration;; vstep (lam * dt) [];;
       xstep ((1 - 2 * (chi + xi)) * dt) [];; update_acceleration;;
       vstep (lam * dt) [];; xstep (chi * dt) [];; update_acceleration;;
       vstep ((1 - 2 * lam) * dt / 2) [];; xstep (xi * dt) [])
      (orbiting o0 L0 s0)).
    eapply same_on_bind; [apply same_on_refl, orbiting_xstep | intros _].
    eapply same_on_bind; [apply orbiting_force | intros _].
    eapply same_on_bind; [apply same_on_refl, orbiting_balanced_vstep | intros _].
    do 3 apply orbiting_stage. apply same_on_refl, orbiting_last_xstep.
Qed.

End Orbit.

(** ** Translations *)

Lemma vsub_shift d x y : vsub (vadd x d) (vadd y d) = vsub x y.
Proof. cross_solve. Qed.

Lemma offsets_shift d xs x0 :
  offsets (map (fun x => vadd x d) xs) (vadd x0 d) = offsets xs x0.
Proof.
  unfold offsets. rewrite map_map. apply map_ext. intros x. apply vsub_shift.
Qed.

Lemma dist_sq_shift d xs x0 :
  dist_sq (map (fun x => vadd x d) xs) (vadd x0 d) = dist_sq xs x0.
Proof. unfold dist_sq. now rewrite offsets_shift. Qed.

Lemma unit_dx_shift d xs x0 :
  unit_dx (map (fun x => vadd x d) xs) (vadd x0 d) = unit_dx xs x0.
Proof. unfold unit_dx. now rewrite offsets_shift, dist_sq_shift. Qed.

Section Translation.

Context {U : Units}.

(** X24.  The forces are invariant under translations.  For a binary with
    both black holes dynamic, a secondary and no background field, two
    force evaluations that return, on the same masses and settings and on
    positions that differ by one and the same displacement [d] of the
    two black holes and of every tracer, store the same three
    accelerations: only the separations enter. *)
Theorem forces_translation_invariant (wa wb wa' wb' : world) (oa ob : particles)
    (d : vec) (ms : list R) (xs : list vec) (x1 x2 : vec) :
  holds oa wa -> holds ob wb ->
  (M_1 ob, M_2 ob, dynamic_BH ob) = (M_1 oa, M_2 oa, dynamic_BH oa) ->
  dynamic_BH oa = true -> 0 < M_2 oa ->
  static (self wa) = static (self wb) ->
  background_field (self wa) = None -> background_field (self wb) = None ->
  arrays (mem wa) !! M_DM oa = Some (A1 ms) ->
  arrays (mem wb) !! M_DM ob = Some (A1 ms) ->
  arrays (mem wa) !! xDM oa = Some (M3 xs) ->
  arrays (mem wb) !! xDM ob = Some (M3 (map (fun x => vadd x d) xs)) ->
  arrays (mem wa) !! xBH1 oa = Some (V3 x1) ->
  arrays (mem wb) !! xBH1 ob = Some (V3 (vadd x1 d)) ->
  arrays (mem wa) !! xBH2 oa = Some (V3 x2) ->
  arrays (mem wb) !! xBH2 ob = Some (V3 (vadd x2 d)) ->
  update_acceleration wa = Ok tt wa' ->
  update_acceleration wb = Ok tt wb' ->
  exists oa' ob',
    holds oa' wa' /\ holds ob' wb' /\
    (dvdtBH1 ob', dvdtBH2 ob', dvdtDM ob') = (dvdtBH1 oa', dvdtBH2 oa', dvdtDM oa').
Proof.
  intros Ha Hb Hsame Hdyn HM2 Hst Hbga Hbgb Hma Hmb Hxa Hxb H1a H1b H2a H2b Ea Eb.
  injection Hsame as EM1 EM2 Edyn.
  destruct (update_acceleration_forces wa wa' oa Ha Hdyn HM2 Hbga Ea)
    as (oa' & msa & xsa & x1a & x2a & a1 & a2 & S1 & S2 & Hoa' & _ & _ & Hma' & Hxa'
        & H1a' & H2a' & _ & Hc1 & Hc2 & HS1 & HS2 & Hd1 & Hd2 & Hd3).
  destruct (update_acceleration_forces wb wb' ob Hb)
    as (ob' & msb & xsb & x1b & x2b & b1 & b2 & T1 & T2 & Hob' & _ & _ & Hmb' & Hxb'
        & H1b' & H2b' & _ & Kc1 & Kc2 & KS1 & KS2 & Kd1 & Kd2 & Kd3);
    [congruence | rewrite EM2; exact HM2 | exact Hbgb | exact Eb |].
  rewrite Hma in Hma'. injection Hma' as <-.
  rewrite Hxa in Hxa'. injection Hxa' as <-.
  rewrite H1a in H1a'. injection H1a' as <-.
  rewrite H2a in H2a'. injection H2a' as <-.
  rewrite Hmb in Hmb'. injection Hmb' as <-.
  rewrite Hxb in Hxb'. injection Hxb' as <-.
  rewrite H1b in H1b'. injection H1b' as <-.
  rewrite H2b in H2b'. injection H2b' as <-.
  unfold static in Hst. injection Hst as _ Er2 Er1 Esm Esm1.
  rewrite unit_dx_shift, dist_sq_shift, EM1, <- Er1, <- Esm1, Hc1 in Kc1.
  rewrite unit_dx_shift, dist_sq_shift, EM2, <- Er2, <- Esm, Hc2 in Kc2.
  injection Kc1 as <-. injection Kc2 as <-.
  rewrite HS1 in KS1. injection KS1 as <-.
  rewrite HS2 in KS2. injection KS2 as <-.
  exists oa', ob'. split; [exact Hoa'|]. split; [exact Hob'|].
  rewrite Hd1, Hd2, Hd3, Kd1, Kd2, Kd3, vsub_shift, EM1, EM2. reflexivity.
Qed.

End Translation.

(** * The further statements on examples *)

Lemma ex_distinct dynamic : NoDup (arrays_of (ex_particles dynamic)).
Proof.
  unfold arrays_of. cbn.
  repeat (apply NoDup_cons; split;
          [rewrite ?elem_of_cons, elem_of_nil; intuition discriminate|]).
  apply NoDup_nil_2.
Qed.

Ltac ex_wf :=
  split;
    [ reflexivity | simpl; lia | eexists; split; reflexivity
    | eexists; reflexivity | eexists; reflexivity | eexists; reflexivity
    | eexists; reflexivity | eexists; split; reflexivity
    | eexists; split; reflexivity ].

Lemma ex_bg_well_formed : well_formed ex_world_bg (ex_particles true).
Proof. ex_wf. Qed.

Lemma ex_fast_well_formed : well_formed ex_world_fast (ex_particles true).
Proof. ex_wf. Qed.

Lemma ex_single_well_formed : well_formed ex_world_single ex_single.
Proof. ex_wf. Qed.

(** At [r_sq = 4], outside [r_soft_sq = 1], the three kernels are Newton's. *)
Lemma kernels_unsoftened_outside_witness :
  acc_uniform (U := unit_G) 1 1 (1, 0, 0) 4 = acc_newton (U := unit_G) 1 (1, 0, 0) 4 /\
  acc_uniform_old (U := unit_G) 1 1 (1, 0, 0) 4 = acc_newton (U := unit_G) 1 (1, 0, 0) 4 /\
  acc_empty_shell (U := unit_G) 1 1 (1, 0, 0) 4 = acc_newton (U := unit_G) 1 (1, 0, 0) 4.
Proof.
  destruct (kernels_unsoftened_outside (U := unit_G) 1 1 (1, 0, 0) 4)
    as (H1 & H2 & H3 & _); [lra|].
  exact (conj H1 (conj H2 H3)).
Defined.

(** At [r_sq = 1], inside [r_soft_sq = 4]. *)
Lemma kernels_inside_witness :
  acc_uniform (U := unit_G) 1 4 (1, 0, 0) 1 =
    vscale (- @G_N unit_G * 1 * sqrt (1 / 4) / 4) (1, 0, 0) /\
  acc_empty_shell (U := unit_G) 1 4 (1, 0, 0) 1 = vzero.
Proof.
  destruct (kernels_inside (U := unit_G) 1 4 (1, 0, 0) 1) as (H1 & _ & H2); [lra|].
  split; [exact H1 | apply H2; lra].
Defined.

(** The kernel "uniform" at the distance 2, unsoftened. *)
Lemma calc_acc_attractive_witness :
  Forall2 (fun d acc => exists c, c <= 0 /\ acc = vscale c d)
    [(1, 0, 0)] [acc_uniform (U := unit_G) 1 0 (1, 0, 0) 4].
Proof.
  apply (calc_acc_attractive (U := unit_G) 1 0 "uniform" [(1, 0, 0)] [4]).
  - lra.
  - lra.
  - repeat constructor. lra.
  - reflexivity.
Defined.

(** The kernel "plummer" at the distance zero, with [r_soft_sq = 1]. *)
Lemma softening_caps_acceleration_witness :
  pulls_at_most (@G_N unit_G * 1 / 1) (1, 0, 0)
    (acc_plummer (U := unit_G) 1 1 (1, 0, 0) 0).
Proof.
  destruct (softening_caps_acceleration (U := unit_G) 1 1 (1, 0, 0) 0)
    as (H & _); [lra | lra | lra | exact H].
Defined.

(** The name "gaussian" is refused. *)
Lemma calc_acc_names_witness :
  calc_acc (U := unit_G) 1 [(1, 0, 0)] [4] 1 "gaussian" = Fail ValueError.
Proof.
  destruct (calc_acc_names (U := unit_G) 1 1 "gaussian" [(1, 0, 0)] [4])
    as (_ & H & _); [reflexivity|].
  exact (H unknown_gaussian).
Defined.

(** On the example the force evaluation returns and stores both distances. *)
Lemma closest_tracer_witness :
  exists w' m1 m2,
    update_acceleration (U := unit_G) (ex_world true "empty_shell") = Ok tt w' /\
    r1_min (self w') = Val m1 /\ r2_min (self w') = Val m2.
Proof.
  destruct (update_acceleration_returns (U := unit_G)
              (ex_world true "empty_shell") (ex_particles true))
    as [w' Hw'].
  - apply ex_well_formed.
  - cbn. lra.
  - cbn. lra.
  - apply known_uniform.
  - intros _. apply known_empty_shell.
  - destruct (closest_tracer (U := unit_G) (ex_world true "empty_shell") w'
                (ex_particles true)) as (H & _); [reflexivity | exact Hw' |].
    destruct H as (xs & x1 & m1 & _ & _ & Hm1 & _ & _ & H2); [cbn; lia|].
    destruct H2 as (x2 & m2 & _ & Hm2 & _); [cbn; lra|].
    now exists w', m1, m2.
Defined.

(** The constructor on the example, with [r_soft_sq2 = 2] and the default
    [r_soft_sq1 = -1]. *)
Lemma simulator_init_copies_witness :
  exists w0 o',
    simulator_init 1%positive 2 (-1) "uniform" (ex_store true) = Done w0 /\
    holds o' w0 /\ NoDup (arrays_of o') /\ r_soft_sq1 (self w0) = 2.
Proof.
  destruct (simulator_init_copies (ex_store true) 1%positive (ex_particles true)
              2 (-1) "uniform")
    as (w0 & o' & Hinit & Ho' & _ & _ & _ & _ & Hnd & _ & Hr1 & _).
  - reflexivity.
  - intros k Hk. unfold arrays_of in Hk. cbn in Hk.
    rewrite ?elem_of_cons, elem_of_nil in Hk.
    destruct Hk as [->|[->|[->|[->|[->|[->|[->|[]]]]]]]]; eexists; reflexivity.
  - exists w0, o'. split; [exact Hinit|]. split; [exact Ho'|].
    split; [apply Hnd, ex_distinct|].
    rewrite Hr1. destruct (Rlt_dec (-1) 0); [reflexivity | lra].
Defined.

(** Two drifts of the example, of 1 and of 2, are a drift of 3. *)
Lemma xstep_composes_witness :
  (xstep 1 [] ;; xstep 2 []) (ex_world true "empty_shell") =
  xstep (1 + 2) [] (ex_world true "empty_shell").
Proof.
  destruct (xstep_composes (ex_world true "empty_shell") (ex_particles true)
              (mk_phase (0, 0, 0) (0, 0, 0) (1, 0, 0) (0, 1, 0) [(2, 0, 0)] [(0, 0, 0)])
              1 2) as (H & _).
  - reflexivity.
  - apply ex_distinct.
  - reflexivity.
  - reflexivity.
  - exact H.
Defined.

(** In the example with a background field the three bodies are apart. *)
Lemma ex_bg_regular : regular ex_world_bg (ex_particles true).
Proof.
  split; [cbn; lra|]. split; [cbn; lra|].
  exists (0, 0, 0), (1, 0, 0), [(2, 0, 0)].
  split; [reflexivity|]. split; [reflexivity|]. split; [reflexivity|].
  split; [cbn; lra|].
  repeat constructor; cbn; lra.
Qed.

(** The example in a uniform field along the third axis. *)
Lemma background_field_total_force_witness :
  exists w' F,
    update_acceleration (U := unit_G) ex_world_bg = Ok tt w' /\
    momentum_flux w' =
      Some (vadd (vadd (vscale 1000 (0, 0, 1)) (vscale 1 (0, 0, 1))) F).
Proof.
  destruct (update_acceleration_returns (U := unit_G) ex_world_bg (ex_particles true))
    as [w' Hw'].
  - apply ex_bg_well_formed.
  - cbn. lra.
  - cbn. lra.
  - apply known_uniform.
  - intros _. apply known_empty_shell.
  - destruct (background_field_total_force (U := unit_G) ex_world_bg w'
                (ex_particles true) (fun _ => (0, 0, 1)))
      as (ms & xs & x1 & x2 & F & _ & _ & _ & _ & _ & HF).
    + reflexivity.
    + reflexivity.
    + cbn. lra.
    + reflexivity.
    + apply ex_bg_regular.
    + exact Hw'.
    + exists w', F. split; [exact Hw' | exact HF].
Defined.

(** The two black holes that turn about each other. *)
Lemma ex_pair_well_formed : well_formed ex_world_pair ex_pair.
Proof. ex_wf. Qed.

Lemma ex_pair_distinct : NoDup (arrays_of ex_pair).
Proof.
  unfold arrays_of. cbn.
  repeat (apply NoDup_cons; split;
          [rewrite ?elem_of_cons, elem_of_nil; intuition discriminate|]).
  apply NoDup_nil_2.
Qed.

Lemma ex_pair_steppable : steppable ex_pair ex_world_pair.
Proof.
  split; [exists ex_pair; split; [apply ex_pair_well_formed | reflexivity]|].
  split; [cbn; lra|]. split; [cbn; lra|].
  split; [apply known_uniform | intros _; apply known_empty_shell].
Qed.

Lemma ex_pair_momentum : momentum ex_pair ex_world_pair = Some vzero.
Proof.
  transitivity (Some (vadd (vadd (vscale 1 (0, -1, 0)) (vscale 1 (0, 1, 0)))
                           (vsum []))); [reflexivity|].
  unfold vadd, vscale, vsum, vzero. cbn [foldr].
  f_equal. f_equal; [f_equal|]; lra.
Qed.

Lemma ex_pair_moment : moment ex_pair ex_world_pair = Some (1, 0, 0).
Proof.
  transitivity (Some (vadd (vadd (vscale 1 (0, 0, 0)) (vscale 1 (1, 0, 0)))
                           (vsum []))); [reflexivity|].
  unfold vadd, vscale, vsum, vzero. cbn [foldr].
  f_equal. f_equal; [f_equal|]; lra.
Qed.

Lemma ex_pair_angular_momentum :
  angular_momentum ex_pair ex_world_pair = Some (0, 0, 1).
Proof.
  transitivity (Some (vadd (vadd (vscale 1 (cross (0, 0, 0) (0, -1, 0)))
                                 (vscale 1 (cross (1, 0, 0) (0, 1, 0))))
                           (vsum []))); [reflexivity|].
  unfold cross, vadd, vscale, vsum, vzero. cbn [foldr].
  f_equal. f_equal; [f_equal|]; lra.
Qed.

(** Their total momentum is zero and their angular momentum is not. *)
Lemma ex_pair_orbiting :
  orbiting ex_pair (0, 0, 1) (ex_simulator "empty_shell") ex_world_pair.
Proof.
  split; [|reflexivity]. split.
  - split; [reflexivity|]. exists ex_pair.
    split; [apply ex_pair_well_formed|]. split; [reflexivity|].
    apply ex_pair_momentum.
  - exists ex_pair. split; [reflexivity|]. split; [reflexivity|].
    apply ex_pair_angular_momentum.
Qed.

(** A step of the two black holes meets no coincidence: it returns, and
    with the regular force evaluation it returns the same. *)
Lemma ex_pair_full_step dt method w :
  method = "FR"%string \/ method = "PEFRL"%string ->
  steppable ex_pair w ->
  orbiting ex_pair (0, 0, 1) (ex_simulator "empty_shell") w ->
  exists w',
    full_step_with (update_acceleration_regular (U := unit_G)) dt method None w =
      Ok tt w' /\
    full_step (U := unit_G) dt method None w = Ok tt w' /\
    steppable ex_pair w' /\
    orbiting ex_pair (0, 0, 1) (ex_simulator "empty_shell") w'.
Proof.
  intros Hm Hs Ho.
  destruct (full_step_runs (U := unit_G) ex_pair ex_pair_distinct
              dt method None Hm w Hs) as ([] & w' & E & Hs').
  assert (0 < M_2 ex_pair) as HM by (cbn; lra).
  assert ((0, 0, 1) <> vzero) as HL by (unfold vzero; intros [= H]; lra).
  destruct (orbiting_full_step (U := unit_G) ex_pair (0, 0, 1)
              (ex_simulator "empty_shell") ex_pair_distinct eq_refl HM eq_refl HL
              ltac:(cbn; lra) ltac:(cbn; lra) dt method None Hm w Ho) as [Eq Hw].
  exists w'. unfold wp in Hw. rewrite E in Hw.
  split; [now rewrite Eq|]. auto.
Qed.

(** A step "PEFRL" of the two black holes, every force evaluation of
    which is regular, keeps their momentum. *)
Lemma momentum_conserved_witness :
  exists w' o',
    full_step_with (update_acceleration_regular (U := unit_G)) 1 "PEFRL" None
      ex_world_pair = Ok tt w' /\
    full_step (U := unit_G) 1 "PEFRL" None ex_world_pair = Ok tt w' /\
    momentum o' w' = Some vzero.
Proof.
  destruct (ex_pair_full_step 1 "PEFRL" ex_world_pair (or_intror eq_refl)
              ex_pair_steppable ex_pair_orbiting) as (w' & Eg & E & _).
  assert (0 < M_2 ex_pair) as HM by (cbn; lra).
  destruct (momentum_conserved (U := unit_G) ex_world_pair w'
              ex_pair vzero (FullStep 1 "PEFRL" None)
              ex_pair_well_formed ex_pair_distinct
              eq_refl HM eq_refl ex_pair_momentum eq_refl Eg)
    as (_ & o' & _ & _ & _ & Hmom).
  exists w', o'. split; [exact Eg|]. split; [exact E | exact Hmom].
Defined.

(** A step "FR" of size 1 of the two black holes, whose total momentum
    is zero: the mass-weighted position stays where it was. *)
Lemma centre_of_mass_moves_witness :
  exists w' o',
    full_step_with (update_acceleration_regular (U := unit_G)) 1 "FR" None
      ex_world_pair = Ok tt w' /\
    full_step (U := unit_G) 1 "FR" None ex_world_pair = Ok tt w' /\
    moment o' w' = Some (vadd (1, 0, 0) (vscale 1 vzero)).
Proof.
  destruct (ex_pair_full_step 1 "FR" ex_world_pair (or_introl eq_refl)
              ex_pair_steppable ex_pair_orbiting) as (w' & Eg & E & _).
  assert (0 < M_2 ex_pair) as HM by (cbn; lra).
  destruct (centre_of_mass_moves (U := unit_G) ex_world_pair w'
              ex_pair vzero (1, 0, 0) 1 "FR" None
              ex_pair_well_formed ex_pair_distinct
              eq_refl HM eq_refl ex_pair_momentum ex_pair_moment (or_introl eq_refl) Eg)
    as (_ & o' & _ & _ & _ & Hx).
  exists w', o'. split; [exact Eg|]. split; [exact E | exact Hx].
Defined.

(** A step "PEFRL" of the two black holes, and the step back. *)
Lemma full_step_reversible_witness :
  exists w1 w2,
    full_step_with (update_acceleration_regular (U := unit_G)) 1 "PEFRL" None
      ex_world_pair = Ok tt w1 /\
    full_step_with (update_acceleration_regular (U := unit_G)) (- 1) "PEFRL" None
      w1 = Ok tt w2 /\
    arrays (mem w2) = arrays (mem ex_world_pair).
Proof.
  destruct (ex_pair_full_step 1 "PEFRL" ex_world_pair (or_intror eq_refl)
              ex_pair_steppable ex_pair_orbiting) as (w1 & Eg1 & E1 & Hs1 & Ho1).
  destruct (ex_pair_full_step (- 1) "PEFRL" w1 (or_intror eq_refl) Hs1 Ho1)
    as (w2 & Eg2 & E2 & _).
  exists w1, w2. split; [exact Eg1|]. split; [exact Eg2|].
  apply (full_step_reversible (U := unit_G) 1 "PEFRL" None
           ex_world_pair w1 w2 ex_pair ex_pair_well_formed ex_pair_distinct Eg1 Eg2).
Defined.

(** A step "PEFRL" of the example returns. *)
Lemma full_step_returns_witness :
  exists w' o',
    full_step (U := unit_G) 1 "PEFRL" None (ex_world true "empty_shell") = Ok tt w' /\
    well_formed w' o'.
Proof.
  destruct (full_step_returns (U := unit_G) (ex_world true "empty_shell")
              (ex_particles true) 1 "PEFRL" None)
    as (w' & o' & E & Hwf & _).
  - apply ex_well_formed.
  - apply ex_distinct.
  - cbn. lra.
  - cbn. lra.
  - apply known_uniform.
  - intros _. apply known_empty_shell.
  - now right.
  - now exists w', o'.
Defined.

(** The example and the example with other velocities get the same
    accelerations. *)
Lemma forces_depend_on_positions_witness :
  exists wa' wb' oa' ob',
    update_acceleration (U := unit_G) (ex_world true "empty_shell") = Ok tt wa' /\
    update_acceleration (U := unit_G) ex_world_fast = Ok tt wb' /\
    holds oa' wa' /\ holds ob' wb' /\
    (dvdtBH1 oa', dvdtBH2 oa', dvdtDM oa') = (dvdtBH1 ob', dvdtBH2 ob', dvdtDM ob').
Proof.
  destruct (update_acceleration_returns (U := unit_G)
              (ex_world true "empty_shell") (ex_particles true))
    as [wa' Ea];
    [apply ex_well_formed | cbn; lra | cbn; lra | apply known_uniform
    | intros _; apply known_empty_shell |].
  destruct (update_acceleration_returns (U := unit_G) ex_world_fast (ex_particles true))
    as [wb' Eb];
    [apply ex_fast_well_formed | cbn; lra | cbn; lra | apply known_uniform
    | intros _; apply known_empty_shell |].
  destruct (forces_depend_on_positions (U := unit_G)
              (ex_world true "empty_shell") ex_world_fast wa' wb'
              (ex_particles true) (ex_particles true))
    as (oa' & ob' & a1 & a2 & rows & Ha & Hb & Ha' & Hb'); try reflexivity.
  - exact Ea.
  - exact Eb.
  - exists wa', wb', oa', ob'. rewrite Ha', Hb'. auto.
Defined.

(** Before any force evaluation, [adaptive_step] raises [AttributeError]. *)
Lemma adaptive_step_r2_min_witness :
  adaptive_step (U := unit_G) 1 "PEFRL" 1 100 ex_world_fresh =
  Raise AttributeError ex_world_fresh.
Proof.
  destruct (adaptive_step_r2_min (U := unit_G) ex_world_fresh (ex_particles true)
              1 "PEFRL" 1 100) as (_ & H & _).
  - reflexivity.
  - apply H; [discriminate | reflexivity].
Defined.

(** With [eta = 0] the optimal step is zero. *)
Lemma adaptive_step_degenerate_witness :
  adaptive_step (U := unit_G) 1 "PEFRL" 0 100 (ex_world true "empty_shell") =
  Raise OverflowError (ex_world true "empty_shell").
Proof.
  destruct (adaptive_step_degenerate (U := unit_G) (ex_world true "empty_shell")
              (ex_particles true) 1 1 0 "PEFRL" 100) as (H & _).
  - reflexivity.
  - discriminate.
  - reflexivity.
  - cbn. lra.
  - lra.
  - apply H; [ring | lra].
Defined.

(** A single black hole with one tracer. *)
Lemma single_black_hole_forces_witness :
  exists w' o' a1,
    update_acceleration (U := unit_G) ex_world_single = Ok tt w' /\
    holds o' w' /\
    dvdtDM o' = Val a1 /\ dvdtBH2 o' = Val (Scalar 0) /\ dvdtBH1 o' = Val (Scalar 0).
Proof.
  destruct (update_acceleration_returns (U := unit_G) ex_world_single ex_single)
    as [w' Hw'].
  - apply ex_single_well_formed.
  - cbn. lra.
  - cbn. lra.
  - apply known_uniform.
  - cbn. intros H. lra.
  - destruct (single_black_hole_forces (U := unit_G) ex_world_single w' ex_single)
      as (o' & xs & x1 & a1 & Ho' & _ & _ & _ & _ & _ & _ & Hdm & H2 & H1 & _).
    + reflexivity.
    + cbn. lra.
    + reflexivity.
    + exact Hw'.
    + exists w', o', a1. repeat split; try assumption. now apply H1.
Defined.

(** A binary of masses 1000 and 1 with [a_i = 1] on a circular orbit. *)
Lemma particles_in_binary_frame_witness :
  exists l σ' o x1 x2,
    particles_in_binary (U := unit_G) (fun _ => Done 1) 1000 1 1 0 true (-1) (-1)
      (mk_store ∅ ∅) = Done (l, σ') /\
    objects σ' !! l = Some o /\
    arrays σ' !! xBH1 o = Some (V3 x1) /\ arrays σ' !! xBH2 o = Some (V3 x2) /\
    vadd (vscale 1000 x1) (vscale 1 x2) = vzero.
Proof.
  destruct (particles_in_binary_frame (U := unit_G) (fun _ => Done 1)
              1000 1 1 0 true (-1) (-1) (mk_store ∅ ∅))
    as (l & σ' & o & x1 & v1 & x2 & v2 & E & Ho & _ & Hx1 & _ & Hx2 & _ & _ & _ & Hcm & _).
  - lra.
  - lra.
  - lra.
  - intros _ _. now exists 1.
  - exists l, σ', o, x1, x2. repeat split; try assumption. now apply Hcm.
Defined.

(** A run of one step returns on the example. *)
Lemma ex_run :
  exists w',
    run_simulation (U := unit_G) None 1 1 "PEFRL" 1 None (-1) 100
      (ex_world true "empty_shell") = Ok tt w'.
Proof.
  assert (Zceil (1 / 1) = 1%Z) as Hc.
  { apply Zceil_unique. simpl. lra. }
  enough (wp (run_simulation (U := unit_G) None 1 1 "PEFRL" 1 None (-1) 100)
            (ex_world true "empty_shell") (fun _ _ => True) (fun _ _ => False)) as H.
  { apply wp_returns in H as ([] & w' & E). now exists w'. }
  unfold run_simulation.
  wp_fwd. wp_fwd. wp_fwd. eapply wp_lift_ok; [apply py_div_ok; lra|].
  cbv zeta. rewrite Hc.
  change (1 <? 0)%Z with false. change (1 =? 0)%Z with false. cbv iota.
  repeat wp_fwd.
  change (N_DM (ex_particles true) <? 0)%Z with false. cbv iota.
  repeat wp_fwd.
  unfold for_range. change (Z.to_nat 1) with 1%nat. cbn [for_loop].
  repeat wp_fwd.
  change (0 `mod` 1 =? 0)%Z with true. cbv iota.
  change (0 `div` 1)%Z with 0%Z.
  unfold record_state. repeat wp_fwd.
  eapply wp_lift_ok; [reflexivity|].
  wp_fwd. eapply wp_read_vec_ok; [reflexivity|].
  wp_fwd. eapply wp_read_vec_ok; [reflexivity|].
  wp_fwd. eapply wp_read_vec_ok; [reflexivity|].
  wp_fwd. eapply wp_read_vec_ok; [reflexivity|].
  wp_fwd.
  destruct (Rlt_dec (-1) 0) as [_|]; [|lra].
  wp_fwd.
  match goal with
  | |- wp (full_step 1 "PEFRL" None) ?w0 _ _ =>
      assert (steppable (ex_particles true) w0) as Hs;
      [| assert (logged (ex_particles true) (Val 0%Z)
                   (record (self w0)) (finished (self w0)) w0) as Hl ]
  end.
  { split; [exists (ex_particles true); split; [ex_wf | reflexivity]|].
    split; [cbn; lra|]. split; [cbn; lra|].
    split; [apply known_uniform | intros _; apply known_empty_shell]. }
  { split; [exists (ex_particles true); split; reflexivity | auto]. }
  destruct (full_step_runs (U := unit_G) (ex_particles true) (ex_distinct true)
              1 "PEFRL" None (or_intror eq_refl) _ Hs) as ([] & w2 & E2 & _).
  pose proof (logged_step (ex_particles true) _ _ _
                (full_step 1 "PEFRL" None)
                (fun J J1 J2 J3 => kept_full_step (U := unit_G) J J1 J2 J3 1 "PEFRL" None) _ Hl)
    as Hl2.
  unfold wp in Hl2. rewrite E2 in Hl2. destruct Hl2 as (_ & Hcs & _).
  clear Hs Hl.
  unfold wp at 1. rewrite E2.
  wp_fwd. wp_fwd. rewrite Hcs. repeat wp_fwd. exact I.
Qed.

(** A run of one step of the example: the first row of the record is the
    initial state. *)
Lemma run_simulation_completes_witness :
  exists w' rec,
    run_simulation (U := unit_G) None 1 1 "PEFRL" 1 None (-1) 100
      (ex_world true "empty_shell") = Ok tt w' /\
    current_step (self w') = Val 1%Z /\ finished (self w') = Val true /\
    record (self w') = Val rec /\ xBH2_list rec !! 0%nat = Some (1, 0, 0).
Proof.
  destruct ex_run as [w' E].
  destruct (run_simulation_completes (U := unit_G) (ex_world true "empty_shell") w'
              (ex_particles true) 1 1 "PEFRL" 1 None (-1) 100 eq_refl E)
    as (_ & _ & _ & Hc & Hf & rec & Hr & _ & Hrow).
  assert (Zceil (1 / 1) = 1%Z) as Hz by (apply Zceil_unique; simpl; lra).
  rewrite Hz in Hc, Hrow.
  destruct (Hrow ltac:(lia)) as (x1 & v1 & x2 & v2 & _ & _ & Hx2 & _ & _ & _ & _ & _ & Hr2 & _).
  exists w', rec. repeat split; try assumption.
  cbn in Hx2. injection Hx2 as <-. exact Hr2.
Defined.

(** A kick of the example before any force evaluation. *)
Lemma vstep_composes_witness :
  vstep 1 [] (ex_world true "empty_shell") =
  Raise TypeError (ex_world true "empty_shell").
Proof.
  destruct (vstep_composes (ex_world true "empty_shell") (ex_particles true)
              (mk_phase (0, 0, 0) (0, 0, 0) (1, 0, 0) (0, 1, 0) [(2, 0, 0)] [(0, 0, 0)])
              1 2) as (H & _).
  - reflexivity.
  - apply ex_distinct.
  - reflexivity.
  - apply H; reflexivity.
Defined.

(** A run of one step with [eta = 1] on a single black hole with one
    tracer. *)
Lemma run_simulation_adaptive_needs_secondary_witness :
  exists w',
    run_simulation (U := unit_G) None 1 1 "PEFRL" 1 None 1 100 ex_world_single =
    Raise TypeError w'.
Proof.
  assert (Zceil (1 / 1) = 1%Z) as Hz by (apply Zceil_unique; simpl; lra).
  destruct (run_simulation_adaptive_needs_secondary (U := unit_G) ex_world_single
              ex_single 1 1 "PEFRL" 1 None 1 100) as (w' & E & _).
  - apply ex_single_well_formed.
  - cbn. lra.
  - reflexivity.
  - cbn. lia.
  - apply known_uniform.
  - lra.
  - rewrite Hz. lia.
  - lia.
  - lra.
  - now exists w'.
Defined.

(** A step "PEFRL" of the two black holes, every force evaluation of
    which is regular, keeps their angular momentum. *)
Lemma angular_momentum_conserved_witness :
  exists w' o',
    full_step_with (update_acceleration_regular (U := unit_G)) 1 "PEFRL" None
      ex_world_pair = Ok tt w' /\
    full_step (U := unit_G) 1 "PEFRL" None ex_world_pair = Ok tt w' /\
    angular_momentum o' w' = Some (0, 0, 1).
Proof.
  destruct (ex_pair_full_step 1 "PEFRL" ex_world_pair (or_intror eq_refl)
              ex_pair_steppable ex_pair_orbiting) as (w' & Eg & E & _).
  assert (0 < M_2 ex_pair) as HM by (cbn; lra).
  destruct (angular_momentum_conserved (U := unit_G) ex_world_pair w'
              ex_pair (0, 0, 1) (FullStep 1 "PEFRL" None)
              ex_pair_well_formed ex_pair_distinct
              eq_refl HM eq_refl ex_pair_angular_momentum eq_refl Eg)
    as (_ & o' & _ & _ & _ & HL).
  exists w', o'. split; [exact Eg|]. split; [exact E | exact HL].
Defined.

Lemma ex_shifted_well_formed : well_formed ex_world_shifted (ex_particles true).
Proof. ex_wf. Qed.

(** The example and the displaced example get the same accelerations. *)
Lemma forces_translation_invariant_witness :
  exists wa' wb' oa' ob',
    update_acceleration (U := unit_G) (ex_world true "empty_shell") = Ok tt wa' /\
    update_acceleration (U := unit_G) ex_world_shifted = Ok tt wb' /\
    holds oa' wa' /\ holds ob' wb' /\
    (dvdtBH1 ob', dvdtBH2 ob', dvdtDM ob') = (dvdtBH1 oa', dvdtBH2 oa', dvdtDM oa').
Proof.
  destruct (update_acceleration_returns (U := unit_G)
              (ex_world true "empty_shell") (ex_particles true))
    as [wa' Ea];
    [apply ex_well_formed | cbn; lra | cbn; lra | apply known_uniform
    | intros _; apply known_empty_shell |].
  destruct (update_acceleration_returns (U := unit_G) ex_world_shifted (ex_particles true))
    as [wb' Eb];
    [apply ex_shifted_well_formed | cbn; lra | cbn; lra | apply known_uniform
    | intros _; apply known_empty_shell |].
  assert (0 < M_2 (ex_particles true)) as HM by (cbn; lra).
  destruct (forces_translation_invariant (U := unit_G)
              (ex_world true "empty_shell") ex_world_shifted wa' wb'
              (ex_particles true) (ex_particles true) (1, 1, 1)
              [0.001] [(2, 0, 0)] (0, 0, 0) (1, 0, 0)
              eq_refl eq_refl eq_refl eq_refl HM eq_refl eq_refl eq_refl
              eq_refl eq_refl eq_refl eq_refl eq_refl eq_refl eq_refl eq_refl Ea Eb)
    as (oa' & ob' & Ha & Hb & Heq).
  now exists wa', wb', oa', ob'.
Defined.
